(** * VMX domain module: a shallow embedding of [src/domain/vmx-domain.ts]

    The TypeScript [number] type is IEEE-754 binary64; it is embedded as
    Rocq's primitive [float], whose operations are the same binary64
    operations (round to nearest, ties to even).  Exceptions thrown by the
    source are values of an error monad. *)

From Stdlib Require Import Bool List ZArith Lia String Floats Reals Lra.
Import ListNotations.

Set Warnings "-inexact-float".

(* ================================================================= *)
(** ** JavaScript numbers                                             *)
(* ================================================================= *)

Module Js.

(** [Number.isFinite(n)] for a value that is a number. *)
Definition isFinite (n : float) : bool := PrimFloat.is_finite n.

(** [Math.max(a, b)]: NaN if either is NaN; [+0] is larger than [-0]. *)
Definition Math_max (a b : float) : float :=
  if is_nan a || is_nan b then nan
  else if (a <? b)%float then b
  else if (b <? a)%float then a
  else if get_sign a then b else a.

(** [Math.min(a, b)]: NaN if either is NaN; [-0] is smaller than [+0]. *)
Definition Math_min (a b : float) : float :=
  if is_nan a || is_nan b then nan
  else if (a <? b)%float then a
  else if (b <? a)%float then b
  else if get_sign a then a else b.

(** A value read from a place that may hold [undefined] (or anything that
    is not a number), used where the source applies arithmetic or
    [Number.isFinite] to it: both treat such a value like NaN. *)
Definition toNumber (v : option float) : float :=
  match v with Some x => x | None => nan end.

(** [a ?? b] *)
Definition nullish {A : Type} (a : option A) (b : A) : A :=
  match a with Some x => x | None => b end.

(** The number of a non-negative integer such as [Array.length]. *)
Definition ofNat (n : nat) : float := PrimFloat.of_uint63 (Uint63.of_Z (Z.of_nat n)).

End Js.

(** A JavaScript [Map] (and a plain object used as a record of keys): an
    insertion-ordered association list in which [set] on a present key
    replaces the value in place. *)
Module JsMap.
Section WithKey.
Context {K V : Type} (eqb : K -> K -> bool).

Definition t := list (K * V).

Definition empty : t := [].

Fixpoint set (k : K) (v : V) (m : t) : t :=
  match m with
  | [] => [(k, v)]
  | (k', v') :: m' => if eqb k' k then (k', v) :: m' else (k', v') :: set k v m'
  end.

Fixpoint get (k : K) (m : t) : option V :=
  match m with
  | [] => None
  | (k', v') :: m' => if eqb k' k then Some v' else get k m'
  end.

Definition keys (m : t) : list K := map fst m.
End WithKey.
End JsMap.

(** Thrown [Error]s. *)
Inductive result (E A : Type) : Type :=
| Ok (a : A)
| Throw (e : E).
Arguments Ok {E A} a.
Arguments Throw {E A} e.

Definition bind {E A B : Type} (r : result E A) (k : A -> result E B) : result E B :=
  match r with
  | Ok a => k a
  | Throw e => Throw e
  end.

Notation "x <- r ;; k" := (bind r (fun x => k))
  (at level 61, r at next level, right associativity).

(** [xs.map(f)] where [f] may throw: elements are visited left to right and
    the first exception aborts the whole map. *)
Fixpoint mapM {E A B : Type} (f : A -> result E B) (xs : list A) : result E (list B) :=
  match xs with
  | [] => Ok []
  | x :: xs' => y <- f x ;; ys <- mapM f xs' ;; Ok (y :: ys)
  end.

(* ================================================================= *)
(** ** Data model                                                     *)
(* ================================================================= *)

Inductive VmxCategoryId :=
| FACILITATING
| SUBSTRUCTURE
| SUPERSTRUCTURE
| INTERNAL_FINISHES
| FF_E
| SERVICES
| EXTERNAL_WORKS.

Inductive HeatBand := LOW | MEDIUM | HIGH.

(** [RangeStatus = "OK" | "LOW" | "HIGH"] *)
Inductive RangeStatus := Range_OK | Range_LOW | Range_HIGH.

Definition VmxCategoryId_eqb (a b : VmxCategoryId) : bool :=
  match a, b with
  | FACILITATING, FACILITATING
  | SUBSTRUCTURE, SUBSTRUCTURE
  | SUPERSTRUCTURE, SUPERSTRUCTURE
  | INTERNAL_FINISHES, INTERNAL_FINISHES
  | FF_E, FF_E
  | SERVICES, SERVICES
  | EXTERNAL_WORKS, EXTERNAL_WORKS => true
  | _, _ => false
  end.

Definition HeatBand_eqb (a b : HeatBand) : bool :=
  match a, b with
  | LOW, LOW | MEDIUM, MEDIUM | HIGH, HIGH => true
  | _, _ => false
  end.

Definition RangeStatus_eqb (a b : RangeStatus) : bool :=
  match a, b with
  | Range_OK, Range_OK | Range_LOW, Range_LOW | Range_HIGH, Range_HIGH => true
  | _, _ => false
  end.

Record CategoryDef := {
  id : VmxCategoryId;
  label : string;
  sortOrder : Z
}.

Definition VMX_CATEGORIES : list CategoryDef := [
  {| id := FACILITATING; label := "Site Prep & Infrastructure"; sortOrder := 1 |};
  {| id := SUBSTRUCTURE; label := "Substructure"; sortOrder := 2 |};
  {| id := SUPERSTRUCTURE; label := "Shell"; sortOrder := 3 |};
  {| id := INTERNAL_FINISHES; label := "Interiors"; sortOrder := 4 |};
  {| id := FF_E; label := "Equipment & Furnishings"; sortOrder := 5 |};
  {| id := SERVICES; label := "Services (MEP)"; sortOrder := 6 |};
  {| id := EXTERNAL_WORKS; label := "Exterior Improvements"; sortOrder := 7 |}
].

Record BenchmarkBand := {
  band_categoryId : VmxCategoryId;
  band_band : HeatBand;
  psqft : float
}.

(** The value found in a [categoryId] field of stored data when it is truthy:
    one of the seven ids, or some other value (a string that names no
    category). *)
Inductive CategoryKey :=
| Known (c : VmxCategoryId)
| Foreign (s : string).

Definition CategoryKey_eqb (a b : CategoryKey) : bool :=
  match a, b with
  | Known x, Known y => VmxCategoryId_eqb x y
  | Foreign s, Foreign t => String.eqb s t
  | _, _ => false
  end.

Record TargetRange := {
  categoryId : CategoryKey;
  minPct : float;
  maxPct : float
}.

(** An entry of [benchmark.targetRanges] as it may arrive from storage:
    [stored_categoryId = None] is a falsy (absent, null, empty) id, and a
    percentage that is [None] is absent or not a number. *)
Record StoredTargetRange := {
  stored_categoryId : option CategoryKey;
  stored_minPct : option float;
  stored_maxPct : option float
}.

(** [targetRanges = None] is a value that is not an array (absent included);
    an entry [None] is a falsy entry (null, undefined). *)
Record BenchmarkSet := {
  benchmark_id : string;
  name : string;
  currency : string;
  bands : list BenchmarkBand;
  targetRanges : option (list (option StoredTargetRange))
}.

Record ScenarioSelection := {
  sel_categoryId : VmxCategoryId;
  sel_band : HeatBand;
  overridePsqft : option float
}.

Record CategoryResult := {
  res_categoryId : VmxCategoryId;
  res_label : string;
  res_band : HeatBand;
  psqftUsed : float;
  cost : float;
  pctOfTotal : float;
  targetMinPct : float;
  targetMaxPct : float;
  rangeStatus : RangeStatus;
  isOutOfRange : bool
}.

Record ScenarioResult := {
  areaSqft : float;
  res_currency : string;
  totalCost : float;
  totalPsqft : float;
  categories : list CategoryResult
}.

Inductive Error :=
| InvalidArea                                   (* "areaSqft must be a positive number" *)
| MissingSelection (c : VmxCategoryId)          (* "Missing selection for category " + id *)
| MissingBand (c : VmxCategoryId) (b : HeatBand)(* "Missing benchmark band for " + id + ":" + band *)
| NonPositiveTotal.                             (* "Total cost computed as non-positive" *)

Record TargetRangeDerivationOptions := {
  relativeTolerance : option float;
  minHalfWidthAbs : option float;
  maxHalfWidthAbs : option float
}.

(* ================================================================= *)
(** ** Operations                                                     *)
(* ================================================================= *)

Definition clamp (n min max : float) : float :=
  if negb (Js.isFinite n) then min
  else Js.Math_min max (Js.Math_max min n).

Definition safePct (n : float) : float := clamp n 0 1.

Definition ensureMinMax (minPct maxPct : float) : float * float :=
  let mn := safePct minPct in
  let mx := safePct maxPct in
  if (mx <? mn)%float then (mn, mn) else (mn, mx).

Definition classifyRange (pct minPct maxPct : float) : RangeStatus :=
  if (pct <? minPct)%float then Range_LOW
  else if (maxPct <? pct)%float then Range_HIGH
  else Range_OK.

Definition findBand (benchmark : BenchmarkSet) (c : VmxCategoryId) (b : HeatBand)
  : option BenchmarkBand :=
  find (fun x => VmxCategoryId_eqb (band_categoryId x) c && HeatBand_eqb (band_band x) b)
       (bands benchmark).

Definition requireBand (benchmark : BenchmarkSet) (c : VmxCategoryId) (b : HeatBand)
  : result Error BenchmarkBand :=
  match findBand benchmark c b with
  | Some found => Ok found
  | None => Throw (MissingBand c b)
  end.

(** [x && Number.isFinite(x.psqft) ? Math.max(0, x.psqft) : null] *)
Definition usablePsqft (x : option BenchmarkBand) : option float :=
  match x with
  | Some b => if Js.isFinite (psqft b) then Some (Js.Math_max 0 (psqft b)) else None
  | None => None
  end.

Definition getMediumPsqftOrFallback (benchmark : BenchmarkSet) (c : VmxCategoryId) : float :=
  match usablePsqft (findBand benchmark c MEDIUM) with
  | Some v => v
  | None =>
      let lowV := usablePsqft (findBand benchmark c LOW) in
      let highV := usablePsqft (findBand benchmark c HIGH) in
      match lowV, highV with
      | Some l, Some h => ((l + h) / 2)%float
      | Some l, None => l
      | None, Some h => h
      | None, None => 0%float
      end
  end.

(** [Record<VmxCategoryId, number>] *)
Definition ShareRecord := @JsMap.t VmxCategoryId float.

Definition rec_set := @JsMap.set VmxCategoryId float VmxCategoryId_eqb.
Definition rec_get := @JsMap.get VmxCategoryId float VmxCategoryId_eqb.

(** The first loop of [computeImpliedMediumAllocationShares]: the state is
    [(psqftByCat, sum)]. *)
Definition collectMedium (benchmark : BenchmarkSet) : ShareRecord * float :=
  fold_left
    (fun (st : ShareRecord * float) cat =>
       let v := getMediumPsqftOrFallback benchmark (id cat) in
       (rec_set (id cat) v (fst st), (snd st + v)%float))
    VMX_CATEGORIES (JsMap.empty, 0%float).

Definition computeImpliedMediumAllocationShares (benchmark : BenchmarkSet) : ShareRecord :=
  let '(psqftByCat, sum) := collectMedium benchmark in
  if negb (Js.isFinite sum) || (sum <=? 0)%float then
    let eq := (1 / Js.ofNat (List.length VMX_CATEGORIES))%float in
    fold_left (fun out cat => rec_set (id cat) eq out) VMX_CATEGORIES JsMap.empty
  else
    fold_left
      (fun out cat => rec_set (id cat) (Js.toNumber (rec_get (id cat) psqftByCat) / sum)%float out)
      VMX_CATEGORIES JsMap.empty.

Definition optField {A : Type} (opts : option TargetRangeDerivationOptions)
  (f : TargetRangeDerivationOptions -> option A) : option A :=
  match opts with Some o => f o | None => None end.

Definition deriveTargetRangesFromMedium (benchmark : BenchmarkSet)
  (opts : option TargetRangeDerivationOptions) : list TargetRange :=
  let relativeTolerance := clamp (Js.nullish (optField opts relativeTolerance) 0.2%float) 0 2 in
  let minHalfWidthAbs := clamp (Js.nullish (optField opts minHalfWidthAbs) 0.01%float) 0 0.5 in
  let maxHalfWidthAbs := clamp (Js.nullish (optField opts maxHalfWidthAbs) 0.06%float) 0 0.5 in
  let shares := computeImpliedMediumAllocationShares benchmark in
  map (fun cat =>
         let center := safePct (Js.toNumber (rec_get (id cat) shares)) in
         let halfRel := (center * relativeTolerance)%float in
         let half := clamp (Js.Math_max minHalfWidthAbs halfRel) 0 maxHalfWidthAbs in
         let minPct := (center - half)%float in
         let maxPct := (center + half)%float in
         let fixed := ensureMinMax minPct maxPct in
         {| categoryId := Known (id cat); minPct := fst fixed; maxPct := snd fixed |})
      VMX_CATEGORIES.

Definition range_set := @JsMap.set CategoryKey TargetRange CategoryKey_eqb.
Definition range_get := @JsMap.get CategoryKey TargetRange CategoryKey_eqb.

(** The loop of [ensureCompleteTargetRanges] that fills [byCat]. *)
Definition collectExisting (existing : list (option StoredTargetRange))
  : @JsMap.t CategoryKey TargetRange :=
  fold_left
    (fun byCat r =>
       match r with
       | None => byCat
       | Some r =>
           match stored_categoryId r with
           | None => byCat
           | Some k =>
               let fixed := ensureMinMax (Js.toNumber (stored_minPct r))
                                         (Js.toNumber (stored_maxPct r)) in
               range_set k {| categoryId := k; minPct := fst fixed; maxPct := snd fixed |} byCat
           end
       end)
    existing JsMap.empty.

Definition findRange (rs : list TargetRange) (c : VmxCategoryId) : option TargetRange :=
  find (fun x => CategoryKey_eqb (categoryId x) (Known c)) rs.

Definition ensureCompleteTargetRanges (benchmark : BenchmarkSet) : list TargetRange :=
  let existing := match targetRanges benchmark with Some l => l | None => [] end in
  let byCat := collectExisting existing in
  let derived := deriveTargetRangesFromMedium benchmark None in
  map (fun cat =>
         match range_get (Known (id cat)) byCat with
         | Some existingRange => existingRange
         | None =>
             match findRange derived (id cat) with
             | Some d => d
             | None => {| categoryId := Known (id cat); minPct := 0; maxPct := 1 |}
             end
         end)
      VMX_CATEGORIES.

Definition getTargetRangeForCategory (benchmark : BenchmarkSet) (c : VmxCategoryId)
  : TargetRange :=
  let complete := ensureCompleteTargetRanges benchmark in
  match findRange complete c with
  | Some found => found
  | None => {| categoryId := Known c; minPct := 0; maxPct := 1 |}
  end.

Definition sel_set := @JsMap.set VmxCategoryId ScenarioSelection VmxCategoryId_eqb.
Definition sel_get := @JsMap.get VmxCategoryId ScenarioSelection VmxCategoryId_eqb.

Definition selectionMap (selections : list ScenarioSelection)
  : @JsMap.t VmxCategoryId ScenarioSelection :=
  fold_left (fun m sel => sel_set (sel_categoryId sel) sel m) selections JsMap.empty.

(** The objects of the [interim] array. *)
Record Interim := {
  int_categoryId : VmxCategoryId;
  int_label : string;
  int_band : HeatBand;
  int_psqftUsed : float;
  int_cost : float;
  int_range : TargetRange
}.

Definition interimFor (areaSqft : float) (benchmark : BenchmarkSet)
  (selectionByCat : @JsMap.t VmxCategoryId ScenarioSelection)
  (safeTargetRanges : list TargetRange) (cat : CategoryDef) : result Error Interim :=
  match sel_get (id cat) selectionByCat with
  | None => Throw (MissingSelection (id cat))
  | Some sel =>
      base <- requireBand benchmark (id cat) (sel_band sel) ;;
      let psqftUsed := Js.nullish (overridePsqft sel) (psqft base) in
      let cost := (areaSqft * psqftUsed)%float in
      let range :=
        match findRange safeTargetRanges (id cat) with
        | Some r => r
        | None => getTargetRangeForCategory benchmark (id cat)
        end in
      Ok {| int_categoryId := id cat; int_label := label cat; int_band := sel_band sel;
            int_psqftUsed := psqftUsed; int_cost := cost; int_range := range |}
  end.

Definition categoryResult (totalCost : float) (r : Interim) : CategoryResult :=
  let pct := (int_cost r / totalCost)%float in
  let fixed := ensureMinMax (minPct (int_range r)) (maxPct (int_range r)) in
  let rangeStatus := classifyRange pct (fst fixed) (snd fixed) in
  let isOutOfRange := negb (RangeStatus_eqb rangeStatus Range_OK) in
  {| res_categoryId := int_categoryId r;
     res_label := int_label r;
     res_band := int_band r;
     psqftUsed := int_psqftUsed r;
     cost := int_cost r;
     pctOfTotal := pct;
     targetMinPct := fst fixed;
     targetMaxPct := snd fixed;
     rangeStatus := rangeStatus;
     isOutOfRange := isOutOfRange |}.

Definition computeScenarioResult (areaSqft : float) (benchmark : BenchmarkSet)
  (selections : list ScenarioSelection) : result Error ScenarioResult :=
  if negb (Js.isFinite areaSqft) || (areaSqft <=? 0)%float then Throw InvalidArea
  else
    let selectionByCat := selectionMap selections in
    let safeTargetRanges := ensureCompleteTargetRanges benchmark in
    interim <- mapM (interimFor areaSqft benchmark selectionByCat safeTargetRanges)
                    VMX_CATEGORIES ;;
    let totalCost := fold_left (fun sum r => (sum + int_cost r)%float) interim 0%float in
    if (totalCost <=? 0)%float then Throw NonPositiveTotal
    else
      let categories := map (categoryResult totalCost) interim in
      let totalPsqft := (totalCost / areaSqft)%float in
      Ok {| areaSqft := areaSqft; res_currency := currency benchmark;
            totalCost := totalCost; totalPsqft := totalPsqft; categories := categories |}.

(* ================================================================= *)
(** ** Specification vocabulary                                      *)
(* ================================================================= *)

(** Left-to-right floating-point sum from 0, as [reduce((s, v) => s + v, 0)]
    and the [sum += v] loops compute it. *)
Definition fsum (vs : list float) : float := fold_left PrimFloat.add vs 0%float.

(** The demo benchmark of [src/data/demo-benchmark.ts] (the dashes of its
    name in ASCII). *)
Definition demoBenchmark : BenchmarkSet :=
  let band c b p := {| band_categoryId := c; band_band := b; psqft := p |} in
  let range c lo hi :=
    Some {| stored_categoryId := Some (Known c);
            stored_minPct := Some lo; stored_maxPct := Some hi |} in
  {| benchmark_id := "demo-us-reserve";
     name := "US - Demo - Reserve";
     currency := "USD";
     bands := [
       band FACILITATING LOW 3; band FACILITATING MEDIUM 51; band FACILITATING HIGH 106;
       band SUBSTRUCTURE LOW 63; band SUBSTRUCTURE MEDIUM 256; band SUBSTRUCTURE HIGH 390;
       band SUPERSTRUCTURE LOW 280; band SUPERSTRUCTURE MEDIUM 520;
       band SUPERSTRUCTURE HIGH 780;
       band INTERNAL_FINISHES LOW 220; band INTERNAL_FINISHES MEDIUM 460;
       band INTERNAL_FINISHES HIGH 720;
       band FF_E LOW 120; band FF_E MEDIUM 260; band FF_E HIGH 420;
       band SERVICES LOW 140; band SERVICES MEDIUM 280; band SERVICES HIGH 440;
       band EXTERNAL_WORKS LOW 90; band EXTERNAL_WORKS MEDIUM 180;
       band EXTERNAL_WORKS HIGH 300 ]%float;
     targetRanges := Some [
       range FACILITATING 0.05 0.10; range SUBSTRUCTURE 0.15 0.20;
       range SUPERSTRUCTURE 0.25 0.30; range INTERNAL_FINISHES 0.20 0.25;
       range FF_E 0.10 0.15; range SERVICES 0.10 0.15;
       range EXTERNAL_WORKS 0.05 0.10 ]%float |}.

(** A benchmark with all 21 bands at one unit cost and no target ranges. *)
Definition flatBenchmark (p : float) : BenchmarkSet :=
  {| benchmark_id := "flat"; name := "flat"; currency := "USD";
     bands := flat_map (fun cat =>
                map (fun b => {| band_categoryId := id cat; band_band := b; psqft := p |})
                    [LOW; MEDIUM; HIGH]) VMX_CATEGORIES;
     targetRanges := None |}.

(** One selection per category, all of one band. *)
Definition selectAll (band : HeatBand) (override : VmxCategoryId -> option float)
  : list ScenarioSelection :=
  map (fun cat => {| sel_categoryId := id cat; sel_band := band;
                     overridePsqft := override (id cat) |})
      VMX_CATEGORIES.

(** The values of a share record, in insertion order. *)
Definition shareValues (shares : ShareRecord) : list float := map snd shares.

(** The benchmark of the specification's worked scenario: Medium unit costs
    50, 250, 500, 450, 250, 270, 180. *)
Definition scenarioBenchmark : BenchmarkSet :=
  let medium c p := {| band_categoryId := c; band_band := MEDIUM; psqft := p |} in
  {| benchmark_id := "scenario"; name := "worked scenario"; currency := "USD";
     bands := [ medium FACILITATING 50; medium SUBSTRUCTURE 250; medium SUPERSTRUCTURE 500;
                medium INTERNAL_FINISHES 450; medium FF_E 250; medium SERVICES 270;
                medium EXTERNAL_WORKS 180 ]%float;
     targetRanges := None |}.

(** The IEEE comparison of two numbers, through the specification of
    binary64: [None] when either is NaN. *)
Definition cmp (x y : float) : option comparison := SFcompare (Prim2SF x) (Prim2SF y).

(** The specification-level value is NaN. *)
Definition is_nanb (s : spec_float) : bool := match s with S754_nan => true | _ => false end.

(** A range inside the unit interval: [0 <= mn <= mx <= 1]. *)
Definition validRange (mn mx : float) : Prop :=
  (0 <=? mn)%float = true /\ (mn <=? mx)%float = true /\ (mx <=? 1)%float = true.

(** The area passes the first check: it is finite and positive. *)
Definition validArea (a : float) : bool := Js.isFinite a && (0 <? a)%float.

(** The invariant of [byCat]: an entry is stored under its own category id
    and holds a valid range. *)
Definition wellFormed (r : TargetRange) : Prop := validRange (minPct r) (maxPct r).

Definition entry_ok (kv : CategoryKey * TargetRange) : Prop :=
  categoryId (snd kv) = fst kv /\ wellFormed (snd kv).

(** The resolution of the representative unit cost as the specification words it:
    the band's own unit cost, when an entry is present with a finite value. *)
Definition finiteUnitCost (x : option BenchmarkBand) : option float :=
  match x with
  | Some b => if Js.isFinite (psqft b) then Some (psqft b) else None
  | None => None
  end.

(** Medium if usable, else the Low/High average, else the one present,
    else 0. *)
Definition representativeUnitCost_spec (benchmark : BenchmarkSet) (c : VmxCategoryId) : float :=
  match finiteUnitCost (findBand benchmark c MEDIUM) with
  | Some v => v
  | None =>
      match finiteUnitCost (findBand benchmark c LOW),
            finiteUnitCost (findBand benchmark c HIGH) with
      | Some l, Some h => ((l + h) / 2)%float
      | Some l, None => l
      | None, Some h => h
      | None, None => 0%float
      end
  end.

(** What the source does to a stored unit cost before using it: a finite
    value is floored at zero. *)
Definition flooredPsqft (p : float) : float :=
  if Js.isFinite p then Js.Math_max 0 p else p.

Definition flooredBand (x : BenchmarkBand) : BenchmarkBand :=
  {| band_categoryId := band_categoryId x; band_band := band_band x;
     psqft := flooredPsqft (psqft x) |}.

Definition flooredBenchmark (benchmark : BenchmarkSet) : BenchmarkSet :=
  {| benchmark_id := benchmark_id benchmark; name := name benchmark;
     currency := currency benchmark;
     bands := map flooredBand (bands benchmark);
     targetRanges := targetRanges benchmark |}.

(** A benchmark whose only band is a Medium unit cost of -5. *)
Definition negativeMediumBenchmark : BenchmarkSet :=
  {| benchmark_id := "neg"; name := "negative medium"; currency := "USD";
     bands := [ {| band_categoryId := FACILITATING; band_band := MEDIUM; psqft := (-5)%float |} ];
     targetRanges := None |}.

(** A unit cost that is not negative, the negative zero included. *)
Definition notNegative (p : float) : Prop :=
  (p <? 0)%float = false /\ p <> (-0)%float.

(** A benchmark that prices one category at LOW and HIGH only. *)
Definition lowHighBenchmark : BenchmarkSet :=
  {| benchmark_id := "w"; name := "low and high only"; currency := "USD";
     bands := [ {| band_categoryId := FACILITATING; band_band := LOW; psqft := 40 |};
                {| band_categoryId := FACILITATING; band_band := HIGH; psqft := 70 |};
                {| band_categoryId := SUBSTRUCTURE; band_band := MEDIUM; psqft := 250 |} ];
     targetRanges := None |}.

(** The selection the source finds for a category: [selectionByCat.get(c)]. *)
Definition selectionFor (selections : list ScenarioSelection) (c : VmxCategoryId)
  : option ScenarioSelection :=
  sel_get c (selectionMap selections).

(** The caller's side of the contract: a selection for every category,
    every selected band in the benchmark, and no override. *)
Definition completeSelections (selections : list ScenarioSelection) : Prop :=
  forall c, selectionFor selections c <> None.

Definition bandsPresent (benchmark : BenchmarkSet) (selections : list ScenarioSelection) : Prop :=
  forall c sel, selectionFor selections c = Some sel ->
                findBand benchmark c (sel_band sel) <> None.

Definition noOverride (selections : list ScenarioSelection) : Prop :=
  forall c sel, selectionFor selections c = Some sel -> overridePsqft sel = None.

(** [interim.reduce((sum, r) => sum + r.cost, 0)] *)
Definition sumCosts (interim : list Interim) : float :=
  fold_left (fun sum r => (sum + int_cost r)%float) interim 0%float.

(** The cost of a category, [areaSqft * (overridePsqft ?? base.psqft)], when
    its selection and the selected band are both present. *)
Definition categoryCost (areaSqft : float) (benchmark : BenchmarkSet)
  (selections : list ScenarioSelection) (c : VmxCategoryId) : option float :=
  match selectionFor selections c with
  | None => None
  | Some sel =>
      match findBand benchmark c (sel_band sel) with
      | None => None
      | Some base => Some (areaSqft * Js.nullish (overridePsqft sel) (psqft base))%float
      end
  end.

(** One of the two zeros. *)
Definition isZero (x : float) : Prop := x = 0%float \/ x = (-0)%float.

(** Example inputs: the all-zero benchmark, MEDIUM everywhere without
    overrides, and MEDIUM everywhere with one override of 100. *)
Definition zeroBenchmark : BenchmarkSet := flatBenchmark 0.

Definition plainSelections : list ScenarioSelection :=
  selectAll MEDIUM (fun _ => None).

Definition overriddenSelections : list ScenarioSelection :=
  selectAll MEDIUM (fun c => match c with FF_E => Some 100%float | _ => None end).

(** How the unit cost and the cost of one category result are resolved. *)
Definition resolvedBy (areaSqft : float) (benchmark : BenchmarkSet)
  (selections : list ScenarioSelection) (cat : CategoryDef) (r : CategoryResult) : Prop :=
  exists sel base,
    selectionFor selections (id cat) = Some sel /\
    findBand benchmark (id cat) (sel_band sel) = Some base /\
    res_categoryId r = id cat /\
    res_band r = sel_band sel /\
    psqftUsed r = match overridePsqft sel with
                  | Some v => v
                  | None => psqft base
                  end /\
    cost r = (areaSqft * psqftUsed r)%float /\
    (overridePsqft sel = Some 0%float -> psqftUsed r = 0%float /\ cost r = 0%float).

(** The demo benchmark without its HIGH band for SERVICES. *)
Definition missingBandBenchmark : BenchmarkSet :=
  {| benchmark_id := "gap"; name := "no HIGH band for SERVICES"; currency := "USD";
     bands := filter (fun x => negb (VmxCategoryId_eqb (band_categoryId x) SERVICES
                                     && HeatBand_eqb (band_band x) HIGH))
                     (bands demoBenchmark);
     targetRanges := targetRanges demoBenchmark |}.

Definition zeroOverrideSelections : list ScenarioSelection :=
  selectAll HIGH (fun c => match c with SERVICES => Some 0%float | _ => None end).

(* ================================================================= *)
(** ** Binary64 arithmetic as real numbers                           *)
(* ================================================================= *)

Local Open Scope R_scope.

(** Powers of two as real numbers. *)
Definition bpow (e : Z) : R := powerRZ 2 e.

(** The real number a finite binary64 value denotes; zero for the rest. *)
Definition SF2R (x : spec_float) : R :=
  match x with
  | S754_finite s m e => (if s then - IZR (Zpos m) else IZR (Zpos m)) * bpow e
  | _ => 0
  end.

Definition B2R (x : float) : R := SF2R (Prim2SF x).

(** A real [x] sits where the shift record says: at an integer, strictly
    inside the lower half of a unit interval, at its midpoint, or strictly
    inside the upper half. *)
Definition located (x : R) (mrs : shr_record) : Prop :=
  match shr_r mrs, shr_s mrs with
  | false, false => x = IZR (shr_m mrs)
  | false, true => IZR (shr_m mrs) < x < IZR (shr_m mrs) + / 2
  | true, false => x = IZR (shr_m mrs) + / 2
  | true, true => IZR (shr_m mrs) + / 2 < x < IZR (shr_m mrs) + 1
  end.

(** The exponent binary64 gives a number of magnitude [2^e]. *)
Definition fexp64 (e : Z) : Z := SpecFloat.fexp prec emax e.

(** The last stage of [binary_round_aux]: renormalise the rounded mantissa
    and detect overflow. *)
Definition finish_round (sx : bool) (m : Z) (e : Z) : spec_float :=
  let '(mrs'', e'') := shr_fexp prec emax m e loc_Exact in
  match shr_m mrs'' with
  | Z0 => S754_zero sx
  | Zpos m => if Z.leb e'' (emax - prec) then S754_finite sx m e'' else S754_infinity sx
  | _ => S754_nan
  end.

(** Half the spacing of binary64 numbers next to 1, and half the smallest
    positive binary64 number. *)
Definition u64 : R := / 9007199254740992.
Definition eta64 : R := bpow (-1075).

(** A binary64 value that is a zero or a positive finite number in
    canonical form. *)
Definition nonneg_finite (s : spec_float) : Prop :=
  match s with
  | S754_zero _ => True
  | S754_finite false m e => SpecFloat.bounded prec emax m e = true
  | _ => False
  end.

Definition positive_finite (s : spec_float) : Prop :=
  match s with
  | S754_finite false m e => SpecFloat.bounded prec emax m e = true
  | _ => False
  end.

(** Numbers that are finite and not negative, finite and positive, and the
    positive infinity. *)
Definition nonnegF (x : float) : Prop := nonneg_finite (Prim2SF x).
Definition positiveF (x : float) : Prop := positive_finite (Prim2SF x).
Definition isPosInf (x : float) : Prop := Prim2SF x = S754_infinity false.

(** The exact sum of the values of a list of numbers. *)
Definition rsum (vs : list float) : R := fold_right (fun v acc => B2R v + acc) 0 vs.

(** Each value divided by the floating-point total. *)
Definition quotients (vs : list float) (total : float) : list float :=
  map (fun v => (v / total)%float) vs.

(** The representative unit costs in category order. *)
Definition mediumCosts (benchmark : BenchmarkSet) : list float :=
  map (fun cat => getMediumPsqftOrFallback benchmark (id cat)) VMX_CATEGORIES.

(** What a representative unit cost can be. *)
Definition nonnegOrInf (x : float) : Prop := nonnegF x \/ isPosInf x.

(** Example inputs: unit costs of 1e308 everywhere; overrides that cancel. *)
Definition hugeBenchmark : BenchmarkSet := flatBenchmark 1e308.

Definition cancellingSelections : list ScenarioSelection :=
  selectAll MEDIUM (fun c => match c with
                             | FACILITATING => Some 1e16%float
                             | SUBSTRUCTURE => Some 11%float
                             | SUPERSTRUCTURE => Some (-1e16)%float
                             | _ => Some 0%float
                             end).

Local Close Scope R_scope.

(* ================================================================= *)
(** ** Callers, and further vocabulary                               *)
(* ================================================================= *)

(** A band entry answers a lookup for category [c] and band [h]. *)
Definition bandMatches (c : VmxCategoryId) (h : HeatBand) (x : BenchmarkBand) : Prop :=
  band_categoryId x = c /\ band_band x = h.

(** The array [existing] that [ensureCompleteTargetRanges] reads. *)
Definition existingRanges (benchmark : BenchmarkSet) : list (option StoredTargetRange) :=
  match targetRanges benchmark with Some l => l | None => [] end.

(** A stored entry that the loop of [ensureCompleteTargetRanges] files
    under category [c]: a truthy entry whose id is [c]. *)
Definition storedFor (c : VmxCategoryId) (r : option StoredTargetRange) : bool :=
  match r with
  | Some r =>
      match stored_categoryId r with
      | Some k => CategoryKey_eqb k (Known c)
      | None => false
      end
  | None => false
  end.

(** The last entry of the stored ranges filed under category [c]. *)
Definition lastStored (benchmark : BenchmarkSet) (c : VmxCategoryId)
  : option (option StoredTargetRange) :=
  find (storedFor c) (rev (existingRanges benchmark)).

(** The range [ensureMinMax] makes of a stored entry. *)
Definition normalisedEntry (c : VmxCategoryId) (r : option StoredTargetRange) : TargetRange :=
  let fixed := ensureMinMax (Js.toNumber (match r with Some r => stored_minPct r | None => None end))
                            (Js.toNumber (match r with Some r => stored_maxPct r | None => None end)) in
  {| categoryId := Known c; minPct := fst fixed; maxPct := snd fixed |}.

(** A benchmark whose stored ranges name FF_E twice, SERVICES once with
    its bounds swapped, and a category that does not exist. *)
Definition duplicateRangesBenchmark : BenchmarkSet :=
  let range k lo hi :=
    Some {| stored_categoryId := Some k; stored_minPct := Some lo; stored_maxPct := Some hi |} in
  {| benchmark_id := "dup"; name := "duplicate ranges"; currency := "USD";
     bands := bands demoBenchmark;
     targetRanges := Some [ range (Known FF_E) 0.1%float 0.2%float;
                            range (Foreign "ROOF") 0.3%float 0.4%float;
                            None;
                            range (Known SERVICES) 0.5%float 0.25%float;
                            range (Known FF_E) 0.05%float 0.15%float ] |}.

(** The caller resolved category [c]: it has a selection, and the selected
    band is in the benchmark. *)
Definition resolved (benchmark : BenchmarkSet) (selections : list ScenarioSelection)
  (c : VmxCategoryId) : Prop :=
  exists sel base,
    selectionFor selections c = Some sel /\
    findBand benchmark c (sel_band sel) = Some base.

(** The last selection listed for category [c]. *)
Definition lastSelection (selections : list ScenarioSelection) (c : VmxCategoryId)
  : option ScenarioSelection :=
  find (fun sel => VmxCategoryId_eqb (sel_categoryId sel) c) (rev selections).

(** Example selections: HIGH everywhere; the same in reverse order after a
    LOW selection for the first category that a later one replaces. *)
Definition highSelections : list ScenarioSelection := selectAll HIGH (fun _ => None).

Definition shuffledSelections : list ScenarioSelection :=
  {| sel_categoryId := FACILITATING; sel_band := LOW; overridePsqft := Some 1%float |}
    :: rev highSelections.

(** Overrides of [1e308] and [-1e308] on two categories, 0 on the rest. *)
Definition oppositeSelections : list ScenarioSelection :=
  selectAll MEDIUM (fun c => match c with
                             | FACILITATING => Some 1e308%float
                             | SUBSTRUCTURE => Some (-1e308)%float
                             | _ => Some 0%float
                             end).

Local Open Scope R_scope.

(** Options nobody would pass: a tolerance that is NaN, a negative floor
    and an infinite cap. *)
Definition hostileOptions : TargetRangeDerivationOptions :=
  {| relativeTolerance := Some nan;
     minHalfWidthAbs := Some (-3)%float;
     maxHalfWidthAbs := Some infinity |}.

(** A benchmark with finite unit costs whose LOW/HIGH average overflows. *)
Definition overflowingAverageBenchmark : BenchmarkSet :=
  {| benchmark_id := "big"; name := "large low and high"; currency := "USD";
     bands := [ {| band_categoryId := FACILITATING; band_band := LOW; psqft := 1e308 |};
                {| band_categoryId := FACILITATING; band_band := HIGH; psqft := 1e308 |};
                {| band_categoryId := SUBSTRUCTURE; band_band := MEDIUM; psqft := 250 |} ];
     targetRanges := None |}.

Local Close Scope R_scope.

(** *** The benchmark form *)

(** A [TargetRange] object read back as an entry of [benchmark.targetRanges]:
    its id is falsy only when it is the empty string, and its percentages
    are numbers. *)
Definition storedRange (r : TargetRange) : option StoredTargetRange :=
  Some {| stored_categoryId := match categoryId r with
                               | Foreign EmptyString => None
                               | k => Some k
                               end;
          stored_minPct := Some (minPct r);
          stored_maxPct := Some (maxPct r) |}.

(** [{ ...benchmark, targetRanges: ranges }] *)
Definition withTargetRanges (benchmark : BenchmarkSet) (ranges : list TargetRange)
  : BenchmarkSet :=
  {| benchmark_id := benchmark_id benchmark;
     name := name benchmark;
     currency := currency benchmark;
     bands := bands benchmark;
     targetRanges := Some (map storedRange ranges) |}.

(** The handlers of [src/components/BenchmarkAdmin.tsx] that call the domain
    module, as functions from the benchmark shown (and the calibration
    inputs of the form) to the benchmark handed to [setBenchmark]. *)
Module BenchmarkAdmin.

(** The [clamp] of this file; its text is that of the domain module's. *)
Definition clamp (n min max : float) : float :=
if negb (Js.isFinite n) then min
else Js.Math_min max (Js.Math_max min n).

(** [benchmark.bands.find(...)?.psqft ?? 0] *)
Definition getBandPsqft (benchmark : BenchmarkSet) (categoryId : VmxCategoryId)
(band : HeatBand) : float :=
Js.nullish (option_map psqft (findBand benchmark categoryId band)) 0%float.

Definition normalizeAndFillRanges (benchmark : BenchmarkSet) : BenchmarkSet :=
let filled := ensureCompleteTargetRanges benchmark in
withTargetRanges benchmark filled.

(** The three arguments are the state of the form: a tolerance in percent
  and two half-widths in percentage points. *)
Definition calibrateFromMedium (benchmark : BenchmarkSet)
(relativeTolerancePct minHalfWidthPp maxHalfWidthPp : float) : BenchmarkSet :=
let rel := clamp (relativeTolerancePct / 100) 0 2 in
let minHalf := clamp (minHalfWidthPp / 100) 0 0.5 in
let maxHalf := clamp (maxHalfWidthPp / 100) 0 0.5 in
let nextRanges :=
  deriveTargetRangesFromMedium benchmark
    (Some {| relativeTolerance := Some rel;
             minHalfWidthAbs := Some minHalf;
             maxHalfWidthAbs := Some maxHalf |}) in
withTargetRanges benchmark nextRanges.

End BenchmarkAdmin.

(** The options [calibrateFromMedium] would pass without its own clamping. *)
Definition formOptions (relativeTolerancePct minHalfWidthPp maxHalfWidthPp : float)
  : TargetRangeDerivationOptions :=
  {| relativeTolerance := Some (relativeTolerancePct / 100)%float;
     minHalfWidthAbs := Some (minHalfWidthPp / 100)%float;
     maxHalfWidthAbs := Some (maxHalfWidthPp / 100)%float |}.

(** *** Construction indirects *)

(** The tiers of the benchmark library. *)
Inductive TierId := select | reserve | signature | legacy.

(** The construction indirects, [utils/constructionIndirects.ts]: general
    conditions, liability insurance, contingency and the contractor's fee,
    each a rate applied to a base. *)
Module ConstructionIndirects.

Inductive IndirectFeeBase := cost_of_work | direct_only.

Record ConstructionIndirectsRates := {
generalConditionsRate : float;
glInsuranceRate : float;
contingencyRate : float;
feeRate : float;
feeBase : IndirectFeeBase
}.

Inductive LineId := general_conditions | gl_insurance | contingency | gc_fee.

Record ConstructionIndirectLine := {
line_id : LineId;
line_label : string;
rate : float;
base : float;
amount : float
}.

Record ConstructionIndirectsComputed := {
directHardCost : float;
costOfWorkSubtotal : float;
totalIndirects : float;
contractTotal : float;
contractPsqft : float;
lines : list ConstructionIndirectLine;
ratesUsed : ConstructionIndirectsRates
}.

(** [clampRate(n, fallback)], for the number [v = Number(n)]. *)
Definition clampRate (v : float) (fallback : float) : float :=
if negb (Js.isFinite v) then fallback
else Js.Math_max 0 (Js.Math_min 1 v).

Definition getDefaultConstructionIndirectsRates (tier : TierId) : ConstructionIndirectsRates :=
match tier with
| select =>
    {| generalConditionsRate := 0.06; glInsuranceRate := 0.01; contingencyRate := 0.05;
       feeRate := 0.10; feeBase := cost_of_work |}
| reserve =>
    {| generalConditionsRate := 0.08; glInsuranceRate := 0.01; contingencyRate := 0.05;
       feeRate := 0.12; feeBase := cost_of_work |}
| signature =>
    {| generalConditionsRate := 0.10; glInsuranceRate := 0.0125; contingencyRate := 0.08;
       feeRate := 0.14; feeBase := cost_of_work |}
| legacy =>
    {| generalConditionsRate := 0.13; glInsuranceRate := 0.015; contingencyRate := 0.12;
       feeRate := 0.16; feeBase := cost_of_work |}
end.

(** The rates stored for a tier; a rate that is absent is [None]. *)
Record StoredTierRates := {
stored_generalConditionsRate : option float;
stored_glInsuranceRate : option float;
stored_contingencyRate : option float;
stored_feeRate : option float
}.

(** The configuration; a tier without an entry is [None]. *)
Record ConstructionIndirectsConfigV1 := {
byTier : TierId -> option StoredTierRates;
cfg_feeBase : IndirectFeeBase
}.

(** [t?.field], as the number [clampRate] makes of it. *)
Definition storedRate (t : option StoredTierRates) (field : StoredTierRates -> option float)
: float :=
Js.toNumber (match t with Some t => field t | None => None end).

Definition getRatesForTier (cfg : ConstructionIndirectsConfigV1) (tier : TierId)
: ConstructionIndirectsRates :=
let t := byTier cfg tier in
let def := getDefaultConstructionIndirectsRates tier in
{| generalConditionsRate :=
     clampRate (storedRate t stored_generalConditionsRate) (generalConditionsRate def);
   glInsuranceRate := clampRate (storedRate t stored_glInsuranceRate) (glInsuranceRate def);
   contingencyRate := clampRate (storedRate t stored_contingencyRate) (contingencyRate def);
   feeRate := clampRate (storedRate t stored_feeRate) (feeRate def);
   feeBase := match cfg_feeBase cfg with
              | direct_only => direct_only
              | cost_of_work => cost_of_work
              end |}.

Definition computeConstructionIndirects (directHardCost areaSqft : float)
(rates : ConstructionIndirectsRates) : ConstructionIndirectsComputed :=
let direct := if Js.isFinite directHardCost then Js.Math_max 0 directHardCost else 0%float in
let area := if Js.isFinite areaSqft then Js.Math_max 1 areaSqft else 1%float in
let gc := (direct * clampRate (generalConditionsRate rates) 0)%float in
let gl := (direct * clampRate (glInsuranceRate rates) 0)%float in
let cont := (direct * clampRate (contingencyRate rates) 0)%float in
let costOfWorkSubtotal := (direct + gc + gl + cont)%float in
let feeBase := match feeBase rates with
               | direct_only => direct
               | cost_of_work => costOfWorkSubtotal
               end in
let fee := (feeBase * clampRate (feeRate rates) 0)%float in
let contractTotal := (costOfWorkSubtotal + fee)%float in
let totalIndirects := (gc + gl + cont + fee)%float in
let lines :=
  [ {| line_id := general_conditions; line_label := "General Conditions";
       rate := generalConditionsRate rates; base := direct; amount := gc |};
    {| line_id := gl_insurance; line_label := "GC GL Insurance";
       rate := glInsuranceRate rates; base := direct; amount := gl |};
    {| line_id := contingency; line_label := "Construction Contingency";
       rate := contingencyRate rates; base := direct; amount := cont |};
    {| line_id := gc_fee; line_label := "GC Fee (O&P)";
       rate := feeRate rates; base := feeBase; amount := fee |} ] in
{| directHardCost := direct;
   costOfWorkSubtotal := costOfWorkSubtotal;
   totalIndirects := totalIndirects;
   contractTotal := contractTotal;
   contractPsqft := (contractTotal / area)%float;
   lines := lines;
   ratesUsed := rates |}.

End ConstructionIndirects.

(** *** The application shell *)

(** A [TypeError] of the JavaScript runtime: a property read from [null]
    or [undefined], or a call of something that is not a function. *)
Inductive TypeError := TypeError_thrown.

(** [Array.prototype.sort] with a comparison function.  The sort is stable,
    and for a comparison function that orders the elements consistently
    every stable sort returns the same array: the one insertion sort
    builds.  A comparison result that is NaN counts as 0. *)
Section JsSort.
Context {A : Type} (compareFn : A -> A -> float).

(** [x] is placed before the first element that sorts strictly after it. *)
Fixpoint insertSorted (x : A) (sorted : list A) : list A :=
match sorted with
| [] => [x]
| y :: rest =>
    if (0 <? compareFn y x)%float then x :: y :: rest
    else y :: insertSorted x rest
end.

Definition Array_sort (xs : list A) : list A :=
fold_left (fun sorted x => insertSorted x sorted) xs [].
End JsSort.

(** [xs.slice(0, n)] for an integer [n]; a negative [n] counts from the end. *)
Definition Array_slice0 {A : Type} (n : Z) (xs : list A) : list A :=
  if (n <? 0)%Z then firstn (Z.to_nat (Z.of_nat (List.length xs) + n)) xs
  else firstn (Z.to_nat n) xs.

(** The pure helpers of the application shell, [App.tsx], that prepare the
    benchmark for the calculator and read its result. *)
Module App.

(** [mixBenchmarkSetsByCategory]: the [find] over the override's ranges,
  which reads [x.categoryId] of each entry until one matches. *)
Fixpoint findOverrideRange (c : VmxCategoryId) (xs : list (option StoredTargetRange))
: result TypeError (option StoredTargetRange) :=
match xs with
| [] => Ok None
| None :: _ => Throw TypeError_thrown
| Some x :: rest =>
    match stored_categoryId x with
    | Some (Known c') => if VmxCategoryId_eqb c' c then Ok (Some x)
                         else findOverrideRange c rest
    | _ => findOverrideRange c rest
    end
end.

Definition mixBenchmarkSetsByCategory (base override : BenchmarkSet)
(categories : list VmxCategoryId) (nameSuffix : option string)
: result TypeError BenchmarkSet :=
let catSet_has c := existsb (VmxCategoryId_eqb c) categories in
let nextBands :=
  map (fun b =>
         if negb (catSet_has (band_categoryId b)) then b
         else match findBand override (band_categoryId b) (band_band b) with
              | Some hit => hit
              | None => b
              end)
      (bands base) in
nextRanges <-
  match targetRanges base with
  | None => Throw TypeError_thrown
  | Some ranges =>
      mapM (fun r =>
              match r with
              | None => Throw TypeError_thrown
              | Some r0 =>
                  match stored_categoryId r0 with
                  | Some (Known c) =>
                      if negb (catSet_has c) then Ok (Some r0)
                      else
                        match targetRanges override with
                        | None => Throw TypeError_thrown
                        | Some xs =>
                            hit <- findOverrideRange c xs ;;
                            Ok (match hit with Some x => Some x | None => Some r0 end)
                        end
                  | _ => Ok (Some r0)
                  end
              end)
           ranges
  end ;;
Ok {| benchmark_id := benchmark_id base;
      name := match nameSuffix with
              | Some s => if String.eqb s "" then name base else (name base ++ s)%string
              | None => name base
              end;
      currency := currency base;
      bands := nextBands;
      targetRanges := Some nextRanges |}.

(** [buildDefaultSelections]: a record of one MEDIUM selection per
  category; [Object.values] lists it in insertion order. *)
Definition buildDefaultSelections : @JsMap.t VmxCategoryId ScenarioSelection :=
fold_left
  (fun rec c =>
     sel_set (id c) {| sel_categoryId := id c; sel_band := MEDIUM; overridePsqft := None |} rec)
  VMX_CATEGORIES JsMap.empty.

Definition Object_values {K V : Type} (rec : @JsMap.t K V) : list V := map snd rec.

(** A band object as the transforms below leave it: the band the domain
  module reads, and three further properties that are absent on a plain
  band. *)
Record BandObject := {
band_of : BenchmarkBand;
lowPsf : option float;
mediumPsf : option float;
highPsf : option float
}.

(** A benchmark whose bands may carry these properties. *)
Record BenchmarkObject := {
bo_id : string;
bo_name : string;
bo_currency : string;
bo_bands : list BandObject;
bo_targetRanges : option (list (option StoredTargetRange))
}.

(** A benchmark of the library, whose bands are plain. *)
Definition plain (benchmark : BenchmarkSet) : BenchmarkObject :=
{| bo_id := benchmark_id benchmark;
   bo_name := name benchmark;
   bo_currency := currency benchmark;
   bo_bands := map (fun b => {| band_of := b; lowPsf := None; mediumPsf := None;
                                highPsf := None |})
                   (bands benchmark);
   bo_targetRanges := targetRanges benchmark |}.

(** What the domain module reads of such a benchmark. *)
Definition asBenchmarkSet (o : BenchmarkObject) : BenchmarkSet :=
{| benchmark_id := bo_id o;
   name := bo_name o;
   currency := bo_currency o;
   bands := map band_of (bo_bands o);
   targetRanges := bo_targetRanges o |}.

Definition scaleBenchmarkSetByCategory (benchmark : BenchmarkObject)
(categoryFactors : VmxCategoryId -> option float) (nameSuffix : option string)
: BenchmarkObject :=
let nextBands :=
  map (fun b =>
         let f := Js.nullish (categoryFactors (band_categoryId (band_of b))) 1%float in
         {| band_of := band_of b;
            lowPsf := Some (Js.toNumber (lowPsf b) * f)%float;
            mediumPsf := Some (Js.toNumber (mediumPsf b) * f)%float;
            highPsf := Some (Js.toNumber (highPsf b) * f)%float |})
      (bo_bands benchmark) in
{| bo_id := bo_id benchmark;
   bo_name := match nameSuffix with
              | Some s => if String.eqb s "" then bo_name benchmark
                          else (bo_name benchmark ++ s)%string
              | None => bo_name benchmark
              end;
   bo_currency := bo_currency benchmark;
   bo_bands := nextBands;
   bo_targetRanges := bo_targetRanges benchmark |}.

Inductive TypologyId := suburban | hillside | waterfront | urban | rural | desert.

Definition typologyLabel (t : TypologyId) : string :=
match t with
| suburban => "Suburban (Base)"
| hillside => "Hillside"
| waterfront => "Waterfront"
| urban => "Urban"
| rural => "Rural"
| desert => "Desert"
end.

Definition TYPOLOGY_CATEGORY_FACTORS (t : TypologyId) (c : VmxCategoryId) : option float :=
match t, c with
| hillside, FACILITATING => Some 1.30%float
| hillside, SUBSTRUCTURE => Some 1.75%float
| hillside, SUPERSTRUCTURE => Some 1.15%float
| hillside, EXTERNAL_WORKS => Some 1.50%float
| waterfront, FACILITATING => Some 1.20%float
| waterfront, SUBSTRUCTURE => Some 1.40%float
| waterfront, SUPERSTRUCTURE => Some 1.10%float
| waterfront, EXTERNAL_WORKS => Some 1.25%float
| urban, FACILITATING => Some 1.25%float
| urban, EXTERNAL_WORKS => Some 0.50%float
| rural, FACILITATING => Some 1.75%float
| rural, EXTERNAL_WORKS => Some 1.10%float
| desert, FACILITATING => Some 1.10%float
| desert, SUPERSTRUCTURE => Some 1.10%float
| desert, SERVICES => Some 1.15%float
| desert, EXTERNAL_WORKS => Some 1.20%float
| _, _ => None
end.

Definition applyTypologyCategoryFactors (benchmark : BenchmarkObject) (typology : TypologyId)
: BenchmarkObject :=
match typology with
| suburban => benchmark
| _ =>
    let factors := TYPOLOGY_CATEGORY_FACTORS typology in
    scaleBenchmarkSetByCategory benchmark factors
      (Some (" (Site:" ++ typologyLabel typology ++ ")")%string)
end.

(** The two multipliers a site typology applies to the indirect rates. *)
Record IndirectFactors := {
generalConditions : float;
glInsurance : float
}.

Definition TYPOLOGY_INDIRECT_FACTORS (t : TypologyId) : IndirectFactors :=
match t with
| suburban => {| generalConditions := 1.0; glInsurance := 1.0 |}
| hillside => {| generalConditions := 1.20; glInsurance := 1.0 |}
| waterfront => {| generalConditions := 1.10; glInsurance := 2.0 |}
| urban => {| generalConditions := 1.40; glInsurance := 1.0 |}
| rural => {| generalConditions := 1.15; glInsurance := 1.0 |}
| desert => {| generalConditions := 1.05; glInsurance := 1.0 |}
end.

Definition applyTypologyToIndirectRates
(rates : ConstructionIndirects.ConstructionIndirectsRates) (typology : TypologyId)
: ConstructionIndirects.ConstructionIndirectsRates :=
let mult := TYPOLOGY_INDIRECT_FACTORS typology in
{| ConstructionIndirects.generalConditionsRate :=
     (ConstructionIndirects.generalConditionsRate rates * generalConditions mult)%float;
   ConstructionIndirects.glInsuranceRate :=
     (ConstructionIndirects.glInsuranceRate rates * glInsurance mult)%float;
   ConstructionIndirects.contingencyRate := ConstructionIndirects.contingencyRate rates;
   ConstructionIndirects.feeRate := ConstructionIndirects.feeRate rates;
   ConstructionIndirects.feeBase := ConstructionIndirects.feeBase rates |}.

Definition dampedLocationFactor (globalFactor : float) : float :=
(1 + (globalFactor - 1) * 0.5)%float.

(** The transforms that put a formatted number in the name of the
  benchmark; [toFixed2 x] stands for [x.toFixed(2)]. *)
Section WithNumberFormat.
Variable toFixed2 : float -> string.

Definition applyLocationFactorWithDamping (benchmark : BenchmarkObject) (globalFactor : float)
: BenchmarkObject :=
if negb (Js.isFinite globalFactor) || (globalFactor <=? 0)%float then benchmark
else if (abs (globalFactor - 1) <? 1e-9)%float then benchmark
else
let factors c :=
  if (1.10 <? globalFactor)%float then
    match c with
    | INTERNAL_FINISHES | FF_E => Some (dampedLocationFactor globalFactor)
    | _ => Some globalFactor
    end
  else Some globalFactor in
scaleBenchmarkSetByCategory benchmark factors
  (Some (" (Loc×" ++ toFixed2 globalFactor ++ ")")%string).

Definition buildAdjustedBenchmark (base : BenchmarkObject) (locationFactor : float)
(typology : TypologyId) : BenchmarkObject :=
let withLoc := applyLocationFactorWithDamping base locationFactor in
applyTypologyCategoryFactors withLoc typology.
End WithNumberFormat.

(** [applyProgramBias]: the bias is absent, or has a record of factors and
  a label. *)
Record ProgramBiasResult := {
factors : @JsMap.t VmxCategoryId float;
bias_label : string
}.

Definition applyProgramBias (benchmark : BenchmarkObject) (bias : option ProgramBiasResult)
: BenchmarkObject :=
match bias with
| None => benchmark
| Some bias =>
    if Nat.eqb (List.length (JsMap.keys (factors bias))) 0 then benchmark
    else scaleBenchmarkSetByCategory benchmark (fun c => rec_get c (factors bias))
           (Some (" (" ++ bias_label bias ++ ")")%string)
end.

Record DriverLine := {
d_categoryId : VmxCategoryId;
d_label : string;
d_deltaCost : float;
d_deltaPct : float
}.

Definition KEY_DRIVER_PCT_THRESHOLD : float := 0.05%float.

(** The value kept for a category in [buildCategoryCostMap]. *)
Record CostEntry := {
ce_label : string;
ce_cost : float
}.

Definition buildCategoryCostMap (categories : list CategoryResult)
: @JsMap.t VmxCategoryId CostEntry :=
fold_left
  (fun out c =>
     JsMap.set VmxCategoryId_eqb (res_categoryId c)
       {| ce_label := res_label c; ce_cost := cost c |} out)
  categories JsMap.empty.

Record DriverSummary := {
totalDeltaCost : float;
totalDeltaPct : float;
lines : list DriverLine
}.

(** The loop of [computeDriverLines] over the categories. *)
Definition driverLines (scenario baseline : ScenarioResult) : list DriverLine :=
let scenarioMap := buildCategoryCostMap (categories scenario) in
let baselineMap := buildCategoryCostMap (categories baseline) in
map (fun cat =>
       let s := JsMap.get VmxCategoryId_eqb (id cat) scenarioMap in
       let b := JsMap.get VmxCategoryId_eqb (id cat) baselineMap in
       let sCost := Js.nullish (option_map ce_cost s) 0%float in
       let bCost := Js.nullish (option_map ce_cost b) 0%float in
       let deltaCost := (sCost - bCost)%float in
       let deltaPct := if (0 <? bCost)%float then (sCost / bCost - 1)%float else 0%float in
       {| d_categoryId := id cat;
          d_label := Js.nullish (option_map ce_label s) (label cat);
          d_deltaCost := deltaCost;
          d_deltaPct := deltaPct |})
    VMX_CATEGORIES.

Definition computeDriverLines (scenario baseline : ScenarioResult) : DriverSummary :=
let lines := driverLines scenario baseline in
let filtered :=
  Array_slice0 6
    (Array_sort (fun a b => (abs (d_deltaCost b) - abs (d_deltaCost a))%float)
       (filter (fun l => (KEY_DRIVER_PCT_THRESHOLD <=? abs (d_deltaPct l))%float) lines)) in
let totalDeltaCost := (totalCost scenario - totalCost baseline)%float in
let totalDeltaPct :=
  if (0 <? totalCost baseline)%float
  then (totalCost scenario / totalCost baseline - 1)%float else 0%float in
{| totalDeltaCost := totalDeltaCost; totalDeltaPct := totalDeltaPct; lines := filtered |}.

Inductive WatchoutKind := under | over.

Record WatchoutLine := {
w_categoryId : VmxCategoryId;
w_label : string;
kind : WatchoutKind;
deltaPct : float;
deltaCost : float;
currentPct : float;
targetMin : float;
targetMax : float
}.

(** The loop of [computeWatchouts] over the categories of a result. *)
Definition watchoutItems (total : float) (categories : list CategoryResult)
: list WatchoutLine :=
flat_map
  (fun c =>
     let pct := if Js.isFinite (pctOfTotal c) then pctOfTotal c else 0%float in
     let min := if Js.isFinite (targetMinPct c) then targetMinPct c else 0%float in
     let max := if Js.isFinite (targetMaxPct c) then targetMaxPct c else 1%float in
     if (pct <? min)%float then
       let d := (min - pct)%float in
       [ {| w_categoryId := res_categoryId c; w_label := res_label c; kind := under;
            deltaPct := d; deltaCost := (d * total)%float; currentPct := pct;
            targetMin := min; targetMax := max |} ]
     else if (max <? pct)%float then
       let d := (pct - max)%float in
       [ {| w_categoryId := res_categoryId c; w_label := res_label c; kind := over;
            deltaPct := d; deltaCost := (d * total)%float; currentPct := pct;
            targetMin := min; targetMax := max |} ]
     else [])
  categories.

(** [maxItems] is the optional argument, for an integer value. *)
Definition computeWatchouts (result : ScenarioResult) (maxItems : option Z)
: list WatchoutLine :=
let maxItems := Js.nullish maxItems 3%Z in
let total :=
  if Js.isFinite (totalCost result) && (0 <? totalCost result)%float
  then totalCost result else 1%float in
let items := watchoutItems total (categories result) in
Array_slice0 maxItems
  (Array_sort (fun a b => (deltaPct b - deltaPct a)%float) items).

End App.

(** The demo benchmark with every unit cost doubled. *)
Definition doubledBenchmark : BenchmarkSet :=
  {| benchmark_id := "double"; name := "doubled"; currency := "USD";
     bands := map (fun b => {| band_categoryId := band_categoryId b; band_band := band_band b;
                               psqft := (2 * psqft b)%float |})
                  (bands demoBenchmark);
     targetRanges := targetRanges demoBenchmark |}.

Local Open Scope R_scope.

(** A binary64 value that is a zero or a finite number of either sign in
    canonical form. *)
Definition finite_valid (s : spec_float) : Prop :=
  match s with
  | S754_zero _ => True
  | S754_finite _ m e => SpecFloat.bounded prec emax m e = true
  | _ => False
  end.

Local Close Scope R_scope.

(** What [computeWatchouts] uses as the total. *)
Definition watchoutTotal (result : ScenarioResult) : float :=
  if Js.isFinite (totalCost result) && (0 <? totalCost result)%float
  then totalCost result else 1%float.

(** *** The matrix of unit costs *)

(** The matrix of unit costs, [src/components/Matrix.tsx]. *)
Module Matrix.

(** The unit cost shown on the button of a category and band. *)
Definition getPsqft (benchmark : BenchmarkSet) (categoryId : VmxCategoryId) (band : HeatBand)
: float :=
let hit := findBand benchmark categoryId band in
let v := Js.nullish (option_map psqft hit) 0%float in
if Js.isFinite v then Js.Math_max 0 v else 0%float.

End Matrix.

Local Open Scope R_scope.

(** The Medium unit cost stored for a category, 0 when there is none. *)
Definition mediumPsqft (benchmark : BenchmarkSet) (c : VmxCategoryId) : float :=
  match findBand benchmark c MEDIUM with
  | Some band => psqft band
  | None => 0%float
  end.

(** Every category has a Medium unit cost between 0 and [1e15]. *)
Definition mediumPriced (benchmark : BenchmarkSet) : Prop :=
  forall c, exists band,
    findBand benchmark c MEDIUM = Some band /\
    (0 <=? psqft band)%float = true /\ (psqft band <=? 1e15)%float = true.

Local Close Scope R_scope.

(** *** Soft costs: the weights of the years *)

(** The weights of the cashflow years, from the soft costs module. *)
Module SoftCosts.


End SoftCosts.

Local Open Scope R_scope.


Local Close Scope R_scope.

(* ================================================================= *)
(** ** Properties of the operations                                  *)
(* ================================================================= *)

(** *** The IEEE order on numbers *)

Module FloatOrder.

Lemma ltb_cmp x y : (x <? y)%float = true <-> cmp x y = Some Lt.
Proof.
  rewrite ltb_spec. unfold SFltb, cmp.
  destruct (SFcompare _ _) as [[]|]; split; congruence.
Qed.

Lemma leb_cmp x y : (x <=? y)%float = true <-> cmp x y = Some Lt \/ cmp x y = Some Eq.
Proof.
  rewrite leb_spec. unfold SFleb, cmp.
  destruct (SFcompare _ _) as [[]|]; split; intros; try tauto; try congruence;
    destruct H; congruence.
Qed.

Lemma eqb_cmp x y : (x =? y)%float = true <-> cmp x y = Some Eq.
Proof.
  rewrite eqb_spec. unfold SFeqb, cmp.
  destruct (SFcompare _ _) as [[]|]; split; congruence.
Qed.

Lemma SFcompare_refl s : s <> S754_nan -> SFcompare s s = Some Eq.
Proof.
  destruct s as [[]|[]| |[] m e]; simpl; try congruence; intros _;
    rewrite Z.compare_refl, Pos.compare_cont_refl; reflexivity.
Qed.

Lemma SFcompare_antisym a b : SFcompare b a = option_map CompOpp (SFcompare a b).
Proof.
  destruct a as [[]|[]| |[] m1 e1], b as [[]|[]| |[] m2 e2]; simpl; try reflexivity;
    rewrite !Pos.compare_cont_spec; simpl;
    rewrite (Z.compare_antisym e1 e2), (Pos.compare_antisym m1 m2);
    destruct (e1 ?= e2)%Z; simpl; try reflexivity;
    destruct (m1 ?= m2)%positive; reflexivity.
Qed.

Lemma is_nan_spec x : is_nan x = is_nanb (Prim2SF x).
Proof.
  unfold is_nan. rewrite eqb_spec. unfold SFeqb.
  destruct (Prim2SF x) as [[]|[]| |[] m e] eqn:E; simpl; try reflexivity;
    rewrite Z.compare_refl, Pos.compare_cont_refl; reflexivity.
Qed.

Lemma cmp_nan x y : cmp x y = None <-> is_nan x = true \/ is_nan y = true.
Proof.
  rewrite !is_nan_spec. unfold cmp.
  destruct (Prim2SF x), (Prim2SF y); simpl; split; intros; try congruence; try tauto;
    destruct H; congruence.
Qed.

(** Transitivity of the comparison: composition table on [Lt]/[Eq]. *)
Lemma SFcompare_trans a b c r1 r2 :
  SFcompare a b = Some r1 -> SFcompare b c = Some r2 ->
  r1 <> Gt -> r2 <> Gt ->
  SFcompare a c = Some (match r1, r2 with Eq, Eq => Eq | _, _ => Lt end).
Proof.
  destruct a as [[]|[]| |[] m1 e1], b as [[]|[]| |[] m2 e2], c as [[]|[]| |[] m3 e3];
    simpl; intros H1 H2 N1 N2; try discriminate;
    injection H1 as <-; injection H2 as <-; try congruence; try reflexivity.
  all: rewrite ?Pos.compare_cont_spec in *; simpl in *.
  all: repeat match goal with
       | |- context [(?a ?= ?b)%Z] => destruct (Z.compare_spec a b); simpl in *
       | H : context [(?a ?= ?b)%Z] |- _ => destruct (Z.compare_spec a b); simpl in *
       end; try congruence; try lia; try reflexivity; subst.
  all: repeat match goal with
       | |- context [(?a ?= ?b)%positive] => destruct (Pos.compare_spec a b); simpl in *
       | H : context [(?a ?= ?b)%positive] |- _ => destruct (Pos.compare_spec a b); simpl in *
       end; try congruence; try lia; try reflexivity.
Qed.

Lemma cmp_antisym x y : cmp y x = option_map CompOpp (cmp x y).
Proof. apply SFcompare_antisym. Qed.

Lemma ltb_leb x y : (x <? y)%float = true -> (x <=? y)%float = true.
Proof. rewrite ltb_cmp, leb_cmp. tauto. Qed.

Lemma leb_ltb_false x y : (x <=? y)%float = true -> (y <? x)%float = false.
Proof.
  rewrite leb_cmp. intros H. apply not_true_is_false. rewrite ltb_cmp.
  rewrite cmp_antisym. destruct H as [-> | ->]; simpl; congruence.
Qed.

Lemma ltb_asym x y : (x <? y)%float = true -> (y <? x)%float = false.
Proof. intros H. apply leb_ltb_false, ltb_leb, H. Qed.

Lemma leb_not_nan x y : (x <=? y)%float = true -> is_nan x = false /\ is_nan y = false.
Proof.
  rewrite leb_cmp. intros H.
  destruct (is_nan x) eqn:Ex; destruct (is_nan y) eqn:Ey; auto;
    assert (N : cmp x y = None) by (apply cmp_nan; auto);
    rewrite N in H; destruct H; discriminate.
Qed.

Lemma ltb_not_nan x y : (x <? y)%float = true -> is_nan x = false /\ is_nan y = false.
Proof. intros H. apply leb_not_nan, ltb_leb, H. Qed.

Lemma cmp_some x y : is_nan x = false -> is_nan y = false -> exists c, cmp x y = Some c.
Proof.
  intros Hx Hy. destruct (cmp x y) eqn:E; eauto.
  apply cmp_nan in E. destruct E; congruence.
Qed.

Lemma ltb_false_leb x y :
  is_nan x = false -> is_nan y = false -> (x <? y)%float = false -> (y <=? x)%float = true.
Proof.
  intros Hx Hy H. destruct (cmp_some x y Hx Hy) as [c Hc].
  apply leb_cmp. rewrite cmp_antisym, Hc.
  destruct c; simpl; auto.
  apply ltb_cmp in Hc. congruence.
Qed.

Lemma leb_false_ltb x y :
  is_nan x = false -> is_nan y = false -> (x <=? y)%float = false -> (y <? x)%float = true.
Proof.
  intros Hx Hy H. destruct (cmp_some x y Hx Hy) as [c Hc].
  apply ltb_cmp. rewrite cmp_antisym, Hc.
  destruct c; simpl; auto;
    assert (L : (x <=? y)%float = true) by (apply leb_cmp; auto); congruence.
Qed.

Lemma leb_refl x : is_nan x = false -> (x <=? x)%float = true.
Proof.
  intros H. apply leb_cmp. right. apply SFcompare_refl.
  rewrite is_nan_spec in H. intros E. rewrite E in H. discriminate.
Qed.

Lemma leb_trans x y z :
  (x <=? y)%float = true -> (y <=? z)%float = true -> (x <=? z)%float = true.
Proof.
  rewrite !leb_cmp. unfold cmp. intros H1 H2.
  destruct H1 as [H1|H1], H2 as [H2|H2];
    rewrite (SFcompare_trans _ _ _ _ _ H1 H2) by congruence; auto.
Qed.

Lemma ltb_leb_trans x y z :
  (x <? y)%float = true -> (y <=? z)%float = true -> (x <? z)%float = true.
Proof.
  rewrite !ltb_cmp, leb_cmp. unfold cmp. intros H1 H2.
  destruct H2 as [H2|H2];
    rewrite (SFcompare_trans _ _ _ _ _ H1 H2) by congruence; auto.
Qed.

Lemma leb_ltb_trans x y z :
  (x <=? y)%float = true -> (y <? z)%float = true -> (x <? z)%float = true.
Proof.
  rewrite !ltb_cmp, leb_cmp. unfold cmp. intros H1 H2.
  destruct H1 as [H1|H1];
    rewrite (SFcompare_trans _ _ _ _ _ H1 H2) by congruence; auto.
Qed.

Lemma is_finite_not_nan x : is_finite x = true -> is_nan x = false.
Proof.
  unfold is_finite. destruct (is_nan x); simpl; congruence.
Qed.

Lemma is_infinity_spec x :
  is_infinity x = match Prim2SF x with S754_infinity _ => true | _ => false end.
Proof.
  unfold is_infinity. rewrite eqb_spec, abs_spec. unfold SFeqb.
  destruct (Prim2SF x) as [[]|[]| |[] m e]; reflexivity.
Qed.

Lemma is_finite_spec x :
  is_finite x = match Prim2SF x with S754_zero _ | S754_finite _ _ _ => true | _ => false end.
Proof.
  unfold is_finite. rewrite is_nan_spec, is_infinity_spec.
  destruct (Prim2SF x); reflexivity.
Qed.

Lemma get_sign_spec x :
  get_sign x = match Prim2SF x with
               | S754_zero s | S754_infinity s | S754_finite s _ _ => s
               | S754_nan => false
               end.
Proof.
  unfold get_sign, is_zero. rewrite eqb_spec. unfold SFeqb.
  destruct (Prim2SF x) as [[]|[]| |[] m e] eqn:E; simpl;
    rewrite ltb_spec, ?div_spec, ?E; reflexivity.
Qed.

End FloatOrder.
Import FloatOrder.

(** *** Math.max, Math.min, clamp and classifyRange *)

Section MinMax.
Variables a b : float.
Hypothesis Ha : is_nan a = false.
Hypothesis Hb : is_nan b = false.

Lemma Math_max_choice : Js.Math_max a b = a \/ Js.Math_max a b = b.
Proof.
  unfold Js.Math_max. rewrite Ha, Hb. simpl.
  destruct (a <? b)%float; auto. destruct (b <? a)%float; auto.
  destruct (get_sign a); auto.
Qed.

Lemma Math_min_choice : Js.Math_min a b = a \/ Js.Math_min a b = b.
Proof.
  unfold Js.Math_min. rewrite Ha, Hb. simpl.
  destruct (a <? b)%float; auto. destruct (b <? a)%float; auto.
  destruct (get_sign a); auto.
Qed.

Lemma Math_max_ge_l : (a <=? Js.Math_max a b)%float = true.
Proof.
  unfold Js.Math_max. rewrite Ha, Hb. simpl.
  destruct (a <? b)%float eqn:E1. { apply ltb_leb, E1. }
  destruct (b <? a)%float eqn:E2. { apply leb_refl, Ha. }
  destruct (get_sign a).
  - apply ltb_false_leb; auto.
  - apply leb_refl, Ha.
Qed.

Lemma Math_max_ge_r : (b <=? Js.Math_max a b)%float = true.
Proof.
  unfold Js.Math_max. rewrite Ha, Hb. simpl.
  destruct (a <? b)%float eqn:E1. { apply leb_refl, Hb. }
  destruct (b <? a)%float eqn:E2. { apply ltb_leb, E2. }
  destruct (get_sign a).
  - apply leb_refl, Hb.
  - apply ltb_false_leb; auto.
Qed.

Lemma Math_min_le_l : (Js.Math_min a b <=? a)%float = true.
Proof.
  unfold Js.Math_min. rewrite Ha, Hb. simpl.
  destruct (a <? b)%float eqn:E1. { apply leb_refl, Ha. }
  destruct (b <? a)%float eqn:E2. { apply ltb_leb, E2. }
  destruct (get_sign a).
  - apply leb_refl, Ha.
  - apply ltb_false_leb; auto.
Qed.

Lemma Math_min_le_r : (Js.Math_min a b <=? b)%float = true.
Proof.
  unfold Js.Math_min. rewrite Ha, Hb. simpl.
  destruct (a <? b)%float eqn:E1. { apply ltb_leb, E1. }
  destruct (b <? a)%float eqn:E2. { apply leb_refl, Hb. }
  destruct (get_sign a).
  - apply ltb_false_leb; auto.
  - apply leb_refl, Hb.
Qed.
End MinMax.

Lemma Math_max_not_nan a b : is_nan a = false -> is_nan b = false -> is_nan (Js.Math_max a b) = false.
Proof. intros Ha Hb. destruct (Math_max_choice a b Ha Hb) as [-> | ->]; auto. Qed.

Lemma Math_min_not_nan a b : is_nan a = false -> is_nan b = false -> is_nan (Js.Math_min a b) = false.
Proof. intros Ha Hb. destruct (Math_min_choice a b Ha Hb) as [-> | ->]; auto. Qed.

(** [clamp] lands in [[lo, hi]] whenever [lo <= hi]. *)
Lemma clamp_bounds n lo hi :
  (lo <=? hi)%float = true ->
  (lo <=? clamp n lo hi)%float = true /\ (clamp n lo hi <=? hi)%float = true.
Proof.
  intros L. destruct (leb_not_nan _ _ L) as [Nlo Nhi].
  unfold clamp, Js.isFinite. destruct (is_finite n) eqn:F; simpl.
  - pose proof (is_finite_not_nan _ F) as Nn.
    pose proof (Math_max_not_nan lo n Nlo Nn) as Nm.
    split.
    + destruct (Math_min_choice hi (Js.Math_max lo n) Nhi Nm) as [-> | ->]; auto.
      apply Math_max_ge_l; auto.
    + apply Math_min_le_l; auto.
  - split; auto. apply leb_refl, Nlo.
Qed.

Lemma safePct_bounds n : (0 <=? safePct n)%float = true /\ (safePct n <=? 1)%float = true.
Proof. apply clamp_bounds. reflexivity. Qed.

Lemma ensureMinMax_valid a b :
  validRange (fst (ensureMinMax a b)) (snd (ensureMinMax a b)).
Proof.
  unfold ensureMinMax, validRange.
  destruct (safePct_bounds a) as [A0 A1], (safePct_bounds b) as [B0 B1].
  destruct (safePct b <? safePct a)%float eqn:E; simpl; repeat split; auto.
  - apply leb_refl. apply (leb_not_nan _ _ A0).
  - apply ltb_false_leb; auto.
    + apply (leb_not_nan _ _ B0).
    + apply (leb_not_nan _ _ A0).
Qed.

(** C3: [classifyRange] is a closed-interval three-way comparison.  For
    every range with [minPct <= maxPct], both bounds classify as OK; every
    percentage strictly below [minPct] is LOW; every percentage strictly
    above [maxPct] is HIGH; anything else is OK. *)
Theorem classifyRange_closed_interval (minPct maxPct : float) :
  (minPct <=? maxPct)%float = true ->
  classifyRange minPct minPct maxPct = Range_OK /\
  classifyRange maxPct minPct maxPct = Range_OK /\
  (forall pct, (pct <? minPct)%float = true -> classifyRange pct minPct maxPct = Range_LOW) /\
  (forall pct, (maxPct <? pct)%float = true -> classifyRange pct minPct maxPct = Range_HIGH) /\
  (forall pct, (pct <? minPct)%float = false -> (maxPct <? pct)%float = false ->
               classifyRange pct minPct maxPct = Range_OK).
Proof.
  intros L. destruct (leb_not_nan _ _ L) as [Nmn Nmx].
  unfold classifyRange. repeat split.
  - rewrite (leb_ltb_false _ _ (leb_refl _ Nmn)), (leb_ltb_false _ _ L). reflexivity.
  - rewrite (leb_ltb_false _ _ L), (leb_ltb_false _ _ (leb_refl _ Nmx)). reflexivity.
  - intros pct H. rewrite H. reflexivity.
  - intros pct H. rewrite H.
    assert (E : (pct <? minPct)%float = false).
    { apply ltb_asym. apply (leb_ltb_trans _ _ _ L H). }
    rewrite E. reflexivity.
  - intros pct H1 H2. rewrite H1, H2. reflexivity.
Qed.

Lemma classifyRange_closed_interval_witness :
  classifyRange 0.2 0.2 0.3 = Range_OK /\
  classifyRange 0.3 0.2 0.3 = Range_OK /\
  classifyRange 0.1 0.2 0.3 = Range_LOW /\
  classifyRange 0.4 0.2 0.3 = Range_HIGH /\
  classifyRange 0.25 0.2 0.3 = Range_OK.
Proof.
  destruct (classifyRange_closed_interval 0.2 0.3 eq_refl) as (A & B & C & D & E).
  exact (conj A (conj B (conj (C 0.1%float eq_refl)
           (conj (D 0.4%float eq_refl) (E 0.25%float eq_refl eq_refl))))).
Defined.

(** *** Numbers that clamping leaves alone *)

Lemma Prim2SF_zero : Prim2SF 0 = S754_zero false.
Proof. reflexivity. Qed.
Lemma Prim2SF_neg_zero : Prim2SF (-0) = S754_zero true.
Proof. reflexivity. Qed.

(** A number that compares equal to zero is one of the two zeros. *)
Lemma eq_zero_cases x :
  (0 <=? x)%float = true -> (0 <? x)%float = false -> x = 0%float \/ x = (-0)%float.
Proof.
  rewrite leb_spec, ltb_spec, Prim2SF_zero. unfold SFleb, SFltb.
  destruct (Prim2SF x) as [[]|[]| |[] m e] eqn:E; simpl; try discriminate; intros _ _.
  - right. apply Prim2SF_inj. rewrite E. reflexivity.
  - left. apply Prim2SF_inj. rewrite E. reflexivity.
Qed.

Lemma unit_is_finite x :
  (0 <=? x)%float = true -> (x <=? 1)%float = true -> is_finite x = true.
Proof.
  rewrite !leb_spec, is_finite_spec, Prim2SF_zero. unfold SFleb.
  destruct (Prim2SF x) as [[]|[]| |[] m e]; simpl; auto.
Qed.

Lemma get_sign_zero : get_sign 0 = false.
Proof. reflexivity. Qed.
Lemma get_sign_one : get_sign 1 = false.
Proof. reflexivity. Qed.

Lemma Math_max_zero x :
  (0 <=? x)%float = true ->
  Js.Math_max 0 x = if (0 <? x)%float then x else 0%float.
Proof.
  intros H. destruct (leb_not_nan _ _ H) as [_ Nx].
  unfold Js.Math_max. rewrite Nx. simpl.
  rewrite (leb_ltb_false _ _ H), ?get_sign_zero.
  destruct (0 <? x)%float; reflexivity.
Qed.

Lemma Math_min_one x :
  (x <=? 1)%float = true -> Js.Math_min 1 x = x.
Proof.
  intros H. destruct (leb_not_nan _ _ H) as [Nx _].
  unfold Js.Math_min. rewrite Nx. simpl.
  rewrite (leb_ltb_false _ _ H), ?get_sign_one.
  destruct (x <? 1)%float; reflexivity.
Qed.

Lemma safePct_unit x :
  (0 <=? x)%float = true -> (x <=? 1)%float = true ->
  safePct x = if (0 <? x)%float then x else 0%float.
Proof.
  intros H0 H1. unfold safePct, clamp, Js.isFinite.
  rewrite (unit_is_finite x H0 H1). simpl.
  rewrite (Math_max_zero x H0).
  destruct (0 <? x)%float.
  - apply Math_min_one, H1.
  - reflexivity.
Qed.

Lemma eqb_refl x : is_nan x = false -> (x =? x)%float = true.
Proof. unfold is_nan. destruct (x =? x)%float; simpl; congruence. Qed.

Lemma eqb_leb x y : (x =? y)%float = true -> (x <=? y)%float = true.
Proof. rewrite eqb_cmp, leb_cmp. auto. Qed.

Lemma eqb_sym x y : (x =? y)%float = true -> (y =? x)%float = true.
Proof. rewrite !eqb_cmp. intros H. rewrite cmp_antisym, H. reflexivity. Qed.

Lemma safePct_fixed_eqb x :
  (0 <=? x)%float = true -> (x <=? 1)%float = true -> (safePct x =? x)%float = true.
Proof.
  intros H0 H1. rewrite (safePct_unit x H0 H1).
  destruct (0 <? x)%float eqn:E.
  - apply eqb_refl. apply (leb_not_nan _ _ H0).
  - destruct (eq_zero_cases x H0 E) as [-> | ->]; reflexivity.
Qed.

Lemma safePct_fixed x :
  (0 <=? x)%float = true -> (x <=? 1)%float = true -> x <> (-0)%float -> safePct x = x.
Proof.
  intros H0 H1 N. rewrite (safePct_unit x H0 H1).
  destruct (0 <? x)%float eqn:E; auto.
  destruct (eq_zero_cases x H0 E) as [-> | ->]; congruence.
Qed.

Lemma ltb_zero_neg_zero x : (0 <? x)%float = true -> x <> (-0)%float.
Proof. intros H ->. discriminate H. Qed.

(** [safePct] never returns the negative zero. *)
Lemma safePct_not_neg_zero n : safePct n <> (-0)%float.
Proof.
  unfold safePct, clamp, Js.isFinite. destruct (is_finite n) eqn:F; simpl.
  2: { discriminate. }
  pose proof (is_finite_not_nan _ F) as Nn.
  assert (N0 : is_nan 0 = false) by reflexivity.
  assert (N1 : is_nan 1 = false) by reflexivity.
  pose proof (Math_max_ge_l 0 n N0 Nn) as G.
  assert (M : Js.Math_max 0 n <> (-0)%float).
  { unfold Js.Math_max. rewrite Nn. simpl.
    destruct (0 <? n)%float eqn:E1. { apply ltb_zero_neg_zero, E1. }
    destruct (n <? 0)%float eqn:E2. { discriminate. }
    rewrite ?get_sign_zero. discriminate. }
  destruct (Math_min_choice 1 (Js.Math_max 0 n) N1 (Math_max_not_nan _ _ N0 Nn)) as [-> | ->]; auto.
  discriminate.
Qed.

Lemma safePct_idem n : safePct (safePct n) = safePct n.
Proof.
  destruct (safePct_bounds n). apply safePct_fixed; auto. apply safePct_not_neg_zero.
Qed.

Lemma ensureMinMax_fixed a b :
  validRange a b ->
  ensureMinMax a b = (safePct a, safePct b) /\
  (fst (ensureMinMax a b) =? a)%float = true /\
  (snd (ensureMinMax a b) =? b)%float = true.
Proof.
  intros (H0 & H1 & H2).
  assert (A1 : (a <=? 1)%float = true) by (eapply leb_trans; eauto).
  assert (B0 : (0 <=? b)%float = true) by (eapply leb_trans; eauto).
  pose proof (safePct_fixed_eqb a H0 A1) as Ea.
  pose proof (safePct_fixed_eqb b B0 H2) as Eb.
  assert (L : (safePct b <? safePct a)%float = false).
  { apply leb_ltb_false.
    apply (leb_trans _ a). { apply eqb_leb, Ea. }
    apply (leb_trans _ b); auto. apply eqb_leb. apply eqb_sym, Eb. }
  unfold ensureMinMax. rewrite L. simpl. auto.
Qed.

(** *** Normalising twice; the area check *)

Lemma ensureMinMax_twice a b :
  ensureMinMax (fst (ensureMinMax a b)) (snd (ensureMinMax a b)) = ensureMinMax a b.
Proof.
  destruct (ensureMinMax_fixed _ _ (ensureMinMax_valid a b)) as [E _].
  rewrite E. unfold ensureMinMax.
  destruct (safePct b <? safePct a)%float; simpl; rewrite !safePct_idem; reflexivity.
Qed.

(** C9: range normalisation is idempotent.  A pair that already satisfies
    [0 <= minPct <= maxPct <= 1] comes back equal as numbers ([===]), and
    identical unless an input is the negative zero, which comes back as
    [+0]; and normalising twice is the same as normalising once, for every
    input. *)
Theorem ensureMinMax_idempotent :
  (forall minPct maxPct,
      (0 <=? minPct)%float = true -> (minPct <=? maxPct)%float = true ->
      (maxPct <=? 1)%float = true ->
      (fst (ensureMinMax minPct maxPct) =? minPct)%float = true /\
      (snd (ensureMinMax minPct maxPct) =? maxPct)%float = true /\
      (minPct <> (-0)%float -> maxPct <> (-0)%float ->
       ensureMinMax minPct maxPct = (minPct, maxPct))) /\
  (forall minPct maxPct,
      ensureMinMax (fst (ensureMinMax minPct maxPct)) (snd (ensureMinMax minPct maxPct))
      = ensureMinMax minPct maxPct).
Proof.
  split.
  - intros a b H0 H1 H2.
    destruct (ensureMinMax_fixed a b (conj H0 (conj H1 H2))) as (E & Ea & Eb).
    repeat split; auto.
    intros Na Nb. rewrite E.
    rewrite safePct_fixed, safePct_fixed; auto.
    + eapply leb_trans; eauto.
    + eapply leb_trans; eauto.
  - apply ensureMinMax_twice.
Qed.

Lemma ensureMinMax_idempotent_witness :
  ensureMinMax 0.25 0.5 = (0.25, 0.5)%float /\
  ensureMinMax (fst (ensureMinMax 7 (-3))) (snd (ensureMinMax 7 (-3))) = ensureMinMax 7 (-3).
Proof.
  split.
  - apply (proj1 ensureMinMax_idempotent 0.25 0.5)%float; try reflexivity; discriminate.
  - apply (proj2 ensureMinMax_idempotent).
Defined.

Lemma area_check a :
  negb (Js.isFinite a) || (a <=? 0)%float = negb (validArea a).
Proof.
  unfold validArea, Js.isFinite. destruct (is_finite a) eqn:F; simpl; auto.
  pose proof (is_finite_not_nan _ F) as Na.
  assert (N0 : is_nan 0 = false) by reflexivity.
  destruct (a <=? 0)%float eqn:L.
  - rewrite (leb_ltb_false _ _ L). reflexivity.
  - rewrite (leb_false_ltb _ _ Na N0 L). reflexivity.
Qed.

Lemma interimFor_error a b m rs cat e :
  interimFor a b m rs cat = Throw e ->
  e = MissingSelection (id cat) \/ exists band, e = MissingBand (id cat) band.
Proof.
  unfold interimFor, requireBand.
  destruct (sel_get (id cat) m) as [sel|]; [|intros [= <-]; auto].
  destruct (findBand b (id cat) (sel_band sel)); simpl; [discriminate|].
  intros [= <-]. eauto.
Qed.

Lemma mapM_error {E A B} (f : A -> result E B) xs e :
  mapM f xs = Throw e -> exists x, In x xs /\ f x = Throw e.
Proof.
  induction xs as [|x xs IH]; simpl; [discriminate|].
  destruct (f x) eqn:Fx; simpl.
  - destruct (mapM f xs); simpl; [discriminate|].
    intros [= <-]. destruct (IH eq_refl) as (y & Hy & Ey). eauto.
  - intros [= <-]. eauto.
Qed.

(** C4: [computeScenarioResult] throws the invalid-area error exactly when
    [areaSqft] is not a finite positive number; in particular it does for
    [areaSqft = 0], and for a finite positive area the error is never the
    invalid-area one. *)
Theorem invalid_area_iff (areaSqft : float) (benchmark : BenchmarkSet)
  (selections : list ScenarioSelection) :
  (computeScenarioResult areaSqft benchmark selections = Throw InvalidArea
   <-> (Js.isFinite areaSqft && (0 <? areaSqft)%float) = false) /\
  computeScenarioResult 0 benchmark selections = Throw InvalidArea.
Proof.
  split; [|reflexivity].
  unfold computeScenarioResult. rewrite area_check. fold (validArea areaSqft).
  destruct (validArea areaSqft); cbn [negb]; [|tauto].
  split; [|discriminate].
  destruct (mapM _ VMX_CATEGORIES) as [interim|e] eqn:M; unfold bind.
  - destruct (_ <=? 0)%float; discriminate.
  - intros [= ->]. apply mapM_error in M. destruct M as (cat & _ & Hc).
    apply interimFor_error in Hc. destruct Hc as [Hc | [band Hc]]; discriminate.
Qed.

(** *** Maps and complete target ranges *)

Lemma VmxCategoryId_eqb_eq a b : VmxCategoryId_eqb a b = true <-> a = b.
Proof. destruct a, b; simpl; split; congruence. Qed.

Lemma VmxCategoryId_eqb_refl a : VmxCategoryId_eqb a a = true.
Proof. destruct a; reflexivity. Qed.

Lemma HeatBand_eqb_eq a b : HeatBand_eqb a b = true <-> a = b.
Proof. destruct a, b; simpl; split; congruence. Qed.

Lemma CategoryKey_eqb_eq a b : CategoryKey_eqb a b = true <-> a = b.
Proof.
  destruct a, b; simpl; split; try congruence.
  - intros H. apply VmxCategoryId_eqb_eq in H. congruence.
  - intros [= ->]. apply VmxCategoryId_eqb_refl.
  - intros H. apply String.eqb_eq in H. congruence.
  - intros [= ->]. apply String.eqb_refl.
Qed.

Section JsMapFacts.
Context {K V : Type} (eqb : K -> K -> bool).
Hypothesis eqb_eq : forall a b, eqb a b = true <-> a = b.

Lemma get_In k (m : @JsMap.t K V) v : JsMap.get eqb k m = Some v -> In (k, v) m.
Proof.
  induction m as [|[k' v'] m IH]; simpl; [discriminate|].
  destruct (eqb k' k) eqn:E.
  - intros [= ->]. apply eqb_eq in E. subst. auto.
  - auto.
Qed.

Lemma set_Forall (P : K * V -> Prop) k v (m : @JsMap.t K V) :
  P (k, v) -> Forall P m -> Forall P (JsMap.set eqb k v m).
Proof.
  intros Hk. induction 1 as [|[k' v'] m Hx Hm IH]; simpl.
  - constructor; auto.
  - destruct (eqb k' k) eqn:E.
    + apply eqb_eq in E. subst. constructor; auto.
    + constructor; auto.
Qed.

Lemma get_set_same k v (m : @JsMap.t K V) : JsMap.get eqb k (JsMap.set eqb k v m) = Some v.
Proof.
  assert (R : eqb k k = true) by (apply eqb_eq; reflexivity).
  induction m as [|[k' v'] m IH]; simpl.
  - rewrite R. reflexivity.
  - destruct (eqb k' k) eqn:E; simpl; rewrite E; auto.
Qed.

Lemma get_set_other k k' v (m : @JsMap.t K V) :
  k <> k' -> JsMap.get eqb k' (JsMap.set eqb k v m) = JsMap.get eqb k' m.
Proof.
  intros N.
  assert (F : eqb k k' = false).
  { apply not_true_is_false. intros H. apply eqb_eq in H. auto. }
  induction m as [|[k0 v0] m IH]; simpl.
  - rewrite F. reflexivity.
  - destruct (eqb k0 k) eqn:E; simpl.
    + apply eqb_eq in E. subst. rewrite F. reflexivity.
    + rewrite IH. reflexivity.
Qed.
End JsMapFacts.

Lemma collectExisting_ok existing : Forall entry_ok (collectExisting existing).
Proof.
  unfold collectExisting.
  assert (G : forall acc, Forall entry_ok acc ->
    Forall entry_ok
      (fold_left
         (fun byCat r =>
            match r with
            | None => byCat
            | Some r =>
                match stored_categoryId r with
                | None => byCat
                | Some k =>
                    let fixed := ensureMinMax (Js.toNumber (stored_minPct r))
                                              (Js.toNumber (stored_maxPct r)) in
                    range_set k {| categoryId := k; minPct := fst fixed; maxPct := snd fixed |} byCat
                end
            end) existing acc)).
  { induction existing as [|r rs IH]; simpl; intros acc Hacc; auto.
    apply IH. destruct r as [r|]; auto.
    destruct (stored_categoryId r) as [k|]; auto.
    apply set_Forall; auto using CategoryKey_eqb_eq.
    split; simpl; auto. apply ensureMinMax_valid. }
  apply G. constructor.
Qed.

Lemma derived_ok benchmark opts d :
  In d (deriveTargetRangesFromMedium benchmark opts) -> wellFormed d.
Proof.
  unfold deriveTargetRangesFromMedium. rewrite in_map_iff.
  intros (cat & <- & _). apply ensureMinMax_valid.
Qed.

Lemma findRange_some rs c r :
  findRange rs c = Some r -> In r rs /\ categoryId r = Known c.
Proof.
  unfold findRange. intros H. apply find_some in H. destruct H as [H1 H2].
  split; auto. apply CategoryKey_eqb_eq, H2.
Qed.

(** C2: for every benchmark, whatever its [targetRanges] holds (not an
    array, empty, falsy entries, entries without a category id or with
    percentages that are not numbers), [ensureCompleteTargetRanges] returns
    one range per category, in category order, each with
    [0 <= minPct <= maxPct <= 1]. *)
Theorem ensureCompleteTargetRanges_complete_valid (benchmark : BenchmarkSet) :
  map categoryId (ensureCompleteTargetRanges benchmark)
    = map (fun cat => Known (id cat)) VMX_CATEGORIES /\
  List.length (ensureCompleteTargetRanges benchmark) = 7%nat /\
  Forall (fun r => (0 <=? minPct r)%float = true /\
                   (minPct r <=? maxPct r)%float = true /\
                   (maxPct r <=? 1)%float = true)
         (ensureCompleteTargetRanges benchmark).
Proof.
  unfold ensureCompleteTargetRanges.
  set (byCat := collectExisting _).
  set (derived := deriveTargetRangesFromMedium benchmark None).
  set (pick := fun cat : CategoryDef => _).
  assert (P : forall cat, categoryId (pick cat) = Known (id cat) /\ wellFormed (pick cat)).
  { intros cat. unfold pick.
    destruct (range_get (Known (id cat)) byCat) as [r|] eqn:G.
    - apply (get_In _ CategoryKey_eqb_eq) in G.
      pose proof (collectExisting_ok
                    match targetRanges benchmark with Some l => l | None => [] end) as F.
      rewrite Forall_forall in F. apply (F _ G).
    - destruct (findRange derived (id cat)) as [d|] eqn:D.
      + apply findRange_some in D. destruct D as [D1 D2]. split; auto.
        apply (derived_ok _ _ _ D1).
      + split; [reflexivity|]. repeat split; reflexivity. }
  split; [|split].
  - rewrite map_map. apply map_ext. intros cat. apply P.
  - reflexivity.
  - apply Forall_forall. intros r Hr. apply in_map_iff in Hr.
    destruct Hr as (cat & <- & _). apply P.
Qed.

(** *** The representative unit cost and the equal-weight fallback *)

Lemma find_map_key {A} (p : A -> bool) (f : A -> A) (l : list A) :
  (forall x, p (f x) = p x) -> find p (map f l) = option_map f (find p l).
Proof.
  intros H. induction l as [|x l IH]; simpl; auto.
  rewrite H. destruct (p x); auto.
Qed.

Lemma findBand_floored benchmark c b :
  findBand (flooredBenchmark benchmark) c b = option_map flooredBand (findBand benchmark c b).
Proof. unfold findBand. simpl. apply find_map_key. reflexivity. Qed.

Lemma is_finite_zero : is_finite 0 = true.
Proof. reflexivity. Qed.

Lemma flooredPsqft_finite p : Js.isFinite (flooredPsqft p) = Js.isFinite p.
Proof.
  unfold flooredPsqft, Js.isFinite. destruct (is_finite p) eqn:F; auto.
  destruct (Math_max_choice 0 p eq_refl (is_finite_not_nan _ F)) as [-> | ->]; auto.
Qed.

Lemma usablePsqft_floored x :
  usablePsqft x = finiteUnitCost (option_map flooredBand x).
Proof.
  destruct x as [x|]; simpl; auto.
  rewrite flooredPsqft_finite. unfold flooredPsqft.
  destruct (Js.isFinite (psqft x)); reflexivity.
Qed.

Lemma getMedium_floored benchmark c :
  getMediumPsqftOrFallback benchmark c
  = representativeUnitCost_spec (flooredBenchmark benchmark) c.
Proof.
  unfold getMediumPsqftOrFallback, representativeUnitCost_spec.
  rewrite !findBand_floored, <- !usablePsqft_floored. reflexivity.
Qed.

Lemma flooredPsqft_notNegative p : notNegative p -> flooredPsqft p = p.
Proof.
  unfold flooredPsqft, Js.isFinite. intros [L N].
  destruct (is_finite p) eqn:F; auto.
  assert (H0 : (0 <=? p)%float = true).
  { apply ltb_false_leb; auto. apply is_finite_not_nan, F. }
  rewrite (Math_max_zero p H0).
  destruct (0 <? p)%float eqn:E; auto.
  destruct (eq_zero_cases p H0 E) as [-> | ->]; congruence.
Qed.

Lemma findBand_In benchmark c b x : findBand benchmark c b = Some x -> In x (bands benchmark).
Proof. unfold findBand. intros H. apply find_some in H. tauto. Qed.

Lemma usablePsqft_notNegative benchmark c b :
  (forall x, In x (bands benchmark) -> notNegative (psqft x)) ->
  usablePsqft (findBand benchmark c b) = finiteUnitCost (findBand benchmark c b).
Proof.
  intros H. destruct (findBand benchmark c b) as [x|] eqn:E; simpl; auto.
  pose proof (flooredPsqft_notNegative _ (H x (findBand_In _ _ _ _ E))) as F.
  unfold flooredPsqft in F. destruct (Js.isFinite (psqft x)); congruence.
Qed.

(** C6 as stated fails on a negative unit cost: a Medium entry of -5 is
    present and finite, yet the representative unit cost is 0. *)
Lemma representative_unit_cost_negative_medium :
  getMediumPsqftOrFallback negativeMediumBenchmark FACILITATING = 0%float /\
  representativeUnitCost_spec negativeMediumBenchmark FACILITATING = (-5)%float /\
  ~ (forall benchmark c,
        getMediumPsqftOrFallback benchmark c = representativeUnitCost_spec benchmark c).
Proof.
  assert (A : getMediumPsqftOrFallback negativeMediumBenchmark FACILITATING = 0%float)
    by reflexivity.
  assert (B : representativeUnitCost_spec negativeMediumBenchmark FACILITATING = (-5)%float)
    by reflexivity.
  repeat split; auto.
  intros H. specialize (H negativeMediumBenchmark FACILITATING).
  rewrite A, B in H. discriminate H.
Qed.

(** C6, amended: the representative unit cost is the resolution of the
    specification (Medium, else the Low/High average, else the one present, else
    0) applied to the unit costs floored at zero by [Math.max(0, psqft)]; for
    a benchmark without negative unit costs (the negative zero included) it
    is that resolution applied to the unit costs themselves. *)
Theorem representative_unit_cost_floored (benchmark : BenchmarkSet) (c : VmxCategoryId) :
  getMediumPsqftOrFallback benchmark c
    = representativeUnitCost_spec (flooredBenchmark benchmark) c /\
  ((forall x, In x (bands benchmark) ->
              (psqft x <? 0)%float = false /\ psqft x <> (-0)%float) ->
   getMediumPsqftOrFallback benchmark c = representativeUnitCost_spec benchmark c).
Proof.
  split. { apply getMedium_floored. }
  intros H. unfold getMediumPsqftOrFallback, representativeUnitCost_spec.
  rewrite !(usablePsqft_notNegative benchmark c _ H). reflexivity.
Qed.

Lemma representative_unit_cost_floored_witness :
  getMediumPsqftOrFallback lowHighBenchmark FACILITATING = 55%float /\
  getMediumPsqftOrFallback lowHighBenchmark FACILITATING
    = representativeUnitCost_spec lowHighBenchmark FACILITATING.
Proof.
  split; [reflexivity|].
  apply (proj2 (representative_unit_cost_floored lowHighBenchmark FACILITATING)).
  intros x Hx. simpl in Hx.
  destruct Hx as [<- | [<- | [<- | []]]]; (split; [reflexivity|discriminate]).
Defined.

(** *** Equal-weight fallback *)

Lemma Math_max_zero_nonpos p : (p <=? 0)%float = true -> Js.Math_max 0 p = 0%float.
Proof.
  intros H. destruct (leb_not_nan _ _ H) as [Np _].
  unfold Js.Math_max. rewrite Np. simpl.
  rewrite (leb_ltb_false _ _ H). destruct (p <? 0)%float; reflexivity.
Qed.

Lemma usablePsqft_nonpos benchmark c b :
  (forall x, In x (bands benchmark) -> (psqft x <=? 0)%float = true) ->
  usablePsqft (findBand benchmark c b) = Some 0%float \/
  usablePsqft (findBand benchmark c b) = None.
Proof.
  intros H. destruct (findBand benchmark c b) as [x|] eqn:E; simpl; auto.
  destruct (Js.isFinite (psqft x)); auto.
  rewrite (Math_max_zero_nonpos _ (H x (findBand_In _ _ _ _ E))). auto.
Qed.

Lemma getMedium_nonpos benchmark c :
  (forall x, In x (bands benchmark) -> (psqft x <=? 0)%float = true) ->
  getMediumPsqftOrFallback benchmark c = 0%float.
Proof.
  intros H. unfold getMediumPsqftOrFallback.
  destruct (usablePsqft_nonpos benchmark c MEDIUM H) as [-> | ->]; auto.
  destruct (usablePsqft_nonpos benchmark c LOW H) as [-> | ->];
    destruct (usablePsqft_nonpos benchmark c HIGH H) as [-> | ->]; reflexivity.
Qed.

(** C8: when every unit cost of the benchmark is zero or negative, every
    category's implied share is 1/7. *)
Theorem equal_weight_fallback (benchmark : BenchmarkSet) :
  (forall x, In x (bands benchmark) -> (psqft x <=? 0)%float = true) ->
  forall c, rec_get c (computeImpliedMediumAllocationShares benchmark)
            = Some (1 / 7)%float.
Proof.
  intros H c. unfold computeImpliedMediumAllocationShares, collectMedium.
  unfold VMX_CATEGORIES. cbn [fold_left id fst snd].
  rewrite !(getMedium_nonpos benchmark _ H).
  destruct c; reflexivity.
Qed.

Lemma equal_weight_fallback_witness :
  rec_get SERVICES
    (computeImpliedMediumAllocationShares
       {| benchmark_id := "z"; name := "z"; currency := "USD";
          bands := [ {| band_categoryId := SERVICES; band_band := MEDIUM; psqft := (-3)%float |};
                     {| band_categoryId := FF_E; band_band := LOW; psqft := 0%float |} ];
          targetRanges := None |})
  = Some (1 / 7)%float.
Proof.
  apply equal_weight_fallback. simpl.
  intros x [<- | [<- | []]]; reflexivity.
Defined.

(** *** Costs and the total check *)

Lemma mapM_Forall2 {E A B} (f : A -> result E B) xs ys :
  mapM f xs = Ok ys -> Forall2 (fun x y => f x = Ok y) xs ys.
Proof.
  revert ys. induction xs as [|x xs IH]; simpl; intros ys.
  - intros [= <-]. constructor.
  - destruct (f x) eqn:Fx; simpl; [|discriminate].
    destruct (mapM f xs); simpl; [|discriminate].
    intros [= <-]. constructor; auto.
Qed.

Lemma mapM_total {E A B} (f : A -> result E B) xs :
  (forall x, In x xs -> exists y, f x = Ok y) -> exists ys, mapM f xs = Ok ys.
Proof.
  induction xs as [|x xs IH]; simpl; intros H; eauto.
  destruct (H x (or_introl eq_refl)) as [y ->].
  destruct IH as [ys ->]; [intros; apply H; auto|].
  simpl. eauto.
Qed.

Lemma mapM_throws {E A B} (f : A -> result E B) xs x e :
  In x xs -> f x = Throw e -> exists e', mapM f xs = Throw e'.
Proof.
  induction xs as [|x0 xs IH]; simpl; [tauto|].
  intros [-> | Hin] Hx.
  - rewrite Hx. simpl. eauto.
  - destruct (f x0); simpl; eauto.
    destruct (IH Hin Hx) as [e' ->]. simpl. eauto.
Qed.

Lemma category_listed c : exists cat, In cat VMX_CATEGORIES /\ id cat = c.
Proof.
  assert (H : In c (map id VMX_CATEGORIES)) by (destruct c; simpl; auto 10).
  apply in_map_iff in H. destruct H as (cat & E & H). eauto.
Qed.

Lemma validArea_positive a :
  validArea a = true -> exists m e, Prim2SF a = S754_finite false m e.
Proof.
  unfold validArea, Js.isFinite. rewrite is_finite_spec, ltb_spec, Prim2SF_zero.
  unfold SFltb. destruct (Prim2SF a) as [[]|[]| |[] m e]; simpl; try discriminate; eauto.
Qed.

Lemma mul_zero a z : validArea a = true -> isZero z -> (a * z)%float = z.
Proof.
  intros Ha Hz. destruct (validArea_positive a Ha) as (m & e & E).
  apply Prim2SF_inj. rewrite mul_spec, E.
  destruct Hz as [-> | ->]; reflexivity.
Qed.

Lemma add_zero z : isZero z -> (0 + z)%float = 0%float.
Proof. intros [-> | ->]; reflexivity. Qed.

Lemma eqb_zero_isZero x : (x =? 0)%float = true -> isZero x.
Proof.
  intros H. apply eqb_sym in H. apply eq_zero_cases.
  - apply eqb_leb, H.
  - apply leb_ltb_false, eqb_leb, eqb_sym, H.
Qed.

Lemma sumCosts_zero interim :
  Forall (fun r => isZero (int_cost r)) interim -> sumCosts interim = 0%float.
Proof.
  unfold sumCosts. induction 1 as [|r rs Hr _ IH]; simpl; auto.
  rewrite (add_zero _ Hr). exact IH.
Qed.

Lemma computeScenarioResult_valid a b s :
  validArea a = true ->
  computeScenarioResult a b s =
    (interim <- mapM (interimFor a b (selectionMap s) (ensureCompleteTargetRanges b))
                     VMX_CATEGORIES ;;
     if (sumCosts interim <=? 0)%float then Throw NonPositiveTotal
     else Ok {| areaSqft := a; res_currency := currency b;
                totalCost := sumCosts interim;
                totalPsqft := (sumCosts interim / a)%float;
                categories := map (categoryResult (sumCosts interim)) interim |}).
Proof.
  intros H. unfold computeScenarioResult. rewrite area_check, H. reflexivity.
Qed.

Lemma computeScenarioResult_Ok_area a b s res :
  computeScenarioResult a b s = Ok res -> validArea a = true.
Proof.
  unfold computeScenarioResult. rewrite area_check.
  destruct (validArea a); simpl; [auto|discriminate].
Qed.

(** C5 as stated fails when a selection overrides the unit cost: with an
    all-zero benchmark, a valid area, complete selections and all bands
    present, an override of 100 makes the total positive and a result is
    returned. *)
Lemma zero_benchmark_with_override_succeeds :
  (forall x, In x (bands zeroBenchmark) -> psqft x = 0%float) /\
  (forall c, exists sel, selectionFor overriddenSelections c = Some sel /\
                         findBand zeroBenchmark c (sel_band sel) <> None) /\
  exists res, computeScenarioResult 1000 zeroBenchmark overriddenSelections = Ok res /\
              totalCost res = 100000%float.
Proof.
  split; [|split].
  - intros x Hx. simpl in Hx.
    repeat (destruct Hx as [<- | Hx]; [reflexivity|]). destruct Hx.
  - intros c. destruct c; eexists; (split; [reflexivity|discriminate]).
  - eexists. split; [vm_compute; reflexivity|reflexivity].
Qed.

Lemma fold_left_map {A B C} (g : A -> B -> A) (f : C -> B) l : forall a,
  fold_left g (map f l) a = fold_left (fun a x => g a (f x)) l a.
Proof. induction l as [|x l IH]; simpl; auto. Qed.

Lemma sumCosts_fsum interim : sumCosts interim = fsum (map int_cost interim).
Proof. unfold fsum, sumCosts. symmetry. apply fold_left_map. Qed.

Lemma interimFor_categoryCost a b s rs cat c :
  categoryCost a b s (id cat) = Some c ->
  exists r, interimFor a b (selectionMap s) rs cat = Ok r /\ int_cost r = c.
Proof.
  unfold categoryCost, interimFor, requireBand. fold (selectionFor s (id cat)).
  destruct (selectionFor s (id cat)) as [sel|]; [|discriminate].
  destruct (findBand b (id cat) (sel_band sel)) as [base|]; [|discriminate].
  intros [= <-]. cbn [bind]. eexists. split; reflexivity.
Qed.

(** When every category has a cost, the mapping over the categories
    succeeds and collects exactly those costs. *)
Lemma interim_costs a b s rs cats : forall costs,
  map (categoryCost a b s) (map id cats) = map Some costs ->
  exists interim,
    mapM (interimFor a b (selectionMap s) rs) cats = Ok interim /\
    map int_cost interim = costs.
Proof.
  induction cats as [|cat cats IH]; intros [|c costs]; cbn [map]; try discriminate.
  - intros _. exists []. split; reflexivity.
  - intros [= Hc Hrest].
    destruct (interimFor_categoryCost a b s rs cat c Hc) as (r & Hr & <-).
    destruct (IH costs Hrest) as (interim & Hi & <-).
    exists (r :: interim). cbn [mapM]. rewrite Hr, Hi. split; reflexivity.
Qed.

(** C5, amended: once the area, selection and band checks have passed, a
    sum of the category costs that is [<= 0] makes [computeScenarioResult]
    throw the non-positive-total error; in particular it does for a
    benchmark whose every unit cost is 0 when no selection carries an
    override. *)
Theorem non_positive_total (areaSqft : float) (benchmark : BenchmarkSet)
  (selections : list ScenarioSelection) :
  validArea areaSqft = true ->
  (forall costs,
      map (categoryCost areaSqft benchmark selections) (map id VMX_CATEGORIES)
        = map Some costs ->
      (fsum costs <=? 0)%float = true ->
      computeScenarioResult areaSqft benchmark selections = Throw NonPositiveTotal) /\
  (completeSelections selections ->
   bandsPresent benchmark selections ->
   noOverride selections ->
   (forall x, In x (bands benchmark) -> (psqft x =? 0)%float = true) ->
   computeScenarioResult areaSqft benchmark selections = Throw NonPositiveTotal).
Proof.
  intros Ha. rewrite (computeScenarioResult_valid _ _ _ Ha). split.
  - intros costs Hc L.
    destruct (interim_costs _ _ _ (ensureCompleteTargetRanges benchmark) _ _ Hc)
      as (interim & -> & <-).
    cbn [bind]. rewrite sumCosts_fsum, L. reflexivity.
  - intros Hc Hb Hn Hz.
    set (f := interimFor _ _ _ _).
    assert (T : forall cat, exists r, f cat = Ok r /\ isZero (int_cost r)).
    { intros cat. unfold f, interimFor. fold (selectionFor selections (id cat)).
      destruct (selectionFor selections (id cat)) as [sel|] eqn:S.
      2: { destruct (Hc _ S). }
      unfold requireBand.
      destruct (findBand benchmark (id cat) (sel_band sel)) as [base|] eqn:B.
      2: { destruct (Hb _ _ S B). }
      cbn [bind]. eexists. split; [reflexivity|]. cbn [int_cost].
      rewrite (Hn _ _ S). cbn [Js.nullish].
      pose proof (eqb_zero_isZero _ (Hz _ (findBand_In _ _ _ _ B))) as Z.
      rewrite (mul_zero _ _ Ha Z). exact Z. }
    destruct (mapM_total f VMX_CATEGORIES) as [interim M].
    { intros cat _. destruct (T cat) as (r & Hr & _). eauto. }
    rewrite M. cbn [bind].
    assert (Z : Forall (fun r => isZero (int_cost r)) interim).
    { apply mapM_Forall2 in M. clear - M T.
      induction M as [|cat r cats rs H _ IH]; constructor; auto.
      destruct (T cat) as (r' & Hr' & Z). congruence. }
    rewrite (sumCosts_zero _ Z). reflexivity.
Qed.

Lemma non_positive_total_witness :
  computeScenarioResult 1000 zeroBenchmark plainSelections = Throw NonPositiveTotal /\
  computeScenarioResult 1000 demoBenchmark
    (selectAll LOW (fun c => match c with
                             | FACILITATING => Some (-2000)%float
                             | _ => None
                             end))
  = Throw NonPositiveTotal.
Proof.
  split.
  - apply (proj2 (non_positive_total 1000 zeroBenchmark plainSelections eq_refl)).
    + intros c. destruct c; discriminate.
    + intros c sel. destruct c; intros [= <-]; discriminate.
    + intros c sel. destruct c; intros [= <-]; reflexivity.
    + intros x Hx. simpl in Hx.
      repeat (destruct Hx as [<- | Hx]; [reflexivity|]). destruct Hx.
  - apply (proj1 (non_positive_total 1000 demoBenchmark _ eq_refl)
                 [-2000000; 63000; 280000; 220000; 120000; 140000; 90000]%float);
      reflexivity.
Defined.

(** *** Overrides and missing bands *)

Lemma interimFor_Ok a b s rs cat r total :
  validArea a = true ->
  interimFor a b (selectionMap s) rs cat = Ok r ->
  resolvedBy a b s cat (categoryResult total r).
Proof.
  intros Ha. unfold interimFor, requireBand. fold (selectionFor s (id cat)).
  destruct (selectionFor s (id cat)) as [sel|] eqn:S; [|discriminate].
  destruct (findBand b (id cat) (sel_band sel)) as [base|] eqn:B; [|discriminate].
  cbn [bind]. intros [= <-]. exists sel, base.
  unfold categoryResult.
  cbn [res_categoryId res_band psqftUsed cost int_categoryId int_band int_psqftUsed int_cost].
  split; [exact S|]. split; [exact B|].
  repeat (split; [reflexivity|]).
  intros H. rewrite H. cbn [Js.nullish]. split; [reflexivity|].
  apply (mul_zero a 0 Ha). left; reflexivity.
Qed.

(** C10: whenever a result is returned, each category's unit cost is the
    selection's override when one is given, also when it is 0 (then the cost
    is 0 too), and the band's unit cost only when the override is absent;
    and when the selections are complete but a selected band is missing from
    the benchmark, the call throws the missing-band error for such a
    selection, override or not. *)
Theorem override_zero_honoured (areaSqft : float) (benchmark : BenchmarkSet)
  (selections : list ScenarioSelection) :
  (forall res,
      computeScenarioResult areaSqft benchmark selections = Ok res ->
      Forall2 (resolvedBy areaSqft benchmark selections) VMX_CATEGORIES (categories res)) /\
  (validArea areaSqft = true ->
   completeSelections selections ->
   (exists c sel, selectionFor selections c = Some sel /\
                  findBand benchmark c (sel_band sel) = None) ->
   exists c sel,
     selectionFor selections c = Some sel /\
     findBand benchmark c (sel_band sel) = None /\
     computeScenarioResult areaSqft benchmark selections
     = Throw (MissingBand c (sel_band sel))).
Proof.
  split.
  - intros res H. pose proof (computeScenarioResult_Ok_area _ _ _ _ H) as Ha.
    rewrite (computeScenarioResult_valid _ _ _ Ha) in H.
    destruct (mapM _ VMX_CATEGORIES) as [interim|] eqn:M; [|discriminate].
    cbn [bind] in H. destruct (sumCosts interim <=? 0)%float; [discriminate|].
    injection H as <-. cbn [categories].
    apply mapM_Forall2 in M. generalize (sumCosts interim). intros total.
    induction M as [|cat r cats rs H _ IH]; cbn [map]; constructor; auto.
    apply (interimFor_Ok _ _ _ _ _ _ _ Ha H).
  - intros Ha Hc (c & sel & S & B).
    rewrite (computeScenarioResult_valid _ _ _ Ha).
    destruct (category_listed c) as (cat & Hin & <-).
    set (f := interimFor _ _ _ _).
    assert (T : f cat = Throw (MissingBand (id cat) (sel_band sel))).
    { unfold f, interimFor, requireBand. fold (selectionFor selections (id cat)).
      rewrite S, B. reflexivity. }
    destruct (mapM_throws f _ _ _ Hin T) as [e M]. rewrite M. cbn [bind].
    apply mapM_error in M. destruct M as (cat' & _ & E).
    unfold f, interimFor, requireBand in E.
    fold (selectionFor selections (id cat')) in E.
    destruct (selectionFor selections (id cat')) as [sel'|] eqn:S'.
    + destruct (findBand benchmark (id cat') (sel_band sel')) eqn:B';
        cbn [bind] in E; [discriminate|].
      injection E as <-. exists (id cat'), sel'. auto.
    + destruct (Hc _ S').
Qed.

Lemma override_zero_honoured_witness :
  (exists res,
      computeScenarioResult 1000 demoBenchmark zeroOverrideSelections = Ok res /\
      map psqftUsed (categories res) = [106; 390; 780; 720; 420; 0; 300]%float /\
      map cost (categories res)
      = [106000; 390000; 780000; 720000; 420000; 0; 300000]%float /\
      Forall2 (resolvedBy 1000 demoBenchmark zeroOverrideSelections)
              VMX_CATEGORIES (categories res)) /\
  (exists c sel,
      selectionFor zeroOverrideSelections c = Some sel /\
      overridePsqft sel = Some 0%float /\
      computeScenarioResult 1000 missingBandBenchmark zeroOverrideSelections
      = Throw (MissingBand c (sel_band sel))).
Proof.
  split.
  - destruct (computeScenarioResult 1000 demoBenchmark zeroOverrideSelections)
      as [res|e] eqn:E.
    + exists res. split; [reflexivity|].
      pose proof (proj1 (override_zero_honoured 1000 demoBenchmark zeroOverrideSelections)
                        res E) as R.
      vm_compute in E. injection E as <-.
      split; [reflexivity|]. split; [reflexivity|]. exact R.
    + vm_compute in E. discriminate E.
  - destruct (proj2 (override_zero_honoured 1000 missingBandBenchmark zeroOverrideSelections))
      as (c & sel & S & B & T).
    + reflexivity.
    + intros c. destruct c; discriminate.
    + exists SERVICES. eexists. split; reflexivity.
    + exists c, sel. split; [exact S|]. split; [|exact T].
      destruct c; vm_compute in S; injection S as <-; try reflexivity; discriminate B.
Defined.

(** The worked scenario of the specification: the implied Medium shares of
    unit costs 50, 250, 500, 450, 250, 270, 180 are within 0.001 of the
    listed ones; with an area of 10,000 and every selection at MEDIUM the
    total is 19,500,000 and every percentage is the implied share. *)
Lemma worked_scenario :
  forallb (fun p => (abs (fst p - snd p) <=? 0.001)%float)
          (combine (shareValues (computeImpliedMediumAllocationShares scenarioBenchmark))
                   [0.0256; 0.1282; 0.2564; 0.2308; 0.1282; 0.1385; 0.0923]%float) = true /\
  exists res,
    computeScenarioResult 10000 scenarioBenchmark plainSelections = Ok res /\
    totalCost res = 19500000%float /\
    map pctOfTotal (categories res)
    = shareValues (computeImpliedMediumAllocationShares scenarioBenchmark).
Proof.
  split; [reflexivity|].
  destruct (computeScenarioResult 10000 scenarioBenchmark plainSelections) as [res|e] eqn:E;
    vm_compute in E; [|discriminate E].
  exists res. injection E as <-. repeat split.
Qed.

(* ================================================================= *)
(** ** Rounding error of binary64 sums and quotients                 *)
(* ================================================================= *)

Local Open Scope R_scope.

(** *** Powers of two and the number of digits *)

Module Bpow.

Lemma bpow_gt_0 e : 0 < bpow e.
Proof. apply powerRZ_lt. lra. Qed.

Lemma bpow_add a b : bpow (a + b) = bpow a * bpow b.
Proof. apply powerRZ_add. lra. Qed.

Lemma bpow_0 : bpow 0 = 1.
Proof. reflexivity. Qed.

Lemma bpow_1 : bpow 1 = 2.
Proof. unfold bpow. simpl. lra. Qed.

Lemma bpow_m1 : bpow (-1) = / 2.
Proof. unfold bpow. simpl. rewrite Rmult_1_r. reflexivity. Qed.

Lemma bpow_succ e : bpow (e + 1) = 2 * bpow e.
Proof. rewrite bpow_add, bpow_1. lra. Qed.

Lemma bpow_pred e : bpow (e - 1) = bpow e / 2.
Proof.
  replace (e - 1)%Z with (e + -1)%Z by lia. rewrite bpow_add, bpow_m1. lra.
Qed.

Lemma bpow_IZR e : (0 <= e)%Z -> bpow e = IZR (2 ^ e).
Proof.
  intros H. pattern e. apply natlike_ind; auto.
  intros x Hx IH. unfold Z.succ. rewrite bpow_succ, IH, Z.pow_add_r by lia.
  rewrite mult_IZR. change (2 ^ 1)%Z with 2%Z. lra.
Qed.

Lemma bpow_ge_1 e : (0 <= e)%Z -> 1 <= bpow e.
Proof.
  intros H. rewrite bpow_IZR by auto. apply IZR_le.
  assert (0 < 2 ^ e)%Z by (apply Z.pow_pos_nonneg; lia). lia.
Qed.

Lemma bpow_le a b : (a <= b)%Z -> bpow a <= bpow b.
Proof.
  intros H. replace b with (a + (b - a))%Z by lia. rewrite bpow_add.
  pose proof (bpow_gt_0 a). pose proof (bpow_ge_1 (b - a) ltac:(lia)). nra.
Qed.

Lemma bpow_lt a b : (a < b)%Z -> bpow a < bpow b.
Proof.
  intros H. apply Rlt_le_trans with (bpow (a + 1)).
  - rewrite bpow_succ. pose proof (bpow_gt_0 a). lra.
  - apply bpow_le. lia.
Qed.

Lemma bpow_opp e : bpow (- e) = / bpow e.
Proof.
  pose proof (bpow_gt_0 e). apply Rmult_eq_reg_l with (bpow e); [|lra].
  rewrite <- bpow_add, Z.add_opp_diag_r, bpow_0. field. lra.
Qed.

End Bpow.
Import Bpow.

Module Digits.

Lemma digits2_pos_bounds p :
  (2 ^ (Zpos (digits2_pos p) - 1) <= Zpos p < 2 ^ Zpos (digits2_pos p))%Z.
Proof.
  induction p as [p IH|p IH|]; simpl digits2_pos.
  - rewrite Pos2Z.inj_succ. replace (Z.succ (Zpos (digits2_pos p)) - 1)%Z
      with (Z.succ (Zpos (digits2_pos p) - 1)) by lia.
    rewrite !Z.pow_succ_r by lia. lia.
  - rewrite Pos2Z.inj_succ. replace (Z.succ (Zpos (digits2_pos p)) - 1)%Z
      with (Z.succ (Zpos (digits2_pos p) - 1)) by lia.
    rewrite !Z.pow_succ_r by lia. lia.
  - simpl. lia.
Qed.

(** [2^(d-1) <= m < 2^d] as real numbers, for a positive [m] of [d] digits. *)
Lemma digits_bpow p :
  bpow (Zpos (digits2_pos p) - 1) <= IZR (Zpos p) < bpow (Zpos (digits2_pos p)).
Proof.
  pose proof (digits2_pos_bounds p) as [L U].
  rewrite !Bpow.bpow_IZR by lia. split; [apply IZR_le|apply IZR_lt]; auto.
Qed.

(** A positive integer below [2^k] has at most [k] digits; one at least
    [2^(k-1)] has at least [k]. *)
Lemma digits_le p k : (Zpos p < 2 ^ k)%Z -> (0 <= k)%Z -> (Zpos (digits2_pos p) <= k)%Z.
Proof.
  intros H Hk. pose proof (digits2_pos_bounds p) as [L _].
  destruct (Z_le_gt_dec (Zpos (digits2_pos p)) k) as [|G]; auto.
  assert (2 ^ k <= 2 ^ (Zpos (digits2_pos p) - 1))%Z by (apply Z.pow_le_mono_r; lia).
  lia.
Qed.

Lemma digits_ge p k : (2 ^ (k - 1) <= Zpos p)%Z -> (Zpos (digits2_pos p) >= k)%Z.
Proof.
  intros H. pose proof (digits2_pos_bounds p) as [_ U].
  destruct (Z_lt_ge_dec (Zpos (digits2_pos p)) k) as [G|]; auto.
  assert (2 ^ Zpos (digits2_pos p) <= 2 ^ (k - 1))%Z by (apply Z.pow_le_mono_r; lia).
  lia.
Qed.

End Digits.
Import Digits.

(** *** Shifting a mantissa right and rounding it *)

Module Shift.

Lemma IZR_xI p : IZR (Zpos p~1) = 2 * IZR (Zpos p) + 1.
Proof. rewrite Pos2Z.inj_xI, plus_IZR, mult_IZR. reflexivity. Qed.

Lemma IZR_xO p : IZR (Zpos p~0) = 2 * IZR (Zpos p).
Proof. rewrite Pos2Z.inj_xO, mult_IZR. reflexivity. Qed.

Lemma located_bounds x mrs :
  located x mrs -> IZR (shr_m mrs) <= x < IZR (shr_m mrs) + 1.
Proof.
  unfold located. destruct (shr_r mrs), (shr_s mrs); intros; lra.
Qed.

Lemma shr_1_located x mrs :
  (0 <= shr_m mrs)%Z -> located x mrs ->
  located (x / 2) (shr_1 mrs) /\ (0 <= shr_m (shr_1 mrs))%Z.
Proof.
  destruct mrs as [m r s]. unfold located. cbn [shr_m shr_r shr_s].
  intros Hm.
  destruct m as [|[p|p|]|p]; [| | | |lia].
  - destruct r, s; cbn [shr_1 orb shr_m shr_r shr_s]; intros H; (split; [lra|lia]).
  - destruct r, s; cbn [shr_1 orb shr_m shr_r shr_s]; rewrite IZR_xI; intros H;
      (split; [lra|lia]).
  - destruct r, s; cbn [shr_1 orb shr_m shr_r shr_s]; rewrite IZR_xO; intros H;
      (split; [lra|lia]).
  - destruct r, s; cbn [shr_1 orb shr_m shr_r shr_s]; intros H; (split; [lra|lia]).
Qed.

Lemma iter_shr_1_located p : forall x mrs,
  (0 <= shr_m mrs)%Z -> located x mrs ->
  located (x / bpow (Zpos p)) (SpecFloat.iter_pos shr_1 p mrs) /\
  (0 <= shr_m (SpecFloat.iter_pos shr_1 p mrs))%Z.
Proof.
  induction p as [p IH|p IH|]; intros x mrs Hm Hx; simpl SpecFloat.iter_pos.
  - destruct (shr_1_located x mrs Hm Hx) as [H1 M1].
    destruct (IH _ _ M1 H1) as [H2 M2].
    destruct (IH _ _ M2 H2) as [H3 M3].
    split; auto.
    replace (x / bpow (Zpos p~1)) with (x / 2 / bpow (Zpos p) / bpow (Zpos p)); auto.
    rewrite Pos2Z.inj_xI. replace (2 * Zpos p + 1)%Z with (Zpos p + Zpos p + 1)%Z by lia.
    rewrite !bpow_add, bpow_1. pose proof (bpow_gt_0 (Zpos p)). field. lra.
  - destruct (IH _ _ Hm Hx) as [H2 M2].
    destruct (IH _ _ M2 H2) as [H3 M3].
    split; auto.
    replace (x / bpow (Zpos p~0)) with (x / bpow (Zpos p) / bpow (Zpos p)); auto.
    rewrite Pos2Z.inj_xO. replace (2 * Zpos p)%Z with (Zpos p + Zpos p)%Z by lia.
    rewrite !bpow_add. pose proof (bpow_gt_0 (Zpos p)). field. lra.
  - destruct (shr_1_located x mrs Hm Hx) as [H1 M1]. split; auto.
    change (bpow 1) with (powerRZ 2 1). simpl. rewrite Rmult_1_r. exact H1.
Qed.

(** Shifting right by [n] places: the exponent grows by [n] and the record
    locates the scaled-down real. *)
Lemma shr_located x mrs e n :
  (0 <= shr_m mrs)%Z -> located x mrs ->
  let n' := Z.max n 0 in
  located (x / bpow n') (fst (shr mrs e n)) /\
  (0 <= shr_m (fst (shr mrs e n)))%Z /\
  snd (shr mrs e n) = (e + n')%Z.
Proof.
  intros Hm Hx n'. subst n'. destruct n as [|p|p]; unfold shr; cbn [fst snd].
  - change (Z.max 0 0) with 0%Z.
    rewrite bpow_0, Z.add_0_r. replace (x / 1) with x by field. auto.
  - change (Z.max (Zpos p) 0) with (Zpos p).
    destruct (iter_shr_1_located p x mrs Hm Hx). auto.
  - change (Z.max (Zneg p) 0) with 0%Z.
    rewrite bpow_0, Z.add_0_r. replace (x / 1) with x by field. auto.
Qed.

Lemma shr_record_of_loc_m m l : shr_m (shr_record_of_loc m l) = m.
Proof. destruct l as [|[]]; reflexivity. Qed.

Lemma loc_of_shr_record_of_loc m l : loc_of_shr_record (shr_record_of_loc m l) = l.
Proof. destruct l as [|[]]; reflexivity. Qed.

(** Rounding to nearest, ties to even, is within half a unit. *)
Lemma round_nearest_even_located x mrs :
  located x mrs ->
  let m' := round_nearest_even (shr_m mrs) (loc_of_shr_record mrs) in
  - / 2 <= IZR m' - x <= / 2 /\ (shr_m mrs <= m' <= shr_m mrs + 1)%Z.
Proof.
  destruct mrs as [m r s]. unfold located. simpl.
  destruct r, s; simpl; intros H.
  - rewrite plus_IZR. split; [|lia]. lra.
  - destruct (Z.even m); [|rewrite plus_IZR]; (split; [|lia]); lra.
  - split; [|lia]. lra.
  - split; [|lia]. lra.
Qed.

End Shift.
Import Shift.

(** *** Renormalising a rounded mantissa *)

Module Round.

Lemma fexp64_eq e : fexp64 e = Z.max (e - 53) (-1074).
Proof. reflexivity. Qed.

Lemma binary_round_aux_unfold sx mx ex lx :
  binary_round_aux prec emax sx mx ex lx =
  let mrs' := fst (shr_fexp prec emax mx ex lx) in
  let e' := snd (shr_fexp prec emax mx ex lx) in
  finish_round sx (round_nearest_even (shr_m mrs') (loc_of_shr_record mrs')) e'.
Proof.
  unfold binary_round_aux, finish_round.
  destruct (shr_fexp prec emax mx ex lx) as [mrs' e']. reflexivity.
Qed.

Lemma pow2_53 : (2 ^ 53 = 9007199254740992)%Z.
Proof. reflexivity. Qed.

Lemma pow2_52 : (2 ^ 52 = 4503599627370496)%Z.
Proof. reflexivity. Qed.

(** Renormalisation: the mantissa is at most [2^53]; only [2^53] itself
    needs one more shift. *)
Lemma finish_round_spec sx m e :
  (0 <= m <= 2 ^ 53)%Z -> (-1074 <= e)%Z ->
  finish_round sx m e =
    match m with
    | Z0 => S754_zero sx
    | Zpos p =>
        if (m =? 2 ^ 53)%Z
        then (if (e + 1 <=? 971)%Z then S754_finite sx 4503599627370496 (e + 1)
              else S754_infinity sx)
        else (if (e <=? 971)%Z then S754_finite sx p e else S754_infinity sx)
    | Zneg _ => S754_nan
    end.
Proof.
  intros Hm He. unfold finish_round, shr_fexp.
  destruct m as [|p|p]; try lia.
  - simpl Zdigits2. cbn [shr_record_of_loc].
    change (SpecFloat.fexp prec emax (0 + e)) with (fexp64 (0 + e)).
    rewrite fexp64_eq.
    destruct (Z.max (0 + e - 53) (-1074) - e)%Z eqn:E; try reflexivity; lia.
  - cbn [Zdigits2 shr_record_of_loc].
    change (SpecFloat.fexp prec emax (Zpos (digits2_pos p) + e))
      with (fexp64 (Zpos (digits2_pos p) + e)).
    rewrite fexp64_eq.
    destruct (Z.eqb_spec (Zpos p) (2 ^ 53)) as [E|N].
    + injection E as ->. simpl digits2_pos.
      replace (Z.max (54 + e - 53) (-1074) - e)%Z with 1%Z by lia.
      reflexivity.
    + assert (D : (Zpos (digits2_pos p) <= 53)%Z) by (apply digits_le; lia).
      destruct (Z.max (Zpos (digits2_pos p) + e - 53) (-1074) - e)%Z eqn:E; try lia;
        reflexivity.
Qed.

End Round.
Import Round.

(** *** The first stage of rounding *)

Section RoundAux.
Variables (mx ex : Z) (lx : location) (x : R).
Hypothesis Hmx : (0 <= mx)%Z.
Hypothesis Hloc : located x (shr_record_of_loc mx lx).
Hypothesis Hfine : (ex <= fexp64 (Zdigits2 mx + ex))%Z.

Let ef := fexp64 (Zdigits2 mx + ex).
Let mrs' := fst (shr_fexp prec emax mx ex lx).
Let m' := round_nearest_even (shr_m mrs') (loc_of_shr_record mrs').

Lemma x_below_digits : IZR mx <= x < bpow (Zdigits2 mx).
Proof.
  pose proof (located_bounds _ _ Hloc) as B. rewrite shr_record_of_loc_m in B.
  split; [tauto|].
  destruct mx as [|p|p]; [| |lia].
  - simpl Zdigits2. rewrite bpow_0. lra.
  - simpl Zdigits2. pose proof (digits2_pos_bounds p) as [_ U].
    rewrite bpow_IZR by lia.
    apply Rlt_le_trans with (IZR (Zpos p) + 1); [tauto|].
    rewrite <- plus_IZR. apply IZR_le. lia.
Qed.

Lemma first_stage :
  snd (shr_fexp prec emax mx ex lx) = ef /\
  (0 <= m' <= 2 ^ 53)%Z /\
  - (bpow ef / 2) <= IZR m' * bpow ef - x * bpow ex <= bpow ef / 2 /\
  ((-1074 < ef)%Z -> (2 ^ 52 <= m')%Z) /\
  (lx = loc_Exact -> ef = ex -> m' = mx).
Proof.
  assert (Hm0 : (0 <= shr_m (shr_record_of_loc mx lx))%Z)
    by (rewrite shr_record_of_loc_m; exact Hmx).
  pose proof (shr_located x _ ex (ef - ex) Hm0 Hloc) as S.
  cbv zeta in S. replace (Z.max (ef - ex) 0) with (ef - ex)%Z in S by (unfold ef; lia).
  change (shr (shr_record_of_loc mx lx) ex (ef - ex)) with (shr_fexp prec emax mx ex lx) in S.
  fold mrs' in S. destruct S as (L1 & M1 & E1).
  replace (ex + (ef - ex))%Z with ef in E1 by lia.
  pose proof (located_bounds _ _ L1) as B1.
  pose proof (round_nearest_even_located _ _ L1) as R. cbv zeta in R. fold m' in R.
  destruct R as [R1 R2].
  pose proof x_below_digits as [X1 X2].
  pose proof (bpow_gt_0 (ef - ex)) as Pn.
  pose proof (bpow_gt_0 ef) as Pf.
  pose proof (bpow_gt_0 ex) as Px.
  assert (Ef : bpow ef = bpow ex * bpow (ef - ex)).
  { rewrite <- bpow_add. f_equal. lia. }
  set (y := x / bpow (ef - ex)) in *.
  assert (Xy : x = y * bpow (ef - ex)) by (unfold y; field; lra).
  assert (D53 : (Zdigits2 mx - (ef - ex) <= 53)%Z) by (unfold ef; rewrite fexp64_eq; lia).
  assert (Ybound : y < bpow 53).
  { apply Rlt_le_trans with (bpow (Zdigits2 mx - (ef - ex))); [|apply bpow_le; lia].
    replace (bpow (Zdigits2 mx - (ef - ex))) with (bpow (Zdigits2 mx) / bpow (ef - ex)).
    - unfold y. apply Rmult_lt_compat_r; [apply Rinv_0_lt_compat; lra|lra].
    - replace (Zdigits2 mx - (ef - ex))%Z with (Zdigits2 mx + - (ef - ex))%Z by lia.
      rewrite bpow_add, bpow_opp. reflexivity. }
  assert (M53 : (shr_m mrs' < 2 ^ 53)%Z).
  { apply lt_IZR. rewrite <- bpow_IZR by lia. lra. }
  split; [exact E1|]. split; [lia|]. split; [|split].
  - rewrite Xy, Ef. nra.
  - intros Hgt.
    assert (Eq : ef = (Zdigits2 mx + ex - 53)%Z) by (unfold ef in *; rewrite fexp64_eq in *; lia).
    destruct mx as [|p|p] eqn:Emx; [|clear Hmx|lia].
    + exfalso. simpl Zdigits2 in *. unfold ef in *. rewrite fexp64_eq in *. simpl Zdigits2 in *. lia.
    + simpl Zdigits2 in *.
      pose proof (digits_bpow p) as [L _].
      assert (Y52 : bpow 52 <= y).
      { replace 52%Z with ((Zpos (digits2_pos p) - 1) + - (ef - ex))%Z by lia.
        rewrite bpow_add, bpow_opp. unfold y.
        apply Rmult_le_compat_r; [left; apply Rinv_0_lt_compat; lra|lra]. }
      assert (shr_m mrs' + 1 > 2 ^ 52)%Z; [|lia].
      apply Z.lt_gt, lt_IZR. rewrite plus_IZR, <- bpow_IZR by lia. lra.
  - intros -> E. unfold m', mrs', shr_fexp.
    change (SpecFloat.fexp prec emax (Zdigits2 mx + ex)) with ef.
    rewrite E, Z.sub_diag. reflexivity.
Qed.

End RoundAux.

(** *** Rounding to binary64 *)

Lemma bpow_52 : bpow 52 = 4503599627370496.
Proof. rewrite bpow_IZR by lia. reflexivity. Qed.

Lemma bpow_53 : bpow 53 = 9007199254740992.
Proof. rewrite bpow_IZR by lia. reflexivity. Qed.

Lemma located_of_exact x m : located x (shr_record_of_loc m loc_Exact) -> x = IZR m.
Proof. exact (fun H => H). Qed.

(** Rounding a non-negative real, given by an integer mantissa and the
    location of the remainder, to binary64: the result is within half a unit
    in the last place, exact when nothing had to be shifted out, and
    infinite only for reals above [2^1023]. *)
Lemma binary_round_aux_correct mx ex lx x :
  (0 <= mx)%Z ->
  located x (shr_record_of_loc mx lx) ->
  (ex <= fexp64 (Zdigits2 mx + ex))%Z ->
  let z := binary_round_aux prec emax false mx ex lx in
  let ef := fexp64 (Zdigits2 mx + ex) in
  let r := x * bpow ex in
  match z with
  | S754_infinity false => bpow 1023 < r
  | S754_zero false | S754_finite false _ _ =>
      - (bpow ef / 2) <= SF2R z - r <= bpow ef / 2 /\
      (lx = loc_Exact -> ef = ex -> SF2R z = r)
  | _ => False
  end.
Proof.
  intros Hmx Hloc Hfine z ef r. subst z.
  rewrite binary_round_aux_unfold. cbv zeta.
  destruct (first_stage mx ex lx x Hmx Hloc Hfine) as (E & Mb & Err & Norm & Exact).
  fold ef in E, Err, Norm, Exact. rewrite E.
  set (m' := round_nearest_even _ _) in *.
  assert (Emin : (-1074 <= ef)%Z) by (unfold ef; rewrite fexp64_eq; lia).
  rewrite (finish_round_spec false m' ef Mb Emin).
  pose proof (bpow_gt_0 ef) as Pf.
  fold r in Err.
  destruct m' as [|p|p] eqn:Em; [| |lia].
  - unfold SF2R. split; [lra|].
    intros Hl He. specialize (Exact Hl He). unfold r.
    pose proof (located_bounds _ _ Hloc) as B. rewrite shr_record_of_loc_m in B.
    subst lx. apply located_of_exact in Hloc. rewrite Hloc, <- Exact. simpl. lra.
  - destruct (Z.eqb_spec (Zpos p) (2 ^ 53)) as [E53|N53].
    + rewrite E53 in Err. change (IZR (2 ^ 53)) with 9007199254740992 in Err.
      destruct (Z.leb_spec (ef + 1) 971) as [L|G].
      * unfold SF2R. rewrite bpow_succ. split; [lra|].
        intros Hl He. specialize (Exact Hl He).
        subst lx. apply located_of_exact in Hloc. unfold r. rewrite Hloc, <- Exact, E53.
        change (IZR (2 ^ 53)) with 9007199254740992. rewrite He. lra.
      * assert (B : bpow 971 <= bpow ef) by (apply bpow_le; lia).
        replace 1023%Z with (971 + 52)%Z by lia. rewrite bpow_add, bpow_52.
        pose proof (bpow_gt_0 971). lra.
    + destruct (Z.leb_spec ef 971) as [L|G].
      * unfold SF2R. split; [lra|].
        intros Hl He. specialize (Exact Hl He).
        subst lx. apply located_of_exact in Hloc. unfold r. rewrite Hloc, <- Exact, He. lra.
      * assert (B : bpow 972 <= bpow ef) by (apply bpow_le; lia).
        assert (M : (2 ^ 52 <= Zpos p)%Z) by (apply Norm; lia).
        apply IZR_le in M. change (IZR (2 ^ 52)) with 4503599627370496 in M.
        replace 1023%Z with (971 + 52)%Z by lia. rewrite bpow_add, bpow_52.
        replace 972%Z with (971 + 1)%Z in B by lia. rewrite bpow_succ in B.
        pose proof (bpow_gt_0 971). nra.
Qed.

(** *** Aligned mantissas and canonical numbers *)

Module Align.

Lemma iter_xO_Z m d : Zpos (Pos.iter xO m d) = (Zpos m * 2 ^ Zpos d)%Z.
Proof.
  induction d as [|d IH] using Pos.peano_ind.
  - simpl. lia.
  - rewrite Pos.iter_succ, Pos2Z.inj_xO, IH, Pos2Z.inj_succ, Z.pow_succ_r by lia. lia.
Qed.

Lemma iter_xO_digits m d :
  Zpos (digits2_pos (Pos.iter xO m d)) = (Zpos (digits2_pos m) + Zpos d)%Z.
Proof.
  induction d as [|d IH] using Pos.peano_ind.
  - simpl. lia.
  - rewrite Pos.iter_succ. simpl digits2_pos. rewrite Pos2Z.inj_succ, IH. lia.
Qed.

(** Aligning a mantissa to a smaller exponent keeps the value and the
    magnitude. *)
Lemma shl_align_spec m e e' :
  let m' := fst (shl_align m e e') in
  let e'' := snd (shl_align m e e') in
  e'' = Z.min e e' /\
  IZR (Zpos m') * bpow e'' = IZR (Zpos m) * bpow e /\
  (Zpos (digits2_pos m') + e'' = Zpos (digits2_pos m) + e)%Z.
Proof.
  unfold shl_align. destruct (e' - e)%Z as [|d|d] eqn:E; cbn [fst snd].
  - repeat split; lia || auto.
  - repeat split; lia || auto.
  - split; [lia|]. split.
    + rewrite iter_xO_Z, mult_IZR, <- bpow_IZR by lia.
      rewrite Rmult_assoc, <- bpow_add. do 2 f_equal. lia.
    + rewrite iter_xO_digits. lia.
Qed.

End Align.
Import Align.

Module Valid.

Lemma bounded_exponent m e :
  SpecFloat.bounded prec emax m e = true ->
  (-1074 <= e <= 971)%Z /\ e = fexp64 (Zpos (digits2_pos m) + e).
Proof.
  unfold SpecFloat.bounded, canonical_mantissa. intros H.
  apply andb_prop in H. destruct H as [C B].
  apply Z.eqb_eq in C. apply Z.leb_le in B.
  change (SpecFloat.fexp prec emax (Zpos (digits2_pos m) + e))
    with (fexp64 (Zpos (digits2_pos m) + e)) in C.
  change (emax - prec)%Z with 971%Z in B.
  split; [|auto]. rewrite <- C at 1. rewrite fexp64_eq. lia.
Qed.

Lemma SF2R_nonneg s : nonneg_finite s -> 0 <= SF2R s.
Proof.
  destruct s as [?|?| |[] m e]; simpl; try tauto; try lra.
  intros _. pose proof (bpow_gt_0 e). apply Rmult_le_pos; [|lra].
  apply IZR_le. lia.
Qed.

Lemma SF2R_positive s : positive_finite s -> 0 < SF2R s.
Proof.
  destruct s as [?|?| |[] m e]; simpl; try tauto.
  intros _. pose proof (bpow_gt_0 e). apply Rmult_lt_0_compat; [|lra].
  apply IZR_lt. lia.
Qed.

End Valid.
Import Valid.

(** *** Addition *)

Lemma u64_bpow : u64 = bpow (-53).
Proof.
  unfold u64. replace (-53)%Z with (- (53))%Z by lia. rewrite bpow_opp, bpow_53. reflexivity.
Qed.

(** When rounding a positive mantissa really shifts bits out, the result is
    a normal number and half its last place is a relative [2^-53]. *)
Lemma round_error_relative m e :
  (-1074 <= e)%Z ->
  fexp64 (Zpos (digits2_pos m) + e) <> Z.min e (fexp64 (Zpos (digits2_pos m) + e)) ->
  bpow (fexp64 (Zpos (digits2_pos m) + e)) / 2 <= u64 * (IZR (Zpos m) * bpow e).
Proof.
  intros He N.
  assert (Eq : fexp64 (Zpos (digits2_pos m) + e) = (Zpos (digits2_pos m) + e - 53)%Z)
    by (rewrite fexp64_eq in *; lia).
  rewrite Eq. pose proof (digits_bpow m) as [L _].
  replace (Zpos (digits2_pos m) + e - 53)%Z
    with ((Zpos (digits2_pos m) - 1) + e + -52)%Z by lia.
  rewrite !bpow_add.
  replace (bpow (-52)) with (2 * u64).
  2: { rewrite u64_bpow. replace (-52)%Z with (-53 + 1)%Z by lia.
       rewrite bpow_succ. reflexivity. }
  pose proof (bpow_gt_0 e). assert (0 < u64) by (unfold u64; lra).
  apply Rle_trans with (u64 * (bpow (Zpos (digits2_pos m) - 1) * bpow e)); [lra|].
  apply Rmult_le_compat_l; [lra|]. apply Rmult_le_compat_r; lra.
Qed.

(** Rounding a positive integer mantissa at an exponent no smaller than
    the least one loses at most a relative [2^-53]. *)
Lemma binary_round_correct m e :
  (-1074 <= e)%Z ->
  let z := binary_round prec emax false m e in
  let r := IZR (Zpos m) * bpow e in
  match z with
  | S754_infinity false => bpow 1023 < r
  | S754_zero false | S754_finite false _ _ => - (u64 * r) <= SF2R z - r <= u64 * r
  | _ => False
  end.
Proof.
  intros He z r. subst z. unfold binary_round.
  change (SpecFloat.fexp prec emax (Zpos (digits2_pos m) + e))
    with (fexp64 (Zpos (digits2_pos m) + e)).
  pose proof (round_error_relative m e He) as Rel. fold r in Rel.
  pose proof (shl_align_spec m e (fexp64 (Zpos (digits2_pos m) + e))) as S.
  destruct (shl_align m e (fexp64 (Zpos (digits2_pos m) + e))) as [mz ez].
  cbn [fst snd] in S. destruct S as (Ez & Val & Dig).
  assert (Hfine : (ez <= fexp64 (Zdigits2 (Zpos mz) + ez))%Z).
  { cbn [Zdigits2]. rewrite Dig. lia. }
  assert (Hloc : located (IZR (Zpos mz)) (shr_record_of_loc (Zpos mz) loc_Exact))
    by reflexivity.
  pose proof (binary_round_aux_correct (Zpos mz) ez loc_Exact (IZR (Zpos mz))
                ltac:(lia) Hloc Hfine) as C.
  cbv zeta in C. cbn [Zdigits2] in C. rewrite Dig, Val in C. fold r in C.
  assert (P : 0 < r).
  { unfold r. apply Rmult_lt_0_compat; [apply IZR_lt; lia|apply bpow_gt_0]. }
  destruct (binary_round_aux prec emax false (Zpos mz) ez loc_Exact) as [[]|[]| |[] m' e'];
    try contradiction; try exact C; destruct C as [B X];
    (destruct (Z.eq_dec (fexp64 (Zpos (digits2_pos m) + e)) ez) as [E|N];
     [rewrite (X eq_refl E); unfold u64; lra
     |rewrite Ez in N; specialize (Rel N); lra]).
Qed.

(** Adding two non-negative binary64 numbers: either the sum overflows, or
    the result is the exact sum up to a relative error of [2^-53]. *)
Lemma SFadd_nonneg x y :
  nonneg_finite x -> nonneg_finite y ->
  let z := SFadd prec emax x y in
  let r := SF2R x + SF2R y in
  match z with
  | S754_infinity false => bpow 1023 < r
  | S754_zero _ | S754_finite false _ _ => - (u64 * r) <= SF2R z - r <= u64 * r
  | _ => False
  end.
Proof.
  intros Hx Hy z r. subst z.
  assert (U : 0 < u64) by (unfold u64; lra).
  destruct x as [sx|sx| |[] mx ex]; try (simpl in Hx; tauto);
    destruct y as [sy|sy| |[] my ey]; try (simpl in Hy; tauto).
  - subst r. destruct sx, sy; simpl; unfold u64; lra.
  - subst r. cbn [SFadd]. pose proof (SF2R_nonneg _ Hy) as P.
    change (SF2R (S754_zero sx)) with 0.
    revert P. generalize (SF2R (S754_finite false my ey)). intros v P. unfold u64. lra.
  - subst r. cbn [SFadd]. pose proof (SF2R_nonneg _ Hx) as P.
    change (SF2R (S754_zero sy)) with 0.
    revert P. generalize (SF2R (S754_finite false mx ex)). intros v P. unfold u64. lra.
  - cbn [SFadd cond_Zopp].
    apply bounded_exponent in Hx, Hy. destruct Hx as [Bx _], Hy as [By _].
    pose proof (shl_align_spec mx ex (Z.min ex ey)) as Sx.
    pose proof (shl_align_spec my ey (Z.min ex ey)) as Sy.
    destruct (shl_align mx ex (Z.min ex ey)) as [ax e1].
    destruct (shl_align my ey (Z.min ex ey)) as [ay e2].
    cbn [fst snd] in *. destruct Sx as (E1 & V1 & _), Sy as (E2 & V2 & _).
    replace e1 with (Z.min ex ey) in V1 by lia.
    replace e2 with (Z.min ex ey) in V2 by lia.
    change (Zpos ax + Zpos ay)%Z with (Zpos (ax + ay)).
    cbn [binary_normalize].
    pose proof (binary_round_correct (ax + ay) (Z.min ex ey) ltac:(lia)) as C.
    cbv zeta in C.
    replace (IZR (Zpos (ax + ay)) * bpow (Z.min ex ey)) with r in C.
    2: { unfold r, SF2R. rewrite Pos2Z.inj_add, plus_IZR. lra. }
    destruct (binary_round prec emax false (ax + ay) (Z.min ex ey)) as [[]|[]| |[] m' e'];
      first [exact C | contradiction].
Qed.

(** *** The quotient and remainder of a division *)

(** The location computed from a remainder [k] of a division by [nb] is
    where the fraction [k / nb] lies. *)
Lemma new_location_located nb k q :
  (0 < nb)%Z -> (0 <= k < nb)%Z ->
  located (IZR q + IZR k / IZR nb) (shr_record_of_loc q (new_location nb k)).
Proof.
  intros Hnb Hk.
  assert (NB : 0 < IZR nb) by (apply IZR_lt; lia).
  set (t := IZR k / IZR nb).
  assert (T : t * IZR nb = IZR k) by (unfold t; field; lra).
  clearbody t.
  assert (U : IZR k + 1 <= IZR nb) by (rewrite <- plus_IZR; apply IZR_le; lia).
  unfold new_location.
  destruct (Z.even nb) eqn:Ev; unfold new_location_even, new_location_odd;
    destruct (Z.eqb_spec k 0) as [->|Nk].
  - assert (t = 0) by nra. subst t. unfold located. cbn. ring.
  - assert (K : 1 <= IZR k) by (apply IZR_le; lia).
    destruct (Z.compare_spec (2 * k) nb) as [E|L|G]; unfold located;
      cbn [shr_record_of_loc shr_m shr_r shr_s].
    + apply (f_equal IZR) in E. rewrite mult_IZR in E.
      assert (t = / 2); [|lra].
      apply Rmult_eq_reg_r with (IZR nb); [rewrite T; lra|lra].
    + apply IZR_lt in L. rewrite mult_IZR in L. nra.
    + apply IZR_lt in G. rewrite mult_IZR in G. nra.
  - assert (t = 0) by nra. subst t. unfold located. cbn. ring.
  - assert (K : 1 <= IZR k) by (apply IZR_le; lia).
    assert (Odd : (2 * k <> nb)%Z).
    { intros <-. rewrite Z.even_mul in Ev. discriminate. }
    destruct (Z.compare_spec (2 * k + 1) nb) as [E|L|G]; unfold located;
      cbn [shr_record_of_loc shr_m shr_r shr_s].
    + apply (f_equal IZR) in E. rewrite plus_IZR, mult_IZR in E. nra.
    + apply IZR_lt in L. rewrite plus_IZR, mult_IZR in L. nra.
    + assert (G' : (nb + 1 <= 2 * k)%Z) by lia.
      apply IZR_le in G'. rewrite plus_IZR, mult_IZR in G'. nra.
Qed.

Lemma eta64_pos : 0 < eta64.
Proof. apply bpow_gt_0. Qed.

Lemma u64_pos : 0 < u64.
Proof. unfold u64. lra. Qed.

(** The quotient mantissa computed by the division has enough digits. *)
Lemma div_core_spec mx ex my ey :
  let '(q, e', l) := SFdiv_core_binary prec emax (Zpos mx) ex (Zpos my) ey in
  exists x : R,
    (0 <= q)%Z /\
    located x (shr_record_of_loc q l) /\
    x * bpow e' = (IZR (Zpos mx) * bpow ex) / (IZR (Zpos my) * bpow ey) /\
    (e' <= fexp64 (Zdigits2 q + e'))%Z.
Proof.
  unfold SFdiv_core_binary. cbn [Zdigits2].
  change (SpecFloat.fexp prec emax) with fexp64.
  set (d1 := Zpos (digits2_pos mx)). set (d2 := Zpos (digits2_pos my)).
  set (e' := Z.min (fexp64 (d1 + ex - (d2 + ey))) (ex - ey)).
  set (s := (ex - ey - e')%Z).
  assert (Hs : (0 <= s)%Z) by (unfold s, e'; lia).
  set (m' := match s with Zpos _ => Z.shiftl (Zpos mx) s | Z0 => Zpos mx | Zneg _ => 0%Z end).
  assert (Hm' : m' = (Zpos mx * 2 ^ s)%Z).
  { unfold m'. destruct s as [|p|p] eqn:Es; try lia.
    - rewrite Z.shiftl_mul_pow2 by lia. reflexivity. }
  clearbody m'.
  pose proof (Z_div_mod m' (Zpos my) ltac:(lia)) as DM.
  destruct (Z.div_eucl m' (Zpos my)) as [q r]. destruct DM as [DM Rb].
  assert (Pm' : (0 < m')%Z).
  { rewrite Hm'. apply Z.mul_pos_pos; [lia|]. apply Z.pow_pos_nonneg; lia. }
  assert (Hq : (0 <= q)%Z) by nia.
  exists (IZR q + IZR r / IZR (Zpos my)).
  assert (MY : 0 < IZR (Zpos my)) by (apply IZR_lt; lia).
  pose proof (bpow_gt_0 ex) as Pex. pose proof (bpow_gt_0 ey) as Pey.
  pose proof (bpow_gt_0 e') as Pe'.
  split; [exact Hq|]. split; [apply new_location_located; lia|]. split.
  - replace (IZR q + IZR r / IZR (Zpos my)) with (IZR m' / IZR (Zpos my)).
    2: { rewrite DM, plus_IZR, mult_IZR. field. lra. }
    rewrite Hm', mult_IZR, <- bpow_IZR by lia.
    replace (bpow ex) with (bpow s * bpow e' * bpow ey).
    2: { rewrite <- !bpow_add. f_equal. unfold s. lia. }
    field. lra.
  - rewrite fexp64_eq.
    destruct (Z_le_gt_dec e' (-1074)) as [|G]; [lia|].
    assert (E53 : (e' <= d1 + ex - (d2 + ey) - 53)%Z).
    { unfold e' in *. rewrite fexp64_eq in *. lia. }
    assert (S53 : (d2 + 52 <= d1 - 1 + s)%Z) by (unfold s; lia).
    pose proof (digits2_pos_bounds mx) as [L1 _]. fold d1 in L1.
    pose proof (digits2_pos_bounds my) as [_ U2]. fold d2 in U2.
    assert (Q52 : (2 ^ 52 <= q)%Z).
    { assert (P1 : (2 ^ (d2 + 52) <= m')%Z).
      { rewrite Hm'. apply Z.le_trans with (2 ^ (d1 - 1) * 2 ^ s)%Z.
        - rewrite <- Z.pow_add_r by (unfold d1; lia). apply Z.pow_le_mono_r; lia.
        - apply Z.mul_le_mono_nonneg_r; [apply Z.pow_nonneg; lia|lia]. }
      rewrite Z.pow_add_r in P1 by (unfold d2; lia).
      destruct (Z_lt_ge_dec q (2 ^ 52)) as [Lq|]; [|lia].
      exfalso.
      assert (Zpos my * q + r < Zpos my * (q + 1))%Z by lia.
      assert (Zpos my * (q + 1) <= 2 ^ d2 * 2 ^ 52)%Z.
      { apply Z.le_trans with (Zpos my * 2 ^ 52)%Z.
        - apply Z.mul_le_mono_nonneg_l; lia.
        - apply Z.mul_le_mono_nonneg_r; [apply Z.pow_nonneg|]; lia. }
      lia. }
    destruct q as [|pq|pq]; try (rewrite pow2_52 in Q52; lia).
    cbn [Zdigits2]. pose proof (digits_ge pq 53 Q52). lia.
Qed.

(** *** Division *)

(** Half a unit in the last place of the rounded result is at most a
    relative [2^-53] of the real, or half the least positive number. *)
Lemma half_ulp_bound mz ez x :
  (0 <= mz)%Z -> IZR mz <= x ->
  (ez <= fexp64 (Zdigits2 mz + ez))%Z ->
  bpow (fexp64 (Zdigits2 mz + ez)) / 2 <= u64 * (x * bpow ez) + eta64.
Proof.
  intros Hm Hx Hfine.
  pose proof (bpow_gt_0 ez) as Pe. pose proof u64_pos as U. pose proof eta64_pos as Eta.
  assert (X0 : 0 <= x) by (apply Rle_trans with (IZR mz); [apply IZR_le; lia|lra]).
  assert (Q0 : 0 <= u64 * (x * bpow ez)).
  { apply Rmult_le_pos; [lra|]. apply Rmult_le_pos; lra. }
  rewrite fexp64_eq in *.
  destruct (Z_le_gt_dec (Zdigits2 mz + ez - 53) (-1074)) as [L|G].
  - rewrite Z.max_r by lia.
    replace (bpow (-1074) / 2) with eta64; [lra|].
    unfold eta64. replace (-1075)%Z with (-1074 - 1)%Z by lia. apply bpow_pred.
  - rewrite Z.max_l in * by lia.
    destruct mz as [|p|p]; [simpl Zdigits2 in *; lia| |lia].
    cbn [Zdigits2] in *.
    pose proof (digits_bpow p) as [Lp _].
    replace (Zpos (digits2_pos p) + ez - 53)%Z
      with ((Zpos (digits2_pos p) - 1) + ez + -52)%Z by lia.
    rewrite !bpow_add.
    replace (bpow (-52)) with (2 * u64).
    2: { rewrite u64_bpow. replace (-52)%Z with (-53 + 1)%Z by lia.
         rewrite bpow_succ. reflexivity. }
    apply Rle_trans with (u64 * (bpow (Zpos (digits2_pos p) - 1) * bpow ez)); [lra|].
    apply Rle_trans with (u64 * (x * bpow ez)); [|lra].
    apply Rmult_le_compat_l; [lra|]. apply Rmult_le_compat_r; lra.
Qed.

(** Dividing a non-negative binary64 number by a positive one: either the
    quotient overflows, or the result is the exact quotient up to a relative
    error of [2^-53] plus half the least positive number. *)
Lemma SFdiv_nonneg x y :
  nonneg_finite x -> positive_finite y ->
  let z := SFdiv prec emax x y in
  let q := SF2R x / SF2R y in
  match z with
  | S754_infinity false => bpow 1023 < q
  | S754_zero _ | S754_finite false _ _ =>
      - (u64 * q + eta64) <= SF2R z - q <= u64 * q + eta64
  | _ => False
  end.
Proof.
  intros Hx Hy z q. subst z.
  pose proof u64_pos as U. pose proof eta64_pos as Eta.
  destruct y as [sy|sy| |[] my ey]; try (simpl in Hy; tauto).
  destruct x as [sx|sx| |[] mx ex]; try (simpl in Hx; tauto).
  - cbn [SFdiv]. subst q. change (SF2R (S754_zero sx)) with 0.
    change (SF2R (S754_zero (xorb sx false))) with 0.
    unfold Rdiv. rewrite Rmult_0_l. rewrite Rmult_0_r. lra.
  - cbn [SFdiv xorb].
    pose proof (div_core_spec mx ex my ey) as D.
    destruct (SFdiv_core_binary prec emax (Zpos mx) ex (Zpos my) ey) as [[mz ez] lz].
    destruct D as (x0 & Hq & Hloc & Val & Hfine).
    pose proof (binary_round_aux_correct mz ez lz x0 Hq Hloc Hfine) as C.
    cbv zeta in C.
    assert (Q : x0 * bpow ez = q).
    { rewrite Val. unfold q, SF2R. reflexivity. }
    rewrite Q in C.
    pose proof (located_bounds _ _ Hloc) as B. rewrite shr_record_of_loc_m in B.
    pose proof (half_ulp_bound mz ez x0 Hq ltac:(lra) Hfine) as H. rewrite Q in H.
    destruct (binary_round_aux prec emax false mz ez lz) as [[]|[]| |[] m' e'];
      try contradiction; try exact C; destruct C as [C _]; lra.
Qed.

(** *** Rounding error of a running sum *)

Module FloatError.

Lemma nonnegF_B2R x : nonnegF x -> 0 <= B2R x.
Proof. apply SF2R_nonneg. Qed.

Lemma positiveF_B2R x : positiveF x -> 0 < B2R x.
Proof. apply SF2R_positive. Qed.

Lemma valid_nonneg x :
  match Prim2SF x with
  | S754_zero _ | S754_finite false _ _ => nonnegF x
  | _ => True
  end.
Proof.
  unfold nonnegF. pose proof (Prim2SF_valid x) as V.
  destruct (Prim2SF x) as [?|?| |[] m e]; simpl; auto.
Qed.

(** One floating-point addition of non-negative numbers. *)
Lemma add_nonneg x y :
  nonnegF x -> nonnegF y ->
  (isPosInf (x + y)%float /\ bpow 1023 < B2R x + B2R y) \/
  (nonnegF (x + y)%float /\
   - (u64 * (B2R x + B2R y)) <= B2R (x + y)%float - (B2R x + B2R y)
     <= u64 * (B2R x + B2R y)).
Proof.
  intros Hx Hy. pose proof (SFadd_nonneg _ _ Hx Hy) as C. cbv zeta in C.
  pose proof (valid_nonneg (x + y)%float) as V.
  unfold isPosInf, B2R. rewrite add_spec in *. unfold SF64add in *.
  destruct (SFadd prec emax (Prim2SF x) (Prim2SF y)) as [?|[]| |[] m e];
    try contradiction; auto.
Qed.

(** One floating-point division of a non-negative number by a positive one. *)
Lemma div_nonneg x y :
  nonnegF x -> positiveF y ->
  (isPosInf (x / y)%float /\ bpow 1023 < B2R x / B2R y) \/
  (nonnegF (x / y)%float /\
   - (u64 * (B2R x / B2R y) + eta64) <= B2R (x / y)%float - B2R x / B2R y
     <= u64 * (B2R x / B2R y) + eta64).
Proof.
  intros Hx Hy. pose proof (SFdiv_nonneg _ _ Hx Hy) as C. cbv zeta in C.
  pose proof (valid_nonneg (x / y)%float) as V.
  unfold isPosInf, B2R. rewrite div_spec in *. unfold SF64div in *.
  destruct (SFdiv prec emax (Prim2SF x) (Prim2SF y)) as [?|[]| |[] m e];
    try contradiction; auto.
Qed.

Lemma rsum_nonneg vs : Forall nonnegF vs -> 0 <= rsum vs.
Proof.
  induction 1 as [|v vs Hv _ IH]; simpl; [lra|].
  pose proof (nonnegF_B2R _ Hv). lra.
Qed.

Lemma inf_add_nonneg x y : isPosInf x -> nonnegF y -> isPosInf (x + y)%float.
Proof.
  unfold isPosInf, nonnegF. intros Hx Hy. rewrite add_spec, Hx.
  destruct (Prim2SF y) as [?|?| |[] m e]; simpl in Hy; try contradiction; reflexivity.
Qed.

Lemma inf_fold vs : forall acc,
  isPosInf acc -> Forall nonnegF vs -> isPosInf (fold_left PrimFloat.add vs acc).
Proof.
  induction vs as [|v vs IH]; simpl; intros acc Ha Hv; auto.
  inversion Hv; subst. apply IH; auto. apply inf_add_nonneg; auto.
Qed.

(** The running sum: after [k] roundings the accumulator is within a
    relative [2 k 2^-53] of the exact sum, unless it overflowed. *)
Lemma fold_add_bound vs : forall acc A k,
  Forall nonnegF vs -> nonnegF acc -> 0 <= A -> 0 <= k -> k + INR (List.length vs) <= 1000 ->
  - (2 * k * u64 * A) <= B2R acc - A <= 2 * k * u64 * A ->
  let z := fold_left PrimFloat.add vs acc in
  let n := k + INR (List.length vs) in
  (isPosInf z /\ bpow 1022 < A + rsum vs) \/
  (nonnegF z /\
   - (2 * n * u64 * (A + rsum vs)) <= B2R z - (A + rsum vs) <= 2 * n * u64 * (A + rsum vs)).
Proof.
  induction vs as [|v vs IH]; intros acc A k Hvs Hacc HA Hk Hlen Hb; cbv zeta.
  - right. simpl. rewrite !Rplus_0_r. auto.
  - inversion Hvs as [|? ? Hv Hvs']; subst. cbn [fold_left].
    cbn [List.length] in Hlen. rewrite S_INR in Hlen.
    pose proof (pos_INR (List.length vs)) as Ln.
    pose proof (nonnegF_B2R _ Hv) as V0.
    pose proof (rsum_nonneg _ Hvs') as R0.
    assert (KA : 0 <= k * A) by (apply Rmult_le_pos; lra).
    assert (KA' : 0 <= (1000 - k) * A) by (apply Rmult_le_pos; lra).
    assert (KV : 0 <= k * B2R v) by (apply Rmult_le_pos; lra).
    unfold u64 in *.
    destruct (add_nonneg acc v Hacc Hv) as [[I B]|[N B]].
    + left. split; [apply inf_fold; auto|].
      simpl rsum. replace 1022%Z with (1023 - 1)%Z by lia. rewrite bpow_pred.
      unfold u64 in *. nra.
    + unfold u64 in B.
      assert (Hb' : - (2 * (k + 1) * / 9007199254740992 * (A + B2R v))
                    <= B2R (acc + v)%float - (A + B2R v)
                    <= 2 * (k + 1) * / 9007199254740992 * (A + B2R v)) by nra.
      specialize (IH (acc + v)%float (A + B2R v) (k + 1) Hvs' N ltac:(lra) ltac:(lra)
                     ltac:(lra) Hb').
      cbv zeta in IH. cbn [List.length rsum fold_right]. rewrite S_INR.
      replace (A + (B2R v + fold_right (fun v0 acc0 => B2R v0 + acc0) 0 vs))
        with (A + B2R v + rsum vs) by (unfold rsum; ring).
      replace (k + (INR (List.length vs) + 1)) with (k + 1 + INR (List.length vs)) by ring.
      exact IH.
Qed.

Lemma B2R_zero : B2R 0 = 0.
Proof. reflexivity. Qed.

Lemma nonnegF_zero : nonnegF 0.
Proof. exact I. Qed.

(** The floating-point sum of at most 1000 non-negative numbers. *)
Lemma fsum_bound vs :
  Forall nonnegF vs -> INR (List.length vs) <= 1000 ->
  (isPosInf (fsum vs) /\ bpow 1022 < rsum vs) \/
  (nonnegF (fsum vs) /\
   - (2 * INR (List.length vs) * u64 * rsum vs) <= B2R (fsum vs) - rsum vs
     <= 2 * INR (List.length vs) * u64 * rsum vs).
Proof.
  intros Hvs Hlen.
  pose proof (fold_add_bound vs 0%float 0 0 Hvs nonnegF_zero ltac:(lra) ltac:(lra)
                ltac:(lra)) as F.
  rewrite B2R_zero in F. cbv zeta in F. rewrite !Rplus_0_l in F.
  apply F. lra.
Qed.

End FloatError.
Import FloatError.

(** *** Quotients by the total add up to one *)

Module Shares.

Lemma In_le_rsum vs v : Forall nonnegF vs -> In v vs -> B2R v <= rsum vs.
Proof.
  induction 1 as [|w vs Hw Hvs IH]; simpl; [tauto|].
  pose proof (nonnegF_B2R _ Hw). pose proof (rsum_nonneg _ Hvs).
  intros [-> | Hin]; [lra|]. specialize (IH Hin). lra.
Qed.

Lemma eta64_le_u64 : eta64 <= u64.
Proof. rewrite u64_bpow. apply bpow_le. lia. Qed.

Lemma bpow_1022_big : 4 <= bpow 1022.
Proof.
  apply Rle_trans with (bpow 2); [|apply bpow_le; lia].
  rewrite bpow_IZR by lia. simpl. lra.
Qed.

Section FixedTotal.
Variable total : float.
Hypothesis Htotal : positiveF total.

Lemma quotients_bound vs :
  Forall nonnegF vs ->
  (forall v, In v vs -> B2R v / B2R total <= 2) ->
  Forall nonnegF (quotients vs total) /\
  - (u64 * (rsum vs / B2R total) + INR (List.length vs) * eta64)
    <= rsum (quotients vs total) - rsum vs / B2R total
    <= u64 * (rsum vs / B2R total) + INR (List.length vs) * eta64.
Proof.
  pose proof (positiveF_B2R _ Htotal) as P.
  induction 1 as [|v vs Hv Hvs IH]; intros Hq.
  - simpl. unfold Rdiv. rewrite Rmult_0_l, Rmult_0_r, Rmult_0_l. split; [constructor|lra].
  - destruct IH as [F B]; [intros w Hw; apply Hq; right; exact Hw|].
    pose proof (Hq v (or_introl eq_refl)) as Q2.
    pose proof bpow_1022_big as Big.
    assert (Big' : bpow 1022 <= bpow 1023) by (apply bpow_le; lia).
    destruct (div_nonneg v total Hv Htotal) as [[_ I]|[N E]]; [lra|].
    split; [constructor; auto|].
    cbn [quotients map rsum fold_right List.length]. rewrite S_INR.
    fold (quotients vs total). fold (rsum (quotients vs total)). fold (rsum vs).
    replace ((B2R v + rsum vs) / B2R total)
      with (B2R v / B2R total + rsum vs / B2R total) by (field; lra).
    lra.
Qed.

End FixedTotal.

(** The core of the two "sums to one" properties: dividing non-negative
    numbers by their positive floating-point total and adding the quotients
    up again gives 1 to within [1e-12]. *)
Lemma quotients_sum_to_one vs :
  Forall nonnegF vs -> (List.length vs <= 100)%nat ->
  positiveF (fsum vs) ->
  nonnegF (fsum (quotients vs (fsum vs))) /\
  - / 1000000000000 <= B2R (fsum (quotients vs (fsum vs))) - 1 <= / 1000000000000.
Proof.
  intros Hvs Hlen Hpos.
  assert (Hn : INR (List.length vs) <= 100).
  { replace 100 with (INR 100) by (simpl; lra). apply le_INR, Hlen. }
  pose proof (pos_INR (List.length vs)) as Hn0.
  set (n := INR (List.length vs)) in *.
  pose proof (positiveF_B2R _ Hpos) as P.
  pose proof (rsum_nonneg _ Hvs) as A0.
  pose proof eta64_pos as Eta0. pose proof eta64_le_u64 as Eta.
  pose proof bpow_1022_big as Big.
  destruct (fsum_bound vs Hvs ltac:(fold n; lra)) as [[I _]|[_ B]].
  { unfold isPosInf in I. unfold positiveF in Hpos. rewrite I in Hpos. contradiction. }
  fold n in B. set (S := B2R (fsum vs)) in *. set (A := rsum vs) in *.
  unfold u64 in *.
  assert (NA : 0 <= n * A) by (apply Rmult_le_pos; lra).
  assert (NA' : 0 <= (100 - n) * A) by (apply Rmult_le_pos; lra).
  assert (SA : A * (1 - 200 * / 9007199254740992) <= S <= A * (1 + 200 * / 9007199254740992))
    by nra.
  assert (Apos : 0 < A) by nra.
  set (rho := A / S).
  assert (Rho : rho * S = A) by (unfold rho; field; lra).
  assert (RhoB : rho * (1 - 200 * / 9007199254740992) <= 1
                 /\ 1 <= rho * (1 + 200 * / 9007199254740992)).
  { assert (0 < rho) by (unfold rho; apply Rdiv_lt_0_compat; lra).
    split.
    - apply Rmult_le_reg_r with S; [lra|]. nra.
    - apply Rmult_le_reg_r with S; [lra|]. nra. }
  assert (Q2 : forall v, In v vs -> B2R v / B2R (fsum vs) <= 2).
  { intros v Hv. pose proof (In_le_rsum vs v Hvs Hv) as L. fold A in L. fold S.
    apply Rle_trans with rho; [|lra].
    unfold rho, Rdiv. apply Rmult_le_compat_r; [left; apply Rinv_0_lt_compat; lra|lra]. }
  destruct (quotients_bound (fsum vs) Hpos vs Hvs Q2) as [F E].
  fold n in E. fold A in E. fold S in E. fold rho in E. unfold u64 in E.
  set (qs := quotients vs (fsum vs)) in *.
  assert (Lq : List.length qs = List.length vs) by (unfold qs, quotients; apply length_map).
  assert (NE : 0 <= n * eta64 <= 100 * / 9007199254740992).
  { split; [apply Rmult_le_pos; lra|]. unfold u64 in Eta. nra. }
  destruct (fsum_bound qs F ltac:(rewrite Lq; fold n; lra)) as [[_ I]|[N B']].
  { exfalso. lra. }
  split; [exact N|].
  rewrite Lq in B'. fold n in B'. unfold u64 in B'.
  set (R := rsum qs) in *. set (T := B2R (fsum qs)) in *.
  assert (R0 : 0 <= R) by (apply rsum_nonneg; exact F).
  assert (NR : 0 <= n * R) by (apply Rmult_le_pos; lra).
  assert (NR' : 0 <= (100 - n) * R) by (apply Rmult_le_pos; lra).
  assert (TB : R * (1 - 200 * / 9007199254740992) <= T <= R * (1 + 200 * / 9007199254740992))
    by nra.
  lra.
Qed.

End Shares.
Import Shares.

(** *** Subtraction, order and the tolerance test *)

Module Compare.

(** The sign given to [binary_round_aux] only labels the result. *)
Lemma binary_round_aux_opp mx ex lx :
  binary_round_aux prec emax true mx ex lx
  = SFopp (binary_round_aux prec emax false mx ex lx).
Proof.
  unfold binary_round_aux.
  destruct (shr_fexp prec emax mx ex lx) as [mrs' e'].
  destruct (shr_fexp prec emax _ e' loc_Exact) as [mrs'' e''].
  destruct (shr_m mrs'') as [|p|p]; try reflexivity.
  destruct (e'' <=? emax - prec)%Z; reflexivity.
Qed.

Lemma binary_round_opp m e :
  binary_round prec emax true m e = SFopp (binary_round prec emax false m e).
Proof.
  unfold binary_round.
  destruct (shl_align m e _) as [mz ez]. apply binary_round_aux_opp.
Qed.

Lemma SF2R_opp z : SF2R (SFopp z) = - SF2R z.
Proof. destruct z as [?|?| |[] m e]; simpl; lra. Qed.

Lemma SF2R_abs z : SF2R (SFabs z) = Rabs (SF2R z).
Proof.
  destruct z as [?|?| |s m e]; simpl; rewrite ?Rabs_R0; auto.
  pose proof (bpow_gt_0 e). assert (0 < IZR (Zpos m)) by (apply IZR_lt; lia).
  assert (0 < IZR (Zpos m) * bpow e) by (apply Rmult_lt_0_compat; lra).
  destruct s.
  - rewrite Rabs_left1; lra.
  - rewrite Rabs_pos_eq; lra.
Qed.

(** Subtracting two non-negative binary64 numbers whose difference is
    [r]: the result is a number within a relative [2^-53] of [r]. *)
Lemma SFsub_nonneg x y :
  nonneg_finite x -> nonneg_finite y ->
  Rabs (SF2R x - SF2R y) <= 1 ->
  let z := SFsub prec emax x y in
  let r := SF2R x - SF2R y in
  match z with
  | S754_nan | S754_infinity _ => False
  | _ => - (u64 * Rabs r) <= SF2R z - r <= u64 * Rabs r
  end.
Proof.
  intros Hx Hy Hr z r. subst z. fold r in Hr.
  pose proof u64_pos as U. pose proof (Rabs_pos r) as R0.
  assert (UR : 0 <= u64 * Rabs r) by (apply Rmult_le_pos; lra).
  destruct x as [sx|sx| |[] mx ex]; try (simpl in Hx; tauto);
    destruct y as [sy|sy| |[] my ey]; try (simpl in Hy; tauto).
  - subst r. destruct sx, sy; simpl; simpl in UR; lra.
  - subst r. cbn [SFsub negb]. simpl in *. lra.
  - subst r. cbn [SFsub]. simpl in *. lra.
  - cbn [SFsub cond_Zopp].
    apply bounded_exponent in Hx, Hy. destruct Hx as [Bx _], Hy as [By _].
    pose proof (shl_align_spec mx ex (Z.min ex ey)) as Sx.
    pose proof (shl_align_spec my ey (Z.min ex ey)) as Sy.
    destruct (shl_align mx ex (Z.min ex ey)) as [ax e1].
    destruct (shl_align my ey (Z.min ex ey)) as [ay e2].
    cbn [fst snd] in *. destruct Sx as (E1 & V1 & _), Sy as (E2 & V2 & _).
    replace e1 with (Z.min ex ey) in V1 by lia.
    replace e2 with (Z.min ex ey) in V2 by lia.
    assert (Big : 1 < bpow 1023).
    { apply Rlt_le_trans with (bpow 1); [rewrite bpow_1; lra|apply bpow_le; lia]. }
    assert (Val : r = IZR (Zpos ax - Zpos ay) * bpow (Z.min ex ey)).
    { unfold r, SF2R. rewrite minus_IZR. lra. }
    pose proof (bpow_gt_0 (Z.min ex ey)) as Pe.
    destruct (Zpos ax - Zpos ay)%Z as [|d|d] eqn:D; cbn [binary_normalize].
    + rewrite Val. simpl. rewrite Rmult_0_l, Rabs_R0. lra.
    + pose proof (binary_round_correct d (Z.min ex ey) ltac:(lia)) as C.
      cbv zeta in C. rewrite <- Val in C.
      assert (P : 0 < r).
      { rewrite Val. apply Rmult_lt_0_compat; [apply IZR_lt; lia|lra]. }
      rewrite (Rabs_pos_eq r) in * by lra.
      destruct (binary_round prec emax false d (Z.min ex ey)) as [[]|[]| |[] m' e'];
        try contradiction; try exact C; lra.
    + pose proof (binary_round_correct d (Z.min ex ey) ltac:(lia)) as C.
      cbv zeta in C. rewrite binary_round_opp.
      assert (Val' : IZR (Zpos d) * bpow (Z.min ex ey) = - r).
      { rewrite Val. change (Zneg d) with (- Zpos d)%Z. rewrite opp_IZR. lra. }
      rewrite Val' in C.
      assert (P : r < 0).
      { assert (0 < IZR (Zpos d) * bpow (Z.min ex ey)); [|lra].
        apply Rmult_lt_0_compat; [apply IZR_lt; lia|lra]. }
      rewrite (Rabs_left1 r) in * by lra.
      destruct (binary_round prec emax false d (Z.min ex ey)) as [[]|[]| |[] m' e'];
        try contradiction; cbn [SFopp negb]; unfold SF2R in *; lra.
Qed.

(** For non-negative canonical numbers the IEEE order is the order of the
    reals they denote. *)
Lemma SFcompare_Gt_real a b :
  nonneg_finite a -> nonneg_finite b ->
  SFcompare a b = Some Gt -> SF2R b < SF2R a.
Proof.
  destruct a as [sa|sa| |[] m1 e1]; try (simpl; tauto);
    destruct b as [sb|sb| |[] m2 e2]; try (simpl; tauto); simpl; try discriminate.
  - intros Ha _ _. exact (SF2R_positive (S754_finite false m1 e1) Ha).
  - intros Ha Hb. apply bounded_exponent in Ha, Hb.
    destruct Ha as [Ba Ca], Hb as [Bb Cb]. rewrite fexp64_eq in Ca, Cb.
    pose proof (digits_bpow m1) as [L1 U1]. pose proof (digits_bpow m2) as [L2 U2].
    pose proof (bpow_gt_0 e1) as P1. pose proof (bpow_gt_0 e2) as P2.
    rewrite Pos.compare_cont_spec.
    destruct (Z.compare_spec e1 e2) as [E|L|G]; try discriminate.
    + subst e2. simpl. destruct (Pos.compare_spec m1 m2) as [|L|G]; try discriminate.
      intros _. apply Rmult_lt_compat_r; [lra|]. apply IZR_lt. lia.
    + intros _.
      assert (D1 : Zpos (digits2_pos m1) = 53%Z) by lia.
      assert (D2 : (Zpos (digits2_pos m2) <= 53)%Z) by lia.
      rewrite D1 in L1. change (53 - 1)%Z with 52%Z in L1.
      assert (U2' : IZR (Zpos m2) < bpow 53).
      { apply Rlt_le_trans with (bpow (Zpos (digits2_pos m2))); [lra|apply bpow_le; lia]. }
      assert (E : bpow (e2 + 1) <= bpow e1) by (apply bpow_le; lia).
      rewrite bpow_succ in E. rewrite bpow_53 in U2'. rewrite bpow_52 in L1. nra.
Qed.

Lemma SFleb_of_Rle a b :
  nonneg_finite a -> nonneg_finite b -> SF2R a <= SF2R b -> SFleb a b = true.
Proof.
  intros Ha Hb L. unfold SFleb.
  destruct (SFcompare a b) as [[]|] eqn:C; auto.
  - pose proof (SFcompare_Gt_real a b Ha Hb C). lra.
  - destruct a as [?|?| |[] ? ?], b as [?|?| |[] ? ?]; simpl in *; try tauto; discriminate.
Qed.

Lemma abs_nonneg x :
  match Prim2SF x with S754_nan | S754_infinity _ => False | _ => True end ->
  nonnegF (abs x) /\ B2R (abs x) = Rabs (B2R x).
Proof.
  intros H. unfold nonnegF, B2R. pose proof (Prim2SF_valid (abs x)) as V.
  rewrite abs_spec in *. split; [|apply SF2R_abs].
  destruct (Prim2SF x) as [?|?| |s m e]; simpl in *; tauto.
Qed.

(** The test [Math.abs(x - 1) <= 1e-9] succeeds for a number very close
    to 1. *)
Lemma near_one_test x :
  nonnegF x ->
  - / 1000000000000 <= B2R x - 1 <= / 1000000000000 ->
  (abs (x - 1) <=? 1e-9)%float = true.
Proof.
  intros Hx Hb.
  assert (One : B2R 1 = 1).
  { unfold B2R. change (Prim2SF 1) with (S754_finite false 4503599627370496 (-52)).
    unfold SF2R. replace (-52)%Z with (-53 + 1)%Z by lia.
    rewrite bpow_succ, <- u64_bpow. unfold u64. lra. }
  assert (H1 : nonnegF 1) by reflexivity.
  assert (Hr : Rabs (B2R x - B2R 1) <= / 1000000000000).
  { rewrite One. apply Rabs_le. lra. }
  pose proof (SFsub_nonneg _ _ Hx H1 ltac:(unfold B2R in Hr; lra)) as S.
  cbv zeta in S. fold (B2R x) in S. fold (B2R 1) in S.
  assert (Sub : Prim2SF (x - 1)%float = SFsub prec emax (Prim2SF x) (Prim2SF 1))
    by apply sub_spec.
  rewrite <- Sub in S.
  assert (NF : match Prim2SF (x - 1)%float with
               | S754_nan | S754_infinity _ => False | _ => True end).
  { destruct (Prim2SF (x - 1)%float); auto. }
  destruct (abs_nonneg _ NF) as [Na Ea].
  assert (Bd : - (u64 * Rabs (B2R x - B2R 1)) <= B2R (x - 1)%float - (B2R x - B2R 1)
               <= u64 * Rabs (B2R x - B2R 1)).
  { change (B2R (x - 1)%float) with (SF2R (Prim2SF (x - 1)%float)).
    destruct (Prim2SF (x - 1)%float); try contradiction; exact S. }
  assert (Ab : B2R (abs (x - 1)%float) <= / 500000000000).
  { rewrite Ea. apply Rabs_le. unfold u64 in Bd.
    pose proof (Rabs_pos (B2R x - B2R 1)).
    pose proof (Rle_abs (B2R x - B2R 1)).
    assert (- (B2R x - B2R 1) <= Rabs (B2R x - B2R 1))
      by (rewrite <- Rabs_Ropp; apply Rle_abs).
    lra. }
  rewrite leb_spec. apply SFleb_of_Rle; [exact Na|reflexivity|].
  fold (B2R (abs (x - 1)%float)).
  change (Prim2SF 1e-9) with (S754_finite false 4835703278458517 (-82)).
  unfold SF2R.
  replace (bpow (-82)) with (/ 4835703278458516698824704).
  2: { change (-82)%Z with (- (82))%Z. rewrite bpow_opp, bpow_IZR by lia. reflexivity. }
  lra.
Qed.

End Compare.
Import Compare.

(** *** The loops of the program as sums and quotients *)

Module Link.

Lemma bpow_neg_IZR e : (0 <= e)%Z -> bpow (- e) = / IZR (2 ^ e).
Proof. intros H. rewrite bpow_opp, bpow_IZR by exact H. reflexivity. Qed.

(** The real value of a few numbers, infinities and NaN included. *)
Lemma B2R_samples :
  B2R 1 = 1 /\ B2R 0.5 = / 2 /\ B2R 3 = 3 /\ B2R (-0.25) = - / 4 /\
  B2R 0 = 0 /\ B2R infinity = 0 /\ B2R nan = 0.
Proof.
  unfold B2R.
  change (Prim2SF 1) with (S754_finite false 4503599627370496 (-52)).
  change (Prim2SF 0.5) with (S754_finite false 4503599627370496 (-53)).
  change (Prim2SF 3) with (S754_finite false 6755399441055744 (-51)).
  change (Prim2SF (-0.25)) with (S754_finite true 4503599627370496 (-54)).
  change (Prim2SF 0) with (S754_zero false).
  change (Prim2SF infinity) with (S754_infinity false).
  change (Prim2SF nan) with S754_nan.
  unfold SF2R.
  pose proof (bpow_neg_IZR 51 ltac:(lia)) as H51.
  pose proof (bpow_neg_IZR 52 ltac:(lia)) as H52.
  pose proof (bpow_neg_IZR 53 ltac:(lia)) as H53.
  pose proof (bpow_neg_IZR 54 ltac:(lia)) as H54.
  cbn [Z.opp] in H51, H52, H53, H54. rewrite H51, H52, H53, H54.
  change (IZR (2 ^ 51)) with 2251799813685248.
  change (IZR (2 ^ 52)) with 4503599627370496.
  change (IZR (2 ^ 53)) with 9007199254740992.
  change (IZR (2 ^ 54)) with 18014398509481984.
  repeat split; lra.
Qed.

Lemma finite_nonneg x :
  is_finite x = true -> (0 <=? x)%float = true -> nonnegF x.
Proof.
  intros F L. pose proof (valid_nonneg x) as V.
  rewrite is_finite_spec in F. rewrite leb_spec, Prim2SF_zero in L.
  unfold nonnegF in *. unfold SFleb in L.
  destruct (Prim2SF x) as [?|?| |[] m e]; simpl in *; auto; discriminate.
Qed.

Lemma finite_positive x :
  is_finite x = true -> (x <=? 0)%float = false -> nonnegF x -> positiveF x.
Proof.
  intros F L N. rewrite leb_spec, Prim2SF_zero in L.
  unfold nonnegF, positiveF, SFleb in *.
  destruct (Prim2SF x) as [[]|?| |[] m e]; simpl in *; auto; discriminate.
Qed.

Lemma inf_not_finite x : isPosInf x -> is_finite x = false.
Proof. unfold isPosInf. intros H. rewrite is_finite_spec, H. reflexivity. Qed.

Lemma add_inf_r x y : nonnegOrInf x -> isPosInf y -> isPosInf (x + y)%float.
Proof.
  unfold nonnegOrInf, nonnegF, isPosInf. intros Hx Hy. rewrite add_spec, Hy.
  destruct Hx as [Hx | ->]; [|reflexivity].
  destruct (Prim2SF x) as [?|?| |[] m e]; simpl in Hx; try contradiction; reflexivity.
Qed.

Lemma add_inf_l x y : isPosInf x -> nonnegOrInf y -> isPosInf (x + y)%float.
Proof.
  unfold nonnegOrInf, nonnegF, isPosInf. intros Hx Hy. rewrite add_spec, Hx.
  destruct Hy as [Hy | ->]; [|reflexivity].
  destruct (Prim2SF y) as [?|?| |[] m e]; simpl in Hy; try contradiction; reflexivity.
Qed.

Lemma fold_inf vs : forall acc,
  Forall nonnegOrInf vs -> isPosInf acc -> isPosInf (fold_left PrimFloat.add vs acc).
Proof.
  induction vs as [|v vs IH]; intros acc Hvs Hacc; simpl; auto.
  inversion Hvs; subst. apply IH; auto. apply add_inf_l; auto.
Qed.

(** A finite sum of numbers that are non-negative or [+Infinity] had only
    finite terms. *)
Lemma fold_finite vs : forall acc,
  Forall nonnegOrInf vs -> nonnegF acc ->
  is_finite (fold_left PrimFloat.add vs acc) = true -> Forall nonnegF vs.
Proof.
  induction vs as [|v vs IH]; intros acc Hvs Hacc F; [constructor|].
  inversion Hvs as [|? ? Hv Hvs']; subst. cbn [fold_left] in F.
  destruct Hv as [Hv|Hv].
  - constructor; auto.
    destruct (add_nonneg acc v Hacc Hv) as [[I _]|[N _]].
    + pose proof (inf_not_finite _ (fold_inf vs _ Hvs' I)). congruence.
    + apply (IH _ Hvs' N F).
  - pose proof (add_inf_r acc v (or_introl Hacc) Hv) as I.
    pose proof (inf_not_finite _ (fold_inf vs _ Hvs' I)). congruence.
Qed.

Lemma Math_max_zero_nonneg p : is_finite p = true -> nonnegF (Js.Math_max 0 p).
Proof.
  intros F. pose proof (is_finite_not_nan _ F) as N.
  apply finite_nonneg.
  - destruct (Math_max_choice 0 p eq_refl N) as [-> | ->]; auto.
  - apply Math_max_ge_l; auto.
Qed.

Lemma usablePsqft_nonneg_finite x w : usablePsqft x = Some w -> nonnegF w.
Proof.
  destruct x as [b|]; simpl; [|discriminate].
  unfold Js.isFinite. destruct (is_finite (psqft b)) eqn:F; [|discriminate].
  intros [= <-]. apply Math_max_zero_nonneg, F.
Qed.

Lemma positiveF_two : positiveF 2.
Proof. reflexivity. Qed.

Lemma div_inf_two x : isPosInf x -> isPosInf (x / 2)%float.
Proof. unfold isPosInf. intros H. rewrite div_spec, H. reflexivity. Qed.

Lemma average_range l h : nonnegF l -> nonnegF h -> nonnegOrInf ((l + h) / 2)%float.
Proof.
  intros Hl Hh. destruct (add_nonneg l h Hl Hh) as [[I _]|[N _]].
  - right. apply div_inf_two, I.
  - destruct (div_nonneg _ 2%float N positiveF_two) as [[I _]|[N' _]]; [right|left]; auto.
Qed.

(** The representative unit cost is a non-negative number or [+Infinity]. *)
Lemma getMedium_range benchmark c : nonnegOrInf (getMediumPsqftOrFallback benchmark c).
Proof.
  unfold getMediumPsqftOrFallback.
  destruct (usablePsqft (findBand benchmark c MEDIUM)) as [m|] eqn:M.
  { left. eapply usablePsqft_nonneg_finite; eauto. }
  destruct (usablePsqft (findBand benchmark c LOW)) as [l|] eqn:L;
    destruct (usablePsqft (findBand benchmark c HIGH)) as [h|] eqn:H.
  - apply average_range; eapply usablePsqft_nonneg_finite; eauto.
  - left. eapply usablePsqft_nonneg_finite; eauto.
  - left. eapply usablePsqft_nonneg_finite; eauto.
  - left. exact I.
Qed.

Lemma mediumCosts_range benchmark : Forall nonnegOrInf (mediumCosts benchmark).
Proof.
  unfold mediumCosts. apply Forall_forall. intros v Hv.
  apply in_map_iff in Hv. destruct Hv as (cat & <- & _). apply getMedium_range.
Qed.

(** The first loop, for any way [g] of pricing a category. *)
Lemma collect_shape (g : VmxCategoryId -> float) :
  fold_left
    (fun (st : ShareRecord * float) cat =>
       (rec_set (id cat) (g (id cat)) (fst st), (snd st + g (id cat))%float))
    VMX_CATEGORIES (JsMap.empty, 0%float)
  = (map (fun cat => (id cat, g (id cat))) VMX_CATEGORIES,
     fsum (map (fun cat => g (id cat)) VMX_CATEGORIES)).
Proof. reflexivity. Qed.

Lemma collectMedium_shape benchmark :
  collectMedium benchmark
  = (map (fun cat => (id cat, getMediumPsqftOrFallback benchmark (id cat))) VMX_CATEGORIES,
     fsum (mediumCosts benchmark)).
Proof. apply (collect_shape (getMediumPsqftOrFallback benchmark)). Qed.

(** The second loop, for any value [h] stored per category. *)
Lemma fill_shape (h : VmxCategoryId -> float) :
  fold_left (fun out cat => rec_set (id cat) (h (id cat)) out) VMX_CATEGORIES JsMap.empty
  = map (fun cat => (id cat, h (id cat))) VMX_CATEGORIES.
Proof. reflexivity. Qed.

Lemma lookup_shape (g : VmxCategoryId -> float) c :
  rec_get c (map (fun cat => (id cat, g (id cat))) VMX_CATEGORIES) = Some (g c).
Proof. destruct c; reflexivity. Qed.

(** What [computeImpliedMediumAllocationShares] returns, branch by branch. *)
Lemma shares_shape benchmark :
  let total := fsum (mediumCosts benchmark) in
  computeImpliedMediumAllocationShares benchmark
  = if negb (Js.isFinite total) || (total <=? 0)%float
    then map (fun cat => (id cat, (1 / 7)%float)) VMX_CATEGORIES
    else map (fun cat => (id cat, (getMediumPsqftOrFallback benchmark (id cat) / total)%float))
             VMX_CATEGORIES.
Proof.
  intros total. unfold computeImpliedMediumAllocationShares.
  rewrite collectMedium_shape. fold total.
  destruct (negb (Js.isFinite total) || (total <=? 0)%float).
  - exact (fill_shape (fun _ => (1 / 7)%float)).
  - set (g := getMediumPsqftOrFallback benchmark).
    rewrite <- (fill_shape (fun c => (g c / total)%float)).
    unfold VMX_CATEGORIES. cbn [fold_left id].
    rewrite !(lookup_shape g). reflexivity.
Qed.

Lemma equal_shares_near_one :
  let total := fsum (shareValues (map (fun cat => (id cat, (1 / 7)%float)) VMX_CATEGORIES)) in
  nonnegF total /\ - / 1000000000000 <= B2R total - 1 <= / 1000000000000.
Proof.
  cbv zeta. unfold nonnegF, B2R.
  replace (Prim2SF _) with (S754_finite false 9007199254740990 (-53))
    by (vm_compute; reflexivity).
  split; [reflexivity|].
  unfold SF2R. rewrite <- u64_bpow. unfold u64. lra.
Qed.

(** What "within 1e-9 of 1" means for a computed sum: as a real number,
    and as the test [Math.abs(sum - 1) <= 1e-9]. *)
Lemma near_one x :
  nonnegF x /\ - / 1000000000000 <= B2R x - 1 <= / 1000000000000 ->
  Rabs (B2R x - 1) <= / 1000000000 /\ (abs (x - 1) <=? 1e-9)%float = true.
Proof.
  intros [N B]. split; [apply Rabs_le; lra|apply near_one_test; assumption].
Qed.

End Link.
Import Link.

(** *** Shares and percentages *)

Lemma fsum_finite_positive vs :
  Forall nonnegOrInf vs -> (List.length vs <= 100)%nat ->
  is_finite (fsum vs) = true -> (fsum vs <=? 0)%float = false ->
  Forall nonnegF vs /\ positiveF (fsum vs).
Proof.
  intros Hvs Hlen F L.
  pose proof (fold_finite vs 0%float Hvs nonnegF_zero F) as N.
  split; auto.
  assert (Hn : INR (List.length vs) <= 1000).
  { apply Rle_trans with (INR 100); [apply le_INR, Hlen|simpl; lra]. }
  destruct (fsum_bound vs N Hn) as [[I _]|[P _]].
  - pose proof (inf_not_finite _ I). congruence.
  - apply finite_positive; auto.
Qed.

(** C7: the implied Medium shares cover the seven categories, in order, and
    their floating-point sum is within 1e-9 of 1, as a real number and under
    the test [Math.abs(sum - 1) <= 1e-9], on the proportional path and on
    the equal-weight path alike. *)
Theorem implied_shares_sum_to_one (benchmark : BenchmarkSet) :
  let shares := computeImpliedMediumAllocationShares benchmark in
  JsMap.keys shares = map id VMX_CATEGORIES /\
  (forall c, exists share, rec_get c shares = Some share) /\
  Rabs (B2R (fsum (shareValues shares)) - 1) <= / 1000000000 /\
  (abs (fsum (shareValues shares) - 1) <=? 1e-9)%float = true.
Proof.
  cbv zeta.
  pose proof (shares_shape benchmark) as E. cbv zeta in E. rewrite E. clear E.
  set (total := fsum (mediumCosts benchmark)).
  destruct (negb (Js.isFinite total) || (total <=? 0)%float) eqn:T.
  - split; [reflexivity|]. split.
    + intros c. rewrite (lookup_shape (fun _ => (1 / 7)%float)). eauto.
    + apply near_one, equal_shares_near_one.
  - split; [reflexivity|]. split.
    + intros c.
      rewrite (lookup_shape (fun c => (getMediumPsqftOrFallback benchmark c / total)%float)).
      eauto.
    + apply orb_false_elim in T. destruct T as [F L]. apply negb_false_iff in F.
      destruct (fsum_finite_positive (mediumCosts benchmark)
                  (mediumCosts_range benchmark) ltac:(simpl; lia) F L) as [N P].
      replace (shareValues _) with (quotients (mediumCosts benchmark) total).
      2: { unfold shareValues, quotients, mediumCosts. rewrite !map_map. reflexivity. }
      apply near_one. apply (quotients_sum_to_one _ N ltac:(simpl; lia) P).
Qed.

Lemma Forall2_same_length {A B} (R : A -> B -> Prop) xs ys :
  Forall2 R xs ys -> List.length xs = List.length ys.
Proof. induction 1; simpl; congruence. Qed.

(** C1 as stated fails when the costs overflow: with a finite positive
    area, complete selections and all bands present, unit costs of 1e308 give
    a total of [+Infinity], which passes the check, and percentages that are
    all 0. *)
Lemma cost_conservation_overflow :
  exists res,
    computeScenarioResult 1 hugeBenchmark plainSelections = Ok res /\
    (0 <? totalCost res)%float = true /\
    fsum (map pctOfTotal (categories res)) = 0%float /\
    ~ Rabs (B2R (fsum (map pctOfTotal (categories res))) - 1) <= / 1000000000 /\
    (abs (fsum (map pctOfTotal (categories res)) - 1) <=? 1e-9)%float = false.
Proof.
  destruct (computeScenarioResult 1 hugeBenchmark plainSelections) as [res|e] eqn:E;
    vm_compute in E; [|discriminate E].
  exists res. injection E as <-. split; [reflexivity|]. split; [reflexivity|].
  split; [reflexivity|]. split; [|reflexivity].
  replace (fsum _) with 0%float by reflexivity.
  rewrite B2R_zero. unfold Rabs. destruct (Rcase_abs (0 - 1)); lra.
Qed.

(** The percentages can also miss 1 with a finite total, when a negative
    cost cancels a large one: overrides of 1e16, 11 and -1e16 give a total of
    12 and percentages that add up to 0.875. *)
Lemma cost_conservation_cancellation :
  exists res,
    computeScenarioResult 1 demoBenchmark cancellingSelections = Ok res /\
    totalCost res = 12%float /\
    fsum (map pctOfTotal (categories res)) = 0.875%float.
Proof.
  destruct (computeScenarioResult 1 demoBenchmark cancellingSelections) as [res|e] eqn:E;
    vm_compute in E; [|discriminate E].
  exists res. injection E as <-. repeat split.
Qed.

(** C1, amended: for every call that returns a result, the category costs,
    added in category order, equal [totalCost] exactly; and the percentages
    add up to 1 within 1e-9, as a real number and under the test
    [Math.abs(sum - 1) <= 1e-9], when every cost is finite and not negative
    and [totalCost] is finite. *)
Theorem cost_conservation (areaSqft : float) (benchmark : BenchmarkSet)
  (selections : list ScenarioSelection) (res : ScenarioResult) :
  computeScenarioResult areaSqft benchmark selections = Ok res ->
  map res_categoryId (categories res) = map id VMX_CATEGORIES /\
  fsum (map cost (categories res)) = totalCost res /\
  (Forall (fun r => Js.isFinite (cost r) = true /\ (0 <=? cost r)%float = true)
          (categories res) ->
   Js.isFinite (totalCost res) = true ->
   Rabs (B2R (fsum (map pctOfTotal (categories res))) - 1) <= / 1000000000 /\
   (abs (fsum (map pctOfTotal (categories res)) - 1) <=? 1e-9)%float = true).
Proof.
  intros H. pose proof (computeScenarioResult_Ok_area _ _ _ _ H) as Ha.
  rewrite (computeScenarioResult_valid _ _ _ Ha) in H.
  destruct (mapM _ VMX_CATEGORIES) as [interim|] eqn:M; [|discriminate].
  cbn [bind] in H. destruct (sumCosts interim <=? 0)%float eqn:L; [discriminate|].
  injection H as <-. cbn [categories totalCost].
  apply mapM_Forall2 in M.
  assert (S : fsum (map int_cost interim) = sumCosts interim)
    by (symmetry; apply sumCosts_fsum).
  split; [|split].
  - generalize (sumCosts interim). intros total. clear - M Ha.
    induction M as [|cat r cats rs E _ IH]; cbn [map]; [reflexivity|].
    f_equal; auto.
    destruct (interimFor_Ok _ _ _ _ _ _ total Ha E) as (sel & base & _ & _ & C & _).
    exact C.
  - rewrite map_map. cbn [categoryResult cost]. exact S.
  - intros Hc Hf.
    rewrite map_map. cbn [categoryResult pctOfTotal].
    change (map (fun x => (int_cost x / sumCosts interim)%float) interim)
      with (map (fun x => (fun v => (v / sumCosts interim)%float) (int_cost x)) interim).
    rewrite <- (map_map int_cost (fun v => (v / sumCosts interim)%float)).
    fold (quotients (map int_cost interim) (sumCosts interim)).
    rewrite <- S in *.
    assert (Len : (List.length (map int_cost interim) <= 100)%nat).
    { rewrite length_map, <- (Forall2_same_length _ _ _ M). simpl. lia. }
    assert (N : Forall nonnegF (map int_cost interim)).
    { apply Forall_forall. intros v Hv. apply in_map_iff in Hv.
      destruct Hv as (r & <- & Hr).
      rewrite Forall_forall in Hc.
      destruct (Hc (categoryResult (fsum (map int_cost interim)) r)) as [F Z].
      - apply in_map_iff. eauto.
      - apply finite_nonneg; assumption. }
    assert (N' : Forall nonnegOrInf (map int_cost interim)).
    { eapply Forall_impl; [|exact N]. intros v Hv. left. exact Hv. }
    destruct (fsum_finite_positive _ N' Len Hf L) as [_ P].
    apply near_one. apply (quotients_sum_to_one _ N Len P).
Qed.

Lemma cost_conservation_witness :
  exists res,
    computeScenarioResult 10000 demoBenchmark plainSelections = Ok res /\
    fsum (map cost (categories res)) = totalCost res /\
    Rabs (B2R (fsum (map pctOfTotal (categories res))) - 1) <= / 1000000000.
Proof.
  destruct (computeScenarioResult 10000 demoBenchmark plainSelections) as [res|e] eqn:E.
  - exists res. split; [reflexivity|].
    destruct (cost_conservation _ _ _ _ E) as (_ & S & P). split; [exact S|].
    vm_compute in E. injection E as <-.
    apply P.
    + repeat constructor.
    + reflexivity.
  - vm_compute in E. discriminate E.
Defined.

(* ================================================================= *)
(** ** Further properties of the calculator and its callers          *)
(* ================================================================= *)

Local Close Scope R_scope.

(** *** clamp, requireBand and the complete set of ranges *)

(** *** clamp *)

Lemma Math_max_ge a b :
  is_nan a = false -> (a <=? b)%float = true -> (Js.Math_max a b =? b)%float = true.
Proof.
  intros Na L. destruct (leb_not_nan _ _ L) as [_ Nb].
  unfold Js.Math_max. rewrite Na, Nb. cbn [orb].
  destruct (a <? b)%float eqn:E1. { apply eqb_refl, Nb. }
  rewrite (leb_ltb_false _ _ L).
  assert (Eq : (a =? b)%float = true).
  { apply eqb_cmp. apply leb_cmp in L. destruct L as [L|L]; auto.
    apply ltb_cmp in L. congruence. }
  destruct (get_sign a); [apply eqb_refl, Nb|exact Eq].
Qed.

Lemma Math_min_le a b :
  (b <=? a)%float = true -> (Js.Math_min a b =? b)%float = true.
Proof.
  intros L. destruct (leb_not_nan _ _ L) as [Nb Na].
  unfold Js.Math_min. rewrite Na, Nb. cbn [orb].
  rewrite (leb_ltb_false _ _ L).
  destruct (b <? a)%float eqn:E1. { apply eqb_refl, Nb. }
  assert (Eq : (a =? b)%float = true).
  { apply eqb_sym. apply eqb_cmp. apply leb_cmp in L. destruct L as [L|L]; auto.
    apply ltb_cmp in L. congruence. }
  destruct (get_sign a); [exact Eq|apply eqb_refl, Nb].
Qed.

Lemma eqb_trans x y z :
  (x =? y)%float = true -> (y =? z)%float = true -> (x =? z)%float = true.
Proof.
  intros A B.
  assert (L : (x <=? z)%float = true) by (eapply leb_trans; apply eqb_leb; eauto).
  assert (G : (z <=? x)%float = true)
    by (eapply leb_trans; apply eqb_leb; apply eqb_sym; eauto).
  apply eqb_cmp. apply leb_cmp in L. destruct L as [L|L]; auto.
  apply ltb_cmp in L. rewrite (leb_ltb_false _ _ G) in L. discriminate.
Qed.

Lemma eqb_leb_l x y z :
  (x =? y)%float = true -> (y <=? z)%float = true -> (x <=? z)%float = true.
Proof. intros A B. eapply leb_trans; [apply eqb_leb|]; eauto. Qed.

(** X1: [clamp] always lands between its bounds when they are ordered;
    a value that is not finite (NaN, but also either infinity) is sent to
    the lower bound; and a finite value already between the bounds comes
    back equal to itself. *)
Theorem clamp_within_bounds (n lo hi : float) :
  (lo <=? hi)%float = true ->
  ((lo <=? clamp n lo hi)%float = true /\ (clamp n lo hi <=? hi)%float = true) /\
  (Js.isFinite n = false -> clamp n lo hi = lo) /\
  (Js.isFinite n = true -> (lo <=? n)%float = true -> (n <=? hi)%float = true ->
   (clamp n lo hi =? n)%float = true).
Proof.
  intros L. split; [apply clamp_bounds, L|]. split.
  - intros F. unfold clamp. rewrite F. reflexivity.
  - intros F L1 L2. unfold clamp. rewrite F. cbn [negb].
    destruct (leb_not_nan _ _ L) as [Nlo Nhi].
    pose proof (Math_max_ge lo n Nlo L1) as M.
    eapply eqb_trans; [|exact M].
    apply Math_min_le. eapply eqb_leb_l; eauto.
Qed.

Lemma clamp_within_bounds_witness :
  (0 <=? clamp infinity 0 1)%float = true /\
  clamp infinity 0 1 = 0%float /\
  (clamp 0.25 0 1 =? 0.25)%float = true.
Proof.
  destruct (clamp_within_bounds infinity 0 1 eq_refl) as [[A _] [B _]].
  destruct (clamp_within_bounds 0.25 0 1 eq_refl) as [_ [_ C]].
  exact (conj A (conj (B eq_refl) (C eq_refl eq_refl eq_refl))).
Defined.

(** *** requireBand *)

Lemma find_split {A} (p : A -> bool) (l : list A) :
  match find p l with
  | Some x => exists pre post, l = pre ++ x :: post /\ p x = true /\
                               Forall (fun y => p y = false) pre
  | None => Forall (fun y => p y = false) l
  end.
Proof.
  induction l as [|a l IH]; simpl; [constructor|].
  destruct (p a) eqn:E.
  - exists [], l. auto.
  - destruct (find p l) as [x|].
    + destruct IH as (pre & post & -> & Hx & Hpre).
      exists (a :: pre), post. auto.
    + constructor; auto.
Qed.

Lemma bandMatches_eqb c h x :
  VmxCategoryId_eqb (band_categoryId x) c && HeatBand_eqb (band_band x) h = true
  <-> bandMatches c h x.
Proof.
  unfold bandMatches. rewrite andb_true_iff, VmxCategoryId_eqb_eq, HeatBand_eqb_eq. tauto.
Qed.

(** X2: [requireBand] returns the first entry of [benchmark.bands] with
    the requested category and band (later duplicates are never seen), and
    throws the missing-band error, naming that category and band, exactly
    when no entry has them. *)
Theorem requireBand_first_match (benchmark : BenchmarkSet) (c : VmxCategoryId) (h : HeatBand) :
  match requireBand benchmark c h with
  | Ok x => exists pre post,
      bands benchmark = pre ++ x :: post /\ bandMatches c h x /\
      Forall (fun y => ~ bandMatches c h y) pre
  | Throw e => e = MissingBand c h /\ Forall (fun y => ~ bandMatches c h y) (bands benchmark)
  end.
Proof.
  unfold requireBand, findBand.
  pose proof (find_split
    (fun x => VmxCategoryId_eqb (band_categoryId x) c && HeatBand_eqb (band_band x) h)
    (bands benchmark)) as S.
  assert (N : forall l,
    Forall (fun y => VmxCategoryId_eqb (band_categoryId y) c && HeatBand_eqb (band_band y) h
                     = false) l ->
    Forall (fun y => ~ bandMatches c h y) l).
  { intros l. apply Forall_impl. intros y Hy M. apply bandMatches_eqb in M. congruence. }
  destruct (find _ (bands benchmark)) as [x|].
  - destruct S as (pre & post & E & Hx & Hpre). exists pre, post.
    split; [exact E|]. split; [apply bandMatches_eqb, Hx|apply N, Hpre].
  - split; [reflexivity|apply N, S].
Qed.

(** *** The complete set of ranges, category by category *)

(** Looking a category up in a list that has one entry per category, in
    category order. *)
Lemma findRange_per_category (f : CategoryDef -> TargetRange) c :
  (forall cat, categoryId (f cat) = Known (id cat)) ->
  exists cat, In cat VMX_CATEGORIES /\ id cat = c /\
              findRange (map f VMX_CATEGORIES) c = Some (f cat).
Proof.
  intros H. unfold findRange, VMX_CATEGORIES. cbn [map find].
  rewrite !H. cbn [id CategoryKey_eqb].
  destruct c; cbn [VmxCategoryId_eqb];
    match goal with |- context [Some (f ?x) = _] => exists x end;
    (split; [cbn [In]; auto 10|split; reflexivity]).
Qed.

Lemma find_append {A} (p : A -> bool) (l1 l2 : list A) :
  find p (l1 ++ l2) = match find p l1 with Some x => Some x | None => find p l2 end.
Proof.
  induction l1 as [|a l1 IH]; simpl; [reflexivity|]. destruct (p a); auto.
Qed.

(** What [byCat.get(c)] holds after the loop over the stored ranges: the
    normalised last entry filed under [c], if any. *)
Lemma collectExisting_fold_last c l : forall acc,
  range_get (Known c)
    (fold_left
       (fun byCat r =>
          match r with
          | None => byCat
          | Some r =>
              match stored_categoryId r with
              | None => byCat
              | Some k =>
                  let fixed := ensureMinMax (Js.toNumber (stored_minPct r))
                                            (Js.toNumber (stored_maxPct r)) in
                  range_set k {| categoryId := k; minPct := fst fixed; maxPct := snd fixed |} byCat
              end
          end) l acc)
  = match find (storedFor c) (rev l) with
    | Some r => Some (normalisedEntry c r)
    | None => range_get (Known c) acc
    end.
Proof.
  induction l as [|x l IH]; intros acc; [reflexivity|].
  cbn [fold_left rev]. rewrite IH, find_append.
  destruct (find (storedFor c) (rev l)) as [y|]; [reflexivity|].
  cbn [find]. unfold storedFor, normalisedEntry. destruct x as [r|]; [|reflexivity].
  destruct (stored_categoryId r) as [k|]; [|reflexivity].
  destruct (CategoryKey_eqb k (Known c)) eqn:E.
  - apply CategoryKey_eqb_eq in E. subst k.
    unfold range_get, range_set. rewrite (get_set_same _ CategoryKey_eqb_eq). reflexivity.
  - unfold range_get, range_set. apply (get_set_other _ CategoryKey_eqb_eq).
    intros ->. rewrite (proj2 (CategoryKey_eqb_eq _ _) eq_refl) in E. discriminate.
Qed.

Lemma collectExisting_last benchmark c :
  range_get (Known c) (collectExisting (existingRanges benchmark))
  = option_map (normalisedEntry c) (lastStored benchmark c).
Proof.
  unfold collectExisting, lastStored. rewrite collectExisting_fold_last.
  destruct (find _ _); reflexivity.
Qed.

Lemma complete_pick benchmark (cat : CategoryDef) :
  let pick := fun cat : CategoryDef =>
    match range_get (Known (id cat)) (collectExisting (existingRanges benchmark)) with
    | Some existingRange => existingRange
    | None =>
        match findRange (deriveTargetRangesFromMedium benchmark None) (id cat) with
        | Some d => d
        | None => {| categoryId := Known (id cat); minPct := 0; maxPct := 1 |}
        end
    end in
  categoryId (pick cat) = Known (id cat).
Proof.
  cbv beta zeta. rewrite collectExisting_last.
  destruct (lastStored benchmark (id cat)) as [r|]; [reflexivity|]. cbn [option_map].
  destruct (findRange _ (id cat)) as [d|] eqn:D; [|reflexivity].
  apply findRange_some in D. apply D.
Qed.

Lemma derived_per_category benchmark opts c :
  exists d, findRange (deriveTargetRangesFromMedium benchmark opts) c = Some d.
Proof.
  unfold deriveTargetRangesFromMedium.
  match goal with
  | |- exists d, findRange (map ?f _) c = _ =>
      destruct (findRange_per_category f c) as (cat & _ & _ & E); [reflexivity|]
  end.
  eauto.
Qed.

(** The entry of the complete set for a category, and why it is there. *)
Lemma complete_entry benchmark c :
  exists r,
    findRange (ensureCompleteTargetRanges benchmark) c = Some r /\
    match lastStored benchmark c with
    | Some s => r = normalisedEntry c s
    | None => findRange (deriveTargetRangesFromMedium benchmark None) c = Some r
    end.
Proof.
  unfold ensureCompleteTargetRanges.
  change (match targetRanges benchmark with Some l => l | None => [] end)
    with (existingRanges benchmark).
  match goal with
  | |- exists r, findRange (map ?f _) c = _ /\ _ =>
      destruct (findRange_per_category f c) as (cat & _ & <- & E);
        [intros cat; apply (complete_pick benchmark cat)|]
  end.
  rewrite E, collectExisting_last. eexists. split; [reflexivity|].
  destruct (lastStored benchmark (id cat)) as [r|]; [reflexivity|]. cbn [option_map].
  destruct (derived_per_category benchmark None (id cat)) as [d ->]. reflexivity.
Qed.

Lemma complete_wellFormed benchmark c r :
  findRange (ensureCompleteTargetRanges benchmark) c = Some r ->
  categoryId r = Known c /\ wellFormed r.
Proof.
  intros E. destruct (complete_entry benchmark c) as (r' & E' & W).
  rewrite E in E'. injection E' as <-.
  split; [apply (findRange_some _ _ _ E)|].
  destruct (lastStored benchmark c) as [s|].
  - subst r. apply ensureMinMax_valid.
  - apply findRange_some in W. apply (derived_ok _ _ _ (proj1 W)).
Qed.

(** X3: what [ensureCompleteTargetRanges] returns for a category.  When
    the stored ranges hold entries for it, the last of them wins and comes
    back normalised by [ensureMinMax] (absent percentages count as NaN);
    entries that are falsy, have no id or name no category are skipped;
    otherwise the range is the one derived from the Medium shares.  The
    derived set always has the category, so the [0..1] fallback of the
    source is never used. *)
Theorem stored_ranges_last_wins (benchmark : BenchmarkSet) (c : VmxCategoryId) :
  findRange (ensureCompleteTargetRanges benchmark) c =
    match lastStored benchmark c with
    | Some r => Some (normalisedEntry c r)
    | None => findRange (deriveTargetRangesFromMedium benchmark None) c
    end /\
  findRange (deriveTargetRangesFromMedium benchmark None) c <> None.
Proof.
  split.
  2: { destruct (derived_per_category benchmark None c) as [d ->]. discriminate. }
  destruct (complete_entry benchmark c) as (r & -> & W).
  destruct (lastStored benchmark c) as [s|]; congruence.
Qed.

(** The stored ranges of [duplicateRangesBenchmark]: the second FF_E entry
    replaces the first, the swapped SERVICES bounds collapse onto the
    clamped minimum, and the entry for "ROOF" is not used. *)
Example stored_ranges_example :
  findRange (ensureCompleteTargetRanges duplicateRangesBenchmark) FF_E
    = Some {| categoryId := Known FF_E; minPct := 0.05; maxPct := 0.15 |} /\
  findRange (ensureCompleteTargetRanges duplicateRangesBenchmark) SERVICES
    = Some {| categoryId := Known SERVICES; minPct := 0.5; maxPct := 0.5 |} /\
  List.length (ensureCompleteTargetRanges duplicateRangesBenchmark) = 7%nat.
Proof. vm_compute. auto. Qed.

(** X4: [getTargetRangeForCategory] always finds the category in the
    complete set: it returns that entry, which carries the requested id
    and satisfies [0 <= minPct <= maxPct <= 1]; its own [0..1] fallback is
    unreachable. *)
Theorem getTargetRangeForCategory_found (benchmark : BenchmarkSet) (c : VmxCategoryId) :
  findRange (ensureCompleteTargetRanges benchmark) c
    = Some (getTargetRangeForCategory benchmark c) /\
  categoryId (getTargetRangeForCategory benchmark c) = Known c /\
  validRange (minPct (getTargetRangeForCategory benchmark c))
             (maxPct (getTargetRangeForCategory benchmark c)).
Proof.
  destruct (complete_entry benchmark c) as (r & E & _).
  unfold getTargetRangeForCategory. rewrite E.
  split; [reflexivity|]. apply (complete_wellFormed benchmark c r E).
Qed.

(** *** Which category fails, and which selection counts *)

(** *** The first category that cannot be resolved *)

Lemma mapM_first_throw {E A B} (f : A -> result E B) xs pre x post e :
  xs = pre ++ x :: post ->
  Forall (fun y => exists z, f y = Ok z) pre ->
  f x = Throw e ->
  mapM f xs = Throw e.
Proof.
  intros -> Hpre Hx. induction Hpre as [|y pre [z Hy] _ IH]; cbn [app mapM].
  - rewrite Hx. reflexivity.
  - rewrite Hy, IH. reflexivity.
Qed.

Lemma resolved_interim a b s rs cat :
  resolved b s (id cat) -> exists r, interimFor a b (selectionMap s) rs cat = Ok r.
Proof.
  intros (sel & base & S & B). unfold interimFor, requireBand.
  fold (selectionFor s (id cat)). rewrite S, B. cbn [bind]. eauto.
Qed.

(** X5: with a valid area, the error reported is that of the first
    category, in the fixed category order, that cannot be resolved: the
    missing-selection error naming it when it has no selection, the
    missing-band error naming it and the selected band when the benchmark
    lacks that band; what is wrong with later categories is not looked at. *)
Theorem first_unresolved_category_reported (areaSqft : float) (benchmark : BenchmarkSet)
  (selections : list ScenarioSelection) (pre post : list CategoryDef) (cat : CategoryDef) :
  validArea areaSqft = true ->
  VMX_CATEGORIES = pre ++ cat :: post ->
  Forall (fun x => resolved benchmark selections (id x)) pre ->
  (selectionFor selections (id cat) = None ->
   computeScenarioResult areaSqft benchmark selections = Throw (MissingSelection (id cat))) /\
  (forall sel, selectionFor selections (id cat) = Some sel ->
   findBand benchmark (id cat) (sel_band sel) = None ->
   computeScenarioResult areaSqft benchmark selections
     = Throw (MissingBand (id cat) (sel_band sel))).
Proof.
  intros Ha Hsplit Hpre.
  rewrite (computeScenarioResult_valid _ _ _ Ha).
  set (f := interimFor areaSqft benchmark (selectionMap selections)
                       (ensureCompleteTargetRanges benchmark)).
  assert (P : Forall (fun y => exists z, f y = Ok z) pre).
  { revert Hpre. apply Forall_impl. intros x Hx. apply resolved_interim, Hx. }
  split.
  - intros S.
    rewrite (mapM_first_throw f _ pre cat post (MissingSelection (id cat)) Hsplit P);
      [reflexivity|].
    unfold f, interimFor. fold (selectionFor selections (id cat)). rewrite S. reflexivity.
  - intros sel S B.
    rewrite (mapM_first_throw f _ pre cat post (MissingBand (id cat) (sel_band sel)) Hsplit P);
      [reflexivity|].
    unfold f, interimFor, requireBand. fold (selectionFor selections (id cat)).
    rewrite S, B. reflexivity.
Qed.

Lemma first_unresolved_category_reported_witness :
  computeScenarioResult 15000 demoBenchmark [] = Throw (MissingSelection FACILITATING) /\
  computeScenarioResult 15000 missingBandBenchmark zeroOverrideSelections
    = Throw (MissingBand SERVICES HIGH).
Proof.
  split.
  - refine (proj1 (first_unresolved_category_reported 15000 demoBenchmark []
                     [] (tl VMX_CATEGORIES) (hd (Build_CategoryDef FACILITATING "" 0) VMX_CATEGORIES)
                     eq_refl eq_refl (Forall_nil _)) eq_refl).
  - refine (proj2 (first_unresolved_category_reported 15000 missingBandBenchmark
                     zeroOverrideSelections
                     (firstn 5 VMX_CATEGORIES) (skipn 6 VMX_CATEGORIES)
                     (nth 5 VMX_CATEGORIES (Build_CategoryDef FACILITATING "" 0))
                     eq_refl eq_refl _)
                  {| sel_categoryId := SERVICES; sel_band := HIGH; overridePsqft := Some 0%float |}
                  eq_refl eq_refl).
    repeat constructor; (eexists; eexists; split; vm_compute; reflexivity).
Defined.

(** *** Which selection counts *)

Lemma selectionMap_fold_last c l : forall acc,
  sel_get c (fold_left (fun m sel => sel_set (sel_categoryId sel) sel m) l acc)
  = match find (fun sel => VmxCategoryId_eqb (sel_categoryId sel) c) (rev l) with
    | Some sel => Some sel
    | None => sel_get c acc
    end.
Proof.
  induction l as [|x l IH]; intros acc; [reflexivity|].
  cbn [fold_left rev]. rewrite IH, find_append.
  destruct (find _ (rev l)) as [y|]; [reflexivity|].
  cbn [find]. unfold sel_get, sel_set.
  destruct (VmxCategoryId_eqb (sel_categoryId x) c) eqn:E.
  - apply VmxCategoryId_eqb_eq in E. subst c.
    apply (get_set_same _ VmxCategoryId_eqb_eq).
  - apply (get_set_other _ VmxCategoryId_eqb_eq).
    intros H. rewrite H, VmxCategoryId_eqb_refl in E. discriminate.
Qed.

Lemma selectionFor_last s c : selectionFor s c = lastSelection s c.
Proof.
  unfold selectionFor, selectionMap, lastSelection. rewrite selectionMap_fold_last.
  destruct (find _ _); reflexivity.
Qed.

Lemma mapM_ext {E A B} (f g : A -> result E B) xs :
  (forall x, f x = g x) -> mapM f xs = mapM g xs.
Proof.
  intros H. induction xs as [|x xs IH]; cbn [mapM]; [reflexivity|].
  rewrite H, IH. reflexivity.
Qed.

(** X6: the selections count only through the last one listed for each
    category: two lists that agree on that give the same result or the same
    error, whatever their order, their length and their earlier entries for
    the same category. *)
Theorem selections_last_wins (areaSqft : float) (benchmark : BenchmarkSet)
  (s1 s2 : list ScenarioSelection) :
  (forall c, lastSelection s1 c = lastSelection s2 c) ->
  computeScenarioResult areaSqft benchmark s1 = computeScenarioResult areaSqft benchmark s2.
Proof.
  intros H. unfold computeScenarioResult.
  destruct (negb (Js.isFinite areaSqft) || (areaSqft <=? 0)%float); [reflexivity|].
  cbv zeta.
  rewrite (mapM_ext
             (interimFor areaSqft benchmark (selectionMap s1)
                         (ensureCompleteTargetRanges benchmark))
             (interimFor areaSqft benchmark (selectionMap s2)
                         (ensureCompleteTargetRanges benchmark))); [reflexivity|].
  intros cat. unfold interimFor.
  fold (selectionFor s1 (id cat)). fold (selectionFor s2 (id cat)).
  rewrite !selectionFor_last, H. reflexivity.
Qed.

Lemma selections_last_wins_witness :
  computeScenarioResult 15000 demoBenchmark shuffledSelections
  = computeScenarioResult 15000 demoBenchmark highSelections.
Proof.
  apply (selections_last_wins 15000 demoBenchmark shuffledSelections highSelections).
  intros c. destruct c; reflexivity.
Defined.

(** *** The guardrail fields and the sign of the total *)

(** *** The guardrail fields of a result *)

(** The ranges of the complete set are fixed points of [ensureMinMax]. *)
Lemma complete_entry_fixed benchmark c r :
  findRange (ensureCompleteTargetRanges benchmark) c = Some r ->
  ensureMinMax (minPct r) (maxPct r) = (minPct r, maxPct r).
Proof.
  intros E. destruct (complete_entry benchmark c) as (r' & E' & W).
  rewrite E in E'. injection E' as <-.
  assert (N : forall x y,
    ensureMinMax (fst (ensureMinMax x y)) (snd (ensureMinMax x y))
    = (fst (ensureMinMax x y), snd (ensureMinMax x y))).
  { intros x y. rewrite ensureMinMax_twice. apply surjective_pairing. }
  destruct (lastStored benchmark c) as [s|].
  - subst r. apply N.
  - apply findRange_some in W. destruct W as [W _].
    unfold deriveTargetRangesFromMedium in W. apply in_map_iff in W.
    destruct W as (cat & <- & _). apply N.
Qed.

Lemma Forall2_In_r {A B} (R : A -> B -> Prop) xs ys y :
  Forall2 R xs ys -> In y ys -> exists x, In x xs /\ R x y.
Proof.
  induction 1 as [|x0 y0 xs ys H0 _ IH]; simpl; [tauto|].
  intros [<- | Hin]; [eauto|].
  destruct (IH Hin) as (x & Hx & Hr). eauto.
Qed.

Lemma interim_range a b s cat r :
  interimFor a b (selectionMap s) (ensureCompleteTargetRanges b) cat = Ok r ->
  int_categoryId r = id cat /\
  findRange (ensureCompleteTargetRanges b) (id cat) = Some (int_range r).
Proof.
  unfold interimFor, requireBand.
  destruct (sel_get (id cat) (selectionMap s)) as [sel|]; [|discriminate].
  destruct (findBand b (id cat) (sel_band sel)) as [base|]; [|discriminate].
  cbn [bind].
  destruct (complete_entry b (id cat)) as (x & E & _). rewrite E.
  intros [= <-]. split; reflexivity.
Qed.

Lemma ltb_nan_l x y : is_nan x = true -> (x <? y)%float = false.
Proof.
  intros N. destruct (x <? y)%float eqn:E; [|reflexivity].
  destruct (ltb_not_nan _ _ E). congruence.
Qed.

Lemma ltb_nan_r x y : is_nan y = true -> (x <? y)%float = false.
Proof.
  intros N. destruct (x <? y)%float eqn:E; [|reflexivity].
  destruct (ltb_not_nan _ _ E). congruence.
Qed.

(** What a successful call is made of. *)
Lemma computeScenarioResult_Ok a b s res :
  computeScenarioResult a b s = Ok res ->
  exists interim,
    mapM (interimFor a b (selectionMap s) (ensureCompleteTargetRanges b)) VMX_CATEGORIES
      = Ok interim /\
    (sumCosts interim <=? 0)%float = false /\
    res = {| areaSqft := a; res_currency := currency b;
             totalCost := sumCosts interim;
             totalPsqft := (sumCosts interim / a)%float;
             categories := map (categoryResult (sumCosts interim)) interim |}.
Proof.
  intros H. pose proof (computeScenarioResult_Ok_area _ _ _ _ H) as Ha.
  rewrite (computeScenarioResult_valid _ _ _ Ha) in H.
  destruct (mapM _ VMX_CATEGORIES) as [interim|e]; [|discriminate].
  cbn [bind] in H. exists interim. split; [reflexivity|].
  destruct (sumCosts interim <=? 0)%float; [discriminate|].
  injection H as <-. split; reflexivity.
Qed.

(** X7: in every result, the target bounds of a category are exactly the
    entry of the complete set of ranges for that category (normalising
    them once more changes nothing), so [0 <= targetMinPct <= targetMaxPct
    <= 1]; the status is the classification of the percentage against these
    bounds, the out-of-range flag is set exactly when the status is not OK,
    and a percentage that is NaN is reported as OK and in range. *)
Theorem guardrail_fields_consistent (areaSqft : float) (benchmark : BenchmarkSet)
  (selections : list ScenarioSelection) (res : ScenarioResult) (r : CategoryResult) :
  computeScenarioResult areaSqft benchmark selections = Ok res ->
  In r (categories res) ->
  findRange (ensureCompleteTargetRanges benchmark) (res_categoryId r)
    = Some {| categoryId := Known (res_categoryId r);
              minPct := targetMinPct r; maxPct := targetMaxPct r |} /\
  validRange (targetMinPct r) (targetMaxPct r) /\
  rangeStatus r = classifyRange (pctOfTotal r) (targetMinPct r) (targetMaxPct r) /\
  (isOutOfRange r = true <-> rangeStatus r <> Range_OK) /\
  (is_nan (pctOfTotal r) = true -> rangeStatus r = Range_OK /\ isOutOfRange r = false).
Proof.
  intros H Hin.
  destruct (computeScenarioResult_Ok _ _ _ _ H) as (interim & M & _ & ->).
  cbn [categories] in Hin. apply in_map_iff in Hin. destruct Hin as (i & <- & Hi).
  apply mapM_Forall2 in M.
  destruct (Forall2_In_r _ _ _ _ M Hi) as (cat & _ & Hcat).
  destruct (interim_range _ _ _ _ _ Hcat) as [Hid Hrange].
  pose proof (complete_entry_fixed _ _ _ Hrange) as Fix.
  pose proof (complete_wellFormed _ _ _ Hrange) as [Hkey Hvalid].
  unfold categoryResult.
  cbn [res_categoryId targetMinPct targetMaxPct rangeStatus isOutOfRange pctOfTotal].
  rewrite Fix. cbn [fst snd]. rewrite Hid.
  split.
  { rewrite Hrange. f_equal. destruct (int_range i) as [k mn mx].
    cbn [categoryId minPct maxPct] in *. congruence. }
  split; [exact Hvalid|]. split; [reflexivity|]. split.
  - destruct (classifyRange _ _ _); cbn; split; congruence.
  - intros N. unfold classifyRange.
    rewrite (ltb_nan_l _ _ N), (ltb_nan_r _ _ N). split; reflexivity.
Qed.

Lemma guardrail_fields_consistent_witness :
  exists res r,
    computeScenarioResult 10000 demoBenchmark highSelections = Ok res /\
    hd_error (categories res) = Some r /\
    findRange (ensureCompleteTargetRanges demoBenchmark) FACILITATING
      = Some {| categoryId := Known FACILITATING;
                minPct := targetMinPct r; maxPct := targetMaxPct r |} /\
    validRange (targetMinPct r) (targetMaxPct r) /\
    rangeStatus r = classifyRange (pctOfTotal r) (targetMinPct r) (targetMaxPct r).
Proof.
  destruct (computeScenarioResult 10000 demoBenchmark highSelections) as [res|e] eqn:E.
  - pose proof (fun r => guardrail_fields_consistent 10000 demoBenchmark highSelections
                                                     res r E) as G.
    vm_compute in E. injection E as <-.
    eexists. eexists. split; [reflexivity|]. split; [reflexivity|].
    match goal with
    | |- context [targetMinPct ?r] =>
        destruct (G r (or_introl eq_refl)) as (A & B & C & _)
    end.
    exact (conj A (conj B C)).
  - vm_compute in E. discriminate E.
Defined.

(** *** The sign of a returned total *)

(** X8: a returned [totalCost] is never zero or negative: it is strictly
    positive (possibly [+Infinity]) or it is NaN, which the check
    [totalCost <= 0] lets through; and NaN does occur with finite inputs,
    for instance when overrides of [1e308] and [-1e308] overflow to
    opposite infinities. *)
Theorem returned_total_positive_or_nan :
  (forall areaSqft benchmark selections res,
     computeScenarioResult areaSqft benchmark selections = Ok res ->
     (totalCost res <=? 0)%float = false /\
     ((0 <? totalCost res)%float = true \/ is_nan (totalCost res) = true)) /\
  (exists res,
     computeScenarioResult 10 demoBenchmark oppositeSelections = Ok res /\
     is_nan (totalCost res) = true /\
     Forall (fun sel => exists v, overridePsqft sel = Some v /\ Js.isFinite v = true)
            oppositeSelections).
Proof.
  split.
  - intros a b s res H.
    destruct (computeScenarioResult_Ok _ _ _ _ H) as (interim & _ & L & ->).
    cbn [totalCost]. split; [exact L|].
    destruct (is_nan (sumCosts interim)) eqn:N; [right; reflexivity|left].
    apply leb_false_ltb; auto.
  - destruct (computeScenarioResult 10 demoBenchmark oppositeSelections) as [res|e] eqn:E;
      vm_compute in E; [|discriminate E].
    exists res. injection E as <-. split; [reflexivity|]. split; [reflexivity|].
    repeat constructor; eexists; split; reflexivity.
Qed.

Lemma returned_total_positive_or_nan_witness :
  exists res,
    computeScenarioResult 10000 demoBenchmark highSelections = Ok res /\
    (totalCost res <=? 0)%float = false.
Proof.
  destruct (computeScenarioResult 10000 demoBenchmark highSelections) as [res|e] eqn:E.
  - exists res. split; [reflexivity|].
    exact (proj1 (proj1 returned_total_positive_or_nan _ _ _ _ E)).
  - vm_compute in E. discriminate E.
Defined.

Local Open Scope R_scope.

(** *** Rounding keeps the order *)

(** What the first stage of rounding does to the order: the shifted
    mantissa [k] is the integer part of the scaled real, and the rounded
    mantissa is [k] or [k + 1], and [k] itself when nothing is left over. *)
Section RoundOrder.
Variables (mx ex : Z) (lx : location) (x : R).
Hypothesis Hmx : (0 <= mx)%Z.
Hypothesis Hloc : located x (shr_record_of_loc mx lx).
Hypothesis Hfine : (ex <= fexp64 (Zdigits2 mx + ex))%Z.

Let ef := fexp64 (Zdigits2 mx + ex).
Let mrs' := fst (shr_fexp prec emax mx ex lx).
Let k := shr_m mrs'.
Let m' := round_nearest_even k (loc_of_shr_record mrs').

Lemma first_stage_order :
  (0 <= k)%Z /\
  IZR k * bpow ef <= x * bpow ex < (IZR k + 1) * bpow ef /\
  (k <= m' <= k + 1)%Z /\
  (x * bpow ex = IZR k * bpow ef -> m' = k) /\
  ((-1074 < ef)%Z -> (2 ^ 52 <= k)%Z).
Proof.
  assert (Hm0 : (0 <= shr_m (shr_record_of_loc mx lx))%Z)
    by (rewrite shr_record_of_loc_m; exact Hmx).
  pose proof (shr_located x _ ex (ef - ex) Hm0 Hloc) as S.
  cbv zeta in S. replace (Z.max (ef - ex) 0) with (ef - ex)%Z in S by (unfold ef; lia).
  change (shr (shr_record_of_loc mx lx) ex (ef - ex)) with (shr_fexp prec emax mx ex lx) in S.
  fold mrs' in S. destruct S as (L1 & M1 & E1).
  pose proof (located_bounds _ _ L1) as B1. fold k in B1, M1.
  pose proof (round_nearest_even_located _ _ L1) as R. cbv zeta in R. fold k in R. fold m' in R.
  destruct R as [_ R2].
  pose proof (x_below_digits mx ex lx x Hmx Hloc Hfine) as [X1 X2].
  pose proof (bpow_gt_0 (ef - ex)) as Pn.
  pose proof (bpow_gt_0 ef) as Pf.
  pose proof (bpow_gt_0 ex) as Px.
  assert (Ef : bpow ef = bpow ex * bpow (ef - ex)).
  { rewrite <- bpow_add. f_equal. lia. }
  set (y := x / bpow (ef - ex)) in *.
  assert (Xy : x = y * bpow (ef - ex)) by (unfold y; field; lra).
  assert (V : x * bpow ex = y * bpow ef) by (rewrite Xy, Ef; ring).
  split; [exact M1|]. split; [|split; [exact R2|split]].
  - rewrite V. split.
    + apply Rmult_le_compat_r; lra.
    + apply Rmult_lt_compat_r; lra.
  - intros Eq. rewrite V in Eq. apply Rmult_eq_reg_r in Eq; [|lra].
    unfold m'. clear - L1 Eq. fold k in L1. unfold located in L1. fold k in L1.
    destruct mrs' as [m r s]. cbn [shr_m shr_r shr_s] in *.
    destruct r, s; cbn [loc_of_shr_record round_nearest_even]; try lra.
    reflexivity.
  - intros Hgt.
    assert (Eq : ef = (Zdigits2 mx + ex - 53)%Z)
      by (unfold ef in *; rewrite fexp64_eq in *; lia).
    destruct mx as [|p|p] eqn:Emx; [| |lia].
    + exfalso. simpl Zdigits2 in *. unfold ef in *. rewrite fexp64_eq in *.
      simpl Zdigits2 in *. lia.
    + simpl Zdigits2 in *.
      pose proof (digits_bpow p) as [L _].
      assert (Y52 : bpow 52 <= y).
      { replace 52%Z with ((Zpos (digits2_pos p) - 1) + - (ef - ex))%Z by lia.
        rewrite bpow_add, bpow_opp. unfold y.
        apply Rmult_le_compat_r; [left; apply Rinv_0_lt_compat; lra|lra]. }
      assert (k + 1 > 2 ^ 52)%Z; [|lia].
      apply Z.lt_gt, lt_IZR. rewrite plus_IZR, <- bpow_IZR by lia. lra.
Qed.
End RoundOrder.

(** A canonical positive binary64 number has fewer than 54 digits. *)
Lemma bounded_value m e :
  SpecFloat.bounded prec emax m e = true ->
  (-1074 <= e <= 971)%Z /\ 0 < IZR (Zpos m) * bpow e < bpow (53 + e).
Proof.
  intros H. apply bounded_exponent in H. destruct H as [B C].
  rewrite fexp64_eq in C. split; [exact B|].
  pose proof (digits_bpow m) as [_ U]. pose proof (bpow_gt_0 e) as Pe.
  assert (D : bpow (Zpos (digits2_pos m)) <= bpow 53) by (apply bpow_le; lia).
  assert (M : 0 < IZR (Zpos m)) by (apply IZR_lt; lia).
  rewrite bpow_add. split; [apply Rmult_lt_0_compat; lra|].
  apply Rmult_lt_compat_r; lra.
Qed.

(** Rounding keeps the order with every binary64 number: a canonical
    positive number below the real is below the rounded result, and one
    above the real is above it (and then the result does not overflow). *)
Lemma binary_round_aux_order mx ex lx x m e :
  (0 <= mx)%Z ->
  located x (shr_record_of_loc mx lx) ->
  (ex <= fexp64 (Zdigits2 mx + ex))%Z ->
  SpecFloat.bounded prec emax m e = true ->
  let z := binary_round_aux prec emax false mx ex lx in
  let r := x * bpow ex in
  let F := IZR (Zpos m) * bpow e in
  (F <= r -> match z with
             | S754_infinity false => True
             | S754_finite false _ _ => F <= SF2R z
             | _ => False
             end) /\
  (r <= F -> match z with
             | S754_zero false | S754_finite false _ _ => SF2R z <= F
             | _ => False
             end).
Proof.
  intros Hmx Hloc Hfine Hb z r F. subst z.
  rewrite binary_round_aux_unfold. cbv zeta.
  destruct (first_stage mx ex lx x Hmx Hloc Hfine) as (E & Mb & _ & _ & _).
  destruct (first_stage_order mx ex lx x Hmx Hloc Hfine) as (K0 & Kr & Km & Kx & Kn).
  fold r in Kr, Kx.
  set (ef := fexp64 (Zdigits2 mx + ex)) in *.
  set (k := shr_m (fst (shr_fexp prec emax mx ex lx))) in *.
  set (m' := round_nearest_even k _) in *.
  rewrite E.
  assert (Emin : (-1074 <= ef)%Z) by (unfold ef; rewrite fexp64_eq; lia).
  rewrite (finish_round_spec false m' ef Mb Emin).
  destruct (bounded_value m e Hb) as [Be [F0 FU]]. fold F in F0, FU.
  pose proof (bpow_gt_0 ef) as Pf. pose proof (bpow_gt_0 e) as Pe.
  assert (Km' : IZR k <= IZR m' <= IZR k + 1).
  { rewrite <- plus_IZR. split; apply IZR_le; lia. }
  (* the two key comparisons, on the grid of the result *)
  assert (K1 : F <= r -> F <= IZR k * bpow ef).
  { intros L. destruct (Z_le_gt_dec ef e) as [G|G].
    - set (N := (Zpos m * 2 ^ (e - ef))%Z).
      assert (FN : F = IZR N * bpow ef).
      { unfold F, N. rewrite mult_IZR, <- bpow_IZR by lia.
        rewrite Rmult_assoc, <- bpow_add. do 2 f_equal. lia. }
      rewrite FN in *.
      assert (IZR N < IZR k + 1).
      { apply Rmult_lt_reg_r with (bpow ef); [lra|]. lra. }
      assert (N <= k)%Z by (apply Z.lt_succ_r, lt_IZR; rewrite succ_IZR; lra).
      apply Rmult_le_compat_r; [lra|]. apply IZR_le. lia.
    - assert (B52 : bpow (53 + e) <= bpow 52 * bpow ef).
      { rewrite <- bpow_add. apply bpow_le. lia. }
      assert (K52 : bpow 52 <= IZR k).
      { rewrite bpow_IZR by lia. apply IZR_le. apply Kn. lia. }
      apply Rle_trans with (bpow 52 * bpow ef); [lra|].
      apply Rmult_le_compat_r; lra. }
  assert (K2 : r <= F -> IZR m' * bpow ef <= F).
  { intros L. destruct (Z_le_gt_dec ef e) as [G|G].
    - set (N := (Zpos m * 2 ^ (e - ef))%Z).
      assert (FN : F = IZR N * bpow ef).
      { unfold F, N. rewrite mult_IZR, <- bpow_IZR by lia.
        rewrite Rmult_assoc, <- bpow_add. do 2 f_equal. lia. }
      rewrite FN in *.
      assert (IZR k <= IZR N).
      { apply Rmult_le_reg_r with (bpow ef); [lra|]. lra. }
      assert (k <= N)%Z by (apply le_IZR; lra).
      apply Rmult_le_compat_r; [lra|].
      destruct (Z.eq_dec k N) as [Ek|Nk].
      + rewrite Kx; [rewrite Ek; lra|]. rewrite <- Ek in L. lra.
      + apply IZR_le. lia.
    - exfalso.
      assert (B52 : bpow (53 + e) <= bpow 52 * bpow ef).
      { rewrite <- bpow_add. apply bpow_le. lia. }
      assert (K52 : bpow 52 <= IZR k).
      { rewrite bpow_IZR by lia. apply IZR_le. apply Kn. lia. }
      assert (bpow 52 * bpow ef <= IZR k * bpow ef) by (apply Rmult_le_compat_r; lra).
      lra. }
  assert (Top : bpow (53 + e) <= bpow 53 * bpow 971).
  { rewrite <- bpow_add. apply bpow_le. lia. }
  pose proof (bpow_gt_0 971) as P971.
  destruct m' as [|p|p] eqn:Em; [| |lia].
  - split.
    + intros L. specialize (K1 L).
      assert (IZR k * bpow ef <= 0 * bpow ef) by (apply Rmult_le_compat_r; lra). lra.
    + intros _. simpl. lra.
  - destruct (Z.eqb_spec (Zpos p) (2 ^ 53)) as [E53|N53].
    + assert (V : IZR (Zpos p) = bpow 53) by (rewrite E53, bpow_IZR by lia; reflexivity).
      destruct (Z.leb_spec (ef + 1) 971) as [L1|G1].
      * assert (S : SF2R (S754_finite false 4503599627370496 (ef + 1))
                    = IZR (Zpos p) * bpow ef).
        { unfold SF2R. rewrite bpow_succ, V, bpow_53. lra. }
        rewrite S. split; intros L.
        -- specialize (K1 L).
           apply Rle_trans with (IZR k * bpow ef); [exact K1|].
           apply Rmult_le_compat_r; lra.
        -- exact (K2 L).
      * split; [auto|]. intros L. specialize (K2 L). rewrite V in K2.
        assert (bpow 53 * bpow 971 <= bpow 53 * bpow ef).
        { apply Rmult_le_compat_l; [pose proof (bpow_gt_0 53); lra|apply bpow_le; lia]. }
        lra.
    + destruct (Z.leb_spec ef 971) as [L1|G1].
      * unfold SF2R. split; intros L.
        -- specialize (K1 L).
           apply Rle_trans with (IZR k * bpow ef); [exact K1|].
           apply Rmult_le_compat_r; lra.
        -- exact (K2 L).
      * split; [auto|]. intros L. specialize (K2 L).
        assert (M52 : bpow 52 <= IZR (Zpos p)).
        { apply Rle_trans with (IZR k); [|lra].
          rewrite bpow_IZR by lia. apply IZR_le. apply Kn. lia. }
        assert (bpow 972 <= bpow ef) by (apply bpow_le; lia).
        assert (E1024 : bpow 53 * bpow 971 = bpow 52 * bpow 972).
        { rewrite <- !bpow_add. reflexivity. }
        assert (bpow 52 * bpow 972 <= IZR (Zpos p) * bpow ef).
        { apply Rmult_le_compat; try lra. pose proof (bpow_gt_0 52). lra.
          pose proof (bpow_gt_0 972). lra. }
        lra.
Qed.

(** *** Sums, differences and quotients keep the order *)

Module Monotone.

(** Rounding an integer mantissa keeps the order with every canonical
    positive number. *)
Lemma binary_round_order m0 e0 m e :
  (-1074 <= e0)%Z ->
  SpecFloat.bounded prec emax m e = true ->
  let z := binary_round prec emax false m0 e0 in
  let r := IZR (Zpos m0) * bpow e0 in
  let F := IZR (Zpos m) * bpow e in
  (F <= r -> match z with
             | S754_infinity false => True
             | S754_finite false _ _ => F <= SF2R z
             | _ => False
             end) /\
  (r <= F -> match z with
             | S754_zero false | S754_finite false _ _ => SF2R z <= F
             | _ => False
             end).
Proof.
  intros He Hb z r F. subst z. unfold binary_round.
  change (SpecFloat.fexp prec emax (Zpos (digits2_pos m0) + e0))
    with (fexp64 (Zpos (digits2_pos m0) + e0)).
  pose proof (shl_align_spec m0 e0 (fexp64 (Zpos (digits2_pos m0) + e0))) as S.
  destruct (shl_align m0 e0 (fexp64 (Zpos (digits2_pos m0) + e0))) as [mz ez].
  cbn [fst snd] in S. destruct S as (Ez & Val & Dig).
  assert (Hfine : (ez <= fexp64 (Zdigits2 (Zpos mz) + ez))%Z).
  { cbn [Zdigits2]. rewrite Dig. lia. }
  assert (Hloc : located (IZR (Zpos mz)) (shr_record_of_loc (Zpos mz) loc_Exact))
    by reflexivity.
  pose proof (binary_round_aux_order (Zpos mz) ez loc_Exact (IZR (Zpos mz)) m e
                ltac:(lia) Hloc Hfine Hb) as C.
  cbv zeta in C. rewrite Val in C. exact C.
Qed.

(** The sum of two non-negative numbers is no smaller than either. *)
Lemma SFadd_ge x y :
  nonneg_finite x -> nonneg_finite y ->
  let z := SFadd prec emax x y in
  match z with
  | S754_infinity false => True
  | S754_zero _ | S754_finite false _ _ => SF2R x <= SF2R z /\ SF2R y <= SF2R z
  | _ => False
  end.
Proof.
  intros Hx Hy. cbv zeta.
  pose proof (SF2R_nonneg _ Hx) as X0. pose proof (SF2R_nonneg _ Hy) as Y0.
  destruct x as [sx|sx| |[] mx ex]; try (simpl in Hx; tauto);
    destruct y as [sy|sy| |[] my ey]; try (simpl in Hy; tauto).
  - destruct sx, sy; simpl; split; lra.
  - cbn [SFadd]. split; [exact Y0|lra].
  - cbn [SFadd]. split; [lra|exact X0].
  - cbn [SFadd cond_Zopp].
    pose proof Hx as Bx. pose proof Hy as By.
    apply bounded_exponent in Bx, By. destruct Bx as [Bx _], By as [By _].
    pose proof (shl_align_spec mx ex (Z.min ex ey)) as Sx.
    pose proof (shl_align_spec my ey (Z.min ex ey)) as Sy.
    destruct (shl_align mx ex (Z.min ex ey)) as [ax e1].
    destruct (shl_align my ey (Z.min ex ey)) as [ay e2].
    cbn [fst snd] in *. destruct Sx as (E1 & V1 & _), Sy as (E2 & V2 & _).
    replace e1 with (Z.min ex ey) in V1 by lia.
    replace e2 with (Z.min ex ey) in V2 by lia.
    change (Zpos ax + Zpos ay)%Z with (Zpos (ax + ay)).
    cbn [binary_normalize].
    assert (R : IZR (Zpos (ax + ay)) * bpow (Z.min ex ey)
                = IZR (Zpos mx) * bpow ex + IZR (Zpos my) * bpow ey).
    { rewrite Pos2Z.inj_add, plus_IZR. lra. }
    destruct (binary_round_order (ax + ay) (Z.min ex ey) mx ex ltac:(lia) Hx) as [Cx _].
    destruct (binary_round_order (ax + ay) (Z.min ex ey) my ey ltac:(lia) Hy) as [Cy _].
    rewrite R in Cx, Cy. unfold SF2R in X0, Y0.
    specialize (Cx ltac:(lra)). specialize (Cy ltac:(lra)).
    destruct (binary_round prec emax false (ax + ay) (Z.min ex ey)) as [[]|[]| |[] m' e'];
      try contradiction; auto.
Qed.

(** Taking a non-negative number away from another does not give more. *)
Lemma SFsub_le x y :
  nonneg_finite x -> nonneg_finite y ->
  let z := SFsub prec emax x y in
  match z with
  | S754_nan | S754_infinity false => False
  | S754_zero _ | S754_finite false _ _ => SF2R z <= SF2R x
  | S754_infinity true | S754_finite true _ _ => True
  end.
Proof.
  intros Hx Hy. cbv zeta.
  pose proof (SF2R_nonneg _ Hx) as X0. pose proof (SF2R_nonneg _ Hy) as Y0.
  destruct x as [sx|sx| |[] mx ex]; try (simpl in Hx; tauto);
    destruct y as [sy|sy| |[] my ey]; try (simpl in Hy; tauto).
  - destruct sx, sy; simpl; lra.
  - cbn [SFsub]. lra.
  - cbn [SFsub cond_Zopp].
    pose proof Hx as Bx. pose proof Hy as By.
    apply bounded_exponent in Bx, By. destruct Bx as [Bx _], By as [By _].
    pose proof (shl_align_spec mx ex (Z.min ex ey)) as Sx.
    pose proof (shl_align_spec my ey (Z.min ex ey)) as Sy.
    destruct (shl_align mx ex (Z.min ex ey)) as [ax e1].
    destruct (shl_align my ey (Z.min ex ey)) as [ay e2].
    cbn [fst snd] in *. destruct Sx as (E1 & V1 & _), Sy as (E2 & V2 & _).
    replace e1 with (Z.min ex ey) in V1 by lia.
    replace e2 with (Z.min ex ey) in V2 by lia.
    assert (Val : IZR (Zpos ax - Zpos ay) * bpow (Z.min ex ey)
                  = IZR (Zpos mx) * bpow ex - IZR (Zpos my) * bpow ey).
    { rewrite minus_IZR. lra. }
    unfold SF2R in X0, Y0.
    destruct (Zpos ax - Zpos ay)%Z as [|d|d] eqn:D; cbn [binary_normalize].
    + simpl. lra.
    + destruct (binary_round_order d (Z.min ex ey) mx ex ltac:(lia) Hx) as [_ C].
      rewrite Val in C. specialize (C ltac:(lra)).
      destruct (binary_round prec emax false d (Z.min ex ey)) as [[]|[]| |[] m' e'];
        try contradiction; auto.
    + pose proof (binary_round_correct d (Z.min ex ey) ltac:(lia)) as C.
      cbv zeta in C. rewrite binary_round_opp.
      destruct (binary_round prec emax false d (Z.min ex ey)) as [[]|[]| |[] m' e'];
        try contradiction; cbn [SFopp negb]; auto; simpl; lra.
Qed.

(** A quotient of a non-negative number by a larger one is at most 1. *)
Lemma SFdiv_le_one x y :
  nonneg_finite x -> positive_finite y -> SF2R x <= SF2R y ->
  let z := SFdiv prec emax x y in
  match z with
  | S754_zero _ | S754_finite false _ _ => SF2R z <= 1
  | _ => False
  end.
Proof.
  intros Hx Hy L. cbv zeta.
  pose proof (SF2R_positive _ Hy) as Y0.
  destruct y as [sy|sy| |[] my ey]; try (simpl in Hy; tauto).
  destruct x as [sx|sx| |[] mx ex]; try (simpl in Hx; tauto).
  - cbn [SFdiv]. simpl. lra.
  - cbn [SFdiv xorb].
    pose proof (div_core_spec mx ex my ey) as D.
    destruct (SFdiv_core_binary prec emax (Zpos mx) ex (Zpos my) ey) as [[mz ez] lz].
    destruct D as (x0 & Hq & Hloc & Val & Hfine).
    destruct (binary_round_aux_order mz ez lz x0 4503599627370496 (-52) Hq Hloc Hfine
                eq_refl) as [_ C].
    cbv zeta in C.
    assert (One : IZR (Zpos 4503599627370496) * bpow (-52) = 1).
    { replace (-52)%Z with (- (52))%Z by lia. rewrite bpow_opp, bpow_52. field. }
    rewrite One, Val in C. unfold SF2R in L, Y0.
    assert (Q : IZR (Zpos mx) * bpow ex / (IZR (Zpos my) * bpow ey) <= 1).
    { apply Rmult_le_reg_r with (IZR (Zpos my) * bpow ey); [exact Y0|].
      unfold Rdiv. rewrite Rmult_assoc, Rinv_l by lra. lra. }
    specialize (C Q).
    destruct (binary_round_aux prec emax false mz ez lz) as [[]|[]| |[] m' e'];
      try contradiction; auto.
Qed.

(** The IEEE order of non-negative canonical numbers, read as an order
    of reals. *)
Lemma SFcompare_Eq_real a b :
  nonneg_finite a -> nonneg_finite b ->
  SFcompare a b = Some Eq -> SF2R a = SF2R b.
Proof.
  destruct a as [sa|sa| |[] m1 e1]; try (simpl; tauto);
    destruct b as [sb|sb| |[] m2 e2]; try (simpl; tauto); simpl; try discriminate; auto.
  intros _ _. rewrite Pos.compare_cont_spec.
  destruct (Z.compare_spec e1 e2) as [E|L|G]; try discriminate.
  subst e2. simpl. destruct (Pos.compare_spec m1 m2) as [->|L|G]; try discriminate.
  reflexivity.
Qed.

Lemma SFleb_real a b :
  nonneg_finite a -> nonneg_finite b -> SFleb a b = true -> SF2R a <= SF2R b.
Proof.
  intros Ha Hb. unfold SFleb.
  destruct (SFcompare a b) as [[]|] eqn:C; try discriminate; intros _.
  - right. apply SFcompare_Eq_real; auto.
  - left. apply SFcompare_Gt_real; auto.
    rewrite SFcompare_antisym, C. reflexivity.
Qed.

Lemma leb_real a b :
  nonnegF a -> nonnegF b -> (a <=? b)%float = true -> B2R a <= B2R b.
Proof. intros Ha Hb. rewrite leb_spec. apply SFleb_real; auto. Qed.

Lemma real_leb a b :
  nonnegF a -> nonnegF b -> B2R a <= B2R b -> (a <=? b)%float = true.
Proof. intros Ha Hb. rewrite leb_spec. apply SFleb_of_Rle; auto. Qed.

Lemma nonnegF_leb_zero x : nonnegF x -> (0 <=? x)%float = true.
Proof.
  intros H. apply real_leb; [exact nonnegF_zero|exact H|].
  rewrite B2R_zero. apply nonnegF_B2R, H.
Qed.

(** Floating-point versions. *)
Lemma add_ge x y :
  nonnegF x -> nonnegF y ->
  (x <=? x + y)%float = true /\ (y <=? x + y)%float = true.
Proof.
  intros Hx Hy. pose proof (SFadd_ge _ _ Hx Hy) as C. cbv zeta in C.
  pose proof (valid_nonneg (x + y)%float) as V.
  rewrite !leb_spec. unfold nonnegF in *. rewrite add_spec in *. unfold SF64add in *.
  destruct (SFadd prec emax (Prim2SF x) (Prim2SF y)) as [s|[]| |[] m e] eqn:E;
    try contradiction.
  - destruct C. split; apply SFleb_of_Rle; auto.
  - split.
    + destruct (Prim2SF x) as [?|?| |[] ? ?]; simpl in Hx; try contradiction; reflexivity.
    + destruct (Prim2SF y) as [?|?| |[] ? ?]; simpl in Hy; try contradiction; reflexivity.
  - destruct C. split; apply SFleb_of_Rle; auto.
Qed.

Lemma sub_le x y :
  nonnegF x -> nonnegF y -> (x - y <=? x)%float = true.
Proof.
  intros Hx Hy. pose proof (SFsub_le _ _ Hx Hy) as C. cbv zeta in C.
  pose proof (Prim2SF_valid (x - y)%float) as V.
  rewrite leb_spec. unfold nonnegF in *. rewrite sub_spec in *. unfold SF64sub in *.
  destruct (SFsub prec emax (Prim2SF x) (Prim2SF y)) as [s|[]| |[] m e] eqn:E;
    try contradiction.
  - apply SFleb_of_Rle; auto. exact I.
  - destruct (Prim2SF x) as [?|?| |[] ? ?]; simpl in Hx; try contradiction; reflexivity.
  - destruct (Prim2SF x) as [?|?| |[] ? ?]; simpl in Hx; try contradiction; reflexivity.
  - apply SFleb_of_Rle; auto.
Qed.

Lemma div_le_one x y :
  nonnegF x -> positiveF y -> (x <=? y)%float = true ->
  nonnegF (x / y)%float /\ (x / y <=? 1)%float = true.
Proof.
  intros Hx Hy L.
  assert (Hy' : nonnegF y).
  { unfold nonnegF, positiveF in *.
    destruct (Prim2SF y) as [?|?| |[] ? ?]; simpl in *; tauto. }
  pose proof (leb_real _ _ Hx Hy' L) as LR.
  pose proof (SFdiv_le_one _ _ Hx Hy LR) as C. cbv zeta in C.
  pose proof (valid_nonneg (x / y)%float) as V.
  rewrite leb_spec. unfold nonnegF in *. rewrite div_spec in *. unfold SF64div in *.
  assert (One : SF2R (Prim2SF 1) = 1).
  { change (Prim2SF 1) with (S754_finite false 4503599627370496 (-52)).
    unfold SF2R. replace (-52)%Z with (- (52))%Z by lia. rewrite bpow_opp, bpow_52. field. }
  destruct (SFdiv prec emax (Prim2SF x) (Prim2SF y)) as [s|[]| |[] m e] eqn:E;
    try contradiction.
  - split; [exact I|]. apply SFleb_of_Rle; [exact I|reflexivity|]. rewrite One. exact C.
  - split; [exact V|]. apply SFleb_of_Rle; [exact V|reflexivity|]. rewrite One. exact C.
Qed.

(** Every term of a floating-point sum of non-negative numbers is at most
    the sum. *)
Lemma fold_add_ge vs : forall acc,
  Forall nonnegF vs -> nonnegF acc ->
  let z := fold_left PrimFloat.add vs acc in
  nonnegF z ->
  (acc <=? z)%float = true /\ Forall (fun v => (v <=? z)%float = true) vs.
Proof.
  induction vs as [|v vs IH]; intros acc Hvs Hacc z Hz; subst z.
  - split; [|constructor]. apply leb_refl. apply (leb_not_nan _ _ (nonnegF_leb_zero _ Hacc)).
  - inversion Hvs as [|? ? Hv Hvs']; subst. cbn [fold_left] in *.
    destruct (add_nonneg acc v Hacc Hv) as [[I _]|[N _]].
    + exfalso. pose proof (inf_fold vs _ I Hvs') as I'.
      unfold isPosInf in I'. unfold nonnegF in Hz. rewrite I' in Hz. exact Hz.
    + destruct (IH _ Hvs' N Hz) as [A B].
      destruct (add_ge acc v Hacc Hv) as [G1 G2].
      split; [eapply leb_trans; eauto|].
      constructor; [eapply leb_trans; eauto|exact B].
Qed.

Lemma fsum_ge vs :
  Forall nonnegF vs -> nonnegF (fsum vs) ->
  Forall (fun v => (v <=? fsum vs)%float = true) vs.
Proof.
  intros Hvs Hz. apply (fold_add_ge vs 0%float Hvs nonnegF_zero Hz).
Qed.

End Monotone.
Import Monotone.

(** *** Shares, percentages and derived ranges *)

(** *** Shares and percentages are fractions *)

Lemma nonnegF_nonnegOrInf vs : Forall nonnegF vs -> Forall nonnegOrInf vs.
Proof. apply Forall_impl. intros v H. left. exact H. Qed.

(** Dividing the terms of a finite positive floating-point sum of
    non-negative numbers by that sum gives numbers between 0 and 1. *)
Lemma quotient_by_total vs v :
  Forall nonnegF vs -> (List.length vs <= 100)%nat ->
  is_finite (fsum vs) = true -> (fsum vs <=? 0)%float = false ->
  In v vs ->
  (0 <=? v / fsum vs)%float = true /\ (v / fsum vs <=? 1)%float = true.
Proof.
  intros N Hlen F L Hin.
  destruct (fsum_finite_positive vs (nonnegF_nonnegOrInf _ N) Hlen F L) as [_ P].
  assert (Z : nonnegF (fsum vs)).
  { unfold nonnegF, positiveF in *.
    destruct (Prim2SF (fsum vs)) as [?|?| |[] ? ?]; simpl in *; tauto. }
  pose proof (fsum_ge vs N Z) as G. rewrite Forall_forall in G, N.
  destruct (div_le_one v (fsum vs) (N _ Hin) P (G _ Hin)) as [Q1 Q2].
  split; [apply nonnegF_leb_zero, Q1|exact Q2].
Qed.

Lemma share_fraction benchmark c :
  exists share,
    rec_get c (computeImpliedMediumAllocationShares benchmark) = Some share /\
    (0 <=? share)%float = true /\ (share <=? 1)%float = true.
Proof.
  pose proof (shares_shape benchmark) as E. cbv zeta in E. rewrite E. clear E.
  set (total := fsum (mediumCosts benchmark)).
  destruct (negb (Js.isFinite total) || (total <=? 0)%float) eqn:T.
  - rewrite (lookup_shape (fun _ => (1 / 7)%float)). eexists. split; [reflexivity|].
    split; reflexivity.
  - rewrite (lookup_shape (fun c => (getMediumPsqftOrFallback benchmark c / total)%float)).
    eexists. split; [reflexivity|].
    apply orb_false_elim in T. destruct T as [F L]. apply negb_false_iff in F.
    destruct (fsum_finite_positive (mediumCosts benchmark)
                (mediumCosts_range benchmark) ltac:(simpl; lia) F L) as [N _].
    apply (quotient_by_total (mediumCosts benchmark)); auto.
    + simpl. lia.
    + unfold mediumCosts. apply in_map_iff.
      destruct (category_listed c) as (cat & Hin & <-). eauto.
Qed.

(** X9: every implied Medium share is a fraction: a number between 0 and
    1 (so never NaN, negative or infinite), which [safePct] leaves equal to
    itself. *)
Theorem implied_shares_are_fractions (benchmark : BenchmarkSet) (c : VmxCategoryId) :
  exists share,
    rec_get c (computeImpliedMediumAllocationShares benchmark) = Some share /\
    (0 <=? share)%float = true /\ (share <=? 1)%float = true /\
    (safePct share =? share)%float = true.
Proof.
  destruct (share_fraction benchmark c) as (share & E & L0 & L1). exists share.
  repeat (split; [assumption|]). apply safePct_fixed_eqb; assumption.
Qed.

(** X11: when the category costs of a result are finite and not negative
    and the total is finite, every [pctOfTotal] is a number between 0 and
    1. *)
Theorem percentages_are_fractions (areaSqft : float) (benchmark : BenchmarkSet)
  (selections : list ScenarioSelection) (res : ScenarioResult) :
  computeScenarioResult areaSqft benchmark selections = Ok res ->
  Forall (fun r => Js.isFinite (cost r) = true /\ (0 <=? cost r)%float = true)
         (categories res) ->
  Js.isFinite (totalCost res) = true ->
  Forall (fun r => (0 <=? pctOfTotal r)%float = true /\ (pctOfTotal r <=? 1)%float = true)
         (categories res).
Proof.
  intros H Hc Ht.
  destruct (computeScenarioResult_Ok _ _ _ _ H) as (interim & M & L & ->).
  cbn [categories totalCost] in *.
  apply mapM_Forall2, Forall2_same_length in M. cbn [List.length VMX_CATEGORIES] in M.
  rewrite sumCosts_fsum in *.
  assert (N : Forall nonnegF (map int_cost interim)).
  { rewrite Forall_map in Hc. rewrite Forall_map. revert Hc. apply Forall_impl.
    intros i [F P]. apply finite_nonneg; assumption. }
  rewrite Forall_map. apply Forall_forall. intros i Hi.
  unfold categoryResult. cbn [pctOfTotal].
  apply (quotient_by_total (map int_cost interim)); auto.
  - rewrite length_map. lia.
  - apply in_map, Hi.
Qed.

Lemma percentages_are_fractions_witness :
  exists res,
    computeScenarioResult 10000 demoBenchmark highSelections = Ok res /\
    Forall (fun r => (0 <=? pctOfTotal r)%float = true /\ (pctOfTotal r <=? 1)%float = true)
           (categories res).
Proof.
  destruct (computeScenarioResult 10000 demoBenchmark highSelections) as [res|e] eqn:E.
  - exists res. split; [reflexivity|].
    pose proof (percentages_are_fractions 10000 demoBenchmark highSelections res E) as P.
    vm_compute in E. injection E as <-.
    apply P.
    + repeat constructor.
    + reflexivity.
  - vm_compute in E. discriminate E.
Defined.

(** *** The derived range and the share it is built around *)

Lemma Some_inj {A} (a b : A) : Some a = Some b -> a = b.
Proof. congruence. Qed.

Lemma safePct_below a c :
  (a <=? c)%float = true -> (0 <=? c)%float = true -> (safePct a <=? c)%float = true.
Proof.
  intros L C. destruct (leb_not_nan _ _ L) as [Na Nc].
  unfold safePct, clamp. destruct (Js.isFinite a); cbn [negb]; [|exact C].
  assert (N0 : is_nan 0 = false) by reflexivity.
  assert (N1 : is_nan 1 = false) by reflexivity.
  pose proof (Math_max_not_nan 0 a N0 Na) as Nm.
  apply (leb_trans _ (Js.Math_max 0 a)).
  - apply Math_min_le_r; auto.
  - destruct (Math_max_choice 0 a N0 Na) as [-> | ->]; auto.
Qed.

Lemma safePct_above a c :
  (c <=? a)%float = true -> (c <=? 1)%float = true -> Js.isFinite a = true ->
  (c <=? safePct a)%float = true.
Proof.
  intros L C F. destruct (leb_not_nan _ _ L) as [Nc Na].
  unfold safePct, clamp. rewrite F. cbn [negb].
  assert (N0 : is_nan 0 = false) by reflexivity.
  assert (N1 : is_nan 1 = false) by reflexivity.
  pose proof (Math_max_not_nan 0 a N0 Na) as Nm.
  assert (G : (c <=? Js.Math_max 0 a)%float = true).
  { apply (leb_trans _ a); auto. apply Math_max_ge_r; auto. }
  destruct (Math_min_choice 1 (Js.Math_max 0 a) N1 Nm) as [-> | ->]; auto.
Qed.

Lemma B2R_one : B2R 1 = 1.
Proof.
  unfold B2R. change (Prim2SF 1) with (S754_finite false 4503599627370496 (-52)).
  unfold SF2R. replace (-52)%Z with (- (52))%Z by lia. rewrite bpow_opp, bpow_52. field.
Qed.

Lemma unit_nonnegF x :
  (0 <=? x)%float = true -> (x <=? 1)%float = true -> nonnegF x /\ B2R x <= 1.
Proof.
  intros L0 L1. pose proof (unit_is_finite x L0 L1) as F.
  pose proof (finite_nonneg x F L0) as N. split; [exact N|].
  rewrite <- B2R_one. apply leb_real; auto. reflexivity.
Qed.

(** A number between 0 and 1 plus or minus another: the difference is at
    most the number, the sum at least the number and finite. *)
Lemma around_center c h :
  (0 <=? c)%float = true -> (c <=? 1)%float = true ->
  (0 <=? h)%float = true -> (h <=? 1)%float = true ->
  (c - h <=? c)%float = true /\ (c <=? c + h)%float = true /\
  Js.isFinite (c + h)%float = true.
Proof.
  intros C0 C1 H0 H1.
  destruct (unit_nonnegF c C0 C1) as [Nc Rc], (unit_nonnegF h H0 H1) as [Nh Rh].
  split; [apply sub_le; auto|]. split; [apply add_ge; auto|].
  destruct (add_nonneg c h Nc Nh) as [[_ B]|[N _]].
  - exfalso. assert (2 <= bpow 1023).
    { rewrite <- bpow_1. apply bpow_le. lia. }
    lra.
  - unfold Js.isFinite. rewrite is_finite_spec. unfold nonnegF in N.
    destruct (Prim2SF (c + h)%float) as [?|?| |[] ? ?]; simpl in *; tauto.
Qed.

(** The half-width used by [deriveTargetRangesFromMedium] is between 0 and
    its cap, whatever the options and the share. *)
Lemma half_width_unit x cap0 :
  let cap := clamp cap0 0 0.5 in
  (0 <=? clamp x 0 cap)%float = true /\ (clamp x 0 cap <=? 1)%float = true.
Proof.
  cbv zeta. destruct (clamp_bounds cap0 0 0.5 eq_refl) as [A B].
  destruct (clamp_bounds x 0 (clamp cap0 0 0.5) A) as [C D].
  split; [exact C|].
  apply (leb_trans _ (clamp cap0 0 0.5)); [exact D|].
  apply (leb_trans _ 0.5%float); [exact B|reflexivity].
Qed.

(** X10: every range derived from the Medium shares contains the share of
    its category, whatever the options:
    [minPct <= share <= maxPct]. *)
Theorem derived_range_contains_share (benchmark : BenchmarkSet)
  (opts : option TargetRangeDerivationOptions) (c : VmxCategoryId)
  (share : float) (d : TargetRange) :
  rec_get c (computeImpliedMediumAllocationShares benchmark) = Some share ->
  findRange (deriveTargetRangesFromMedium benchmark opts) c = Some d ->
  (minPct d <=? share)%float = true /\ (share <=? maxPct d)%float = true.
Proof.
  intros Hs Hd.
  destruct (share_fraction benchmark c) as (share' & Hs' & S0 & S1).
  rewrite Hs in Hs'. injection Hs' as <-.
  pose proof (safePct_fixed_eqb share S0 S1) as Sfix.
  unfold deriveTargetRangesFromMedium in Hd.
  match type of Hd with
  | findRange (map ?f _) c = _ =>
      destruct (findRange_per_category f c) as (cat & _ & Hc & E); [reflexivity|];
      rewrite E in Hd; clear E
  end.
  apply Some_inj in Hd. subst d c. cbn [minPct maxPct]. rewrite Hs. cbn [Js.toNumber].
  set (center := safePct share).
  destruct (safePct_bounds share) as [C0 C1]. fold center in C0, C1.
  match goal with
  | |- context [clamp ?x 0 (clamp ?cap0 0 0.5)] =>
      destruct (half_width_unit x cap0) as [H0 H1]; cbv zeta in H0, H1;
      set (half := clamp x 0 (clamp cap0 0 0.5)) in *
  end.
  destruct (around_center center half C0 C1 H0 H1) as (Lo & Hi & Fin).
  pose proof (safePct_below _ _ Lo C0) as Mn.
  pose proof (safePct_above _ _ Hi C1 Fin) as Mx.
  assert (Ord : (safePct (center + half) <? safePct (center - half))%float = false).
  { apply leb_ltb_false. eapply leb_trans; eauto. }
  unfold ensureMinMax. rewrite Ord. cbn [fst snd].
  split.
  - eapply leb_trans; [exact Mn|]. apply eqb_leb, Sfix.
  - eapply leb_trans; [|exact Mx]. apply eqb_leb, eqb_sym, Sfix.
Qed.

Lemma derived_range_contains_share_witness :
  exists share d,
    rec_get FF_E (computeImpliedMediumAllocationShares demoBenchmark) = Some share /\
    findRange (deriveTargetRangesFromMedium demoBenchmark None) FF_E = Some d /\
    (minPct d <=? share)%float = true /\ (share <=? maxPct d)%float = true.
Proof.
  destruct (rec_get FF_E (computeImpliedMediumAllocationShares demoBenchmark))
    as [share|] eqn:A; [|vm_compute in A; discriminate A].
  destruct (findRange (deriveTargetRangesFromMedium demoBenchmark None) FF_E)
    as [d|] eqn:B; [|vm_compute in B; discriminate B].
  exists share, d. split; [reflexivity|]. split; [reflexivity|].
  exact (derived_range_contains_share demoBenchmark None FF_E share d A B).
Defined.

(** *** Derived ranges under any options; the representative unit cost *)

(** *** The derived ranges, whatever the options *)

(** X12: [deriveTargetRangesFromMedium] returns one range per category, in
    category order, each with [0 <= minPct <= maxPct <= 1], for every
    benchmark and every options object: absent options, absent fields,
    and fields that are NaN, infinite or negative. *)
Theorem derived_ranges_complete_valid (benchmark : BenchmarkSet)
  (opts : option TargetRangeDerivationOptions) :
  map categoryId (deriveTargetRangesFromMedium benchmark opts)
    = map (fun cat => Known (id cat)) VMX_CATEGORIES /\
  Forall (fun r => validRange (minPct r) (maxPct r))
         (deriveTargetRangesFromMedium benchmark opts) /\
  (forall c, exists d, findRange (deriveTargetRangesFromMedium benchmark opts) c = Some d /\
                       categoryId d = Known c).
Proof.
  split; [|split].
  - unfold deriveTargetRangesFromMedium. rewrite map_map. reflexivity.
  - apply Forall_forall. intros d Hd. apply (derived_ok _ _ _ Hd).
  - intros c. destruct (derived_per_category benchmark opts c) as [d E].
    exists d. split; [exact E|]. apply (findRange_some _ _ _ E).
Qed.

(** With [hostileOptions] the demo benchmark still gets seven valid
    ranges: the tolerance and the floor count as 0, the cap as 0, so every
    range collapses onto its share. *)
Example derived_ranges_hostile_options :
  forallb (fun r => (minPct r =? maxPct r)%float && (0 <=? minPct r)%float
                    && (maxPct r <=? 1)%float)
          (deriveTargetRangesFromMedium demoBenchmark (Some hostileOptions)) = true /\
  List.length (deriveTargetRangesFromMedium demoBenchmark (Some hostileOptions)) = 7%nat.
Proof. vm_compute. auto. Qed.

(** *** The representative unit cost is never negative *)

Lemma nonnegOrInf_leb_zero x : nonnegOrInf x -> (0 <=? x)%float = true.
Proof.
  intros [N|I]; [apply nonnegF_leb_zero, N|].
  rewrite leb_spec. unfold isPosInf in I. rewrite I. reflexivity.
Qed.

Lemma usablePsqft_finite x w : usablePsqft x = Some w -> Js.isFinite w = true.
Proof.
  intros H. apply usablePsqft_nonneg_finite in H.
  unfold Js.isFinite. rewrite is_finite_spec. unfold nonnegF in H.
  destruct (Prim2SF w) as [?|?| |[] ? ?]; simpl in *; tauto.
Qed.

(** X13: the representative unit cost of a category is never NaN and
    never negative.  It is finite whenever the Medium entry is usable or at
    most one of Low and High is; it can only fail to be finite when it is
    the average of a usable Low and a usable High, whose sum overflows (as
    for Low = High = 1e308, where it is [+Infinity] though every stored
    unit cost is finite, and all shares fall back to equal weights). *)
Theorem representative_cost_never_negative :
  (forall benchmark c,
     (0 <=? getMediumPsqftOrFallback benchmark c)%float = true /\
     (Js.isFinite (getMediumPsqftOrFallback benchmark c) = false ->
      usablePsqft (findBand benchmark c MEDIUM) = None /\
      exists l h,
        usablePsqft (findBand benchmark c LOW) = Some l /\
        usablePsqft (findBand benchmark c HIGH) = Some h /\
        getMediumPsqftOrFallback benchmark c = ((l + h) / 2)%float)) /\
  (getMediumPsqftOrFallback overflowingAverageBenchmark FACILITATING = infinity /\
   Forall (fun x => Js.isFinite (psqft x) = true) (bands overflowingAverageBenchmark) /\
   shareValues (computeImpliedMediumAllocationShares overflowingAverageBenchmark)
   = map (fun _ => (1 / 7)%float) VMX_CATEGORIES).
Proof.
  split.
  - intros benchmark c. split; [apply nonnegOrInf_leb_zero, getMedium_range|].
    unfold getMediumPsqftOrFallback.
    destruct (usablePsqft (findBand benchmark c MEDIUM)) as [m|] eqn:M.
    { rewrite (usablePsqft_finite _ _ M). discriminate. }
    destruct (usablePsqft (findBand benchmark c LOW)) as [l|] eqn:L;
      destruct (usablePsqft (findBand benchmark c HIGH)) as [h|] eqn:H.
    + intros _. split; [reflexivity|]. exists l, h. auto.
    + rewrite (usablePsqft_finite _ _ L). discriminate.
    + rewrite (usablePsqft_finite _ _ H). discriminate.
    + discriminate.
  - split; [reflexivity|]. split; [repeat constructor|reflexivity].
Qed.

Lemma representative_cost_never_negative_witness :
  (0 <=? getMediumPsqftOrFallback overflowingAverageBenchmark FACILITATING)%float = true /\
  usablePsqft (findBand overflowingAverageBenchmark FACILITATING MEDIUM) = None.
Proof.
  destruct (proj1 representative_cost_never_negative overflowingAverageBenchmark FACILITATING)
    as [A B].
  exact (conj A (proj1 (B eq_refl))).
Defined.

Local Close Scope R_scope.

(** *** The handlers of the benchmark form *)

(** *** Benchmarks that differ only in their stored ranges *)

(** Two benchmarks with the same bands. *)
Lemma findBand_bands b1 b2 c h :
  bands b1 = bands b2 -> findBand b1 c h = findBand b2 c h.
Proof. unfold findBand. intros ->. reflexivity. Qed.

Lemma getMedium_bands b1 b2 c :
  bands b1 = bands b2 -> getMediumPsqftOrFallback b1 c = getMediumPsqftOrFallback b2 c.
Proof.
  intros H. unfold getMediumPsqftOrFallback.
  rewrite !(findBand_bands b1 b2 _ _ H). reflexivity.
Qed.

Lemma shares_bands b1 b2 :
  bands b1 = bands b2 ->
  computeImpliedMediumAllocationShares b1 = computeImpliedMediumAllocationShares b2.
Proof.
  intros H.
  pose proof (shares_shape b1) as E1. pose proof (shares_shape b2) as E2.
  cbv zeta in E1, E2. rewrite E1, E2.
  assert (M : mediumCosts b1 = mediumCosts b2).
  { unfold mediumCosts. apply map_ext. intros cat. apply getMedium_bands, H. }
  rewrite M.
  destruct (negb (Js.isFinite (fsum (mediumCosts b2))) || (fsum (mediumCosts b2) <=? 0)%float);
    [reflexivity|].
  apply map_ext. intros cat. rewrite (getMedium_bands b1 b2 _ H). reflexivity.
Qed.

Lemma derive_bands b1 b2 opts :
  bands b1 = bands b2 ->
  deriveTargetRangesFromMedium b1 opts = deriveTargetRangesFromMedium b2 opts.
Proof.
  intros H. unfold deriveTargetRangesFromMedium. rewrite (shares_bands b1 b2 H). reflexivity.
Qed.

(** The calculator reads the bands, the currency and the complete set of
    ranges of a benchmark, and nothing else. *)
Lemma computeScenarioResult_reads a b1 b2 s :
  bands b1 = bands b2 -> currency b1 = currency b2 ->
  ensureCompleteTargetRanges b1 = ensureCompleteTargetRanges b2 ->
  computeScenarioResult a b1 s = computeScenarioResult a b2 s.
Proof.
  intros Hb Hc Hr. unfold computeScenarioResult.
  destruct (negb (Js.isFinite a) || (a <=? 0)%float); [reflexivity|].
  cbv zeta. rewrite Hr, Hc.
  rewrite (mapM_ext
             (interimFor a b1 (selectionMap s) (ensureCompleteTargetRanges b2))
             (interimFor a b2 (selectionMap s) (ensureCompleteTargetRanges b2)));
    [reflexivity|].
  intros cat. unfold interimFor, requireBand, getTargetRangeForCategory.
  destruct (sel_get (id cat) (selectionMap s)) as [sel|]; [|reflexivity].
  rewrite (findBand_bands b1 b2 _ _ Hb), Hr. reflexivity.
Qed.

(** *** Stored back, a complete set of ranges is read as it is *)

Lemma stored_back_lookup (f : CategoryDef -> TargetRange) cat :
  (forall cat, categoryId (f cat) = Known (id cat)) ->
  In cat VMX_CATEGORIES ->
  find (storedFor (id cat)) (rev (map storedRange (map f VMX_CATEGORIES)))
  = Some (storedRange (f cat)).
Proof.
  intros H Hin. unfold VMX_CATEGORIES in *. cbn [map rev app find].
  unfold storedFor, storedRange. cbn [stored_categoryId]. rewrite !H.
  cbn [id CategoryKey_eqb].
  cbn [In] in Hin.
  repeat (destruct Hin as [<- | Hin]; [reflexivity|]). contradiction.
Qed.

Lemma stored_back (b : BenchmarkSet) (f : CategoryDef -> TargetRange) :
  (forall cat, categoryId (f cat) = Known (id cat)) ->
  (forall cat, ensureMinMax (minPct (f cat)) (maxPct (f cat))
               = (minPct (f cat), maxPct (f cat))) ->
  ensureCompleteTargetRanges (withTargetRanges b (map f VMX_CATEGORIES))
  = map f VMX_CATEGORIES.
Proof.
  intros Hid Hfix. unfold ensureCompleteTargetRanges.
  change (match targetRanges (withTargetRanges b (map f VMX_CATEGORIES)) with
          | Some l => l | None => [] end)
    with (existingRanges (withTargetRanges b (map f VMX_CATEGORIES))).
  apply map_ext_in. intros cat Hin.
  rewrite collectExisting_last. unfold lastStored.
  change (existingRanges (withTargetRanges b (map f VMX_CATEGORIES)))
    with (map storedRange (map f VMX_CATEGORIES)).
  rewrite (stored_back_lookup f cat Hid Hin). cbn [option_map].
  unfold normalisedEntry, storedRange. cbn [stored_minPct stored_maxPct Js.toNumber].
  rewrite Hfix. cbn [fst snd]. specialize (Hid cat).
  destruct (f cat) as [k mn mx]. cbn [categoryId minPct maxPct] in *. congruence.
Qed.

Lemma ensureMinMax_pair_fixed x y :
  ensureMinMax (fst (ensureMinMax x y)) (snd (ensureMinMax x y))
  = (fst (ensureMinMax x y), snd (ensureMinMax x y)).
Proof. rewrite ensureMinMax_twice. apply surjective_pairing. Qed.

Lemma derived_fixed b opts d :
  In d (deriveTargetRangesFromMedium b opts) ->
  ensureMinMax (minPct d) (maxPct d) = (minPct d, maxPct d).
Proof.
  unfold deriveTargetRangesFromMedium. rewrite in_map_iff.
  intros (cat & <- & _). apply ensureMinMax_pair_fixed.
Qed.

Lemma complete_pick_fixed benchmark (cat : CategoryDef) :
  let pick := fun cat : CategoryDef =>
    match range_get (Known (id cat)) (collectExisting (existingRanges benchmark)) with
    | Some existingRange => existingRange
    | None =>
        match findRange (deriveTargetRangesFromMedium benchmark None) (id cat) with
        | Some d => d
        | None => {| categoryId := Known (id cat); minPct := 0; maxPct := 1 |}
        end
    end in
  ensureMinMax (minPct (pick cat)) (maxPct (pick cat)) = (minPct (pick cat), maxPct (pick cat)).
Proof.
  cbv beta zeta. rewrite collectExisting_last.
  destruct (lastStored benchmark (id cat)) as [r|]; cbn [option_map].
  - apply ensureMinMax_pair_fixed.
  - destruct (derived_per_category benchmark None (id cat)) as [d E]. rewrite E.
    apply findRange_some in E. apply (derived_fixed _ _ _ (proj1 E)).
Qed.

Lemma complete_as_map b :
  exists f : CategoryDef -> TargetRange,
    ensureCompleteTargetRanges b = map f VMX_CATEGORIES /\
    (forall cat, categoryId (f cat) = Known (id cat)) /\
    (forall cat, ensureMinMax (minPct (f cat)) (maxPct (f cat))
                 = (minPct (f cat), maxPct (f cat))).
Proof.
  eexists. split; [reflexivity|]. split.
  - intros cat. apply (complete_pick b cat).
  - intros cat. apply (complete_pick_fixed b cat).
Qed.

Lemma derived_as_map b opts :
  exists f : CategoryDef -> TargetRange,
    deriveTargetRangesFromMedium b opts = map f VMX_CATEGORIES /\
    (forall cat, categoryId (f cat) = Known (id cat)) /\
    (forall cat, ensureMinMax (minPct (f cat)) (maxPct (f cat))
                 = (minPct (f cat), maxPct (f cat))).
Proof.
  eexists. split; [reflexivity|]. split.
  - intros cat. reflexivity.
  - intros cat. apply ensureMinMax_pair_fixed.
Qed.

(** X14: the "normalise and fill" handler of the benchmark form stores a
    set of ranges that the domain module reads back unchanged: applying the
    handler twice is the same as applying it once, the complete set of
    ranges of the stored benchmark is the one that was stored, and the
    calculator gives the same result, or the same error, on the stored
    benchmark as on the original. *)
Theorem normalizeAndFillRanges_idempotent (benchmark : BenchmarkSet) :
  ensureCompleteTargetRanges (BenchmarkAdmin.normalizeAndFillRanges benchmark)
    = ensureCompleteTargetRanges benchmark /\
  BenchmarkAdmin.normalizeAndFillRanges (BenchmarkAdmin.normalizeAndFillRanges benchmark)
    = BenchmarkAdmin.normalizeAndFillRanges benchmark /\
  (forall areaSqft selections,
     computeScenarioResult areaSqft (BenchmarkAdmin.normalizeAndFillRanges benchmark) selections
     = computeScenarioResult areaSqft benchmark selections).
Proof.
  assert (A : ensureCompleteTargetRanges (BenchmarkAdmin.normalizeAndFillRanges benchmark)
              = ensureCompleteTargetRanges benchmark).
  { unfold BenchmarkAdmin.normalizeAndFillRanges. cbv zeta.
    destruct (complete_as_map benchmark) as (f & E & Hid & Hfix).
    rewrite E. apply stored_back; assumption. }
  split; [exact A|]. split.
  - unfold BenchmarkAdmin.normalizeAndFillRanges at 1 3. cbv zeta. rewrite A. reflexivity.
  - intros a s. apply computeScenarioResult_reads; [reflexivity|reflexivity|exact A].
Qed.

(** *** Clamping twice *)

Lemma positive_sign hi : (0 <? hi)%float = true -> get_sign hi = false.
Proof.
  rewrite ltb_spec, get_sign_spec, Prim2SF_zero. unfold SFltb.
  destruct (Prim2SF hi) as [[]|[]| |[] m e]; simpl; auto; discriminate.
Qed.

Lemma Math_min_pos hi x :
  (0 <? hi)%float = true -> (x <=? hi)%float = true -> Js.Math_min hi x = x.
Proof.
  intros P H. destruct (leb_not_nan _ _ H) as [Nx Nh].
  unfold Js.Math_min. rewrite Nx, Nh. cbn [orb].
  rewrite (leb_ltb_false _ _ H), (positive_sign hi P).
  destruct (x <? hi)%float; reflexivity.
Qed.

Lemma between_finite x hi :
  (0 <=? x)%float = true -> (x <=? hi)%float = true -> is_finite hi = true ->
  is_finite x = true.
Proof.
  rewrite !leb_spec, !is_finite_spec, Prim2SF_zero. unfold SFleb.
  destruct (Prim2SF x) as [[]|[]| |[] m e]; simpl; auto;
    destruct (Prim2SF hi) as [[]|[]| |[] m' e']; simpl; auto; discriminate.
Qed.

Lemma Math_max_zero_not_neg_zero n : is_nan n = false -> Js.Math_max 0 n <> (-0)%float.
Proof.
  intros Nn. unfold Js.Math_max. rewrite Nn. cbn [is_nan orb].
  change (is_nan 0) with false. cbn [orb].
  destruct (0 <? n)%float eqn:E1. { apply ltb_zero_neg_zero, E1. }
  destruct (n <? 0)%float eqn:E2. { discriminate. }
  rewrite ?get_sign_zero. discriminate.
Qed.

(** A value already clamped to [[0, hi]] is left alone, for a positive
    finite [hi]. *)
Lemma clamp_zero_idem n hi :
  (0 <? hi)%float = true -> is_finite hi = true ->
  clamp (clamp n 0 hi) 0 hi = clamp n 0 hi.
Proof.
  intros P F. pose proof (ltb_leb _ _ P) as L.
  destruct (clamp_bounds n 0 hi L) as [R0 R1].
  assert (NZ : clamp n 0 hi <> (-0)%float).
  { unfold clamp, Js.isFinite. destruct (is_finite n) eqn:Fn; cbn [negb]; [|discriminate].
    pose proof (is_finite_not_nan _ Fn) as Nn.
    assert (N0 : is_nan 0 = false) by reflexivity.
    destruct (leb_not_nan _ _ L) as [_ Nh].
    destruct (Math_min_choice hi (Js.Math_max 0 n) Nh (Math_max_not_nan _ _ N0 Nn))
      as [-> | ->].
    - apply ltb_zero_neg_zero, P.
    - apply Math_max_zero_not_neg_zero, Nn. }
  set (r := clamp n 0 hi) in *.
  unfold clamp at 1. unfold Js.isFinite. rewrite (between_finite r hi R0 R1 F). cbn [negb].
  rewrite (Math_max_zero r R0).
  destruct (0 <? r)%float eqn:E.
  - apply Math_min_pos; assumption.
  - destruct (eq_zero_cases r R0 E) as [-> | Z]; [|contradiction].
    apply Math_min_pos; [assumption|exact L].
Qed.

(** X15: the "calibrate" handler stores the ranges derived for the values
    of the form, and the domain module reads them back unchanged: the
    complete set of ranges of the stored benchmark is
    [deriveTargetRangesFromMedium] of the original benchmark with the form
    values divided by 100 as options (the handler's own clamping of these
    options changes nothing, the domain module clamps them the same way),
    and calibrating again with the same values stores the same benchmark. *)
Theorem calibrateFromMedium_stores_derived (benchmark : BenchmarkSet)
  (relativeTolerancePct minHalfWidthPp maxHalfWidthPp : float) :
  let stored := BenchmarkAdmin.calibrateFromMedium benchmark relativeTolerancePct
                                                   minHalfWidthPp maxHalfWidthPp in
  ensureCompleteTargetRanges stored
    = deriveTargetRangesFromMedium benchmark
        (Some (formOptions relativeTolerancePct minHalfWidthPp maxHalfWidthPp)) /\
  BenchmarkAdmin.calibrateFromMedium stored relativeTolerancePct minHalfWidthPp maxHalfWidthPp
    = stored.
Proof.
  cbv zeta.
  assert (D : forall b,
    deriveTargetRangesFromMedium b
      (Some {| relativeTolerance :=
                 Some (BenchmarkAdmin.clamp (relativeTolerancePct / 100) 0 2);
               minHalfWidthAbs := Some (BenchmarkAdmin.clamp (minHalfWidthPp / 100) 0 0.5);
               maxHalfWidthAbs := Some (BenchmarkAdmin.clamp (maxHalfWidthPp / 100) 0 0.5) |})
    = deriveTargetRangesFromMedium b
        (Some (formOptions relativeTolerancePct minHalfWidthPp maxHalfWidthPp))).
  { intros b. unfold deriveTargetRangesFromMedium, formOptions.
    cbn [optField Js.nullish relativeTolerance minHalfWidthAbs maxHalfWidthAbs].
    change BenchmarkAdmin.clamp with clamp.
    rewrite !clamp_zero_idem by reflexivity. reflexivity. }
  assert (A : ensureCompleteTargetRanges
                (BenchmarkAdmin.calibrateFromMedium benchmark relativeTolerancePct
                                                    minHalfWidthPp maxHalfWidthPp)
              = deriveTargetRangesFromMedium benchmark
                  (Some (formOptions relativeTolerancePct minHalfWidthPp maxHalfWidthPp))).
  { unfold BenchmarkAdmin.calibrateFromMedium. cbv zeta. rewrite D.
    destruct (derived_as_map benchmark
                (Some (formOptions relativeTolerancePct minHalfWidthPp maxHalfWidthPp)))
      as (f & E & Hid & Hfix).
    rewrite E. apply stored_back; assumption. }
  split; [exact A|].
  unfold BenchmarkAdmin.calibrateFromMedium. cbv zeta. rewrite !D.
  set (o := Some (formOptions relativeTolerancePct minHalfWidthPp maxHalfWidthPp)).
  rewrite (derive_bands (withTargetRanges benchmark (deriveTargetRangesFromMedium benchmark o))
                        benchmark o eq_refl).
  reflexivity.
Qed.

(** *** Mixing and scaling benchmarks *)

(** *** Mixing two benchmarks by category *)

Lemma findBand_key b c h x :
  findBand b c h = Some x -> band_categoryId x = c /\ band_band x = h.
Proof.
  unfold findBand. intros H. apply find_some in H. destruct H as [_ H].
  apply bandMatches_eqb in H. exact H.
Qed.

(** X16: what a lookup finds in a mixed benchmark.  A category and band
    that the base lacks is still missing; for a category outside the
    requested ones the entry is the base's; for a requested category it is
    the override's entry for that category and band, and the base's when the
    override has none.  The currency and the number of bands are the base's. *)
Theorem mixed_benchmark_lookup (base override mixed : BenchmarkSet)
  (categories : list VmxCategoryId) (nameSuffix : option string)
  (c : VmxCategoryId) (h : HeatBand) :
  App.mixBenchmarkSetsByCategory base override categories nameSuffix = Ok mixed ->
  findBand mixed c h =
    match findBand base c h with
    | None => None
    | Some b =>
        if existsb (VmxCategoryId_eqb c) categories
        then Some (match findBand override c h with Some hit => hit | None => b end)
        else Some b
    end /\
  currency mixed = currency base /\
  List.length (bands mixed) = List.length (bands base).
Proof.
  unfold App.mixBenchmarkSetsByCategory. cbv zeta.
  destruct (match targetRanges base with
            | Some ranges => mapM _ ranges
            | None => Throw TypeError_thrown
            end) as [nextRanges|e]; [|discriminate].
  cbn [bind]. intros [= <-]. cbn [currency bands].
  split; [|split; [reflexivity|apply length_map]].
  unfold findBand at 1. cbn [bands].
  rewrite find_map_key.
  - fold (findBand base c h).
    destruct (findBand base c h) as [b|] eqn:B; [|reflexivity].
    destruct (findBand_key _ _ _ _ B) as [Hc Hh]. cbn [option_map].
    rewrite Hc, Hh. destruct (existsb _ categories); reflexivity.
  - intros x. destruct (negb (existsb _ categories)); [reflexivity|].
    destruct (findBand override (band_categoryId x) (band_band x)) as [hit|] eqn:H;
      [|reflexivity].
    destruct (findBand_key _ _ _ _ H) as [Hc Hh]. rewrite Hc, Hh. reflexivity.
Qed.

Lemma mixed_benchmark_lookup_witness :
  exists mixed,
    App.mixBenchmarkSetsByCategory demoBenchmark doubledBenchmark [INTERNAL_FINISHES; FF_E]
                                   (Some " - Interior:Signature"%string) = Ok mixed /\
    option_map psqft (findBand mixed FF_E MEDIUM)
      = option_map psqft (findBand doubledBenchmark FF_E MEDIUM) /\
    findBand mixed SERVICES MEDIUM = findBand demoBenchmark SERVICES MEDIUM.
Proof.
  destruct (App.mixBenchmarkSetsByCategory demoBenchmark doubledBenchmark
              [INTERNAL_FINISHES; FF_E] (Some " - Interior:Signature"%string))
    as [mixed|e] eqn:E; [|vm_compute in E; discriminate E].
  exists mixed. split; [reflexivity|].
  destruct (mixed_benchmark_lookup _ _ _ _ _ FF_E MEDIUM E) as [A _].
  destruct (mixed_benchmark_lookup _ _ _ _ _ SERVICES MEDIUM E) as [B _].
  rewrite A, B. split; reflexivity.
Defined.

(** *** Scaling a benchmark *)

Lemma ensureComplete_reads b1 b2 :
  bands b1 = bands b2 -> targetRanges b1 = targetRanges b2 ->
  ensureCompleteTargetRanges b1 = ensureCompleteTargetRanges b2.
Proof.
  intros Hb Hr. unfold ensureCompleteTargetRanges.
  rewrite Hr, (derive_bands b1 b2 None Hb). reflexivity.
Qed.

Lemma same_result a b1 b2 s :
  bands b1 = bands b2 -> currency b1 = currency b2 -> targetRanges b1 = targetRanges b2 ->
  computeScenarioResult a b1 s = computeScenarioResult a b2 s.
Proof.
  intros Hb Hc Hr. apply computeScenarioResult_reads; auto.
  apply ensureComplete_reads; auto.
Qed.

Lemma scaled_bands o factors suffix :
  map App.band_of (App.bo_bands (App.scaleBenchmarkSetByCategory o factors suffix))
  = map App.band_of (App.bo_bands o).
Proof.
  unfold App.scaleBenchmarkSetByCategory. cbn [App.bo_bands].
  rewrite map_map. reflexivity.
Qed.

Lemma scaled_reads o factors suffix :
  let o' := App.scaleBenchmarkSetByCategory o factors suffix in
  bands (App.asBenchmarkSet o') = bands (App.asBenchmarkSet o) /\
  currency (App.asBenchmarkSet o') = currency (App.asBenchmarkSet o) /\
  targetRanges (App.asBenchmarkSet o') = targetRanges (App.asBenchmarkSet o).
Proof.
  cbv zeta. unfold App.asBenchmarkSet. cbn [bands currency targetRanges].
  rewrite scaled_bands. auto.
Qed.

Lemma typology_reads o t :
  let o' := App.applyTypologyCategoryFactors o t in
  bands (App.asBenchmarkSet o') = bands (App.asBenchmarkSet o) /\
  currency (App.asBenchmarkSet o') = currency (App.asBenchmarkSet o) /\
  targetRanges (App.asBenchmarkSet o') = targetRanges (App.asBenchmarkSet o).
Proof.
  cbv zeta. destruct t; cbn [App.applyTypologyCategoryFactors]; auto; apply scaled_reads.
Qed.

Lemma location_reads toFixed2 o g :
  let o' := App.applyLocationFactorWithDamping toFixed2 o g in
  bands (App.asBenchmarkSet o') = bands (App.asBenchmarkSet o) /\
  currency (App.asBenchmarkSet o') = currency (App.asBenchmarkSet o) /\
  targetRanges (App.asBenchmarkSet o') = targetRanges (App.asBenchmarkSet o).
Proof.
  cbv zeta. unfold App.applyLocationFactorWithDamping.
  destruct (negb (Js.isFinite g) || (g <=? 0)%float); auto.
  destruct (abs (g - 1) <? 1e-9)%float; auto.
  apply scaled_reads.
Qed.

(** X17: [scaleBenchmarkSetByCategory] changes no unit cost.  It writes
    the properties [lowPsf], [mediumPsf] and [highPsf] of each band, which
    the calculator never reads (on a plain band they come out as NaN), and
    leaves [categoryId], [band] and [psqft] as they were.  So whatever the
    factors, the location factor and the site typology, the calculator
    returns for the adjusted benchmark exactly what it returns for the
    benchmark it was built from. *)
Theorem scaling_changes_no_unit_cost :
  (forall o factors suffix,
     map App.band_of (App.bo_bands (App.scaleBenchmarkSetByCategory o factors suffix))
       = map App.band_of (App.bo_bands o) /\
     forall areaSqft selections,
       computeScenarioResult areaSqft
         (App.asBenchmarkSet (App.scaleBenchmarkSetByCategory o factors suffix)) selections
       = computeScenarioResult areaSqft (App.asBenchmarkSet o) selections) /\
  (forall toFixed2 benchmark locationFactor typology areaSqft selections,
     computeScenarioResult areaSqft
       (App.asBenchmarkSet
          (App.buildAdjustedBenchmark toFixed2 (App.plain benchmark) locationFactor typology))
       selections
     = computeScenarioResult areaSqft benchmark selections) /\
  (forall b factors suffix,
     Forall (fun x => option_map is_nan (App.lowPsf x) = Some true /\
                      option_map is_nan (App.mediumPsf x) = Some true /\
                      option_map is_nan (App.highPsf x) = Some true)
            (App.bo_bands (App.scaleBenchmarkSetByCategory (App.plain b) factors suffix))).
Proof.
  split; [|split].
  - intros o factors suffix. split; [apply scaled_bands|].
    intros a s. destruct (scaled_reads o factors suffix) as (B & C & R).
    apply same_result; assumption.
  - intros toFixed2 b g t a s. unfold App.buildAdjustedBenchmark. cbv zeta.
    set (o1 := App.applyLocationFactorWithDamping toFixed2 (App.plain b) g).
    destruct (typology_reads o1 t) as (B2 & C2 & R2).
    destruct (location_reads toFixed2 (App.plain b) g) as (B1 & C1 & R1). fold o1 in B1, C1, R1.
    apply same_result.
    + rewrite B2, B1. unfold App.asBenchmarkSet, App.plain. cbn [bands App.bo_bands].
      rewrite map_map. apply map_id.
    + rewrite C2, C1. reflexivity.
    + rewrite R2, R1. reflexivity.
  - intros b factors suffix. unfold App.scaleBenchmarkSetByCategory, App.plain.
    cbn [App.bo_bands]. rewrite Forall_map, Forall_map. apply Forall_forall. intros x _.
    cbn [App.lowPsf App.mediumPsf App.highPsf App.band_of Js.toNumber option_map].
    assert (N : forall f, is_nan (nan * f)%float = true).
    { intros f. rewrite is_nan_spec, mul_spec. reflexivity. }
    rewrite !N. auto.
Qed.

Local Open Scope R_scope.

(** *** Multiplication *)

Module Product.

(** The product of two positive integers of [dx] and [dy] digits has at
    least [dx + dy - 1] digits. *)
Lemma digits_mul mx my :
  (Zpos (digits2_pos mx) + Zpos (digits2_pos my) - 1 <= Zpos (digits2_pos (mx * my)))%Z.
Proof.
  pose proof (digits_bpow mx) as [Lx _]. pose proof (digits_bpow my) as [Ly _].
  pose proof (digits_bpow (mx * my)) as [_ U].
  set (dx := Zpos (digits2_pos mx)) in *. set (dy := Zpos (digits2_pos my)) in *.
  set (d := Zpos (digits2_pos (mx * my))) in *.
  destruct (Z_lt_le_dec d (dx + dy - 1)) as [L|G]; [exfalso|exact G].
  assert (B : bpow d <= bpow ((dx - 1) + (dy - 1))) by (apply bpow_le; lia).
  rewrite bpow_add in B.
  rewrite Pos2Z.inj_mul, mult_IZR in U.
  pose proof (bpow_gt_0 (dx - 1)). pose proof (bpow_gt_0 (dy - 1)).
  assert (bpow (dx - 1) * bpow (dy - 1) <= IZR (Zpos mx) * IZR (Zpos my)).
  { apply Rmult_le_compat; lra. }
  lra.
Qed.

(** The exact product of two canonical numbers is given at an exponent no
    coarser than the one it is rounded at. *)
Lemma mul_fine mx ex my ey :
  SpecFloat.bounded prec emax mx ex = true ->
  SpecFloat.bounded prec emax my ey = true ->
  (ex + ey <= fexp64 (Zdigits2 (Zpos (mx * my)) + (ex + ey)))%Z.
Proof.
  intros Hx Hy. apply bounded_exponent in Hx, Hy.
  destruct Hx as [Bx Cx], Hy as [By Cy].
  pose proof (digits_mul mx my) as D.
  assert (0 < Zpos (digits2_pos mx))%Z by lia.
  assert (0 < Zpos (digits2_pos my))%Z by lia.
  cbn [Zdigits2]. rewrite fexp64_eq in *. lia.
Qed.

Lemma mul_value mx ex my ey :
  IZR (Zpos (mx * my)) * bpow (ex + ey)
  = (IZR (Zpos mx) * bpow ex) * (IZR (Zpos my) * bpow ey).
Proof. rewrite Pos2Z.inj_mul, mult_IZR, bpow_add. ring. Qed.

(** Multiplying two non-negative binary64 numbers: the product overflows,
    or the result is the exact product up to a relative error of [2^-53]
    plus half the least positive number. *)
Lemma SFmul_nonneg x y :
  nonneg_finite x -> nonneg_finite y ->
  let z := SFmul prec emax x y in
  let r := SF2R x * SF2R y in
  match z with
  | S754_infinity false => bpow 1023 < r
  | S754_zero _ | S754_finite false _ _ =>
      - (u64 * r + eta64) <= SF2R z - r <= u64 * r + eta64
  | _ => False
  end.
Proof.
  intros Hx Hy z r. subst z.
  pose proof u64_pos as U. pose proof eta64_pos as Eta.
  destruct x as [sx|sx| |[] mx ex]; try (simpl in Hx; tauto);
    destruct y as [sy|sy| |[] my ey]; try (simpl in Hy; tauto);
    try (subst r; cbn [SFmul]; simpl; rewrite ?Rmult_0_l, ?Rmult_0_r; lra).
  cbn [SFmul xorb].
  pose proof (mul_fine mx ex my ey Hx Hy) as Hfine.
  assert (Hloc : located (IZR (Zpos (mx * my)))
                         (shr_record_of_loc (Zpos (mx * my)) loc_Exact)) by reflexivity.
  pose proof (binary_round_aux_correct (Zpos (mx * my)) (ex + ey) loc_Exact
                (IZR (Zpos (mx * my))) ltac:(lia) Hloc Hfine) as C.
  cbv zeta in C. rewrite mul_value in C.
  pose proof (half_ulp_bound (Zpos (mx * my)) (ex + ey) (IZR (Zpos (mx * my)))
                ltac:(lia) ltac:(lra) Hfine) as H.
  rewrite mul_value in H. subst r.
  change (SF2R (S754_finite false mx ex)) with (IZR (Zpos mx) * bpow ex).
  change (SF2R (S754_finite false my ey)) with (IZR (Zpos my) * bpow ey).
  destruct (binary_round_aux prec emax false (Zpos (mx * my)) (ex + ey) loc_Exact)
    as [[]|[]| |[] m' e']; try contradiction; try exact C; destruct C as [C _]; lra.
Qed.

(** The rounded product keeps the order of the exact product with every
    canonical positive number. *)
Lemma SFmul_order x y m e :
  positive_finite x -> positive_finite y ->
  SpecFloat.bounded prec emax m e = true ->
  let z := SFmul prec emax x y in
  let r := SF2R x * SF2R y in
  let F := IZR (Zpos m) * bpow e in
  (F <= r -> match z with
             | S754_infinity false => True
             | S754_finite false _ _ => F <= SF2R z
             | _ => False
             end) /\
  (r <= F -> match z with
             | S754_zero false | S754_finite false _ _ => SF2R z <= F
             | _ => False
             end).
Proof.
  intros Hx Hy Hb.
  destruct x as [sx|sx| |[] mx ex]; try (simpl in Hx; tauto);
    destruct y as [sy|sy| |[] my ey]; try (simpl in Hy; tauto).
  cbn [SFmul xorb]. cbv zeta.
  pose proof (mul_fine mx ex my ey Hx Hy) as Hfine.
  assert (Hloc : located (IZR (Zpos (mx * my)))
                         (shr_record_of_loc (Zpos (mx * my)) loc_Exact)) by reflexivity.
  pose proof (binary_round_aux_order (Zpos (mx * my)) (ex + ey) loc_Exact
                (IZR (Zpos (mx * my))) m e ltac:(lia) Hloc Hfine Hb) as C.
  cbv zeta in C. rewrite mul_value in C. exact C.
Qed.

(** A product by a factor of at most 1 is no larger than the other factor. *)
Lemma SFmul_le x y :
  nonneg_finite x -> nonneg_finite y -> SF2R y <= 1 ->
  let z := SFmul prec emax x y in
  match z with
  | S754_zero _ | S754_finite false _ _ => SF2R z <= SF2R x
  | _ => False
  end.
Proof.
  intros Hx Hy L. cbv zeta.
  pose proof (SF2R_nonneg _ Hx) as X0. pose proof (SF2R_nonneg _ Hy) as Y0.
  destruct x as [sx|sx| |[] mx ex]; try (simpl in Hx; tauto);
    destruct y as [sy|sy| |[] my ey]; try (simpl in Hy; tauto);
    try (cbn [SFmul]; simpl; simpl in X0; lra).
  destruct (SFmul_order (S754_finite false mx ex) (S754_finite false my ey) mx ex Hx Hy Hx)
    as [_ C].
  assert (Q : SF2R (S754_finite false mx ex) * SF2R (S754_finite false my ey)
              <= IZR (Zpos mx) * bpow ex).
  { unfold SF2R in *. nra. }
  specialize (C Q).
  destruct (SFmul prec emax (S754_finite false mx ex) (S754_finite false my ey))
    as [[]|[]| |[] m' e']; try contradiction; exact C.
Qed.

(** Floating-point versions. *)
Lemma mul_nonneg x y :
  nonnegF x -> nonnegF y ->
  (isPosInf (x * y)%float /\ bpow 1023 < B2R x * B2R y) \/
  (nonnegF (x * y)%float /\
   - (u64 * (B2R x * B2R y) + eta64) <= B2R (x * y)%float - B2R x * B2R y
     <= u64 * (B2R x * B2R y) + eta64).
Proof.
  intros Hx Hy. pose proof (SFmul_nonneg _ _ Hx Hy) as C. cbv zeta in C.
  pose proof (valid_nonneg (x * y)%float) as V.
  unfold isPosInf, B2R. rewrite mul_spec in *. unfold SF64mul in *.
  destruct (SFmul prec emax (Prim2SF x) (Prim2SF y)) as [?|[]| |[] m e];
    try contradiction; auto.
Qed.

Lemma leb_one_real y : nonnegF y -> (y <=? 1)%float = true -> B2R y <= 1.
Proof.
  intros Hy L. pose proof (leb_real y 1 Hy ltac:(reflexivity) L) as H.
  replace (B2R 1) with 1 in H; [exact H|].
  unfold B2R. change (Prim2SF 1) with (S754_finite false 4503599627370496 (-52)).
  unfold SF2R. replace (-52)%Z with (- (52))%Z by lia. rewrite bpow_opp, bpow_52. field.
Qed.

Lemma mul_le_l x y :
  nonnegF x -> nonnegF y -> (y <=? 1)%float = true ->
  nonnegF (x * y)%float /\ (x * y <=? x)%float = true.
Proof.
  intros Hx Hy L. pose proof (leb_one_real y Hy L) as LR.
  pose proof (SFmul_le _ _ Hx Hy LR) as C. cbv zeta in C.
  pose proof (valid_nonneg (x * y)%float) as V.
  rewrite leb_spec. unfold nonnegF in *. rewrite mul_spec in *. unfold SF64mul in *.
  destruct (SFmul prec emax (Prim2SF x) (Prim2SF y)) as [s|[]| |[] m e] eqn:E;
    try contradiction.
  - split; [exact I|]. apply SFleb_of_Rle; [exact I|exact Hx|exact C].
  - split; [exact V|]. apply SFleb_of_Rle; [exact V|exact Hx|exact C].
Qed.

(** A zero factor gives a zero product. *)
Lemma mul_zero_l y :
  nonnegF y -> get_sign y = false -> (0 * y)%float = 0%float.
Proof.
  intros Hy S. apply Prim2SF_inj. rewrite mul_spec.
  rewrite get_sign_spec in S. unfold nonnegF in Hy.
  change (Prim2SF 0) with (S754_zero false). unfold SF64mul.
  destruct (Prim2SF y) as [[]|[]| |[] m e]; try contradiction; try discriminate;
    reflexivity.
Qed.

End Product.
Import Product.

(** *** Numbers of either sign; exact quotients and differences *)

Module Signed.

Lemma finite_valid_Prim2SF x : is_finite x = true -> finite_valid (Prim2SF x).
Proof.
  rewrite is_finite_spec. pose proof (Prim2SF_valid x) as V.
  destruct (Prim2SF x) as [?|?| |s m e]; simpl; try discriminate; auto.
Qed.

Lemma SF2R_finite_pos m e : 0 < SF2R (S754_finite false m e).
Proof.
  simpl. pose proof (bpow_gt_0 e). apply Rmult_lt_0_compat; [|lra].
  apply IZR_lt. lia.
Qed.

Lemma SF2R_finite_neg m e : SF2R (S754_finite true m e) < 0.
Proof. pose proof (SF2R_finite_pos m e) as P. simpl in *. lra. Qed.

(** The IEEE comparison of two positive canonical numbers is the
    comparison of the reals they denote. *)
Lemma SFcompare_pos_real m1 e1 m2 e2 :
  SpecFloat.bounded prec emax m1 e1 = true ->
  SpecFloat.bounded prec emax m2 e2 = true ->
  match SFcompare (S754_finite false m1 e1) (S754_finite false m2 e2) with
  | Some Lt => IZR (Zpos m1) * bpow e1 < IZR (Zpos m2) * bpow e2
  | Some Eq => m1 = m2 /\ e1 = e2
  | Some Gt => IZR (Zpos m2) * bpow e2 < IZR (Zpos m1) * bpow e1
  | None => False
  end.
Proof.
  intros H1 H2.
  pose proof (SFcompare_Gt_real (S754_finite false m1 e1) (S754_finite false m2 e2) H1 H2)
    as G.
  pose proof (SFcompare_Gt_real (S754_finite false m2 e2) (S754_finite false m1 e1) H2 H1)
    as L.
  rewrite (SFcompare_antisym (S754_finite false m1 e1) (S754_finite false m2 e2)) in L.
  destruct (SFcompare (S754_finite false m1 e1) (S754_finite false m2 e2)) as [[]|] eqn:C.
  - simpl in C. rewrite Pos.compare_cont_spec in C.
    destruct (Z.compare_spec e1 e2) as [E|?|?]; try discriminate.
    simpl in C. destruct (Pos.compare_spec m1 m2) as [E'|?|?]; try discriminate.
    auto.
  - apply (L eq_refl).
  - apply (G eq_refl).
  - simpl in C. discriminate.
Qed.

Lemma canonical_unique m1 e1 m2 e2 :
  SpecFloat.bounded prec emax m1 e1 = true ->
  SpecFloat.bounded prec emax m2 e2 = true ->
  IZR (Zpos m1) * bpow e1 = IZR (Zpos m2) * bpow e2 ->
  m1 = m2 /\ e1 = e2.
Proof.
  intros H1 H2 E. pose proof (SFcompare_pos_real m1 e1 m2 e2 H1 H2) as C.
  destruct (SFcompare _ _) as [[]|]; try contradiction; auto; lra.
Qed.

Lemma SFcompare_neg m1 e1 m2 e2 :
  SFcompare (S754_finite true m1 e1) (S754_finite true m2 e2)
  = option_map CompOpp (SFcompare (S754_finite false m1 e1) (S754_finite false m2 e2)).
Proof. simpl. destruct (e1 ?= e2)%Z; reflexivity. Qed.

(** The IEEE comparison of finite numbers of any sign. *)
Lemma SFcompare_real a b :
  finite_valid a -> finite_valid b ->
  match SFcompare a b with
  | Some Lt => SF2R a < SF2R b
  | Some Eq => SF2R a = SF2R b
  | Some Gt => SF2R b < SF2R a
  | None => False
  end.
Proof.
  intros Ha Hb.
  destruct a as [sa|sa| |sa m1 e1]; try (simpl in Ha; tauto);
    destruct b as [sb|sb| |sb m2 e2]; try (simpl in Hb; tauto).
  - simpl. reflexivity.
  - pose proof (SF2R_finite_pos m2 e2). pose proof (SF2R_finite_neg m2 e2).
    destruct sb; simpl in *; lra.
  - pose proof (SF2R_finite_pos m1 e1). pose proof (SF2R_finite_neg m1 e1).
    destruct sa; simpl in *; lra.
  - pose proof (SF2R_finite_pos m1 e1). pose proof (SF2R_finite_neg m1 e1).
    pose proof (SF2R_finite_pos m2 e2). pose proof (SF2R_finite_neg m2 e2).
    pose proof (SFcompare_pos_real m1 e1 m2 e2 Ha Hb) as C.
    destruct sa, sb.
    + rewrite SFcompare_neg.
      destruct (SFcompare (S754_finite false m1 e1) (S754_finite false m2 e2)) as [[]|];
        try contradiction; cbn [option_map CompOpp].
      * destruct C as [-> ->]. reflexivity.
      * simpl. lra.
      * simpl. lra.
    + simpl in *. lra.
    + simpl in *. lra.
    + destruct (SFcompare (S754_finite false m1 e1) (S754_finite false m2 e2)) as [[]|];
        try contradiction; auto.
      destruct C as [-> ->]. reflexivity.
Qed.

Lemma SFltb_real a b :
  finite_valid a -> finite_valid b ->
  (SFltb a b = true <-> SF2R a < SF2R b).
Proof.
  intros Ha Hb. pose proof (SFcompare_real a b Ha Hb) as C. unfold SFltb.
  destruct (SFcompare a b) as [[]|]; try contradiction; split; intros H;
    try reflexivity; try discriminate; try assumption; lra.
Qed.

(** Rounding a positive integer mantissa does not give zero. *)
Lemma binary_round_positive m e :
  (-1074 <= e)%Z ->
  match binary_round prec emax false m e with
  | S754_infinity false | S754_finite false _ _ => True
  | _ => False
  end.
Proof.
  intros He. pose proof (binary_round_correct m e He) as C. cbv zeta in C.
  pose proof u64_pos as U.
  assert (R0 : 0 < IZR (Zpos m) * bpow e).
  { pose proof (bpow_gt_0 e). apply Rmult_lt_0_compat; [apply IZR_lt; lia|lra]. }
  assert (U1 : u64 < 1) by (unfold u64; lra).
  destruct (binary_round prec emax false m e) as [[]|[]| |[] m' e']; try contradiction; auto.
  simpl in C. nra.
Qed.

(** The sign of a difference of finite numbers is the order of the reals
    they denote. *)
Lemma SFsub_sign x y :
  finite_valid x -> finite_valid y ->
  match SFsub prec emax x y with
  | S754_nan => False
  | S754_zero _ => SF2R x = SF2R y
  | S754_finite false _ _ | S754_infinity false => SF2R y < SF2R x
  | S754_finite true _ _ | S754_infinity true => SF2R x < SF2R y
  end.
Proof.
  intros Hx Hy.
  destruct x as [sx|sx| |sx mx ex]; try (simpl in Hx; tauto);
    destruct y as [sy|sy| |sy my ey]; try (simpl in Hy; tauto).
  - destruct sx, sy; reflexivity.
  - pose proof (SF2R_finite_pos my ey). pose proof (SF2R_finite_neg my ey).
    cbn [SFsub]. destruct sy; simpl in *; lra.
  - pose proof (SF2R_finite_pos mx ex). pose proof (SF2R_finite_neg mx ex).
    cbn [SFsub]. destruct sx; simpl in *; lra.
  - cbn [SFsub].
    pose proof Hx as Bx. pose proof Hy as By.
    apply bounded_exponent in Bx, By. destruct Bx as [Bx _], By as [By _].
    pose proof (shl_align_spec mx ex (Z.min ex ey)) as Sx.
    pose proof (shl_align_spec my ey (Z.min ex ey)) as Sy.
    destruct (shl_align mx ex (Z.min ex ey)) as [ax e1].
    destruct (shl_align my ey (Z.min ex ey)) as [ay e2].
    cbn [fst snd] in *. destruct Sx as (E1 & V1 & _), Sy as (E2 & V2 & _).
    replace e1 with (Z.min ex ey) in V1 by lia.
    replace e2 with (Z.min ex ey) in V2 by lia.
    set (ez := Z.min ex ey) in *.
    set (d := (cond_Zopp sx (Zpos ax) - cond_Zopp sy (Zpos ay))%Z).
    assert (Val : IZR d * bpow ez
                  = SF2R (S754_finite sx mx ex) - SF2R (S754_finite sy my ey)).
    { unfold d. rewrite minus_IZR. unfold SF2R.
      destruct sx, sy; cbn [cond_Zopp]; rewrite ?opp_IZR; lra. }
    pose proof (bpow_gt_0 ez) as Pz.
    destruct d as [|p|p] eqn:D; cbn [binary_normalize].
    + rewrite Rmult_0_l in Val. lra.
    + pose proof (binary_round_positive p ez ltac:(lia)) as P.
      assert (0 < IZR (Zpos p) * bpow ez).
      { apply Rmult_lt_0_compat; [apply IZR_lt; lia|lra]. }
      destruct (binary_round prec emax false p ez) as [[]|[]| |[] m' e'];
        try contradiction; lra.
    + pose proof (binary_round_positive p ez ltac:(lia)) as P.
      rewrite binary_round_opp.
      assert (IZR (Zneg p) * bpow ez < 0).
      { change (Zneg p) with (- Zpos p)%Z. rewrite opp_IZR.
        assert (0 < IZR (Zpos p) * bpow ez)
          by (apply Rmult_lt_0_compat; [apply IZR_lt; lia|lra]).
        lra. }
      destruct (binary_round prec emax false p ez) as [[]|[]| |[] m' e'];
        try contradiction; cbn [SFopp negb]; lra.
Qed.

(** [0 < x - y] is [y < x], for numbers that are not NaN. *)
Lemma sub_pos_ltb x y :
  is_nan x = false -> is_nan y = false ->
  (0 <? x - y)%float = (y <? x)%float.
Proof.
  intros Nx Ny. rewrite !ltb_spec, sub_spec. rewrite is_nan_spec in Nx, Ny.
  pose proof (Prim2SF_valid x) as Vx. pose proof (Prim2SF_valid y) as Vy.
  change (Prim2SF 0) with (S754_zero false). unfold SF64sub.
  destruct (Prim2SF x) as [sx|sx| |sx mx ex] eqn:Ex; try discriminate;
    destruct (Prim2SF y) as [sy|sy| |sy my ey] eqn:Ey; try discriminate.
  1, 3, 7, 9:
    match goal with
    | |- SFltb _ (SFsub _ _ ?a ?b) = _ =>
        pose proof (SFsub_sign a b ltac:(assumption || exact I) ltac:(assumption || exact I))
          as S;
        pose proof (SFltb_real b a ltac:(assumption || exact I) ltac:(assumption || exact I))
          as L;
        destruct (SFsub prec emax a b) as [[]|[]| |[] m' e']; try contradiction;
        destruct (SFltb b a); try reflexivity;
        try (destruct L as [L _]; specialize (L eq_refl); lra);
        try (destruct L as [_ L]; specialize (L S); discriminate)
    end.
  all: destruct sx, sy; reflexivity.
Qed.

(** A positive finite number divided by itself is 1. *)
Lemma div_self c : positiveF c -> (c / c)%float = 1%float.
Proof.
  intros Hc. apply Prim2SF_inj. pose proof (Prim2SF_valid (c / c)%float) as V.
  rewrite div_spec in *. unfold positiveF in Hc. unfold SF64div in *.
  destruct (Prim2SF c) as [?|?| |[] m e]; try (simpl in Hc; tauto).
  cbn [SFdiv xorb] in *.
  pose proof (div_core_spec m e m e) as D.
  destruct (SFdiv_core_binary prec emax (Zpos m) e (Zpos m) e) as [[mz ez] lz].
  destruct D as (x0 & Hq & Hloc & Val & Hfine).
  destruct (binary_round_aux_order mz ez lz x0 4503599627370496 (-52) Hq Hloc Hfine
              eq_refl) as [C1 C2].
  cbv zeta in C1, C2.
  assert (One : IZR (Zpos 4503599627370496) * bpow (-52) = 1).
  { replace (-52)%Z with (- (52))%Z by lia. rewrite bpow_opp, bpow_52. field. }
  assert (Q : x0 * bpow ez = 1).
  { rewrite Val. pose proof (SF2R_finite_pos m e) as P. simpl in P.
    unfold Rdiv. apply Rinv_r. lra. }
  rewrite One, Q in C1, C2. specialize (C1 ltac:(lra)). specialize (C2 ltac:(lra)).
  change (Prim2SF 1) with (S754_finite false 4503599627370496 (-52)).
  destruct (binary_round_aux prec emax false mz ez lz) as [[]|[]| |[] m' e'];
    try contradiction.
  simpl in V.
  destruct (canonical_unique m' e' 4503599627370496 (-52) V eq_refl) as [-> ->];
    [|reflexivity].
  rewrite One. unfold SF2R in C1, C2. lra.
Qed.

(** A finite number minus itself is [+0]. *)
Lemma sub_self c : is_finite c = true -> (c - c)%float = 0%float.
Proof.
  intros Hc. apply Prim2SF_inj. rewrite sub_spec. rewrite is_finite_spec in Hc.
  change (Prim2SF 0) with (S754_zero false). unfold SF64sub.
  destruct (Prim2SF c) as [[]|?| |s m e]; try discriminate; try reflexivity.
  cbn [SFsub]. rewrite Z.sub_diag. reflexivity.
Qed.

(** Multiplication is commutative. *)
Lemma mul_comm x y : (x * y)%float = (y * x)%float.
Proof.
  apply Prim2SF_inj. rewrite !mul_spec. unfold SF64mul.
  destruct (Prim2SF x) as [sx|sx| |sx mx ex], (Prim2SF y) as [sy|sy| |sy my ey];
    cbn [SFmul]; rewrite ?(xorb_comm sx sy); try reflexivity.
  rewrite (Pos.mul_comm mx my), (Z.add_comm ex ey). reflexivity.
Qed.

(** A product by a factor of at least 1 is no smaller than the other
    factor. *)
Lemma mul_ge_l x y :
  nonnegF x -> positiveF y -> (1 <=? y)%float = true -> (x <=? x * y)%float = true.
Proof.
  intros Hx Hy L.
  assert (Hy' : nonnegF y).
  { unfold nonnegF, positiveF in *.
    destruct (Prim2SF y) as [?|?| |[] ? ?]; simpl in *; tauto. }
  pose proof (leb_real 1 y ltac:(reflexivity) Hy' L) as LR.
  assert (One : B2R 1 = 1).
  { unfold B2R. change (Prim2SF 1) with (S754_finite false 4503599627370496 (-52)).
    unfold SF2R. replace (-52)%Z with (- (52))%Z by lia. rewrite bpow_opp, bpow_52. field. }
  rewrite One in LR. clear One.
  pose proof (valid_nonneg (x * y)%float) as V.
  rewrite leb_spec. unfold nonnegF, positiveF, B2R in *.
  rewrite mul_spec in *. unfold SF64mul in *.
  destruct (Prim2SF y) as [?|?| |[] my ey] eqn:Ey; try (simpl in Hy; tauto).
  destruct (Prim2SF x) as [sx|?| |[] mx ex] eqn:Ex; try (simpl in Hx; contradiction).
  { cbn [SFmul]. destruct sx; reflexivity. }
  destruct (SFmul_order (S754_finite false mx ex) (S754_finite false my ey) mx ex
              Hx Hy Hx) as [C _].
  cbv zeta in C.
  pose proof (SF2R_finite_pos mx ex) as Px.
  assert (Q : IZR (Zpos mx) * bpow ex
              <= SF2R (S754_finite false mx ex) * SF2R (S754_finite false my ey)).
  { unfold SF2R in *. nra. }
  specialize (C Q).
  destruct (SFmul prec emax (S754_finite false mx ex) (S754_finite false my ey))
    as [[]|[]| |[] m' e']; try contradiction.
  - reflexivity.
  - apply SFleb_of_Rle; [exact Hx|exact V|exact C].
Qed.

(** A finite number that is not negative, times 1. *)
Lemma mul_one_r x : nonnegF x -> (x * 1)%float = x.
Proof.
  intros Hx. apply Prim2SF_inj. pose proof (Prim2SF_valid (x * 1)%float) as V.
  rewrite mul_spec in *. unfold nonnegF in Hx. unfold SF64mul in *.
  change (Prim2SF 1) with (S754_finite false 4503599627370496 (-52)) in *.
  destruct (Prim2SF x) as [sx|?| |[] mx ex]; try (simpl in Hx; contradiction).
  - cbn [SFmul]. destruct sx; reflexivity.
  - destruct (SFmul_order (S754_finite false mx ex)
                (S754_finite false 4503599627370496 (-52)) mx ex Hx eq_refl Hx) as [C1 C2].
    cbv zeta in C1, C2.
    assert (One : SF2R (S754_finite false 4503599627370496 (-52)) = 1).
    { unfold SF2R. replace (-52)%Z with (- (52))%Z by lia. rewrite bpow_opp, bpow_52. field. }
    rewrite One, Rmult_1_r in C1, C2.
    change (SF2R (S754_finite false mx ex)) with (IZR (Zpos mx) * bpow ex) in C1, C2.
    specialize (C1 ltac:(lra)). specialize (C2 ltac:(lra)).
    destruct (SFmul prec emax (S754_finite false mx ex)
                (S754_finite false 4503599627370496 (-52))) as [[]|[]| |[] m' e'];
      try contradiction.
    simpl in V.
    destruct (canonical_unique m' e' mx ex V Hx) as [-> ->]; [|reflexivity].
    unfold SF2R in C1, C2. lra.
Qed.

End Signed.
Import Signed.

Local Close Scope R_scope.

From Stdlib Require Import Permutation Sorted.

(** *** Watch-outs and key drivers *)

(** *** Sorting and slicing an array *)

Section SortFacts.
Context {A : Type} (compareFn : A -> A -> float).

Lemma insertSorted_perm x l : Permutation (insertSorted compareFn x l) (x :: l).
Proof.
induction l as [|y rest IH]; cbn [insertSorted]; [reflexivity|].
destruct (0 <? compareFn y x)%float; [reflexivity|].
rewrite IH. apply perm_swap.
Qed.

Lemma Array_sort_fold_perm xs : forall acc,
Permutation (fold_left (fun sorted x => insertSorted compareFn x sorted) xs acc) (acc ++ xs).
Proof.
induction xs as [|x xs IH]; intros acc; cbn [fold_left].
- rewrite app_nil_r. reflexivity.
- rewrite IH, insertSorted_perm. apply Permutation_middle.
Qed.

Lemma Array_sort_perm xs : Permutation (Array_sort compareFn xs) xs.
Proof. unfold Array_sort. apply (Array_sort_fold_perm xs []). Qed.

End SortFacts.

(** Sorting by decreasing key, for keys that are not NaN. *)
Section SortByKey.
Context {A : Type} (key : A -> float).

Lemma insertSorted_descending x l :
is_nan (key x) = false ->
Forall (fun y => is_nan (key y) = false) l ->
StronglySorted (fun a b => (key b <=? key a)%float = true) l ->
StronglySorted (fun a b => (key b <=? key a)%float = true)
               (insertSorted (fun a b => (key b - key a)%float) x l).
Proof.
intros Nx Nl S. induction l as [|y rest IH]; cbn [insertSorted].
- constructor; constructor.
- inversion Nl as [|? ? Ny Nrest]; subst. inversion S as [|? ? Srest Hy]; subst.
  rewrite (sub_pos_ltb (key x) (key y) Nx Ny).
  destruct (key y <? key x)%float eqn:E.
  + constructor; [exact S|]. constructor; [apply ltb_leb, E|].
    eapply Forall_impl; [|exact Hy]. cbv beta. intros z Hz.
    eapply leb_trans; [exact Hz|apply ltb_leb, E].
  + constructor; [apply IH; assumption|].
    eapply Permutation_Forall; [apply Permutation_sym, insertSorted_perm|].
    constructor; [|exact Hy]. apply ltb_false_leb; assumption.
Qed.

Lemma Array_sort_fold_descending xs : forall acc,
Forall (fun y => is_nan (key y) = false) xs ->
Forall (fun y => is_nan (key y) = false) acc ->
StronglySorted (fun a b => (key b <=? key a)%float = true) acc ->
StronglySorted (fun a b => (key b <=? key a)%float = true)
  (fold_left (fun sorted x => insertSorted (fun a b => (key b - key a)%float) x sorted)
             xs acc).
Proof.
induction xs as [|x xs IH]; intros acc Nxs Nacc S; cbn [fold_left]; [exact S|].
inversion Nxs as [|? ? Nx Nrest]; subst.
apply IH; [exact Nrest| |apply insertSorted_descending; assumption].
eapply Permutation_Forall; [apply Permutation_sym, insertSorted_perm|].
constructor; assumption.
Qed.

Lemma Array_sort_descending xs :
Forall (fun y => is_nan (key y) = false) xs ->
StronglySorted (fun a b => (key b <=? key a)%float = true)
               (Array_sort (fun a b => (key b - key a)%float) xs).
Proof.
intros N. apply Array_sort_fold_descending; [exact N|constructor|constructor].
Qed.

End SortByKey.

Lemma Array_slice0_prefix {A} (n : Z) (xs : list A) :
  exists rest, xs = Array_slice0 n xs ++ rest.
Proof.
  unfold Array_slice0. destruct (n <? 0)%Z; eexists; symmetry; apply firstn_skipn.
Qed.

Lemma Array_slice0_length {A} (n : Z) (xs : list A) :
  (0 <= n)%Z -> List.length (Array_slice0 n xs) = Nat.min (Z.to_nat n) (List.length xs).
Proof.
  intros H. unfold Array_slice0. destruct (Z.ltb_spec n 0); [lia|]. apply length_firstn.
Qed.

(** *** The watch-outs of a result *)

Lemma watchoutItems_In total cats w :
  In w (App.watchoutItems total cats) ->
  Js.isFinite (App.currentPct w) = true /\
  Js.isFinite (App.targetMin w) = true /\
  Js.isFinite (App.targetMax w) = true /\
  (0 <? App.deltaPct w)%float = true /\
  match App.kind w with
  | App.under =>
      (App.currentPct w <? App.targetMin w)%float = true /\
      App.deltaPct w = (App.targetMin w - App.currentPct w)%float
  | App.over =>
      (App.targetMin w <=? App.currentPct w)%float = true /\
      (App.targetMax w <? App.currentPct w)%float = true /\
      App.deltaPct w = (App.currentPct w - App.targetMax w)%float
  end.
Proof.
  unfold App.watchoutItems. rewrite in_flat_map. intros (c & _ & H). revert H. cbv zeta.
  set (pct := if Js.isFinite (pctOfTotal c) then pctOfTotal c else 0%float).
  set (mn := if Js.isFinite (targetMinPct c) then targetMinPct c else 0%float).
  set (mx := if Js.isFinite (targetMaxPct c) then targetMaxPct c else 1%float).
  assert (Fp : Js.isFinite pct = true).
  { unfold pct. destruct (Js.isFinite (pctOfTotal c)) eqn:E; [exact E|reflexivity]. }
  assert (Fn : Js.isFinite mn = true).
  { unfold mn. destruct (Js.isFinite (targetMinPct c)) eqn:E; [exact E|reflexivity]. }
  assert (Fx : Js.isFinite mx = true).
  { unfold mx. destruct (Js.isFinite (targetMaxPct c)) eqn:E; [exact E|reflexivity]. }
  pose proof (is_finite_not_nan _ Fp) as Np.
  pose proof (is_finite_not_nan _ Fn) as Nn.
  pose proof (is_finite_not_nan _ Fx) as Nx.
  destruct (pct <? mn)%float eqn:E1.
  - intros [<- | []]. cbn. rewrite (sub_pos_ltb mn pct Nn Np). repeat split; auto.
  - destruct (mx <? pct)%float eqn:E2; [|intros []].
    intros [<- | []]. cbn. rewrite (sub_pos_ltb pct mx Np Nx).
    repeat split; auto. apply ltb_false_leb; assumption.
Qed.

(** The bounds and the status of a category of a result. *)
Lemma result_guardrails a b s res r :
  computeScenarioResult a b s = Ok res ->
  In r (categories res) ->
  validRange (targetMinPct r) (targetMaxPct r) /\
  rangeStatus r = classifyRange (pctOfTotal r) (targetMinPct r) (targetMaxPct r).
Proof.
  intros H Hin.
  destruct (computeScenarioResult_Ok _ _ _ _ H) as (interim & M & _ & ->).
  cbn [categories] in Hin. apply in_map_iff in Hin. destruct Hin as (i & <- & Hi).
  apply mapM_Forall2 in M.
  destruct (Forall2_In_r _ _ _ _ M Hi) as (cat & _ & Hcat).
  destruct (interim_range _ _ _ _ _ Hcat) as [Hid Hrange].
  pose proof (complete_entry_fixed _ _ _ Hrange) as Fix.
  pose proof (complete_wellFormed _ _ _ Hrange) as [Hkey Hvalid].
  unfold categoryResult.
  cbn [res_categoryId targetMinPct targetMaxPct rangeStatus isOutOfRange pctOfTotal].
  rewrite Fix. cbn [fst snd]. split; [exact Hvalid|reflexivity].
Qed.

Lemma validRange_finite mn mx :
  validRange mn mx -> Js.isFinite mn = true /\ Js.isFinite mx = true.
Proof.
  intros (A & B & C).
  assert (Fx : is_finite mx = true).
  { apply (between_finite mx 1); [|exact C|reflexivity]. eapply leb_trans; eassumption. }
  split; [|exact Fx]. apply (between_finite mn mx); assumption.
Qed.

(** X18: for a result of the calculator whose percentages are finite, the
    watch-outs are exactly the categories the calculator reports out of
    range, in category order: "under" for the status LOW and "over" for
    HIGH.  Without that condition the two can disagree: when the total is
    NaN every percentage is NaN, the calculator reports every category in
    range, and the watch-outs, which read such a percentage as 0, still
    list categories as "under". *)
Theorem watchouts_agree_with_status :
  (forall areaSqft benchmark selections res total,
     computeScenarioResult areaSqft benchmark selections = Ok res ->
     Forall (fun c => Js.isFinite (pctOfTotal c) = true) (categories res) ->
     map (fun w => (App.w_categoryId w, App.kind w)) (App.watchoutItems total (categories res))
     = flat_map (fun c => match rangeStatus c with
                          | Range_LOW => [(res_categoryId c, App.under)]
                          | Range_HIGH => [(res_categoryId c, App.over)]
                          | Range_OK => []
                          end)
                (categories res)) /\
  (exists res,
     computeScenarioResult 10 demoBenchmark oppositeSelections = Ok res /\
     Forall (fun c => isOutOfRange c = false /\ rangeStatus c = Range_OK) (categories res) /\
     map App.kind (App.computeWatchouts res None) = [App.under; App.under; App.under]).
Proof.
  split.
  - intros a b s res total H Fin.
    assert (G : forall r, In r (categories res) ->
                          validRange (targetMinPct r) (targetMaxPct r) /\
                          rangeStatus r
                          = classifyRange (pctOfTotal r) (targetMinPct r) (targetMaxPct r))
      by (intros r Hr; apply (result_guardrails _ _ _ _ _ H Hr)).
    clear H. unfold App.watchoutItems.
    induction (categories res) as [|c cs IH]; [reflexivity|].
    inversion Fin as [|? ? Fc Fcs]; subst.
    cbn [flat_map]. rewrite map_app, IH; [|exact Fcs|intros r Hr; apply G; right; exact Hr].
    f_equal. destruct (G c (or_introl eq_refl)) as [V ->].
    destruct (validRange_finite _ _ V) as [Fn Fx].
    cbv zeta. rewrite Fc, Fn, Fx. unfold classifyRange.
    destruct (pctOfTotal c <? targetMinPct c)%float; [reflexivity|].
    destruct (targetMaxPct c <? pctOfTotal c)%float; reflexivity.
  - destruct (computeScenarioResult 10 demoBenchmark oppositeSelections) as [res|e] eqn:E;
      vm_compute in E; [|discriminate E].
    exists res. injection E as <-. split; [reflexivity|].
    split; [repeat constructor|reflexivity].
Qed.

Lemma watchouts_agree_with_status_witness :
  exists res,
    computeScenarioResult 10000 demoBenchmark highSelections = Ok res /\
    map (fun w => (App.w_categoryId w, App.kind w))
        (App.watchoutItems (totalCost res) (categories res))
    = flat_map (fun c => match rangeStatus c with
                         | Range_LOW => [(res_categoryId c, App.under)]
                         | Range_HIGH => [(res_categoryId c, App.over)]
                         | Range_OK => []
                         end)
               (categories res).
Proof.
  destruct (computeScenarioResult 10000 demoBenchmark highSelections) as [res|e] eqn:E;
    [|vm_compute in E; discriminate E].
  exists res. split; [reflexivity|].
  apply (proj1 watchouts_agree_with_status 10000%float demoBenchmark highSelections res
               (totalCost res) E).
  vm_compute in E. injection E as <-. repeat constructor.
Defined.

(** X19: every watch-out has a gap [deltaPct] that is strictly positive,
    computed from finite numbers; [computeWatchouts] returns the lines with
    the largest gaps, largest first: its result is the beginning of a
    rearrangement of all the lines in which no line has a larger gap than
    one before it, and for a limit that is not negative it has that many
    lines or all of them. *)
Theorem watchouts_largest_first (result : ScenarioResult) (maxItems : option Z) :
  let items := App.watchoutItems (watchoutTotal result) (categories result) in
  Forall (fun w => (0 <? App.deltaPct w)%float = true /\
                   Js.isFinite (App.currentPct w) = true /\
                   Js.isFinite (App.targetMin w) = true /\
                   Js.isFinite (App.targetMax w) = true)
         items /\
  (exists rest,
     Permutation (App.computeWatchouts result maxItems ++ rest) items /\
     StronglySorted (fun a b => (App.deltaPct b <=? App.deltaPct a)%float = true)
                    (App.computeWatchouts result maxItems ++ rest)) /\
  ((0 <= Js.nullish maxItems 3)%Z ->
   List.length (App.computeWatchouts result maxItems)
   = Nat.min (Z.to_nat (Js.nullish maxItems 3%Z)) (List.length items)).
Proof.
  cbv zeta.
  assert (P : Forall (fun w => (0 <? App.deltaPct w)%float = true /\
                               Js.isFinite (App.currentPct w) = true /\
                               Js.isFinite (App.targetMin w) = true /\
                               Js.isFinite (App.targetMax w) = true)
                     (App.watchoutItems (watchoutTotal result) (categories result))).
  { apply Forall_forall. intros w Hw.
    destruct (watchoutItems_In _ _ _ Hw) as (A & B & C & D & _). auto. }
  split; [exact P|].
  unfold App.computeWatchouts. cbv zeta. fold (watchoutTotal result).
  set (items := App.watchoutItems (watchoutTotal result) (categories result)) in *.
  set (sorted := Array_sort (fun a b => (App.deltaPct b - App.deltaPct a)%float) items).
  split.
  - destruct (Array_slice0_prefix (Js.nullish maxItems 3%Z) sorted) as [rest E].
    exists rest. rewrite <- E. split; [apply Array_sort_perm|].
    apply (Array_sort_descending App.deltaPct).
    eapply Forall_impl; [|exact P]. cbv beta. intros w (D & _).
    apply (ltb_not_nan _ _ D).
  - intros H. rewrite (Array_slice0_length _ _ H). f_equal.
    apply Permutation_length, Array_sort_perm.
Qed.

Lemma watchouts_largest_first_witness :
  exists res,
    computeScenarioResult 10000 demoBenchmark highSelections = Ok res /\
    List.length (App.computeWatchouts res (Some 2%Z))
    = Nat.min 2 (List.length (App.watchoutItems (watchoutTotal res) (categories res))).
Proof.
  destruct (computeScenarioResult 10000 demoBenchmark highSelections) as [res|e] eqn:E;
    [|vm_compute in E; discriminate E].
  exists res. split; [reflexivity|].
  apply (proj2 (proj2 (watchouts_largest_first res (Some 2%Z)))). cbn. lia.
Defined.

(** *** The key drivers against a baseline *)

Lemma positive_cases c :
  (0 <? c)%float = true -> positiveF c \/ c = infinity.
Proof.
  rewrite ltb_spec, Prim2SF_zero. unfold positiveF. pose proof (Prim2SF_valid c) as V.
  destruct (Prim2SF c) as [[]|[]| |[] m e] eqn:E; simpl; try discriminate; intros _.
  - right. apply Prim2SF_inj. rewrite E. reflexivity.
  - left. exact V.
Qed.

(** The relative change of a number against itself never reaches the
    threshold. *)
Lemma no_change_below_threshold c :
  (App.KEY_DRIVER_PCT_THRESHOLD
   <=? abs (if (0 <? c)%float then (c / c - 1)%float else 0%float))%float = false.
Proof.
  destruct (0 <? c)%float eqn:E; [|reflexivity].
  destruct (positive_cases c E) as [P | ->]; [|reflexivity].
  rewrite (div_self c P). reflexivity.
Qed.

Lemma driverLines_self res :
  filter (fun l => (App.KEY_DRIVER_PCT_THRESHOLD <=? abs (App.d_deltaPct l))%float)
         (App.driverLines res res) = [].
Proof.
  unfold App.driverLines. cbv zeta.
  induction VMX_CATEGORIES as [|cat cats IH]; [reflexivity|].
  cbn [map filter App.d_deltaPct]. rewrite no_change_below_threshold. exact IH.
Qed.

(** The benchmark adjusted for the programme reads like the one it was
    built from. *)
Lemma bias_reads o bias :
  let o' := App.applyProgramBias o bias in
  bands (App.asBenchmarkSet o') = bands (App.asBenchmarkSet o) /\
  currency (App.asBenchmarkSet o') = currency (App.asBenchmarkSet o) /\
  targetRanges (App.asBenchmarkSet o') = targetRanges (App.asBenchmarkSet o).
Proof.
  cbv zeta. unfold App.applyProgramBias. destruct bias as [bias|]; auto.
  destruct (Nat.eqb _ 0); auto. apply scaled_reads.
Qed.

Lemma adjusted_result toFixed2 o g t bias a s :
  computeScenarioResult a
    (App.asBenchmarkSet (App.applyProgramBias (App.buildAdjustedBenchmark toFixed2 o g t) bias)) s
  = computeScenarioResult a (App.asBenchmarkSet o) s.
Proof.
  unfold App.buildAdjustedBenchmark. cbv zeta.
  set (o1 := App.applyLocationFactorWithDamping toFixed2 o g).
  set (o2 := App.applyTypologyCategoryFactors o1 t).
  destruct (bias_reads o2 bias) as (B3 & C3 & R3).
  destruct (typology_reads o1 t) as (B2 & C2 & R2). fold o2 in B2, C2, R2.
  destruct (location_reads toFixed2 o g) as (B1 & C1 & R1). fold o1 in B1, C1, R1.
  apply same_result; congruence.
Qed.

(** X20: the key drivers of a result against itself are none: no line
    reaches the 5% threshold, the total moves by 0 when it is finite, and by
    0% unless it is infinite.  And the two results the application compares
    are the same result: the scenario's benchmark and the baseline's differ
    in the location factor, the site typology and the programme bias, which
    change no unit cost, so for the same selections and area the list of key
    drivers is always empty. *)
Theorem key_drivers_always_empty :
  (forall res,
     App.lines (App.computeDriverLines res res) = [] /\
     (Js.isFinite (totalCost res) = true ->
      App.totalDeltaCost (App.computeDriverLines res res) = 0%float /\
      App.totalDeltaPct (App.computeDriverLines res res) = 0%float)) /\
  (forall toFixed2 o locationFactor typology bias baselineLocationFactor baselineTypology
          areaSqft selections res base,
     computeScenarioResult areaSqft
       (App.asBenchmarkSet
          (App.applyProgramBias
             (App.buildAdjustedBenchmark toFixed2 o locationFactor typology) bias))
       selections = Ok res ->
     computeScenarioResult areaSqft
       (App.asBenchmarkSet
          (App.buildAdjustedBenchmark toFixed2 o baselineLocationFactor baselineTypology))
       selections = Ok base ->
     res = base /\ App.lines (App.computeDriverLines res base) = []).
Proof.
  assert (Self : forall res, App.lines (App.computeDriverLines res res) = []).
  { intros res. unfold App.computeDriverLines. cbv zeta. cbn [App.lines].
    rewrite driverLines_self. reflexivity. }
  split.
  - intros res. split; [apply Self|].
    intros F. unfold App.computeDriverLines. cbv zeta.
    cbn [App.totalDeltaCost App.totalDeltaPct].
    split; [apply sub_self, F|].
    destruct (0 <? totalCost res)%float eqn:E; [|reflexivity].
    destruct (positive_cases _ E) as [P | I].
    + rewrite (div_self _ P). reflexivity.
    + rewrite I in F. discriminate F.
  - intros toFixed2 o g t bias g0 t0 a s res base H1 H2.
    rewrite adjusted_result in H1.
    rewrite <- (adjusted_result toFixed2 o g0 t0 None) in H1.
    cbn [App.applyProgramBias] in H1. rewrite H2 in H1.
    assert (E : res = base) by congruence.
    split; [exact E|]. rewrite E. apply Self.
Qed.

Lemma key_drivers_always_empty_witness :
  exists res base,
    computeScenarioResult 10000
      (App.asBenchmarkSet
         (App.applyProgramBias
            (App.buildAdjustedBenchmark (fun _ => "1.50"%string) (App.plain demoBenchmark)
                                        1.5 App.hillside)
            None))
      highSelections = Ok res /\
    computeScenarioResult 10000
      (App.asBenchmarkSet
         (App.buildAdjustedBenchmark (fun _ => "1.50"%string) (App.plain demoBenchmark)
                                     1 App.suburban))
      highSelections = Ok base /\
    res = base /\ App.lines (App.computeDriverLines res base) = [].
Proof.
  destruct (computeScenarioResult 10000
              (App.asBenchmarkSet
                 (App.applyProgramBias
                    (App.buildAdjustedBenchmark (fun _ => "1.50"%string)
                                                (App.plain demoBenchmark) 1.5 App.hillside)
                    None))
              highSelections) as [res|e] eqn:E1; [|vm_compute in E1; discriminate E1].
  destruct (computeScenarioResult 10000
              (App.asBenchmarkSet
                 (App.buildAdjustedBenchmark (fun _ => "1.50"%string)
                                             (App.plain demoBenchmark) 1 App.suburban))
              highSelections) as [base|e] eqn:E2; [|vm_compute in E2; discriminate E2].
  exists res, base. split; [reflexivity|]. split; [reflexivity|].
  exact (proj2 key_drivers_always_empty _ _ _ _ _ _ _ _ _ _ _ E1 E2).
Defined.

(** *** The indirect rates and amounts *)

(** *** Rates *)

Lemma nonnegF_finite x : nonnegF x -> is_finite x = true.
Proof.
  unfold nonnegF. rewrite is_finite_spec.
  destruct (Prim2SF x) as [?|?| |[] ? ?]; simpl; tauto.
Qed.

Lemma nonnegF_sign x : nonnegF x -> x <> (-0)%float -> get_sign x = false.
Proof.
  unfold nonnegF. rewrite get_sign_spec. intros H N.
  destruct (Prim2SF x) as [[]|?| |[] ? ?] eqn:E; simpl in *; try tauto.
  exfalso. apply N. apply Prim2SF_inj. rewrite E. reflexivity.
Qed.

(** A finite number clamped to the unit interval, the way [clampRate]
    does it. *)
Lemma unit_clamp v :
  is_finite v = true ->
  nonnegF (Js.Math_max 0 (Js.Math_min 1 v)) /\
  (Js.Math_max 0 (Js.Math_min 1 v) <=? 1)%float = true /\
  get_sign (Js.Math_max 0 (Js.Math_min 1 v)) = false.
Proof.
  intros F. pose proof (is_finite_not_nan _ F) as N.
  assert (N1 : is_nan 1 = false) by reflexivity.
  assert (Fm : is_finite (Js.Math_min 1 v) = true).
  { destruct (Math_min_choice 1 v N1 N) as [-> | ->]; [reflexivity|exact F]. }
  pose proof (is_finite_not_nan _ Fm) as Nm.
  pose proof (Math_max_zero_nonneg _ Fm) as P.
  split; [exact P|]. split.
  - destruct (Math_max_choice 0 (Js.Math_min 1 v) eq_refl Nm) as [-> | ->]; [reflexivity|].
    apply Math_min_le_l; assumption.
  - apply nonnegF_sign; [exact P|]. apply Math_max_zero_not_neg_zero, Nm.
Qed.

Lemma clampRate_range v fallback :
  nonnegF fallback -> (fallback <=? 1)%float = true -> get_sign fallback = false ->
  nonnegF (ConstructionIndirects.clampRate v fallback) /\
  (ConstructionIndirects.clampRate v fallback <=? 1)%float = true /\
  get_sign (ConstructionIndirects.clampRate v fallback) = false.
Proof.
  intros H0 H1 S. unfold ConstructionIndirects.clampRate, Js.isFinite.
  destruct (is_finite v) eqn:F; cbn [negb]; [apply unit_clamp, F|auto].
Qed.

Lemma clampRate_zero_range v :
  nonnegF (ConstructionIndirects.clampRate v 0) /\
  (ConstructionIndirects.clampRate v 0 <=? 1)%float = true /\
  get_sign (ConstructionIndirects.clampRate v 0) = false.
Proof. apply clampRate_range; reflexivity. Qed.

(** A rate in the unit interval is applied as it is. *)
Lemma clampRate_fixed x f :
  nonnegF x -> (x <=? 1)%float = true -> get_sign x = false ->
  ConstructionIndirects.clampRate x f = x.
Proof.
  intros H0 H1 S. unfold ConstructionIndirects.clampRate, Js.isFinite.
  rewrite (nonnegF_finite x H0). cbn [negb].
  rewrite (Math_min_one x H1), (Math_max_zero x (nonnegF_leb_zero x H0)).
  destruct (0 <? x)%float eqn:E; [reflexivity|].
  destruct (eq_zero_cases x (nonnegF_leb_zero x H0) E) as [-> | ->]; [reflexivity|].
  discriminate S.
Qed.

Lemma default_rates_range tier :
  let def := ConstructionIndirects.getDefaultConstructionIndirectsRates tier in
  Forall (fun x => nonnegF x /\ (x <=? 1)%float = true /\ get_sign x = false)
         [ ConstructionIndirects.generalConditionsRate def;
           ConstructionIndirects.glInsuranceRate def;
           ConstructionIndirects.contingencyRate def;
           ConstructionIndirects.feeRate def ].
Proof. destruct tier; repeat constructor. Qed.

(** X21: the rates [getRatesForTier] returns are numbers between 0 and 1,
    whatever is stored: a finite stored rate is clamped to that interval, and
    a rate that is absent, NaN or infinite, or a tier without an entry, gets
    the default of the tier.  [computeConstructionIndirects] applies such
    rates as they are: its own clamping changes none of them. *)
Theorem getRatesForTier_unit_interval (cfg : ConstructionIndirects.ConstructionIndirectsConfigV1)
  (tier : TierId) :
  let r := ConstructionIndirects.getRatesForTier cfg tier in
  let def := ConstructionIndirects.getDefaultConstructionIndirectsRates tier in
  Forall (fun x => (0 <=? x)%float = true /\ (x <=? 1)%float = true /\
                   ConstructionIndirects.clampRate x 0 = x)
         [ ConstructionIndirects.generalConditionsRate r;
           ConstructionIndirects.glInsuranceRate r;
           ConstructionIndirects.contingencyRate r;
           ConstructionIndirects.feeRate r ] /\
  (ConstructionIndirects.byTier cfg tier = None ->
   r = {| ConstructionIndirects.generalConditionsRate :=
            ConstructionIndirects.generalConditionsRate def;
          ConstructionIndirects.glInsuranceRate := ConstructionIndirects.glInsuranceRate def;
          ConstructionIndirects.contingencyRate := ConstructionIndirects.contingencyRate def;
          ConstructionIndirects.feeRate := ConstructionIndirects.feeRate def;
          ConstructionIndirects.feeBase := ConstructionIndirects.cfg_feeBase cfg |}) /\
  (forall t, ConstructionIndirects.byTier cfg tier = Some t ->
     Forall (fun '(stored, got, dflt) =>
               match stored with
               | Some x => if Js.isFinite x then got = Js.Math_max 0 (Js.Math_min 1 x)
                           else got = dflt
               | None => got = dflt
               end)
            [ (ConstructionIndirects.stored_generalConditionsRate t,
               ConstructionIndirects.generalConditionsRate r,
               ConstructionIndirects.generalConditionsRate def);
              (ConstructionIndirects.stored_glInsuranceRate t,
               ConstructionIndirects.glInsuranceRate r,
               ConstructionIndirects.glInsuranceRate def);
              (ConstructionIndirects.stored_contingencyRate t,
               ConstructionIndirects.contingencyRate r,
               ConstructionIndirects.contingencyRate def);
              (ConstructionIndirects.stored_feeRate t,
               ConstructionIndirects.feeRate r,
               ConstructionIndirects.feeRate def) ]).
Proof.
  cbv zeta. split; [|split].
  - pose proof (default_rates_range tier) as D. cbv zeta in D.
    unfold ConstructionIndirects.getRatesForTier.
    cbn [ConstructionIndirects.generalConditionsRate ConstructionIndirects.glInsuranceRate
         ConstructionIndirects.contingencyRate ConstructionIndirects.feeRate].
    inversion D as [|? ? (A1 & B1 & C1) D1]; subst.
    inversion D1 as [|? ? (A2 & B2 & C2) D2]; subst.
    inversion D2 as [|? ? (A3 & B3 & C3) D3]; subst.
    inversion D3 as [|? ? (A4 & B4 & C4) _]; subst.
    assert (K : forall v f, nonnegF f -> (f <=? 1)%float = true -> get_sign f = false ->
                (0 <=? ConstructionIndirects.clampRate v f)%float = true /\
                (ConstructionIndirects.clampRate v f <=? 1)%float = true /\
                ConstructionIndirects.clampRate (ConstructionIndirects.clampRate v f) 0
                = ConstructionIndirects.clampRate v f).
    { intros v f H0 H1 S. destruct (clampRate_range v f H0 H1 S) as (P & Q & R).
      split; [apply nonnegF_leb_zero, P|]. split; [exact Q|].
      apply clampRate_fixed; assumption. }
    repeat constructor; apply K; assumption.
  - intros E. unfold ConstructionIndirects.getRatesForTier. rewrite E.
    unfold ConstructionIndirects.storedRate, ConstructionIndirects.clampRate.
    cbn [Js.toNumber]. change (Js.isFinite nan) with false. cbn [negb].
    destruct (ConstructionIndirects.cfg_feeBase cfg); reflexivity.
  - intros t E. unfold ConstructionIndirects.getRatesForTier. rewrite E.
    cbn [ConstructionIndirects.generalConditionsRate ConstructionIndirects.glInsuranceRate
         ConstructionIndirects.contingencyRate ConstructionIndirects.feeRate].
    unfold ConstructionIndirects.storedRate, ConstructionIndirects.clampRate.
    repeat constructor;
      match goal with
      | |- match ?s with _ => _ end => destruct s as [x|]; cbn [Js.toNumber]
      end;
      try (destruct (Js.isFinite x); reflexivity); reflexivity.
Qed.

Lemma getRatesForTier_unit_interval_witness :
  let cfg := {| ConstructionIndirects.byTier := fun _ => None;
                ConstructionIndirects.cfg_feeBase := ConstructionIndirects.direct_only |} in
  ConstructionIndirects.feeRate (ConstructionIndirects.getRatesForTier cfg signature)
  = 0.14%float /\
  ConstructionIndirects.feeBase (ConstructionIndirects.getRatesForTier cfg signature)
  = ConstructionIndirects.direct_only.
Proof.
  cbv zeta.
  rewrite (proj1 (proj2 (getRatesForTier_unit_interval
             {| ConstructionIndirects.byTier := fun _ => None;
                ConstructionIndirects.cfg_feeBase := ConstructionIndirects.direct_only |}
             signature)) eq_refl).
  split; reflexivity.
Defined.

(** *** Amounts *)

Lemma fold_add_range vs : forall acc,
  Forall nonnegF vs -> nonnegF acc -> nonnegOrInf (fold_left PrimFloat.add vs acc).
Proof.
  induction vs as [|v vs IH]; intros acc Hvs Hacc; cbn [fold_left]; [left; exact Hacc|].
  inversion Hvs as [|? ? Hv Hvs']; subst.
  destruct (add_nonneg acc v Hacc Hv) as [[I _]|[N _]].
  - right. apply inf_fold; assumption.
  - apply IH; assumption.
Qed.

Lemma leb_posinf x z : is_nan x = false -> isPosInf z -> (x <=? z)%float = true.
Proof.
  unfold isPosInf. rewrite is_nan_spec, leb_spec. intros N ->.
  destruct (Prim2SF x) as [?|[]| |? ? ?]; try discriminate; reflexivity.
Qed.

Lemma direct_cost_used d :
  let direct := if Js.isFinite d then Js.Math_max 0 d else 0%float in
  nonnegF direct /\ get_sign direct = false.
Proof.
  cbv zeta. unfold Js.isFinite. destruct (is_finite d) eqn:F; [|split; reflexivity].
  pose proof (Math_max_zero_nonneg d F) as P. split; [exact P|].
  apply nonnegF_sign; [exact P|]. apply Math_max_zero_not_neg_zero, is_finite_not_nan, F.
Qed.

Lemma area_used a :
  positiveF (if Js.isFinite a then Js.Math_max 1 a else 1%float).
Proof.
  unfold Js.isFinite. destruct (is_finite a) eqn:F; [|reflexivity].
  pose proof (is_finite_not_nan _ F) as N.
  assert (N1 : is_nan 1 = false) by reflexivity.
  pose proof (Math_max_ge_l 1 a N1 N) as G.
  assert (Fm : is_finite (Js.Math_max 1 a) = true).
  { destruct (Math_max_choice 1 a N1 N) as [-> | ->]; [reflexivity|exact F]. }
  assert (L0 : (0 <=? Js.Math_max 1 a)%float = true).
  { eapply leb_trans; [|exact G]. reflexivity. }
  apply finite_positive; [exact Fm| |apply finite_nonneg; assumption].
  destruct (Js.Math_max 1 a <=? 0)%float eqn:E; [|reflexivity].
  pose proof (leb_trans _ _ _ G E) as C. discriminate C.
Qed.

Lemma div_range x y : nonnegOrInf x -> positiveF y -> (0 <=? x / y)%float = true.
Proof.
  intros [Hx | Hx] Hy.
  - destruct (div_nonneg x y Hx Hy) as [[I _]|[N _]].
    + apply leb_posinf; [reflexivity|exact I].
    + apply nonnegF_leb_zero, N.
  - apply leb_posinf; [reflexivity|].
    unfold isPosInf, positiveF in *. rewrite div_spec, Hx. unfold SF64div.
    destruct (Prim2SF y) as [?|?| |[] ? ?]; simpl in Hy; try contradiction; reflexivity.
Qed.

Lemma zero_div y : positiveF y -> (0 / y)%float = 0%float.
Proof.
  intros Hy. apply Prim2SF_inj. rewrite div_spec. unfold positiveF in Hy.
  change (Prim2SF 0) with (S754_zero false). unfold SF64div.
  destruct (Prim2SF y) as [?|?| |[] ? ?]; simpl in Hy; try contradiction; reflexivity.
Qed.

(** A rate of [computeConstructionIndirects] applied to a base. *)
Lemma applied_rate b v :
  nonnegF b ->
  nonnegF (b * ConstructionIndirects.clampRate v 0)%float /\
  (b * ConstructionIndirects.clampRate v 0 <=? b)%float = true.
Proof.
  intros Hb. destruct (clampRate_zero_range v) as (P & Q & _).
  apply mul_le_l; assumption.
Qed.

(** X22: [computeConstructionIndirects] works from a direct cost that is
    finite and not negative, and the cost-of-work subtotal is at least that
    direct cost.  When the subtotal is finite, each of the four lines has an
    amount between 0 and its base, the contract total is at least the
    subtotal, and the total of the indirects and the contract cost per
    square foot are not negative.  A direct cost that is NaN, infinite, zero
    or negative gives a contract of 0 throughout.  The subtotal of a very
    large direct cost can overflow, and with a fee rate of 0 the contract
    total is then NaN. *)
Theorem indirect_amounts_within_base :
  (forall directHardCost areaSqft rates,
     let out := ConstructionIndirects.computeConstructionIndirects directHardCost areaSqft
                  rates in
     (Js.isFinite (ConstructionIndirects.directHardCost out) = true /\
      (0 <=? ConstructionIndirects.directHardCost out)%float = true) /\
     (ConstructionIndirects.directHardCost out
      <=? ConstructionIndirects.costOfWorkSubtotal out)%float = true /\
     (Js.isFinite (ConstructionIndirects.costOfWorkSubtotal out) = true ->
      Forall (fun l => (0 <=? ConstructionIndirects.amount l)%float = true /\
                       (ConstructionIndirects.amount l
                        <=? ConstructionIndirects.base l)%float = true)
             (ConstructionIndirects.lines out) /\
      (ConstructionIndirects.costOfWorkSubtotal out
       <=? ConstructionIndirects.contractTotal out)%float = true /\
      (0 <=? ConstructionIndirects.totalIndirects out)%float = true /\
      (0 <=? ConstructionIndirects.contractPsqft out)%float = true) /\
     (Js.isFinite directHardCost = false \/ (directHardCost <=? 0)%float = true ->
      ConstructionIndirects.directHardCost out = 0%float /\
      ConstructionIndirects.costOfWorkSubtotal out = 0%float /\
      ConstructionIndirects.totalIndirects out = 0%float /\
      ConstructionIndirects.contractTotal out = 0%float /\
      ConstructionIndirects.contractPsqft out = 0%float /\
      Forall (fun l => ConstructionIndirects.amount l = 0%float)
             (ConstructionIndirects.lines out))) /\
  (let rates := {| ConstructionIndirects.generalConditionsRate := 1;
                   ConstructionIndirects.glInsuranceRate := 1;
                   ConstructionIndirects.contingencyRate := 1;
                   ConstructionIndirects.feeRate := 0;
                   ConstructionIndirects.feeBase := ConstructionIndirects.cost_of_work |} in
   let out := ConstructionIndirects.computeConstructionIndirects 1e308 1000 rates in
   ConstructionIndirects.costOfWorkSubtotal out = infinity /\
   is_nan (ConstructionIndirects.contractTotal out) = true).
Proof.
  split; [|split; reflexivity].
  intros d a rates. cbv zeta. unfold ConstructionIndirects.computeConstructionIndirects.
  cbv zeta.
  cbn [ConstructionIndirects.directHardCost ConstructionIndirects.costOfWorkSubtotal
       ConstructionIndirects.totalIndirects ConstructionIndirects.contractTotal
       ConstructionIndirects.contractPsqft ConstructionIndirects.lines].
  destruct (direct_cost_used d) as [Hd Sd]. cbv zeta in Hd, Sd.
  pose proof (area_used a) as Ha.
  set (direct := if Js.isFinite d then Js.Math_max 0 d else 0%float) in *.
  set (area := if Js.isFinite a then Js.Math_max 1 a else 1%float) in *.
  destruct (applied_rate direct (ConstructionIndirects.generalConditionsRate rates) Hd)
    as [G0 G1].
  destruct (applied_rate direct (ConstructionIndirects.glInsuranceRate rates) Hd) as [L0 L1].
  destruct (applied_rate direct (ConstructionIndirects.contingencyRate rates) Hd) as [C0 C1].
  set (gc := (direct * ConstructionIndirects.clampRate
                         (ConstructionIndirects.generalConditionsRate rates) 0)%float) in *.
  set (gl := (direct * ConstructionIndirects.clampRate
                         (ConstructionIndirects.glInsuranceRate rates) 0)%float) in *.
  set (cont := (direct * ConstructionIndirects.clampRate
                           (ConstructionIndirects.contingencyRate rates) 0)%float) in *.
  change (direct + gc + gl + cont)%float with (fold_left PrimFloat.add [gc; gl; cont] direct).
  assert (Parts : Forall nonnegF [gc; gl; cont]) by (repeat constructor; assumption).
  pose proof (fold_add_range [gc; gl; cont] direct Parts Hd) as Sub.
  set (subtotal := fold_left PrimFloat.add [gc; gl; cont] direct) in *.
  split; [split; [apply nonnegF_finite, Hd|apply nonnegF_leb_zero, Hd]|].
  split.
  { destruct Sub as [Sub | Sub].
    - apply (fold_add_ge [gc; gl; cont] direct Parts Hd Sub).
    - apply leb_posinf; [|exact Sub]. apply is_finite_not_nan, nonnegF_finite, Hd. }
  split.
  - intros Fs.
    assert (Hs : nonnegF subtotal).
    { destruct Sub as [Sub | Sub]; [exact Sub|].
      pose proof (inf_not_finite _ Sub) as C. unfold Js.isFinite in Fs. congruence. }
    set (feeBase := match ConstructionIndirects.feeBase rates with
                    | ConstructionIndirects.cost_of_work => subtotal
                    | ConstructionIndirects.direct_only => direct
                    end).
    assert (Hb : nonnegF feeBase).
    { unfold feeBase. destruct (ConstructionIndirects.feeBase rates); assumption. }
    destruct (applied_rate feeBase (ConstructionIndirects.feeRate rates) Hb) as [F0 F1].
    set (fee := (feeBase * ConstructionIndirects.clampRate
                             (ConstructionIndirects.feeRate rates) 0)%float) in *.
    split.
    { repeat constructor; cbn [ConstructionIndirects.amount ConstructionIndirects.base];
        try (apply nonnegF_leb_zero; assumption); assumption. }
    split; [apply (add_ge subtotal fee Hs F0)|].
    split.
    + apply nonnegOrInf_leb_zero.
      change (gc + gl + cont + fee)%float with (fold_left PrimFloat.add [gl; cont; fee] gc).
      apply fold_add_range; [repeat constructor; assumption|exact G0].
    + apply div_range; [|exact Ha].
      destruct (add_nonneg subtotal fee Hs F0) as [[I _]|[N _]]; [right|left]; assumption.
  - intros J.
    assert (Z : direct = 0%float).
    { unfold direct, Js.isFinite. destruct J as [J | J].
      - unfold Js.isFinite in J. rewrite J. reflexivity.
      - destruct (is_finite d); [apply Math_max_zero_nonpos, J|reflexivity]. }
    assert (M : forall v, (0 * ConstructionIndirects.clampRate v 0)%float = 0%float).
    { intros v. destruct (clampRate_zero_range v) as (P & _ & S). apply mul_zero_l; assumption. }
    unfold subtotal, gc, gl, cont. rewrite Z, !M. cbn [fold_left].
    repeat change (0 + 0)%float with 0%float.
    assert (B : match ConstructionIndirects.feeBase rates with
                | ConstructionIndirects.cost_of_work => 0%float
                | ConstructionIndirects.direct_only => 0%float
                end = 0%float) by (destruct (ConstructionIndirects.feeBase rates); reflexivity).
    rewrite B, !M. change (0 + 0)%float with 0%float. rewrite (zero_div area Ha).
    repeat split; repeat constructor.
Qed.

Lemma indirect_amounts_within_base_witness :
  let out := ConstructionIndirects.computeConstructionIndirects 12000000 10000
               (ConstructionIndirects.getDefaultConstructionIndirectsRates reserve) in
  (ConstructionIndirects.costOfWorkSubtotal out
   <=? ConstructionIndirects.contractTotal out)%float = true /\
  (0 <=? ConstructionIndirects.contractPsqft out)%float = true.
Proof.
  cbv zeta.
  destruct (proj1 indirect_amounts_within_base 12000000%float 10000%float
              (ConstructionIndirects.getDefaultConstructionIndirectsRates reserve))
    as (_ & _ & H & _).
  destruct (H eq_refl) as (_ & A & _ & B). exact (conj A B).
Defined.

(** *** The site typology and the indirect rates *)

Lemma rates_for_tier_range cfg tier :
  let r := ConstructionIndirects.getRatesForTier cfg tier in
  (nonnegF (ConstructionIndirects.generalConditionsRate r) /\
   (ConstructionIndirects.generalConditionsRate r <=? 1)%float = true) /\
  (nonnegF (ConstructionIndirects.glInsuranceRate r) /\
   (ConstructionIndirects.glInsuranceRate r <=? 1)%float = true).
Proof.
  cbv zeta. pose proof (default_rates_range tier) as D. cbv zeta in D.
  inversion D as [|? ? (A1 & B1 & C1) D1]; subst.
  inversion D1 as [|? ? (A2 & B2 & C2) _]; subst.
  unfold ConstructionIndirects.getRatesForTier.
  cbn [ConstructionIndirects.generalConditionsRate ConstructionIndirects.glInsuranceRate].
  split.
  - destruct (clampRate_range
                (ConstructionIndirects.storedRate (ConstructionIndirects.byTier cfg tier)
                   ConstructionIndirects.stored_generalConditionsRate) _ A1 B1 C1)
      as (P & Q & _).
    auto.
  - destruct (clampRate_range
                (ConstructionIndirects.storedRate (ConstructionIndirects.byTier cfg tier)
                   ConstructionIndirects.stored_glInsuranceRate) _ A2 B2 C2)
      as (P & Q & _).
    auto.
Qed.

Lemma typology_factors_range t :
  let mult := App.TYPOLOGY_INDIRECT_FACTORS t in
  (positiveF (App.generalConditions mult) /\ (1 <=? App.generalConditions mult)%float = true) /\
  (positiveF (App.glInsurance mult) /\ (1 <=? App.glInsurance mult)%float = true).
Proof. destruct t; repeat split; reflexivity. Qed.

Lemma scaled_rate x m :
  nonnegF x -> (x <=? 1)%float = true -> positiveF m -> (1 <=? m)%float = true ->
  (x <=? x * m)%float = true /\ (x * m <=? m)%float = true.
Proof.
  intros Hx Lx Hm Lm. split; [apply mul_ge_l; assumption|].
  rewrite mul_comm. apply mul_le_l; [|exact Hx|exact Lx].
  unfold nonnegF, positiveF in *.
  destruct (Prim2SF m) as [?|?| |[] ? ?]; simpl in *; tauto.
Qed.

(** X24: the site typology never lowers an indirect rate.  Applied to the
    rates of a tier, [applyTypologyToIndirectRates] leaves the contingency
    rate, the fee rate and the fee base as they are, and returns a general
    conditions rate and an insurance rate between the tier's rate and the
    multiplier of the typology; for the suburban typology the rates come
    back unchanged. *)
Theorem typology_raises_indirect_rates
  (cfg : ConstructionIndirects.ConstructionIndirectsConfigV1) (tier : TierId)
  (typology : App.TypologyId) :
  let base := ConstructionIndirects.getRatesForTier cfg tier in
  let r := App.applyTypologyToIndirectRates base typology in
  let mult := App.TYPOLOGY_INDIRECT_FACTORS typology in
  ConstructionIndirects.contingencyRate r = ConstructionIndirects.contingencyRate base /\
  ConstructionIndirects.feeRate r = ConstructionIndirects.feeRate base /\
  ConstructionIndirects.feeBase r = ConstructionIndirects.feeBase base /\
  ((ConstructionIndirects.generalConditionsRate base
    <=? ConstructionIndirects.generalConditionsRate r)%float = true /\
   (ConstructionIndirects.generalConditionsRate r <=? App.generalConditions mult)%float = true) /\
  ((ConstructionIndirects.glInsuranceRate base
    <=? ConstructionIndirects.glInsuranceRate r)%float = true /\
   (ConstructionIndirects.glInsuranceRate r <=? App.glInsurance mult)%float = true) /\
  (typology = App.suburban -> r = base).
Proof.
  cbv zeta.
  destruct (rates_for_tier_range cfg tier) as [[G0 G1] [L0 L1]]. cbv zeta in G0, G1, L0, L1.
  destruct (typology_factors_range typology) as [[Pg Lg] [Pl Ll]]. cbv zeta in Pg, Lg, Pl, Ll.
  unfold App.applyTypologyToIndirectRates. cbv zeta.
  cbn [ConstructionIndirects.generalConditionsRate ConstructionIndirects.glInsuranceRate
       ConstructionIndirects.contingencyRate ConstructionIndirects.feeRate
       ConstructionIndirects.feeBase].
  split; [reflexivity|]. split; [reflexivity|]. split; [reflexivity|].
  split; [apply scaled_rate; assumption|]. split; [apply scaled_rate; assumption|].
  intros ->. cbn [App.TYPOLOGY_INDIRECT_FACTORS App.generalConditions App.glInsurance].
  rewrite (mul_one_r _ G0), (mul_one_r _ L0). reflexivity.
Qed.

Lemma typology_raises_indirect_rates_witness :
  let cfg := {| ConstructionIndirects.byTier := fun _ => None;
                ConstructionIndirects.cfg_feeBase := ConstructionIndirects.cost_of_work |} in
  App.applyTypologyToIndirectRates (ConstructionIndirects.getRatesForTier cfg legacy)
                                   App.suburban
  = ConstructionIndirects.getRatesForTier cfg legacy.
Proof.
  cbv zeta.
  exact (proj2 (proj2 (proj2 (proj2 (proj2
           (typology_raises_indirect_rates
              {| ConstructionIndirects.byTier := fun _ => None;
                 ConstructionIndirects.cfg_feeBase := ConstructionIndirects.cost_of_work |}
              legacy App.suburban))))) eq_refl).
Defined.

(** *** The unit cost shown and the unit cost used *)

(** *** The unit cost shown and the unit cost used *)

Lemma Ok_inj {E A} (a b : A) : @Ok E A a = Ok b -> a = b.
Proof. intros H. exact (f_equal (fun r => match r with Ok x => x | Throw _ => a end) H). Qed.

(** What a line of a result was computed from. *)
Lemma result_parts a b s res r :
  computeScenarioResult a b s = Ok res ->
  In r (categories res) ->
  exists sel base,
    sel_get (res_categoryId r) (selectionMap s) = Some sel /\
    res_band r = sel_band sel /\
    findBand b (res_categoryId r) (res_band r) = Some base /\
    psqftUsed r = Js.nullish (overridePsqft sel) (psqft base) /\
    cost r = (a * psqftUsed r)%float.
Proof.
  intros H Hin.
  destruct (computeScenarioResult_Ok _ _ _ _ H) as (interim & M & _ & ->).
  cbn [categories] in Hin. apply in_map_iff in Hin. destruct Hin as (i & <- & Hi).
  apply mapM_Forall2 in M.
  destruct (Forall2_In_r _ _ _ _ M Hi) as (cat & _ & Hcat).
  revert Hcat. unfold interimFor, requireBand.
  destruct (sel_get (id cat) (selectionMap s)) as [sel|] eqn:S; [|discriminate].
  destruct (findBand b (id cat) (sel_band sel)) as [base|] eqn:B; [|discriminate].
  cbn [bind]. intros E. apply Ok_inj in E. subst i. unfold categoryResult.
  cbn [res_categoryId res_band psqftUsed cost int_categoryId int_band int_psqftUsed int_cost].
  exists sel, base. rewrite S, B. repeat split; reflexivity.
Qed.

Lemma Math_max_zero_eqb v :
  (0 <=? v)%float = true -> (Js.Math_max 0 v =? v)%float = true.
Proof.
  intros L. rewrite (Math_max_zero v L). destruct (leb_not_nan _ _ L) as [_ N].
  destruct (0 <? v)%float eqn:E; [apply eqb_refl, N|].
  destruct (eq_zero_cases v L E) as [-> | ->]; reflexivity.
Qed.

(** X23: the matrix shows for every category and band a unit cost that is
    finite and not negative: the stored one when that is so, and 0 when the
    band is missing or its unit cost is NaN, infinite or negative.  The
    benchmark form shows the stored number, and the calculator, for a
    selection without an override, uses the stored number: the three agree
    for a stored unit cost that is finite and not negative, while a negative
    one is shown as 0 by the matrix and costed as it is. *)
Theorem shown_unit_cost_clamped :
  (forall benchmark c h,
     Js.isFinite (Matrix.getPsqft benchmark c h) = true /\
     (0 <=? Matrix.getPsqft benchmark c h)%float = true /\
     Matrix.getPsqft benchmark c h = Js.nullish (usablePsqft (findBand benchmark c h)) 0%float /\
     (findBand benchmark c h = None ->
      Matrix.getPsqft benchmark c h = 0%float /\
      BenchmarkAdmin.getBandPsqft benchmark c h = 0%float)) /\
  (forall areaSqft benchmark selections res r,
     computeScenarioResult areaSqft benchmark selections = Ok res ->
     In r (categories res) ->
     exists sel base,
       sel_get (res_categoryId r) (selectionMap selections) = Some sel /\
       findBand benchmark (res_categoryId r) (res_band r) = Some base /\
       BenchmarkAdmin.getBandPsqft benchmark (res_categoryId r) (res_band r) = psqft base /\
       (overridePsqft sel = None ->
        psqftUsed r = psqft base /\
        ((0 <=? psqft base)%float = true -> Js.isFinite (psqft base) = true ->
         (Matrix.getPsqft benchmark (res_categoryId r) (res_band r) =? psqftUsed r)%float
         = true) /\
        ((psqft base <? 0)%float = true ->
         Matrix.getPsqft benchmark (res_categoryId r) (res_band r) = 0%float /\
         (psqftUsed r <? 0)%float = true))).
Proof.
  split.
  - intros b c h. unfold Matrix.getPsqft, BenchmarkAdmin.getBandPsqft, usablePsqft. cbv zeta.
    destruct (findBand b c h) as [x|]; cbn [option_map Js.nullish];
      [|repeat split; reflexivity].
    unfold Js.isFinite. destruct (is_finite (psqft x)) eqn:F; cbn [Js.nullish].
    + pose proof (Math_max_zero_nonneg _ F) as P.
      split; [apply nonnegF_finite, P|]. split; [apply nonnegF_leb_zero, P|].
      split; [reflexivity|discriminate].
    + repeat split; try reflexivity. discriminate.
  - intros a b s res r H Hin.
    destruct (result_parts _ _ _ _ _ H Hin) as (sel & base & S & Eb & B & U & _).
    exists sel, base. split; [exact S|]. split; [exact B|].
    split; [unfold BenchmarkAdmin.getBandPsqft; rewrite B; reflexivity|].
    intros O. rewrite O in U. cbn [Js.nullish] in U. rewrite U.
    split; [reflexivity|]. unfold Matrix.getPsqft. cbv zeta. rewrite B.
    cbn [option_map Js.nullish]. split.
    + intros L F. rewrite F. apply Math_max_zero_eqb, L.
    + intros L. split; [|exact L].
      destruct (Js.isFinite (psqft base)); [|reflexivity].
      apply Math_max_zero_nonpos, ltb_leb, L.
Qed.

Lemma shown_unit_cost_clamped_witness :
  exists res,
    computeScenarioResult 10000 demoBenchmark highSelections = Ok res /\
    Forall (fun r => exists base,
                       findBand demoBenchmark (res_categoryId r) (res_band r) = Some base /\
                       BenchmarkAdmin.getBandPsqft demoBenchmark (res_categoryId r) (res_band r)
                       = psqft base)
           (categories res).
Proof.
  destruct (computeScenarioResult 10000 demoBenchmark highSelections) as [res|e] eqn:E;
    [|vm_compute in E; discriminate E].
  exists res. split; [reflexivity|]. apply Forall_forall. intros r Hin.
  destruct (proj2 shown_unit_cost_clamped 10000%float demoBenchmark highSelections res r E Hin)
    as (sel & base & _ & B & C & _).
  exists base. exact (conj B C).
Defined.

Local Open Scope R_scope.

(** *** Shares of unit costs and shares of costs *)

Module Ratio.

(** Two quotients are close when their numerators and their denominators
    are, relative to the denominator. *)
Lemma quotient_close X Y x y e :
  0 <= X <= Y -> 0 < Y -> 0 <= e <= / 4 ->
  - (e * Y) <= x - X <= e * Y -> - (e * Y) <= y - Y <= e * Y ->
  0 < y /\ - (4 * e) <= x / y - X / Y <= 4 * e.
Proof.
  intros HX HY He Hx Hy.
  assert (EY : 0 <= e * Y) by (apply Rmult_le_pos; lra).
  assert (EY4 : e * Y <= / 4 * Y) by (apply Rmult_le_compat_r; lra).
  assert (Y0 : 0 < y) by lra.
  split; [exact Y0|].
  assert (P : 0 < y * Y) by (apply Rmult_lt_0_compat; lra).
  assert (Ey : x / y - X / Y = (x * Y - X * y) / (y * Y)) by (field; lra).
  rewrite Ey.
  set (dx := x - X) in *. set (dy := y - Y) in *.
  assert (Num : x * Y - X * y = dx * Y - X * dy) by (unfold dx, dy; ring).
  assert (Dx : dx = x - X) by reflexivity. assert (Dy : dy = y - Y) by reflexivity.
  clearbody dx dy.
  assert (A1 : - (e * Y * Y) <= dx * Y <= e * Y * Y).
  { split; [replace (- (e * Y * Y)) with (- (e * Y) * Y) by ring|];
      apply Rmult_le_compat_r; lra. }
  assert (A2 : - (e * Y * Y) <= X * dy <= e * Y * Y).
  { assert (B1 : X * dy <= X * (e * Y)) by (apply Rmult_le_compat_l; lra).
    assert (B2 : X * (- (e * Y)) <= X * dy) by (apply Rmult_le_compat_l; lra).
    assert (B3 : X * (e * Y) <= Y * (e * Y)) by (apply Rmult_le_compat_r; lra).
    lra. }
  assert (Den : 3 * / 4 * (Y * Y) <= y * Y).
  { replace (3 * / 4 * (Y * Y)) with ((3 * / 4 * Y) * Y) by ring.
    apply Rmult_le_compat_r; lra. }
  assert (YY : 0 < Y * Y) by (apply Rmult_lt_0_compat; lra).
  assert (EYY : 0 <= e * (Y * Y)) by (apply Rmult_le_pos; lra).
  assert (Big : 2 * (e * Y * Y) <= 4 * e * (y * Y)).
  { replace (4 * e * (y * Y)) with (4 * (e * (y * Y))) by ring.
    assert (e * (3 * / 4 * (Y * Y)) <= e * (y * Y)) by (apply Rmult_le_compat_l; lra).
    lra. }
  split.
  - apply Rmult_le_reg_r with (y * Y); [exact P|].
    unfold Rdiv. rewrite Rmult_assoc, Rinv_l by lra. lra.
  - apply Rmult_le_reg_r with (y * Y); [exact P|].
    unfold Rdiv. rewrite Rmult_assoc, Rinv_l by lra. lra.
Qed.

Lemma nonnegF_positive x : nonnegF x -> 0 < B2R x -> positiveF x.
Proof.
  unfold nonnegF, positiveF, B2R.
  destruct (Prim2SF x) as [?|?| |[] ? ?]; simpl; try tauto; lra.
Qed.

Lemma positiveF_nonnegF x : positiveF x -> nonnegF x.
Proof.
  unfold nonnegF, positiveF. destruct (Prim2SF x) as [?|?| |[] ? ?]; simpl; tauto.
Qed.

Lemma big_bpow : 1000000000000000000000000000000000 <= bpow 1022.
Proof.
  apply Rle_trans with (bpow 110); [|apply bpow_le; lia].
  rewrite bpow_IZR by lia. apply IZR_le. vm_compute. discriminate.
Qed.

(** The floating-point sum of at most 100 non-negative numbers whose
    exact sum is moderate. *)
Lemma fsum_close vs :
  Forall nonnegF vs -> (List.length vs <= 100)%nat ->
  rsum vs <= 1000000000000000000000000000000000 ->
  nonnegF (fsum vs) /\
  - (200 * u64 * rsum vs) <= B2R (fsum vs) - rsum vs <= 200 * u64 * rsum vs.
Proof.
  intros Hvs Hlen Hs.
  assert (Hn : INR (List.length vs) <= 100).
  { replace 100 with (INR 100) by (simpl; lra). apply le_INR, Hlen. }
  pose proof (pos_INR (List.length vs)) as Hn0.
  pose proof big_bpow as Big. pose proof u64_pos as U.
  pose proof (rsum_nonneg _ Hvs) as A0.
  destruct (fsum_bound vs Hvs ltac:(lra)) as [[_ I]|[N B]]; [lra|].
  split; [exact N|].
  set (n := INR (List.length vs)) in *.
  assert (K : 2 * n * u64 * rsum vs <= 200 * u64 * rsum vs).
  { replace (2 * n * u64 * rsum vs) with ((2 * n) * (u64 * rsum vs)) by ring.
    replace (200 * u64 * rsum vs) with (200 * (u64 * rsum vs)) by ring.
    apply Rmult_le_compat_r; [apply Rmult_le_pos; lra|lra]. }
  lra.
Qed.

(** The products of a number with each of a list of numbers, all of
    moderate size. *)
Lemma products_close a ps :
  nonnegF a -> B2R a <= 1000000000000000 ->
  Forall (fun p => nonnegF p /\ B2R p <= 1000000000000000) ps ->
  Forall nonnegF (map (PrimFloat.mul a) ps) /\
  - (u64 * (B2R a * rsum ps) + INR (List.length ps) * eta64)
    <= rsum (map (PrimFloat.mul a) ps) - B2R a * rsum ps
    <= u64 * (B2R a * rsum ps) + INR (List.length ps) * eta64.
Proof.
  intros Ha La. pose proof (nonnegF_B2R _ Ha) as A0.
  pose proof big_bpow as Big. pose proof u64_pos as U.
  assert (Big' : bpow 1022 <= bpow 1023) by (apply bpow_le; lia).
  induction 1 as [|p ps [Hp Lp] _ IH].
  - simpl. split; [constructor|]. rewrite Rmult_0_r. lra.
  - destruct IH as [F B]. pose proof (nonnegF_B2R _ Hp) as P0.
    assert (AP : B2R a * B2R p <= 1000000000000000 * 1000000000000000).
    { apply Rmult_le_compat; lra. }
    destruct (mul_nonneg a p Ha Hp) as [[_ I]|[N E]]; [lra|].
    split; [constructor; assumption|].
    cbn [map rsum fold_right List.length]. rewrite S_INR.
    fold (rsum (map (PrimFloat.mul a) ps)). fold (rsum ps).
    rewrite Rmult_plus_distr_l. lra.
Qed.

Lemma Math_max_zero_real p :
  nonnegF p -> nonnegF (Js.Math_max 0 p) /\ B2R (Js.Math_max 0 p) = B2R p.
Proof.
  intros Hp. pose proof (nonnegF_leb_zero p Hp) as L.
  rewrite (Math_max_zero p L). destruct (0 <? p)%float eqn:E; [auto|].
  split; [exact I|].
  destruct (eq_zero_cases p L E) as [-> | ->]; reflexivity.
Qed.

Lemma rsum_Math_max ps :
  Forall nonnegF ps ->
  Forall nonnegF (map (Js.Math_max 0) ps) /\ rsum (map (Js.Math_max 0) ps) = rsum ps.
Proof.
  induction 1 as [|p ps Hp _ [F E]]; [split; [constructor|reflexivity]|].
  destruct (Math_max_zero_real p Hp) as [N R].
  split; [constructor; assumption|].
  cbn [map rsum fold_right]. fold (rsum (map (Js.Math_max 0) ps)). fold (rsum ps).
  rewrite R, E. reflexivity.
Qed.

Lemma rsum_bounded ps M :
  Forall (fun p => nonnegF p /\ B2R p <= M) ps ->
  rsum ps <= INR (List.length ps) * M.
Proof.
  induction 1 as [|p ps [Hp Lp] _ IH]; [simpl; lra|].
  cbn [rsum fold_right List.length]. fold (rsum ps). rewrite S_INR. lra.
Qed.

(** The share of a unit cost in the sum of the unit costs, and the
    percentage of its cost in the total of the costs for an area, computed
    in binary64: they differ by less than [1e-9]. *)
Lemma share_and_percentage_close (ps : list float) (a : float) :
  Forall (fun p => nonnegF p /\ B2R p <= 1000000000000000) ps ->
  (List.length ps <= 100)%nat ->
  1 <= rsum ps ->
  nonnegF a -> 1 <= B2R a <= 1000000000000000 ->
  let total := fsum (map (Js.Math_max 0) ps) in
  let costs := map (PrimFloat.mul a) ps in
  positiveF total /\ positiveF (fsum costs) /\ Forall nonnegF costs /\
  forall p, In p ps ->
    nonnegF (Js.Math_max 0 p / total)%float /\
    nonnegF (a * p / fsum costs)%float /\
    - / 1000000000 <= B2R (a * p / fsum costs)%float - B2R (Js.Math_max 0 p / total)%float
      <= / 1000000000.
Proof.
  intros Hps Hlen Hone Ha La. cbv zeta.
  assert (Nps : Forall nonnegF ps).
  { eapply Forall_impl; [|exact Hps]. cbv beta. tauto. }
  destruct (rsum_Math_max ps Nps) as [Nvs Evs].
  pose proof (rsum_bounded ps _ Hps) as Sb.
  assert (Hn : INR (List.length ps) <= 100).
  { replace 100 with (INR 100) by (simpl; lra). apply le_INR, Hlen. }
  pose proof (pos_INR (List.length ps)) as Hn0.
  set (n := INR (List.length ps)) in *.
  set (S := rsum ps) in *.
  assert (Sb' : S <= 100000000000000000) by nra.
  pose proof u64_pos as U. pose proof eta64_pos as Eta0. pose proof eta64_le_u64 as Eta.
  assert (U' : u64 <= / 1000000000000000) by (unfold u64; lra).
  (* the sum of the unit costs *)
  destruct (fsum_close (map (Js.Math_max 0) ps) Nvs ltac:(rewrite length_map; exact Hlen)
              ltac:(rewrite Evs; fold S; lra)) as [Nt Bt].
  rewrite Evs in Bt. fold S in Bt.
  set (total := fsum (map (Js.Math_max 0) ps)) in *.
  assert (US : 0 <= u64 * S) by (apply Rmult_le_pos; lra).
  assert (US1 : u64 * S <= / 1000000000000000 * S) by (apply Rmult_le_compat_r; lra).
  assert (Pt : positiveF total) by (apply nonnegF_positive; [exact Nt|lra]).
  (* the costs and their total *)
  destruct (products_close a ps Ha ltac:(lra) Hps) as [Nc Bc].
  fold n in Bc. fold S in Bc.
  set (costs := map (PrimFloat.mul a) ps) in *.
  set (A := B2R a * S) in *.
  assert (A1 : 1 <= A) by (unfold A; nra).
  assert (Ab : A <= 1000000000000000 * 100000000000000000).
  { unfold A. apply Rmult_le_compat; lra. }
  assert (UA : 0 <= u64 * A) by (apply Rmult_le_pos; lra).
  assert (UA1 : u64 * A <= / 1000000000000000 * A) by (apply Rmult_le_compat_r; lra).
  assert (UA2 : u64 <= u64 * A).
  { replace u64 with (u64 * 1) at 1 by ring. apply Rmult_le_compat_l; lra. }
  assert (NE : 0 <= n * eta64 <= 100 * (u64 * A)).
  { split; [apply Rmult_le_pos; lra|].
    apply Rle_trans with (100 * eta64); [apply Rmult_le_compat_r; lra|lra]. }
  set (C := rsum costs) in *.
  assert (Cb : A - 101 * (u64 * A) <= C <= A + 101 * (u64 * A)) by lra.
  destruct (fsum_close costs Nc ltac:(unfold costs; rewrite length_map; exact Hlen)
              ltac:(fold C; lra)) as [NT BT].
  fold C in BT. set (T := fsum costs) in *.
  assert (UC : 0 <= u64 * C <= 2 * (u64 * A)).
  { split; [apply Rmult_le_pos; lra|].
    replace (2 * (u64 * A)) with (u64 * (2 * A)) by ring.
    apply Rmult_le_compat_l; lra. }
  assert (TA : - (1000 * u64 * A) <= B2R T - A <= 1000 * u64 * A) by lra.
  assert (E4 : 0 <= 1000 * u64 <= / 4) by (unfold u64; lra).
  assert (PT : positiveF T) by (apply nonnegF_positive; [exact NT|lra]).
  split; [exact Pt|]. split; [exact PT|]. split; [exact Nc|].
  intros p Hin.
  rewrite Forall_forall in Hps. destruct (Hps p Hin) as [Hp Lp].
  pose proof (nonnegF_B2R _ Hp) as P0.
  pose proof (In_le_rsum ps p Nps Hin) as PS. fold S in PS.
  destruct (Math_max_zero_real p Hp) as [Nv Rv].
  (* the share *)
  destruct (quotient_close (B2R p) S (B2R p) (B2R total) (200 * u64)
              ltac:(lra) ltac:(lra) ltac:(unfold u64; lra) ltac:(lra) ltac:(lra))
    as [T0 Qs].
  assert (Q1 : 0 <= B2R p / S <= 1).
  { split; [apply Rmult_le_pos; [lra|left; apply Rinv_0_lt_compat; lra]|].
    apply Rmult_le_reg_r with S; [lra|]. unfold Rdiv.
    rewrite Rmult_assoc, Rinv_l by lra. lra. }
  pose proof (bpow_1022_big) as B1022.
  assert (B1023 : bpow 1022 <= bpow 1023) by (apply bpow_le; lia).
  destruct (div_nonneg (Js.Math_max 0 p) total Nv Pt) as [[_ I]|[Ns Es]].
  { rewrite Rv in I. unfold u64 in *. lra. }
  rewrite Rv in Es.
  (* the percentage *)
  assert (Hcost : nonnegF (a * p)%float
                  /\ - (u64 * (B2R a * B2R p) + eta64)
                     <= B2R (a * p)%float - B2R a * B2R p
                     <= u64 * (B2R a * B2R p) + eta64).
  { assert (AP : B2R a * B2R p <= 1000000000000000 * 1000000000000000)
      by (apply Rmult_le_compat; lra).
    pose proof big_bpow.
    destruct (mul_nonneg a p Ha Hp) as [[_ I]|[N E]]; [lra|auto]. }
  destruct Hcost as [Ncp Ecp].
  assert (APA : 0 <= B2R a * B2R p <= A).
  { split; [apply Rmult_le_pos; lra|]. unfold A. apply Rmult_le_compat_l; lra. }
  assert (UAP : 0 <= u64 * (B2R a * B2R p) <= u64 * A).
  { split; [apply Rmult_le_pos; lra|apply Rmult_le_compat_l; lra]. }
  destruct (quotient_close (B2R a * B2R p) A (B2R (a * p)%float) (B2R T) (1000 * u64)
              ltac:(lra) ltac:(lra) E4 ltac:(lra) ltac:(lra))
    as [T1 Qp].
  assert (Same : B2R a * B2R p / A = B2R p / S).
  { unfold A. field. lra. }
  rewrite Same in Qp.
  destruct (div_nonneg (a * p)%float T Ncp PT) as [[_ I]|[Np Ep]].
  { unfold u64 in *. lra. }
  split; [exact Ns|]. split; [exact Np|].
  assert (Qs0 : 0 <= B2R p / B2R total).
  { apply Rmult_le_pos; [lra|left; apply Rinv_0_lt_compat; lra]. }
  assert (Qp0 : 0 <= B2R (a * p)%float / B2R T).
  { apply Rmult_le_pos; [apply nonnegF_B2R, Ncp|left; apply Rinv_0_lt_compat; lra]. }
  set (qs := B2R p / B2R total) in *. set (qp := B2R (a * p)%float / B2R T) in *.
  assert (Uqs : 0 <= u64 * qs <= 2 * u64).
  { assert (0 <= qs <= 2) by (unfold u64 in *; lra).
    split; [apply Rmult_le_pos; lra|].
    replace (2 * u64) with (u64 * 2) by ring. apply Rmult_le_compat_l; lra. }
  assert (Uqp : 0 <= u64 * qp <= 2 * u64).
  { assert (0 <= qp <= 2) by (unfold u64 in *; lra).
    split; [apply Rmult_le_pos; lra|].
    replace (2 * u64) with (u64 * 2) by ring. apply Rmult_le_compat_l; lra. }
  unfold u64 in *. lra.
Qed.

End Ratio.
Import Ratio.

(** *** The default guardrails *)

(** *** The default guardrails around a share *)

Lemma B2R_hundredth : / 101 <= B2R 0.01 <= / 99.
Proof.
  unfold B2R. change (Prim2SF 0.01) with (S754_finite false 5764607523034235 (-59)).
  unfold SF2R. change (-59)%Z with (- (59))%Z. rewrite (bpow_neg_IZR 59) by lia.
  change (IZR (2 ^ 59)) with 576460752303423488. lra.
Qed.

Lemma B2R_six_hundredths : B2R 0.06 <= / 10.
Proof.
  unfold B2R. change (Prim2SF 0.06) with (S754_finite false 8646911284551352 (-57)).
  unfold SF2R. change (-57)%Z with (- (57))%Z. rewrite (bpow_neg_IZR 57) by lia.
  change (IZR (2 ^ 57)) with 144115188075855872. lra.
Qed.

Lemma ltb_real_false a b :
  is_finite a = true -> is_finite b = true -> B2R b <= B2R a -> (a <? b)%float = false.
Proof.
  intros Fa Fb L. destruct (a <? b)%float eqn:E; [|reflexivity].
  rewrite ltb_spec in E.
  apply (SFltb_real _ _ (finite_valid_Prim2SF a Fa) (finite_valid_Prim2SF b Fb)) in E.
  unfold B2R in L. lra.
Qed.

Lemma leb_real_signed a b :
  is_finite a = true -> is_finite b = true -> (a <=? b)%float = true -> B2R a <= B2R b.
Proof.
  intros Fa Fb L. apply leb_ltb_false in L.
  destruct (Rle_or_lt (B2R a) (B2R b)) as [H|H]; [exact H|].
  rewrite ltb_spec in L.
  apply (SFltb_real _ _ (finite_valid_Prim2SF b Fb) (finite_valid_Prim2SF a Fa)) in H.
  congruence.
Qed.

(** [safePct] of a finite number that is at most 1 is the larger of 0 and
    the number. *)
Lemma safePct_real_low x :
  is_finite x = true -> B2R x <= 1 ->
  nonnegF (safePct x) /\ B2R (safePct x) <= 1 /\
  (B2R x <= 0 -> B2R (safePct x) = 0) /\ (0 <= B2R x -> B2R (safePct x) = B2R x).
Proof.
  intros F L1. pose proof (is_finite_not_nan _ F) as N.
  destruct (safePct_bounds x) as [S0 S1].
  destruct (unit_nonnegF _ S0 S1) as [Ns Rs].
  split; [exact Ns|]. split; [exact Rs|].
  destruct (0 <=? x)%float eqn:E.
  - assert (Nx : nonnegF x) by (apply finite_nonneg; assumption).
    assert (X1 : (x <=? 1)%float = true).
    { apply real_leb; [exact Nx|reflexivity|rewrite B2R_one; exact L1]. }
    rewrite (safePct_unit x E X1).
    pose proof (nonnegF_B2R _ Nx) as X0.
    destruct (0 <? x)%float eqn:E2; [split; intros; lra|].
    destruct (eq_zero_cases x E E2) as [-> | ->]; split; intros; reflexivity.
  - assert (Lt : (x <? 0)%float = true) by (apply leb_false_ltb; auto).
    assert (Neg : B2R x < 0).
    { rewrite ltb_spec in Lt.
      apply (SFltb_real _ _ (finite_valid_Prim2SF x F) (finite_valid_Prim2SF 0 eq_refl)) in Lt.
      exact Lt. }
    unfold safePct, clamp, Js.isFinite. rewrite F. cbn [negb].
    rewrite (Math_max_zero_nonpos x (ltb_leb _ _ Lt)).
    change (Js.Math_min 1 0) with 0%float. rewrite B2R_zero. split; intros; lra.
Qed.

(** [safePct] of a number that is not negative is the smaller of 1 and the
    number. *)
Lemma safePct_real_high x :
  nonnegF x -> B2R (safePct x) = Rmin 1 (B2R x).
Proof.
  intros Nx. pose proof (nonnegF_B2R _ Nx) as X0. pose proof (nonnegF_finite _ Nx) as F.
  pose proof (nonnegF_leb_zero _ Nx) as L0.
  destruct (x <=? 1)%float eqn:E.
  - pose proof (leb_real x 1 Nx ltac:(reflexivity) E) as L. rewrite B2R_one in L.
    rewrite Rmin_right by exact L.
    apply (safePct_real_low x F L). exact X0.
  - assert (Lt : (1 <? x)%float = true).
    { apply leb_false_ltb; [apply is_finite_not_nan, F|reflexivity|exact E]. }
    assert (G : 1 < B2R x).
    { rewrite ltb_spec in Lt.
      apply (SFltb_real _ _ (finite_valid_Prim2SF 1 eq_refl) (finite_valid_Prim2SF x F)) in Lt.
      fold (B2R 1) in Lt. rewrite B2R_one in Lt. exact Lt. }
    rewrite Rmin_left by lra.
    unfold safePct, clamp, Js.isFinite. rewrite F. cbn [negb].
    rewrite (Math_max_zero x L0).
    assert (P : (0 <? x)%float = true).
    { eapply ltb_leb_trans; [|apply ltb_leb, Lt]. reflexivity. }
    rewrite P. unfold Js.Math_min. rewrite (is_finite_not_nan _ F).
    change (is_nan 1) with false. cbn [orb]. rewrite Lt. apply B2R_one.
Qed.

Lemma sub_close x y :
  nonnegF x -> nonnegF y -> Rabs (B2R x - B2R y) <= 1 ->
  is_finite (x - y)%float = true /\
  - (u64 * Rabs (B2R x - B2R y)) <= B2R (x - y)%float - (B2R x - B2R y)
    <= u64 * Rabs (B2R x - B2R y).
Proof.
  intros Hx Hy Hr. pose proof (SFsub_nonneg _ _ Hx Hy Hr) as S. cbv zeta in S.
  fold (B2R x) in S. fold (B2R y) in S.
  assert (E : B2R (x - y)%float = SF2R (SFsub prec emax (Prim2SF x) (Prim2SF y))).
  { unfold B2R at 1. rewrite sub_spec. reflexivity. }
  rewrite E, is_finite_spec, sub_spec. unfold SF64sub.
  destruct (SFsub prec emax (Prim2SF x) (Prim2SF y)); try contradiction; auto.
Qed.

(** The half-width of the default guardrails is between 1% and 6%. *)
Lemma default_half_width center :
  nonnegF center -> B2R center <= 1 ->
  let half := clamp (Js.Math_max (clamp 0.01 0 0.5) (center * clamp 0.2 0 2)) 0
                    (clamp 0.06 0 0.5) in
  nonnegF half /\ / 101 <= B2R half <= / 10.
Proof.
  intros Nc Lc. cbv zeta.
  replace (clamp 0.01 0 0.5) with 0.01%float by reflexivity.
  replace (clamp 0.2 0 2) with 0.2%float by reflexivity.
  replace (clamp 0.06 0 0.5) with 0.06%float by reflexivity.
  destruct (mul_le_l center 0.2 Nc ltac:(reflexivity) ltac:(reflexivity)) as [Nh Lh].
  set (halfRel := (center * 0.2)%float) in *.
  pose proof (nonnegF_finite _ Nh) as Fh. pose proof (is_finite_not_nan _ Fh) as Nn.
  assert (N01 : is_nan 0.01 = false) by reflexivity.
  pose proof (Math_max_ge_l 0.01 halfRel N01 Nn) as G.
  assert (Fm : is_finite (Js.Math_max 0.01 halfRel) = true).
  { destruct (Math_max_choice 0.01 halfRel N01 Nn) as [-> | ->]; [reflexivity|exact Fh]. }
  set (m := Js.Math_max 0.01 halfRel) in *.
  assert (P : (0 <? m)%float = true).
  { eapply ltb_leb_trans; [|exact G]. reflexivity. }
  unfold clamp, Js.isFinite. rewrite Fm. cbn [negb].
  rewrite (Math_max_zero m (ltb_leb _ _ P)). rewrite P.
  assert (N06 : is_nan 0.06 = false) by reflexivity.
  pose proof (is_finite_not_nan _ Fm) as Nm.
  pose proof (Math_min_le_l 0.06 m N06 Nm) as Le.
  assert (Ge : (0.01 <=? Js.Math_min 0.06 m)%float = true).
  { destruct (Math_min_choice 0.06 m N06 Nm) as [-> | ->]; [reflexivity|exact G]. }
  assert (L0 : (0 <=? Js.Math_min 0.06 m)%float = true).
  { eapply leb_trans; [|exact Ge]. reflexivity. }
  assert (Fin : is_finite (Js.Math_min 0.06 m) = true).
  { apply (between_finite _ 0.06); [exact L0|exact Le|reflexivity]. }
  pose proof (finite_nonneg _ Fin L0) as Nhalf.
  split; [exact Nhalf|].
  assert (N1 : nonnegF 0.01) by reflexivity. assert (N6 : nonnegF 0.06) by reflexivity.
  pose proof (leb_real _ _ N1 Nhalf Ge) as R1.
  pose proof (leb_real _ _ Nhalf N6 Le) as R2.
  pose proof B2R_hundredth. pose proof B2R_six_hundredths. lra.
Qed.

(** A percentage within 0.001 of the share is inside the default
    guardrails built around that share. *)
Lemma default_range_accepts s pct :
  nonnegF s -> B2R s <= 1 -> nonnegF pct -> B2R pct <= 1 ->
  - / 1000 <= B2R pct - B2R s <= / 1000 ->
  let center := safePct s in
  let half := clamp (Js.Math_max (clamp 0.01 0 0.5) (center * clamp 0.2 0 2)) 0
                    (clamp 0.06 0 0.5) in
  let fixed := ensureMinMax (center - half) (center + half) in
  classifyRange pct (fst fixed) (snd fixed) = Range_OK.
Proof.
  intros Ns Ls Np Lp Close. cbv zeta.
  pose proof (nonnegF_B2R _ Ns) as S0. pose proof (nonnegF_B2R _ Np) as P0.
  destruct (safePct_real_low s (nonnegF_finite _ Ns) Ls) as (Nc & Lc & _ & Ec).
  specialize (Ec S0). set (center := safePct s) in *.
  destruct (default_half_width center Nc Lc) as [Nh Bh]. cbv zeta in Nh, Bh.
  set (half := clamp _ 0 (clamp 0.06 0 0.5)) in *.
  pose proof u64_pos as U. assert (U' : u64 <= / 2000000) by (unfold u64; lra).
  (* the lower bound *)
  assert (Rd : Rabs (B2R center - B2R half) <= 1) by (apply Rabs_le; lra).
  destruct (sub_close center half Nc Nh Rd) as [Flo Elo].
  assert (Ud : 0 <= u64 * Rabs (B2R center - B2R half) <= / 1000000).
  { split; [apply Rmult_le_pos; [lra|apply Rabs_pos]|].
    apply Rle_trans with (u64 * 1); [apply Rmult_le_compat_l; lra|lra]. }
  set (lo0 := (center - half)%float) in *.
  assert (Llo : B2R lo0 <= 1) by lra.
  destruct (safePct_real_low lo0 Flo Llo) as (Nmn & Lmn & Zmn & Emn).
  (* the upper bound *)
  destruct (add_nonneg center half Nc Nh) as [[_ I]|[Nhi Ehi]].
  { exfalso. assert (2 <= bpow 1023) by (rewrite <- bpow_1; apply bpow_le; lia). lra. }
  assert (Us : 0 <= u64 * (B2R center + B2R half) <= / 1000000).
  { split; [apply Rmult_le_pos; lra|].
    apply Rle_trans with (u64 * 2); [apply Rmult_le_compat_l; lra|lra]. }
  set (hi0 := (center + half)%float) in *.
  pose proof (safePct_real_high hi0 Nhi) as Emx.
  destruct (safePct_bounds hi0) as [M0 M1]. destruct (unit_nonnegF _ M0 M1) as [Nmx Lmx].
  set (mn := safePct lo0) in *. set (mx := safePct hi0) in *.
  assert (Rmn : B2R mn <= B2R pct).
  { destruct (Rle_or_lt (B2R lo0) 0) as [H|H]; [rewrite (Zmn H); lra|].
    rewrite (Emn (Rlt_le _ _ H)). lra. }
  assert (Rmx : B2R pct <= B2R mx).
  { rewrite Emx. apply Rmin_glb; lra. }
  assert (Ord : (mx <? mn)%float = false).
  { apply ltb_real_false; [apply nonnegF_finite, Nmx|apply nonnegF_finite, Nmn|lra]. }
  unfold ensureMinMax. fold mn. fold mx. rewrite Ord. cbn [fst snd].
  unfold classifyRange.
  rewrite (ltb_real_false pct mn (nonnegF_finite _ Np) (nonnegF_finite _ Nmn) Rmn).
  rewrite (ltb_real_false mx pct (nonnegF_finite _ Nmx) (nonnegF_finite _ Np) Rmx).
  reflexivity.
Qed.

(** *** The default guardrails and the all-Medium scenario *)

Lemma B2R_1e15 : B2R 1e15 = 1000000000000000.
Proof.
  unfold B2R. change (Prim2SF 1e15) with (S754_finite false 8000000000000000 (-3)).
  unfold SF2R. change (-3)%Z with (- (3))%Z. rewrite (bpow_neg_IZR 3) by lia.
  change (IZR (2 ^ 3)) with 8. lra.
Qed.

Lemma moderate p :
  (0 <=? p)%float = true -> (p <=? 1e15)%float = true ->
  nonnegF p /\ B2R p <= 1000000000000000.
Proof.
  intros L0 L1.
  assert (F : is_finite p = true) by (apply (between_finite p 1e15); auto).
  pose proof (finite_nonneg p F L0) as N. split; [exact N|].
  rewrite <- B2R_1e15. apply leb_real; [exact N|reflexivity|exact L1].
Qed.

Lemma mapM_map {E A B} (f : A -> result E B) (g : A -> B) xs :
  (forall x, In x xs -> f x = Ok (g x)) -> mapM f xs = Ok (map g xs).
Proof.
  induction xs as [|x xs IH]; intros H; cbn [mapM map]; [reflexivity|].
  rewrite (H x (or_introl eq_refl)), IH by (intros y Hy; apply H; right; exact Hy).
  reflexivity.
Qed.

Lemma default_selection cat :
  In cat VMX_CATEGORIES ->
  sel_get (id cat) (selectionMap (App.Object_values App.buildDefaultSelections))
  = Some {| sel_categoryId := id cat; sel_band := MEDIUM; overridePsqft := None |}.
Proof.
  unfold VMX_CATEGORIES. cbn [In]. intros H.
  repeat (destruct H as [<- | H]; [reflexivity|]). contradiction.
Qed.

(** X25: the default guardrails accept the all-Medium scenario.  For a
    benchmark without stored ranges in which every category has a Medium
    unit cost between 0 and [1e15], one of them at least 1, and for an area
    between 1 and [1e15], [computeScenarioResult] with the default
    selections (Medium everywhere, no override) returns a result in which
    every category is in range.  The percentages are computed from products
    and the guardrails from the unit costs themselves, so the two differ by
    rounding; the guardrails are at least one percentage point wide on each
    side, which is far more. *)
Theorem default_guardrails_accept_medium (benchmark : BenchmarkSet) (areaSqft : float) :
  (forall c, lastStored benchmark c = None) ->
  mediumPriced benchmark ->
  (exists c band, findBand benchmark c MEDIUM = Some band /\ (1 <=? psqft band)%float = true) ->
  (1 <=? areaSqft)%float = true -> (areaSqft <=? 1e15)%float = true ->
  exists res,
    computeScenarioResult areaSqft benchmark (App.Object_values App.buildDefaultSelections)
    = Ok res /\
    Forall (fun r => rangeStatus r = Range_OK /\ isOutOfRange r = false /\
                     res_band r = MEDIUM /\ psqftUsed r = mediumPsqft benchmark (res_categoryId r))
           (categories res).
Proof.
  intros Hnone Hmed Hone A1 A2.
  set (sels := App.Object_values App.buildDefaultSelections).
  set (p := mediumPsqft benchmark).
  set (ps := map (fun cat => p (id cat)) VMX_CATEGORIES).
  (* the area *)
  assert (A0 : (0 <=? areaSqft)%float = true) by (eapply leb_trans; [|exact A1]; reflexivity).
  destruct (moderate areaSqft A0 A2) as [Na La].
  assert (Ra : 1 <= B2R areaSqft).
  { rewrite <- B2R_one. apply leb_real; [reflexivity|exact Na|exact A1]. }
  assert (Va : validArea areaSqft = true).
  { unfold validArea, Js.isFinite. rewrite (nonnegF_finite _ Na). cbn [andb].
    eapply ltb_leb_trans; [|exact A1]. reflexivity. }
  (* the unit costs *)
  assert (Hp : forall c, nonnegF (p c) /\ B2R (p c) <= 1000000000000000).
  { intros c. unfold p, mediumPsqft. destruct (Hmed c) as (band & -> & L0 & L1).
    apply moderate; assumption. }
  assert (Hps : Forall (fun x => nonnegF x /\ B2R x <= 1000000000000000) ps).
  { unfold ps. rewrite Forall_map. apply Forall_forall. intros cat _. apply Hp. }
  assert (Nps : Forall nonnegF ps).
  { eapply Forall_impl; [|exact Hps]. cbv beta. tauto. }
  assert (Sone : 1 <= rsum ps).
  { destruct Hone as (c & band & B & L).
    assert (Pc : p c = psqft band) by (unfold p, mediumPsqft; rewrite B; reflexivity).
    destruct (Hp c) as [Nc _]. rewrite Pc in Nc.
    pose proof (leb_real 1 (psqft band) ltac:(reflexivity) Nc L) as R.
    rewrite B2R_one in R.
    destruct (category_listed c) as (cat & Hin & <-).
    assert (In (p (id cat)) ps) by (unfold ps; apply in_map_iff; eauto).
    pose proof (In_le_rsum ps _ Nps H) as G. rewrite Pc in G. lra. }
  destruct (share_and_percentage_close ps areaSqft Hps ltac:(unfold ps; simpl; lia) Sone Na
              (conj Ra La)) as (Pt & PT & Nc & Close).
  cbv zeta in Pt, PT, Nc, Close.
  (* the representative unit costs are the Medium ones *)
  assert (Em : forall c, getMediumPsqftOrFallback benchmark c = Js.Math_max 0 (p c)).
  { intros c. unfold getMediumPsqftOrFallback, usablePsqft, p, mediumPsqft.
    destruct (Hmed c) as (band & -> & L0 & L1).
    unfold Js.isFinite. rewrite (between_finite _ _ L0 L1 eq_refl). reflexivity. }
  assert (Emc : mediumCosts benchmark = map (Js.Math_max 0) ps).
  { unfold mediumCosts, ps. rewrite map_map. apply map_ext. intros cat. apply Em. }
  rewrite <- Emc in Pt, Close.
  set (total := fsum (mediumCosts benchmark)) in *.
  assert (Ft : Js.isFinite total = true).
  { apply nonnegF_finite, positiveF_nonnegF, Pt. }
  assert (Lt : (total <=? 0)%float = false).
  { destruct (total <=? 0)%float eqn:E; [|reflexivity].
    pose proof (leb_real total 0 (positiveF_nonnegF _ Pt) nonnegF_zero E) as R.
    pose proof (positiveF_B2R _ Pt). rewrite B2R_zero in R. lra. }
  assert (Share : forall c, rec_get c (computeImpliedMediumAllocationShares benchmark)
                            = Some (Js.Math_max 0 (p c) / total)%float).
  { intros c. pose proof (shares_shape benchmark) as E. cbv zeta in E. rewrite E.
    fold total. rewrite Ft, Lt. cbn [negb orb].
    rewrite (lookup_shape (fun c => (getMediumPsqftOrFallback benchmark c / total)%float)).
    rewrite Em. reflexivity. }
  (* the lines computed for the categories *)
  set (costs := map (PrimFloat.mul areaSqft) ps) in *.
  set (rangeOf := fun c : VmxCategoryId =>
         let center := safePct (Js.Math_max 0 (p c) / total)%float in
         let half := clamp (Js.Math_max (clamp 0.01 0 0.5) (center * clamp 0.2 0 2)) 0
                           (clamp 0.06 0 0.5) in
         let fixed := ensureMinMax (center - half) (center + half) in
         {| categoryId := Known c; minPct := fst fixed; maxPct := snd fixed |}).
  assert (Range : forall cat, In cat VMX_CATEGORIES ->
                    findRange (ensureCompleteTargetRanges benchmark) (id cat)
                    = Some (rangeOf (id cat))).
  { intros cat Hin. destruct (complete_entry benchmark (id cat)) as (r & E & W).
    rewrite E. f_equal. rewrite Hnone in W.
    unfold deriveTargetRangesFromMedium in W.
    match type of W with
    | findRange (map ?f _) _ = _ =>
        destruct (findRange_per_category f (id cat)) as (cat' & _ & Hc & E');
          [reflexivity|]; rewrite E' in W; clear E'
    end.
    apply Some_inj in W. subst r. rewrite Hc, Share. reflexivity. }
  set (mk := fun cat : CategoryDef =>
         {| int_categoryId := id cat; int_label := label cat; int_band := MEDIUM;
            int_psqftUsed := p (id cat); int_cost := (areaSqft * p (id cat))%float;
            int_range := rangeOf (id cat) |}).
  assert (Int : forall cat, In cat VMX_CATEGORIES ->
                  interimFor areaSqft benchmark (selectionMap sels)
                             (ensureCompleteTargetRanges benchmark) cat = Ok (mk cat)).
  { intros cat Hin. unfold interimFor, requireBand.
    unfold sels. rewrite (default_selection cat Hin). cbn [sel_band overridePsqft].
    unfold mk, p, mediumPsqft. destruct (Hmed (id cat)) as (band & -> & _).
    cbn [bind Js.nullish]. rewrite (Range cat Hin). reflexivity. }
  rewrite (computeScenarioResult_valid _ _ _ Va).
  rewrite (mapM_map _ mk _ Int). cbn [bind].
  assert (ET : sumCosts (map mk VMX_CATEGORIES) = fsum costs).
  { rewrite sumCosts_fsum. unfold costs, ps. rewrite !map_map. reflexivity. }
  rewrite ET.
  assert (LT : (fsum costs <=? 0)%float = false).
  { destruct (fsum costs <=? 0)%float eqn:E; [|reflexivity].
    pose proof (leb_real _ 0 (positiveF_nonnegF _ PT) nonnegF_zero E) as R.
    pose proof (positiveF_B2R _ PT). rewrite B2R_zero in R. lra. }
  rewrite LT. eexists. split; [reflexivity|]. cbn [categories].
  rewrite !Forall_map. apply Forall_forall. intros cat Hin.
  unfold categoryResult, mk.
  cbn [rangeStatus isOutOfRange res_band psqftUsed res_categoryId int_cost int_range
       int_band int_psqftUsed int_categoryId].
  assert (Inp : In (p (id cat)) ps) by (unfold ps; apply in_map_iff; eauto).
  destruct (Close _ Inp) as (Ns & Np & Cl).
  assert (FT : is_finite (fsum costs) = true).
  { apply nonnegF_finite, positiveF_nonnegF, PT. }
  assert (Incost : In (areaSqft * p (id cat))%float costs).
  { unfold costs. apply in_map_iff. eauto. }
  destruct (quotient_by_total costs _ Nc ltac:(unfold costs, ps; simpl; lia) FT LT Incost)
    as [Q0 Q1].
  destruct (unit_nonnegF _ Q0 Q1) as [_ Rp].
  assert (Ins : In (Js.Math_max 0 (p (id cat))) (mediumCosts benchmark)).
  { rewrite Emc. apply in_map, Inp. }
  assert (Nmc : Forall nonnegF (mediumCosts benchmark)).
  { rewrite Emc. apply (rsum_Math_max ps Nps). }
  destruct (quotient_by_total (mediumCosts benchmark) _ Nmc ltac:(simpl; lia) Ft Lt Ins)
    as [S0 S1].
  destruct (unit_nonnegF _ S0 S1) as [_ Rs].
  assert (Fix : ensureMinMax (minPct (rangeOf (id cat))) (maxPct (rangeOf (id cat)))
                = (minPct (rangeOf (id cat)), maxPct (rangeOf (id cat)))).
  { unfold rangeOf. cbv zeta. cbn [minPct maxPct]. apply ensureMinMax_pair_fixed. }
  rewrite Fix. cbn [fst snd].
  assert (OK : classifyRange (areaSqft * p (id cat) / fsum costs)%float
                 (minPct (rangeOf (id cat))) (maxPct (rangeOf (id cat))) = Range_OK).
  { unfold rangeOf. cbv zeta. cbn [minPct maxPct].
    apply (default_range_accepts _ _ Ns Rs Np Rp). lra. }
  rewrite OK. repeat split; reflexivity.
Qed.

Lemma default_guardrails_accept_medium_witness :
  exists res,
    computeScenarioResult 10000 scenarioBenchmark (App.Object_values App.buildDefaultSelections)
    = Ok res /\
    Forall (fun r => rangeStatus r = Range_OK /\ isOutOfRange r = false /\
                     res_band r = MEDIUM /\ psqftUsed r = mediumPsqft scenarioBenchmark (res_categoryId r))
           (categories res).
Proof.
  apply (default_guardrails_accept_medium scenarioBenchmark 10000%float).
  - intros c. destruct c; reflexivity.
  - intros c. destruct c; eexists; (split; [reflexivity|split; reflexivity]).
  - exists FACILITATING. eexists. split; reflexivity.
  - reflexivity.
  - reflexivity.
Defined.

(** *** Normalised weights *)




